(** * Sequential models of the three key-to-value-set indices

    The repository holds three implementations of the [IIndex] contract
    ([insert], [search], plus [remove] / [range_search] where present):

    - [InvertedIndex]      (src/index/inverted_index/inverted_index.hpp)
    - [BPlusTree]          (src/index/b_tree/concurrent_bplus_tree.hpp)
    - [LockFreeSkipList]   (src/index/skip_list/lock_free_skip_list.hpp)

    Each is embedded as executable Rocq functions over an explicit store:
    pointers are locations into a finite map, [std::unordered_set<V>] is a
    [gset V], [std::vector] is a [list].  Locks are no-ops in a sequential
    run and are not represented; a compare-exchange succeeds exactly when
    the stored word equals the expected one.  Unbounded loops take fuel and
    answer [None] when it runs out. *)

From Stdlib Require Import OrderedTypeEx.
From stdpp Require Import base gmap sets list strings sorting.


(** ** Keys

    The templates only use [operator<] and [operator==] on keys.  [klt] is
    [operator<]; equality is Rocq's decidable equality. *)

Class KeyOrder (K : Type) := klt : K → K → bool.

(** What the code relies on: [operator<] is a strict total order. *)
Class KeyOrderLaws (K : Type) `{KeyOrder K} : Prop := {
  klt_irrefl : ∀ a : K, klt a a = false;
  klt_trans : ∀ a b c : K, klt a b = true → klt b c = true → klt a c = true;
  klt_total : ∀ a b : K, klt a b = false → klt b a = false → a = b;
}.

(** [std::string] keys compare lexicographically. *)
#[export] Instance string_key_order : KeyOrder string := String.ltb.

(** Locations (addresses of heap-allocated nodes and buckets). *)
Abbreviation loc := positive.

(** ** The sharded hash index *)

Module InvertedIndex.
Section inverted_index.
Context {K V : Type} `{Countable K, Countable V}.

(** Template parameter [NUM_SHARDS] and [std::hash<K>]. *)
Variable NUM_SHARDS : nat.
Variable hash : K → nat.

(** [Shard::index] maps a key to a shared pointer to its [Bucket];
    [buckets] is the store the shared pointers point into, a bucket
    being its [values] set. *)
Record t := mk {
  shards : list (gmap K loc);
  buckets : gmap loc (gset V);
}.

Definition empty : t :=
  {| shards := replicate NUM_SHARDS ∅; buckets := ∅ |}.

Definition shard_of (key : K) : nat := hash key mod NUM_SHARDS.

Definition getShard (key : K) (s : t) : gmap K loc :=
  shards s !!! shard_of key.

(** The state returned is the one in which the shard lock is released. *)
Definition getOrCreateBucket (key : K) (s : t) : loc * t :=
  match getShard key s !! key with
  | Some b => (b, s)
  | None =>
      let b := fresh (dom (buckets s)) in
      (b, {| shards := <[shard_of key := <[key := b]> (getShard key s)]> (shards s);
             buckets := <[b := ∅]> (buckets s) |})
  end.

Definition insert (key : K) (value : V) (s : t) : bool * t :=
  let '(b, s1) := getOrCreateBucket key s in
  let vs := buckets s1 !!! b in
  (bool_decide (value ∉ vs),
   {| shards := shards s1; buckets := <[b := {[value]} ∪ vs]> (buckets s1) |}).

Definition search (key : K) (s : t) : gset V :=
  match getShard key s !! key with
  | None => ∅
  | Some b => buckets s !!! b
  end.

Definition remove (key : K) (s : t) : bool * t :=
  match getShard key s !! key with
  | None => (false, s)
  | Some _ =>
      (true, {| shards := <[shard_of key := delete key (getShard key s)]> (shards s);
                buckets := buckets s |})
  end.

Definition remove_value (key : K) (value : V) (s : t) : bool * t :=
  match getShard key s !! key with
  | None => (false, s)
  | Some b =>
      let vs := buckets s !!! b in
      let removed := bool_decide (value ∈ vs) in
      let vs' := vs ∖ {[value]} in
      let bs := <[b := vs']> (buckets s) in
      if removed && bool_decide (vs' = ∅)
      then (removed,
            {| shards := <[shard_of key := delete key (getShard key s)]> (shards s);
               buckets := bs |})
      else (removed, {| shards := shards s; buckets := bs |})
  end.

(** [key] has an entry in its shard map. *)
Definition present (key : K) (s : t) : Prop := is_Some (getShard key s !! key).

(** The invariant of the spec: no bucket reachable from a shard map is
    empty. *)
Definition buckets_nonempty (s : t) : Prop :=
  ∀ i sh k b, shards s !! i = Some sh → sh !! k = Some b →
              buckets s !!! b ≠ (∅ : gset V).

(** Shape of the store: every shard exists, a key sits in the shard its
    hash selects, buckets are allocated and not shared between keys. *)
Record wf (s : t) : Prop := {
  wf_length : length (shards s) = NUM_SHARDS;
  wf_home : ∀ i sh k b, shards s !! i = Some sh → sh !! k = Some b → i = shard_of k;
  wf_alloc : ∀ i sh k b, shards s !! i = Some sh → sh !! k = Some b →
                         is_Some (buckets s !! b);
  wf_inj : ∀ i sh k b i' sh' k', shards s !! i = Some sh → sh !! k = Some b →
                         shards s !! i' = Some sh' → sh' !! k' = Some b → k = k';
}.

(** States produced by complete operations. *)
Inductive op := Insert (k : K) (v : V) | Remove (k : K) | RemoveValue (k : K) (v : V).

Definition step (o : op) (s : t) : bool * t :=
  match o with
  | Insert k v => insert k v s
  | Remove k => remove k s
  | RemoveValue k v => remove_value k v s
  end.

Definition run (ops : list op) : t := foldl (λ s o, (step o s).2) empty ops.

End inverted_index.
End InvertedIndex.

(** ** Vectors

    [std::vector] operations whose iterator or index arguments must be in
    range; outside it the C++ is undefined and the model answers [None]. *)

Definition vec_insert {A} (pos : nat) (x : A) (l : list A) : option (list A) :=
  if decide (pos ≤ length l) then Some (take pos l ++ x :: drop pos l) else None.

(** [assign(begin() + mid, end())]. *)
Definition vec_from {A} (mid : nat) (l : list A) : option (list A) :=
  if decide (mid ≤ length l) then Some (drop mid l) else None.

(** [resize(n)] where it shrinks; growing would pad with default elements
    and is outside the model. *)
Definition vec_shrink {A} (n : nat) (l : list A) : option (list A) :=
  if decide (n ≤ length l) then Some (take n l) else None.

(** [std::upper_bound]: the first position holding a key greater than
    [key]; [std::lower_bound]: the first position holding a key not less
    than [key].  On the sorted vectors of the tree the binary search of the
    library returns the position of this linear scan. *)
Fixpoint upper_bound `{KeyOrder K} (ks : list K) (key : K) : nat :=
  match ks with
  | [] => 0
  | k :: ks' => if klt key k then 0 else S (upper_bound ks' key)
  end.

Fixpoint lower_bound `{KeyOrder K} (ks : list K) (key : K) : nat :=
  match ks with
  | [] => 0
  | k :: ks' => if klt k key then S (lower_bound ks' key) else 0
  end.

(** [std::map<K, std::unordered_set<V>>] as a list kept in key order;
    [emplace] leaves an existing entry alone. *)
Fixpoint map_emplace `{KeyOrder K} {A} (k : K) (x : A) (m : list (K * A)) : list (K * A) :=
  match m with
  | [] => [(k, x)]
  | (k', x') :: m' =>
      if klt k k' then (k, x) :: m
      else if klt k' k then (k', x') :: map_emplace k x m'
      else m
  end.

(** ** The concurrent B+ tree *)

Module BPlusTree.
Section bplus_tree.
Context {K V : Type} `{EqDecision K, KeyOrder K, Countable V}.

(** Template parameter [ORDER]. *)
Variable ORDER : nat.

Definition MIN_KEYS_LEAF : nat := (ORDER + 1) / 2.
Definition MAX_KEYS_LEAF : nat := ORDER.
Definition MIN_CHILDREN_INTERNAL : nat := (ORDER + 1) / 2.
Definition MAX_CHILDREN_INTERNAL : nat := ORDER.
(** [a - 1] on [size_t]: at 0 it wraps to [2^64 - 1]. *)
Definition size_pred (a : nat) : Z :=
  if decide (a = 0) then (2 ^ 64 - 1)%Z else (Z.of_nat a - 1)%Z.
Definition MIN_KEYS_INTERNAL : Z := size_pred MIN_CHILDREN_INTERNAL.
Definition MAX_KEYS_INTERNAL : Z := size_pred MAX_CHILDREN_INTERNAL.

Record Node := mkNode {
  keys : list K;
  values : list (gset V);
  children : list loc;
  next : option loc;
  is_leaf : bool;
}.

(** [Node(bool leaf)]. *)
Definition new_node (leaf : bool) : Node := mkNode [] [] [] None leaf.

Definition is_safe_for_insert (n : Node) : bool :=
  if is_leaf n then bool_decide (length (keys n) < MAX_KEYS_LEAF)
  else bool_decide (Z.of_nat (length (keys n)) < MAX_KEYS_INTERNAL)%Z.

Definition is_safe_for_delete (n : Node) : bool :=
  if is_leaf n then bool_decide (MIN_KEYS_LEAF < length (keys n))
  else bool_decide (MIN_KEYS_INTERNAL < Z.of_nat (length (keys n)))%Z.

Record t := mk {
  heap : gmap loc Node;
  root : loc;
}.

(** [std::make_shared<Node>]. *)
Definition alloc (n : Node) (h : gmap loc Node) : loc * gmap loc Node :=
  let l := fresh (dom h) in (l, <[l := n]> h).

Definition empty : t :=
  let '(l, h) := alloc (new_node true) ∅ in mk h l.

(** The descent shared by [search], [range_search] and
    [optimistic_insert]: [while (!current->is_leaf)] following
    [children[upper_bound(keys, key)]]. *)
Fixpoint find_leaf (fuel : nat) (h : gmap loc Node) (current : loc) (key : K) : option loc :=
  match fuel with
  | 0 => None
  | S fuel =>
      n ← h !! current;
      if is_leaf n then Some current
      else
        child ← children n !! upper_bound (keys n) key;
        find_leaf fuel h child key
  end.

Definition search_fuel (fuel : nat) (key : K) (s : t) : option (gset V) :=
  current ← find_leaf fuel (heap s) (root s) key;
  n ← heap s !! current;
  let idx := lower_bound (keys n) key in
  match keys n !! idx with
  | None => Some ∅
  | Some k => if decide (k = key) then values n !! idx else Some ∅
  end.

(** The [for] loop over one leaf in [range_search]; [count] is the number
    of positions left, the flag returned is [done]. *)
Fixpoint scan_leaf (n : Node) (idx count : nat) (end_key : K)
    (result : list (K * gset V)) : option (list (K * gset V) * bool) :=
  match count with
  | 0 => Some (result, false)
  | S count =>
      k ← keys n !! idx;
      if negb (klt k end_key) then Some (result, true)
      else
        vs ← values n !! idx;
        scan_leaf n (S idx) count end_key (map_emplace k vs result)
  end.

(** The [while (!done)] loop over the leaf chain. *)
Fixpoint scan_chain (fuel : nat) (h : gmap loc Node) (current : loc)
    (start_key end_key : K) (result : list (K * gset V)) : option (list (K * gset V)) :=
  match fuel with
  | 0 => None
  | S fuel =>
      n ← h !! current;
      let idx := lower_bound (keys n) start_key in
      '(result, done) ← scan_leaf n idx (length (keys n) - idx) end_key result;
      if (done : bool) then Some result
      else
        match next n with
        | Some next_node => scan_chain fuel h next_node start_key end_key result
        | None => Some result
        end
  end.

Definition range_search_fuel (fuel : nat) (start_key end_key : K) (s : t)
    : option (list (K * gset V)) :=
  if negb (klt start_key end_key) then Some []
  else
    current ← find_leaf fuel (heap s) (root s) start_key;
    scan_chain fuel (heap s) current start_key end_key [].

(** The leaf update written out twice in the source, in
    [optimistic_insert] and in [insert_into_leaf]. *)
Definition leaf_put (key : K) (val : V) (n : Node) : option Node :=
  let pos := lower_bound (keys n) key in
  let fresh_key :=
    ks ← vec_insert pos key (keys n);
    vs ← vec_insert pos {[val]} (values n);
    Some (mkNode ks vs (children n) (next n) (is_leaf n)) in
  match keys n !! pos with
  | None => fresh_key
  | Some k =>
      if decide (k = key) then
        old ← values n !! pos;
        Some (mkNode (keys n) (<[pos := {[val]} ∪ old]> (values n))
                     (children n) (next n) (is_leaf n))
      else fresh_key
  end.

Definition optimistic_insert_fuel (fuel : nat) (key : K) (val : V) (s : t)
    : option (bool * t) :=
  current ← find_leaf fuel (heap s) (root s) key;
  n ← heap s !! current;
  if negb (is_safe_for_insert n) then Some (false, s)
  else
    n' ← leaf_put key val n;
    Some (true, mk (<[current := n']> (heap s)) (root s)).

Definition split_leaf (leaf : loc) (h : gmap loc Node)
    : option (gmap loc Node * option (loc * K)) :=
  n ← h !! leaf;
  let total := length (keys n) in
  let mid := total / 2 in
  sks ← vec_from mid (keys n);
  svs ← vec_from mid (values n);
  let '(sibling, h) := alloc (mkNode sks svs [] (next n) true) h in
  lks ← vec_shrink mid (keys n);
  lvs ← vec_shrink mid (values n);
  let h := <[leaf := mkNode lks lvs (children n) (Some sibling) (is_leaf n)]> h in
  front ← head sks;
  Some (h, Some (sibling, front)).

Definition split_internal (internal : loc) (h : gmap loc Node)
    : option (gmap loc Node * option (loc * K)) :=
  n ← h !! internal;
  let total := length (keys n) in
  let mid := total / 2 in
  promoted_key ← keys n !! mid;
  sks ← vec_from (mid + 1) (keys n);
  scs ← vec_from (mid + 1) (children n);
  let '(sibling, h) := alloc (mkNode sks [] scs None false) h in
  lks ← vec_shrink mid (keys n);
  lcs ← vec_shrink (mid + 1) (children n);
  let h := <[internal := mkNode lks (values n) lcs (next n) (is_leaf n)]> h in
  Some (h, Some (sibling, promoted_key)).

Definition insert_into_leaf (leaf : loc) (key : K) (value : V) (h : gmap loc Node)
    : option (gmap loc Node * option (loc * K)) :=
  n ← h !! leaf;
  n' ← leaf_put key value n;
  let h := <[leaf := n']> h in
  if decide (MAX_KEYS_LEAF < length (keys n')) then split_leaf leaf h
  else Some (h, None).

(** [keys.insert(begin() + pos, promoted_key);
     children.insert(begin() + pos + 1, sibling)]. *)
Definition add_child (pos : nat) (promoted_key : K) (sibling : loc) (n : Node)
    : option Node :=
  ks ← vec_insert pos promoted_key (keys n);
  cs ← vec_insert (pos + 1) sibling (children n);
  Some (mkNode ks (values n) cs (next n) (is_leaf n)).

(** [insert_recursive] is passed in, the two functions being mutually
    recursive in the source. *)
Definition insert_into_internal
    (insert_recursive : loc → K → V → gmap loc Node →
                        option (gmap loc Node * option (loc * K)))
    (internal : loc) (key : K) (value : V) (h : gmap loc Node)
    : option (gmap loc Node * option (loc * K)) :=
  n ← h !! internal;
  let pos := upper_bound (keys n) key in
  child ← children n !! pos;
  '(h, r) ← insert_recursive child key value h;
  h ← match r with
      | Some (child_sibling, promoted_key) =>
          n ← h !! internal;
          n' ← add_child pos promoted_key child_sibling n;
          Some (<[internal := n']> h)
      | None => Some h
      end;
  n ← h !! internal;
  if decide (MAX_KEYS_INTERNAL < Z.of_nat (length (keys n)))%Z then split_internal internal h
  else Some (h, None).

Fixpoint insert_recursive (fuel : nat) (node : loc) (key : K) (value : V)
    (h : gmap loc Node) : option (gmap loc Node * option (loc * K)) :=
  match fuel with
  | 0 => None
  | S fuel =>
      n ← h !! node;
      if is_leaf n then insert_into_leaf node key value h
      else insert_into_internal (insert_recursive fuel) node key value h
  end.

(** The crabbing descent of [pessimistic_insert]; of its bookkeeping only
    [head], the deepest node found safe, decides what is done. *)
Fixpoint find_head (fuel : nat) (h : gmap loc Node) (current : loc)
    (head : option loc) (key : K) : option (option loc) :=
  match fuel with
  | 0 => None
  | S fuel =>
      n ← h !! current;
      if is_leaf n then Some head
      else
        child ← children n !! upper_bound (keys n) key;
        c ← h !! child;
        find_head fuel h child (if is_safe_for_insert c then Some child else head) key
  end.

Definition pessimistic_insert_fuel (fuel : nat) (key : K) (value : V) (s : t)
    : option t :=
  current ← heap s !! root s;
  let head := if is_safe_for_insert current then Some (root s) else None in
  head ← find_head fuel (heap s) (root s) head key;
  let start_node := default (root s) head in
  '(h, r) ← insert_recursive fuel start_node key value (heap s);
  match r with
  | None => Some (mk h (root s))
  | Some (sibling, promoted_key) =>
      if decide (start_node = root s) then
        let '(new_root, h) :=
          alloc (mkNode [promoted_key] [] [root s; sibling] None false) h in
        Some (mk h new_root)
      else
        n ← h !! start_node;
        n' ← add_child (upper_bound (keys n) key) promoted_key sibling n;
        Some (mk (<[start_node := n']> h) (root s))
  end.

Definition insert_fuel (fuel : nat) (key : K) (value : V) (s : t) : option (bool * t) :=
  '(ok, s) ← optimistic_insert_fuel fuel key value s;
  if (ok : bool) then Some (true, s)
  else
    s ← pessimistic_insert_fuel fuel key value s;
    Some (true, s).

(** No loop of the tree visits a node twice, so the number of allocated
    nodes bounds every one of them. *)
Definition fuel_of (s : t) : nat := S (size (heap s)).

Definition search (key : K) (s : t) : option (gset V) :=
  search_fuel (fuel_of s) key s.
Definition range_search (start_key end_key : K) (s : t) : option (list (K * gset V)) :=
  range_search_fuel (fuel_of s) start_key end_key s.
Definition optimistic_insert (key : K) (val : V) (s : t) : option (bool * t) :=
  optimistic_insert_fuel (fuel_of s) key val s.
Definition pessimistic_insert (key : K) (value : V) (s : t) : option t :=
  pessimistic_insert_fuel (fuel_of s) key value s.
Definition insert (key : K) (value : V) (s : t) : option (bool * t) :=
  insert_fuel (fuel_of s) key value s.

(** A tree built by a sequence of inserts. *)
Fixpoint run (ops : list (K * V)) (s : t) : option t :=
  match ops with
  | [] => Some s
  | (k, v) :: ops => '(_, s) ← insert k v s; run ops s
  end.

End bplus_tree.
End BPlusTree.

(** ** The lock-free skip list *)

Module LockFreeSkipList.

Definition MAX_LEVEL : nat := 16.

(** A [Node*] word: an address (or null) and the low bit used as the
    logical-deletion mark. *)
Record ptr := Ptr { addr : option loc; mark : bool }.

#[export] Instance ptr_eq_dec : EqDecision ptr.
Proof. solve_decision. Defined.

Definition is_marked (p : ptr) : bool := mark p.
Definition get_marked_ref (p : ptr) : ptr := Ptr (addr p) true.
Definition get_unmarked_ref (p : ptr) : ptr := Ptr (addr p) false.

(** A plain pointer to an allocated node. *)
Definition ref (l : loc) : ptr := Ptr (Some l) false.
Definition nullptr : ptr := Ptr None false.

Section skip_list.
Context {K V : Type} `{EqDecision K, Inhabited K, KeyOrder K, Countable V}.

Record Node := mkNode {
  key : K;
  values : gset V;
  level : nat;
  next : list ptr;
}.

Record t := mk {
  nodes : gmap loc Node;
  head : loc;
  tail : loc;
}.

(** Both overloads of [create_node]: every slot starts as [nullptr]. *)
Definition create_node (k : K) (vs : gset V) (lvl : nat) (h : gmap loc Node)
    : loc * gmap loc Node :=
  let l := fresh (dom h) in
  (l, <[l := mkNode k vs lvl (replicate lvl nullptr)]> h).

(** [n->next[level].load()] and [n->next[level].store(p)]. *)
Definition load_next (h : gmap loc Node) (n : loc) (lvl : nat) : option ptr :=
  nd ← h !! n; next nd !! lvl.

Definition store_next (h : gmap loc Node) (n : loc) (lvl : nat) (p : ptr)
    : option (gmap loc Node) :=
  nd ← h !! n;
  if decide (lvl < length (next nd))
  then Some (<[n := mkNode (key nd) (values nd) (level nd) (<[lvl := p]> (next nd))]> h)
  else None.

(** [n->next[level].compare_exchange_weak(expected, desired)] in a run
    without interference. *)
Definition cas_next (h : gmap loc Node) (n : loc) (lvl : nat) (expected desired : ptr)
    : option (bool * gmap loc Node) :=
  cur ← load_next h n lvl;
  if decide (cur = expected) then h' ← store_next h n lvl desired; Some (true, h')
  else Some (false, h).

(** The constructor. *)
Definition link_head (h : gmap loc Node) (hd tl : loc) : gmap loc Node :=
  match h !! hd with
  | Some nd => <[hd := mkNode (key nd) (values nd) (level nd)
                               (replicate MAX_LEVEL (ref tl))]> h
  | None => h
  end.

Definition empty : t :=
  let '(hd, h) := create_node inhabitant ∅ MAX_LEVEL ∅ in
  let '(tl, h) := create_node inhabitant ∅ MAX_LEVEL h in
  mk (link_head h hd tl) hd tl.

(** [random_level], reading its draws from [coins]; an exhausted stream
    reads as 0. *)
Fixpoint random_level_from (coins : list bool) (lvl : nat) : nat * list bool :=
  match coins with
  | [] => (lvl, [])
  | c :: coins => if c && bool_decide (lvl < MAX_LEVEL)
                  then random_level_from coins (S lvl)
                  else (lvl, coins)
  end.

Definition random_level (coins : list bool) : nat * list bool :=
  random_level_from coins 1.

Section find.
(** [tail] of the list being searched. *)
Variable tl : loc.

(** [(curr == tail) ? tail : curr->next[level].load()]. *)
Definition succ_of (h : gmap loc Node) (curr : loc) (lvl : nat) : option ptr :=
  if decide (curr = tl) then Some (ref tl) else load_next h curr lvl.

(** [while (is_marked(succ))]: the answer [None] inside is
    [restart_traversal]. *)
Fixpoint unlink_marked (fuel : nat) (h : gmap loc Node) (lvl : nat)
    (pred curr : loc) (succ : ptr) : option (gmap loc Node * option (loc * ptr)) :=
  match fuel with
  | 0 => None
  | S fuel =>
      if is_marked succ then
        let unmarked_succ := get_unmarked_ref succ in
        '(ok, h) ← cas_next h pred lvl (ref curr) unmarked_succ;
        if (ok : bool) then
          p ← load_next h pred lvl;
          curr ← addr (get_unmarked_ref p);
          succ ← succ_of h curr lvl;
          unlink_marked fuel h lvl pred curr succ
        else Some (h, None)
      else Some (h, Some (curr, succ))
  end.

(** The [while (true)] loop walking one level to the right. *)
Fixpoint scan_level (fuel : nat) (h : gmap loc Node) (lvl : nat) (k : K)
    (pred curr : loc) : option (gmap loc Node * option (loc * loc)) :=
  match fuel with
  | 0 => None
  | S fuel' =>
      succ ← succ_of h curr lvl;
      '(h, r) ← unlink_marked fuel h lvl pred curr succ;
      match r with
      | None => Some (h, None)
      | Some (curr, succ) =>
          if decide (curr = tl) then Some (h, Some (pred, curr))
          else
            nd ← h !! curr;
            if klt (key nd) k then
              next_curr ← addr (get_unmarked_ref succ);
              scan_level fuel' h lvl k curr next_curr
            else Some (h, Some (pred, curr))
      end
  end.

(** The [for] loop from level [n - 1] down to 0; [preds] and [succs] are
    the slots filled so far, the lowest level first. *)
Fixpoint find_levels (fuel : nat) (h : gmap loc Node) (k : K) (n : nat)
    (pred : loc) (preds succs : list loc)
    : option (gmap loc Node * option (list loc * list loc)) :=
  match n with
  | 0 => Some (h, Some (preds, succs))
  | S lvl =>
      p ← load_next h pred lvl;
      curr ← addr (get_unmarked_ref p);
      '(h, r) ← scan_level fuel h lvl k pred curr;
      match r with
      | None => Some (h, None)
      | Some (pred, curr) =>
          find_levels fuel h k lvl pred (pred :: preds) (curr :: succs)
      end
  end.

End find.

Fixpoint find (fuel : nat) (k : K) (s : t)
    : option (bool * list loc * list loc * t) :=
  match fuel with
  | 0 => None
  | S fuel' =>
      '(h, r) ← find_levels (tail s) fuel (nodes s) k MAX_LEVEL (head s) [] [];
      let s := mk h (head s) (tail s) in
      match r with
      | None => find fuel' k s
      | Some (preds, succs) =>
          s0 ← succs !! 0;
          if decide (s0 = tail s) then Some (false, preds, succs, s)
          else
            nd ← nodes s !! s0;
            Some (bool_decide (key nd = k), preds, succs, s)
      end
  end.

Definition search_fuel (fuel : nat) (k : K) (s : t) : option (gset V * t) :=
  '(found, _, succs, s) ← find fuel k s;
  if (found : bool) then
    node ← succs !! 0;
    p ← load_next (nodes s) node 0;
    if is_marked p then Some (∅, s)
    else nd ← nodes s !! node; Some (values nd, s)
  else Some (∅, s).

(** [for (level = 1; level < new_level; ++level)] of [insert]; [n] counts
    the levels left. *)
Fixpoint link_upper (n lvl : nat) (h : gmap loc Node) (new_node : loc)
    (preds succs : list loc) : option (gmap loc Node) :=
  match n with
  | 0 => Some h
  | S n =>
      sl ← succs !! lvl;
      h ← store_next h new_node lvl (ref sl);
      pl ← preds !! lvl;
      '(ok, h) ← cas_next h pl lvl (ref sl) (ref new_node);
      if (ok : bool) then link_upper n (S lvl) h new_node preds succs
      else Some h
  end.

Fixpoint insert_fuel (fuel : nat) (k : K) (value : V) (coins : list bool) (s : t)
    : option (bool * t) :=
  match fuel with
  | 0 => None
  | S fuel' =>
      '(found, preds, succs, s) ← find fuel k s;
      if (found : bool) then
        node ← succs !! 0;
        p ← load_next (nodes s) node 0;
        if is_marked p then insert_fuel fuel' k value coins s
        else
          nd ← nodes s !! node;
          Some (bool_decide (value ∉ values nd),
                mk (<[node := mkNode (key nd) ({[value]} ∪ values nd) (level nd) (next nd)]>
                      (nodes s))
                   (head s) (tail s))
      else
        let '(new_level, coins) := random_level coins in
        let '(new_node, h) := create_node k {[value]} new_level (nodes s) in
        s0 ← succs !! 0;
        h ← store_next h new_node 0 (ref s0);
        p0 ← preds !! 0;
        '(ok, h) ← cas_next h p0 0 (ref s0) (ref new_node);
        if (ok : bool) then
          h ← link_upper (new_level - 1) 1 h new_node preds succs;
          Some (true, mk h (head s) (tail s))
        else insert_fuel fuel' k value coins (mk (delete new_node h) (head s) (tail s))
  end.

(** [while (!is_marked(succ))] of [remove]: a failed exchange reloads
    [succ]. *)
Fixpoint mark_level (fuel : nat) (h : gmap loc Node) (node : loc) (lvl : nat)
    (succ : ptr) : option (gmap loc Node) :=
  match fuel with
  | 0 => None
  | S fuel =>
      if is_marked succ then Some h
      else
        '(ok, h) ← cas_next h node lvl succ (get_marked_ref succ);
        if (ok : bool) then Some h
        else succ ← load_next h node lvl; mark_level fuel h node lvl succ
  end.

(** [for (level = node->level - 1; level >= 0; --level)]. *)
Fixpoint mark_levels (fuel : nat) (h : gmap loc Node) (node : loc) (n : nat)
    : option (gmap loc Node) :=
  match n with
  | 0 => Some h
  | S lvl =>
      succ ← load_next h node lvl;
      h ← mark_level fuel h node lvl succ;
      mark_levels fuel h node lvl
  end.

Definition remove_fuel (fuel : nat) (k : K) (s : t) : option (bool * t) :=
  '(found, _, succs, s) ← find fuel k s;
  if (found : bool) then
    node_to_delete ← succs !! 0;
    nd ← nodes s !! node_to_delete;
    h ← mark_levels fuel (nodes s) node_to_delete (level nd);
    Some (true, mk h (head s) (tail s))
  else Some (false, s).

(** A traversal never visits a node twice, so the number of allocated
    nodes bounds every loop. *)
Definition fuel_of (s : t) : nat := S (size (nodes s)).

Definition search (k : K) (s : t) : option (gset V * t) := search_fuel (fuel_of s) k s.
Definition insert (k : K) (value : V) (coins : list bool) (s : t) : option (bool * t) :=
  insert_fuel (fuel_of s) k value coins s.
Definition remove (k : K) (s : t) : option (bool * t) := remove_fuel (fuel_of s) k s.

(** [display]: the nodes met on one level from [curr] to the tail, each
    with its key and whether it shows as marked ([next[0]] marked). *)
Fixpoint level_nodes (fuel : nat) (h : gmap loc Node) (tl : loc) (lvl : nat)
    (curr : loc) : option (list (K * bool)) :=
  match fuel with
  | 0 => None
  | S fuel =>
      if decide (curr = tl) then Some []
      else
        nd ← h !! curr;
        p0 ← next nd !! 0;
        p ← next nd !! lvl;
        next_curr ← addr (get_unmarked_ref p);
        rest ← level_nodes fuel h tl lvl next_curr;
        Some ((key nd, is_marked p0) :: rest)
  end.

Definition display_level (lvl : nat) (s : t) : option (list (K * bool)) :=
  p ← load_next (nodes s) (head s) lvl;
  curr ← addr (get_unmarked_ref p);
  level_nodes (fuel_of s) (nodes s) (tail s) lvl curr.

(** Sequences of operations; an insert carries the draws of its
    [random_level]. *)
Inductive op :=
  | Insert (k : K) (v : V) (coins : list bool)
  | Remove (k : K)
  | Search (k : K).

Definition step (o : op) (s : t) : option t :=
  match o with
  | Insert k v coins => snd <$> insert k v coins s
  | Remove k => snd <$> remove k s
  | Search k => snd <$> search k s
  end.

Fixpoint run (ops : list op) (s : t) : option t :=
  match ops with
  | [] => Some s
  | o :: ops => s ← step o s; run ops s
  end.

End skip_list.
End LockFreeSkipList.

From stdpp Require Import base gmap sets list strings sorting.

(** * What a store must satisfy to be a B+ tree *)

Module BPlusTreeInv.
Import BPlusTree.
Section inv.
Context {K V : Type} `{EqDecision K, KeyOrder K, Countable V}.

(** Optional bounds: [None] is no bound. *)
Definition above (lo : option K) (k : K) : Prop :=
  match lo with None => True | Some l => klt k l = false end.
Definition below (hi : option K) (k : K) : Prop :=
  match hi with None => True | Some u => klt k u = true end.
Definition in_range (lo hi : option K) (k : K) : Prop := above lo k ∧ below hi k.

(** A separator may coincide with the upper bound of its node. *)
Definition not_above (hi : option K) (k : K) : Prop :=
  match hi with None => True | Some u => klt u k = false end.
Definition sep_range (lo hi : option K) (k : K) : Prop := above lo k ∧ not_above hi k.

(** A leaf as the abstraction sees it: its address and its entries. *)
Definition leaf_abs : Type := loc * list (K * gset V).

Definition entries (lvs : list leaf_abs) : list (K * gset V) := concat (snd <$> lvs).
Definition leaf_locs (lvs : list leaf_abs) : list loc := fst <$> lvs.
Definition first_leaf (lvs : list leaf_abs) : option loc := fst <$> head lvs.

(** The pointer a leaf placed before [lvs] must hold in [next]. *)
Definition next_of (lvs : list leaf_abs) (nxt : option loc) : option loc :=
  match first_leaf lvs with Some l => Some l | None => nxt end.

Definition key_sorted (ks : list K) : Prop :=
  StronglySorted (λ a b, klt a b = true) ks.

Definition leaf_at (h : gmap loc (Node (K:=K) (V:=V))) (l : loc) (lo hi : option K)
    (lvs : list leaf_abs) (fp : gset loc) : Prop :=
  ∃ n, h !! l = Some n ∧ is_leaf n = true ∧
       length (values n) = length (keys n) ∧
       key_sorted (keys n) ∧ Forall (in_range lo hi) (keys n) ∧
       lvs = [(l, zip (keys n) (values n))] ∧ fp = {[l]}.

(** The children [cs] of an internal node with separators [ks] covering
    [lo, hi): child [i] covers [k_(i-1), k_i).  [P] describes one child;
    the subtrees occupy disjoint parts [fp] of the store and hold the
    leaves [lvs], left to right. *)
Fixpoint kids (P : loc → option K → option K → list leaf_abs → gset loc → Prop)
    (cs : list loc) (ks : list K) (lo hi : option K)
    (lvs : list leaf_abs) (fp : gset loc) : Prop :=
  match cs with
  | [] => False
  | c :: cs' =>
      match ks with
      | [] => cs' = [] ∧ P c lo hi lvs fp
      | k :: ks' =>
          sep_range lo hi k ∧
          ∃ lvs1 lvs2 fp1 fp2,
            P c lo (Some k) lvs1 fp1 ∧
            kids P cs' ks' (Some k) hi lvs2 fp2 ∧
            lvs = lvs1 ++ lvs2 ∧ fp = fp1 ∪ fp2 ∧ fp1 ## fp2
      end
  end.

(** A subtree of height [n] rooted at [l]. *)
Fixpoint btree (n : nat) (h : gmap loc (Node (K:=K) (V:=V))) (l : loc)
    (lo hi : option K) (lvs : list leaf_abs) (fp : gset loc) : Prop :=
  match n with
  | 0 => leaf_at h l lo hi lvs fp
  | S n =>
      ∃ nd fpk, h !! l = Some nd ∧ is_leaf nd = false ∧
                kids (btree n h) (children nd) (keys nd) lo hi lvs fpk ∧
                (l ∉ fpk) ∧ fp = {[l]} ∪ fpk
  end.

(** The [next] pointers thread the leaves [lvs] in order and end in
    [nxt]. *)
Fixpoint lchain (h : gmap loc (Node (K:=K) (V:=V))) (lvs : list leaf_abs)
    (nxt : option loc) : Prop :=
  match lvs with
  | [] => True
  | lf :: rest =>
      (∃ n, h !! lf.1 = Some n ∧ next n = next_of rest nxt) ∧ lchain h rest nxt
  end.

Definition tree_inv (s : t (K:=K) (V:=V)) (lvs : list leaf_abs) : Prop :=
  ∃ n fp, btree n (heap s) (root s) None None lvs fp ∧ lchain (heap s) lvs None.

(** Insertion and lookup on the sorted list of entries. *)
Fixpoint put (k : K) (v : V) (es : list (K * gset V)) : list (K * gset V) :=
  match es with
  | [] => [(k, {[v]})]
  | (k', vs) :: es' =>
      if klt k' k then (k', vs) :: put k v es'
      else if decide (k' = k) then (k, {[v]} ∪ vs) :: es'
      else (k, {[v]}) :: es
  end.

Fixpoint get (k : K) (es : list (K * gset V)) : gset V :=
  match es with
  | [] => ∅
  | (k', vs) :: es' => if decide (k' = k) then vs else get k es'
  end.

(** The entries with a key in [lo, hi). *)
Definition in_window (lo hi : K) (e : K * gset V) : bool :=
  negb (klt e.1 lo) && klt e.1 hi.

Definition in_window_p (lo hi : K) (e : K * gset V) : Prop := in_window lo hi e = true.

#[export] Instance in_window_p_dec lo hi e : Decision (in_window_p lo hi e) :=
  decide (in_window lo hi e = true).

(** The scan of [range_search] over the entries of one leaf. *)
Fixpoint scan_list (es : list (K * gset V)) (end_key : K)
    (result : list (K * gset V)) : list (K * gset V) * bool :=
  match es with
  | [] => (result, false)
  | (k, vs) :: es' =>
      if negb (klt k end_key) then (result, true)
      else scan_list es' end_key (map_emplace k vs result)
  end.

(** A leaf of the abstraction is a leaf node holding its entries. *)
Definition leaf_ok (h : gmap loc (Node (K:=K) (V:=V))) (lf : leaf_abs) : Prop :=
  ∃ nd, h !! lf.1 = Some nd ∧ length (values nd) = length (keys nd) ∧
        key_sorted (keys nd) ∧ lf.2 = zip (keys nd) (values nd).

(** [r] lies entirely before [es]. *)
Definition all_before (r es : list (K * gset V)) : Prop :=
  Forall (λ a, Forall (λ b, klt a.1 b.1 = true) es) r.

(** The entries a sequence of inserts builds up. *)
Definition contents (ops : list (K * V)) : list (K * gset V) :=
  foldl (λ es o, put o.1 o.2 es) [] ops.

(** The values inserted under [k] by a sequence of inserts. *)
Definition values_of (ops : list (K * V)) (k : K) : gset V :=
  list_to_set (snd <$> filter (λ o, o.1 = k) ops).

(** What [insert_recursive] leaves behind when started on the subtree at
    [l]: the store outside the subtree and fresh nodes is untouched; the
    subtree holds [key] with [value] added, either in place or split in
    two around the promoted key. *)
Definition insert_post (n : nat) (h : gmap loc (Node (K:=K) (V:=V))) (l : loc)
    (lo hi : option K) (lvs : list leaf_abs) (fp : gset loc)
    (MAX_LEAF : nat) (MAX_INTERNAL : Z) (key : K) (value : V)
    (h' : gmap loc (Node (K:=K) (V:=V))) (r : option (loc * K)) : Prop :=
  (∀ y, y ∈ dom h → y ∉ fp → h' !! y = h !! y) ∧ dom h ⊆ dom h' ∧
  match r with
  | None =>
      ∃ lvs' fp',
        btree n h' l lo hi lvs' fp' ∧ fp' ⊆ fp ∪ (dom h' ∖ dom h) ∧
        (∀ nxt, lchain h lvs nxt → lchain h' lvs' nxt) ∧
        first_leaf lvs' = first_leaf lvs ∧
        entries lvs' = put key value (entries lvs)
  | Some (sibling, promoted_key) =>
      ∃ lvs1 lvs2 fp1 fp2,
        btree n h' l lo (Some promoted_key) lvs1 fp1 ∧
        btree n h' sibling (Some promoted_key) hi lvs2 fp2 ∧
        sep_range lo hi promoted_key ∧ fp1 ## fp2 ∧
        fp1 ∪ fp2 ⊆ fp ∪ (dom h' ∖ dom h) ∧
        (∀ nxt, lchain h lvs nxt → lchain h' (lvs1 ++ lvs2) nxt) ∧
        first_leaf lvs1 = first_leaf lvs ∧
        entries (lvs1 ++ lvs2) = put key value (entries lvs) ∧
        ∀ nd, h !! l = Some nd →
              if is_leaf nd then MAX_LEAF ≤ length (keys nd)
              else (MAX_INTERNAL ≤ Z.of_nat (length (keys nd)))%Z
  end.

(** The node [x], a subtree of height [m] holding the leaves [Ls], lies
    on the way from [l] to [key]; the leaves to its left are [A], those
    to its right [B].  Whatever is done to the subtree within its own
    part of the store and in fresh nodes leaves a tree around it. *)
Definition on_path (n : nat) (h : gmap loc (Node (K:=K) (V:=V))) (l : loc)
    (lo hi : option K) (lvs : list leaf_abs) (fp : gset loc)
    (key : K) (m : nat) (x : loc) (lo' hi' : option K) (Ls : list leaf_abs)
    (fps : gset loc) (A B : list leaf_abs) : Prop :=
  m ≤ n ∧ btree m h x lo' hi' Ls fps ∧ in_range lo' hi' key ∧
  lvs = A ++ Ls ++ B ∧ fps ⊆ fp ∧
  Forall (λ e, klt e.1 key = true) (entries A) ∧
  Forall (λ e, klt key e.1 = true) (entries B) ∧
  (∀ y, y ∈ leaf_locs A ++ leaf_locs B → y ∈ fp ∧ y ∉ fps) ∧
  ∀ h' Ls' fps',
    (∀ y, y ∈ dom h → y ∉ fps → h' !! y = h !! y) →
    btree m h' x lo' hi' Ls' fps' →
    fps' ⊆ fps ∪ (dom h' ∖ dom h) →
    ∃ fp', btree n h' l lo hi (A ++ Ls' ++ B) fp' ∧
           fp' ⊆ fp ∪ (dom h' ∖ dom h).

End inv.
End BPlusTreeInv.

From stdpp Require Import base gmap sets list strings sorting.

(** * What a store must satisfy to be a skip list *)

Module LockFreeSkipListInv.
Import LockFreeSkipList.
Section inv.
Context {K V : Type} `{EqDecision K, Inhabited K, KeyOrder K, Countable V}.

Local Abbreviation Node := (LockFreeSkipList.Node (K:=K) (V:=V)).

(** The node a slot points to, whatever its mark. *)
Definition next_addr (h : gmap loc Node) (x : loc) (i : nat) : option loc :=
  p ← load_next h x i; addr p.

(** Level [i] leads from [p] through [xs], node by node. *)
Fixpoint path (h : gmap loc Node) (i : nat) (p : loc) (xs : list loc) : Prop :=
  match xs with
  | [] => True
  | x :: xs' => next_addr h p i = Some x ∧ path h i x xs'
  end.

(** A node is logically deleted when [next[0]] is marked. *)
Definition node_mark (nd : Node) : bool := default false (mark <$> next nd !! 0).

(** In a run without interference a node is marked on every level or on
    none, and no slot of a linked node is null. *)
Definition uniform (nd : Node) : Prop :=
  Forall (λ p, mark p = node_mark nd) (next nd).

Definition live (h : gmap loc Node) (x : loc) : Prop :=
  ∃ nd, h !! x = Some nd ∧ node_mark nd = false.

Definition dead (h : gmap loc Node) (x : loc) : Prop :=
  ∃ nd, h !! x = Some nd ∧ node_mark nd = true.

Definition node_lt (h : gmap loc Node) (x y : loc) : Prop :=
  ∃ nx ny, h !! x = Some nx ∧ h !! y = Some ny ∧ klt (key nx) (key ny) = true.

(** The key of [x] is below [k], or not below [k]. *)
Definition key_below (h : gmap loc Node) (k : K) (x : loc) : Prop :=
  ∃ nd, h !! x = Some nd ∧ klt (key nd) k = true.
Definition key_from (h : gmap loc Node) (k : K) (x : loc) : Prop :=
  ∃ nd, h !! x = Some nd ∧ klt (key nd) k = false.

(** The values of the live node with key [k] among [l]. *)
Fixpoint cget (h : gmap loc Node) (l : list loc) (k : K) : gset V :=
  match l with
  | [] => ∅
  | x :: l' =>
      match h !! x with
      | Some nd =>
          if negb (node_mark nd) && bool_decide (key nd = k) then values nd
          else cget h l' k
      | None => cget h l' k
      end
  end.

(** The node [nd] with slot [j] overwritten. *)
Definition set_next (nd : Node) (j : nat) (p : ptr) : Node :=
  mkNode (key nd) (values nd) (level nd) (<[j := p]> (next nd)).

(** The last node of [xs], or [y] when there is none; the first node of
    [xs], or [y] when there is none. *)
Definition last_or (y : loc) (xs : list loc) : loc := default y (last xs).
Definition first_or (y : loc) (xs : list loc) : loc := default y (xs !! 0).

(** Every node has as many slots as its level, marked all or none. *)
Definition nodes_ok (h : gmap loc Node) : Prop :=
  ∀ x nd, h !! x = Some nd →
    length (next nd) = level nd ∧ 0 < level nd ≤ MAX_LEVEL ∧ uniform nd.

Definition head_ok (h : gmap loc Node) (hd : loc) : Prop :=
  ∃ hn, h !! hd = Some hn ∧ level hn = MAX_LEVEL ∧ node_mark hn = false.

(** [x] has a slot on level [i]. *)
Definition has_level (h : gmap loc Node) (i : nat) (x : loc) : Prop :=
  ∃ nd, h !! x = Some nd ∧ i < level nd.

(** [l] is level [i]: the nodes linked between the head and the tail,
    in strictly increasing key order. *)
Definition chain_ok (h : gmap loc Node) (i : nat) (hd tl : loc) (l : list loc) : Prop :=
  path h i hd (l ++ [tl]) ∧ hd ∉ l ∧ tl ∉ l ∧
  Forall (has_level h i) l ∧ StronglySorted (node_lt h) l.

(** Every live node other than [n] is linked on each of its levels. *)
Definition linked_but (n : option loc) (h : gmap loc Node) (hd tl : loc)
    (chains : list (list loc)) : Prop :=
  ∀ x nd i l, h !! x = Some nd → x ≠ hd → x ≠ tl → Some x ≠ n →
    node_mark nd = false → i < level nd → chains !! i = Some l → x ∈ l.

(** The shape of the store, [chains !! i] being level [i]. *)
Record shape (h : gmap loc Node) (hd tl : loc) (chains : list (list loc)) : Prop := {
  shape_ne : hd ≠ tl;
  shape_head : head_ok h hd;
  shape_tail : is_Some (h !! tl);
  shape_nodes : nodes_ok h;
  shape_length : length chains = MAX_LEVEL;
  shape_chain : ∀ i l, chains !! i = Some l → chain_ok h i hd tl l;
}.

Definition inv (s : t (K:=K) (V:=V)) (chains : list (list loc)) : Prop :=
  shape (nodes s) (head s) (tail s) chains ∧
  linked_but None (nodes s) (head s) (tail s) chains.

(** What [search] answers for [k], read off level 0. *)
Definition model (s : t (K:=K) (V:=V)) (chains : list (list loc)) (k : K) : gset V :=
  cget (nodes s) (default [] (chains !! 0)) k.

(** The store [h'] differs from [h] in the addresses held in level [i]
    slots only. *)
Definition same_but_level (i : nat) (h h' : gmap loc Node) : Prop :=
  ∀ x, match h !! x, h' !! x with
       | Some nd, Some nd' =>
           key nd' = key nd ∧ values nd' = values nd ∧ level nd' = level nd ∧
           length (next nd') = length (next nd) ∧
           (∀ j, j ≠ i → next nd' !! j = next nd !! j) ∧
           (mark <$> next nd' !! i) = (mark <$> next nd !! i)
       | None, None => True
       | _, _ => False
       end.

(** The store [h'] differs from [h] in the addresses held in slots
    only: keys, values, levels and marks are the same. *)
Definition same_data (h h' : gmap loc Node) : Prop :=
  ∀ x, match h !! x, h' !! x with
       | Some nd, Some nd' =>
           key nd' = key nd ∧ values nd' = values nd ∧ level nd' = level nd ∧
           node_mark nd' = node_mark nd
       | None, None => True
       | _, _ => False
       end.

(** Where a traversal starts level [n - 1]: at the head, or at a live
    node below [k] that has that level. *)
Definition start_ok (h : gmap loc Node) (hd tl : loc) (k : K) (n : nat) (pred : loc) : Prop :=
  live h pred ∧
  (pred = hd ∨ (pred ≠ hd ∧ pred ≠ tl ∧ key_below h k pred ∧
                ∃ nd, h !! pred = Some nd ∧ n ≤ level nd)).

(** The key of [x] is above [k]. *)
Definition key_above (h : gmap loc Node) (k : K) (x : loc) : Prop :=
  ∃ nd, h !! x = Some nd ∧ klt k (key nd) = true.

(** What [find] reports for [k] when level 0 stops at [c0]. *)
Definition found_at (h : gmap loc Node) (tl : loc) (k : K) (c0 : loc) : bool :=
  if decide (c0 = tl) then false
  else match h !! c0 with
       | Some nd => bool_decide (key nd = k)
       | None => false
       end.

(** The node [nd] with its lowest [m] slots marked, with all of them
    marked, and with one more value. *)
Definition mark_below (m : nat) (nd : Node) : Node :=
  mkNode (key nd) (values nd) (level nd)
         ((get_marked_ref <$> take m (next nd)) ++ drop m (next nd)).
Definition mark_all (nd : Node) : Node :=
  mkNode (key nd) (values nd) (level nd) (get_marked_ref <$> next nd).
Definition add_value (v : V) (nd : Node) : Node :=
  mkNode (key nd) ({[v]} ∪ values nd) (level nd) (next nd).

(** The store [h'] has the nodes of [h] with the same keys, levels and
    slot addresses; values and marks may differ. *)
Definition same_links (h h' : gmap loc Node) : Prop :=
  ∀ x, match h !! x, h' !! x with
       | Some nd, Some nd' =>
           key nd' = key nd ∧ level nd' = level nd ∧
           (addr <$> next nd') = (addr <$> next nd)
       | None, None => True
       | _, _ => False
       end.

(** While [insert] links the new node [n] of level [lv]: it is on the
    levels below [j], and on the levels from [j] on [preds] and [succs]
    still frame the place of [k]. *)
Definition linking (h : gmap loc Node) (hd tl : loc) (chains : list (list loc))
    (k : K) (n : loc) (lv : nat) (preds succs : list loc) (j : nat) : Prop :=
  shape h hd tl chains ∧ linked_but (Some n) h hd tl chains ∧
  n ≠ hd ∧ n ≠ tl ∧
  (∃ nn, h !! n = Some nn ∧ key nn = k ∧ level nn = lv ∧ node_mark nn = false) ∧
  (∀ i l, i < j → chains !! i = Some l → n ∈ l) ∧
  (∀ i l, j ≤ i → chains !! i = Some l →
     ∃ B R, l = B ++ R ∧ preds !! i = Some (last_or hd B) ∧
            succs !! i = Some (first_or tl R) ∧ live h (last_or hd B) ∧
            Forall (key_below h k) B ∧ Forall (key_above h k) R ∧ n ∉ l).

(** What [display] prints for a node: its key and whether it is
    marked; the keys it prints without the mark. *)
Definition shown (h : gmap loc Node) (x : loc) : K * bool :=
  match h !! x with
  | Some nd => (key nd, node_mark nd)
  | None => (inhabitant, false)
  end.

Definition live_keys (d : list (K * bool)) : list K :=
  fst <$> filter (λ e, e.2 = false) d.

Definition increasing (ks : list K) : Prop :=
  StronglySorted (λ a b, klt a b = true) ks.

(** No [insert] for [k] among the operations. *)
Definition no_insert (k : K) (ops : list (op (K:=K) (V:=V))) : Prop :=
  Forall (λ o, match o with Insert k' _ _ => k' ≠ k | _ => True end) ops.

(** The store [h'] holds the nodes of [h], no more and no fewer, with
    the same keys, values and levels; slots may differ. *)
Definition same_store (h h' : gmap loc Node) : Prop :=
  ∀ x, match h !! x, h' !! x with
       | Some nd, Some nd' =>
           key nd' = key nd ∧ values nd' = values nd ∧ level nd' = level nd
       | None, None => True
       | _, _ => False
       end.

(** What an [insert(k, v)] may do to the store: a node stays, keeps its
    key and loses no value; a node that was not there is at the one
    fresh address, with key [k] and the value [v] alone. *)
Definition grown (k : K) (v : V) (h h' : gmap loc Node) : Prop :=
  (∀ x nd, h !! x = Some nd →
     ∃ nd', h' !! x = Some nd' ∧ key nd' = key nd ∧ values nd ⊆ values nd') ∧
  (∀ x nd', h' !! x = Some nd' → h !! x = None →
     x = fresh (dom h) ∧ key nd' = k ∧ values nd' = {[v]}).

(** Every node between the head and the tail holds a value. *)
Definition values_ok (s : t (K:=K) (V:=V)) : Prop :=
  ∀ x nd, nodes s !! x = Some nd → x ≠ head s → x ≠ tail s → values nd ≠ ∅.

(** [l'] is as good as [l]: it answers the same for every key and
    keeps the live nodes. *)
Definition pruned (h : gmap loc Node) (l l' : list loc) : Prop :=
  (∀ k, cget h l' k = cget h l k) ∧ (∀ x, x ∈ l → live h x → x ∈ l').

(** Where a traversal for [k] stops: at the tail or at a live node whose
    key is not below [k]. *)
Definition stop_at (h : gmap loc Node) (k : K) (R : list loc) : Prop :=
  match R with
  | [] => True
  | x :: _ => live h x ∧ key_from h k x
  end.

(** Where a traversal for [k] stands on level [i] of the chain [l]:
    [pred] ends the part of the level below [k], [curr] starts the
    rest. *)
Definition at_level (h : gmap loc Node) (hd tl : loc) (k : K) (l : list loc)
    (pred curr : loc) : Prop :=
  ∃ B R, l = B ++ R ∧ pred = last_or hd B ∧ curr = first_or tl R ∧
         Forall (key_below h k) B ∧ live h pred ∧ stop_at h k R.

End inv.
End LockFreeSkipListInv.

From stdpp Require Import base gmap sets list strings sorting.

(** * Concrete runs used as examples *)

Module Examples.

(** A stand-in for [std::hash<std::string>]. *)
Definition str_hash (s : string) : nat := String.length s.

(** The hash index with four shards just after [getOrCreateBucket] made
    a bucket for a new key. *)
Definition fresh_bucket_state : InvertedIndex.t (K:=string) (V:=string) :=
  (InvertedIndex.getOrCreateBucket 4 str_hash "k" (InvertedIndex.empty 4)).2.

(** Keys "01" to "04", then "05", inserted into a B+ tree of order 4. *)
Definition four_keys : list (string * string) :=
  [("01", "a"); ("02", "b"); ("03", "c"); ("04", "d")].
Definition five_keys : list (string * string) := four_keys ++ [("05", "e")].

Definition bplus_empty : BPlusTree.t (K:=string) (V:=string) := BPlusTree.empty.

(** The tree whose only leaf is full. *)
Definition full_leaf_tree : BPlusTree.t (K:=string) (V:=string) :=
  default bplus_empty (BPlusTree.run 4 four_keys bplus_empty).

(** The keys and children of a node, the empty lists when [l] is not
    allocated. *)
Definition keys_at (s : BPlusTree.t (K:=string) (V:=string)) (l : loc) : list string :=
  default [] (BPlusTree.keys <$> BPlusTree.heap s !! l).
Definition children_at (s : BPlusTree.t (K:=string) (V:=string)) (l : loc) : list loc :=
  default [] (BPlusTree.children <$> BPlusTree.heap s !! l).
Definition is_leaf_at (s : BPlusTree.t (K:=string) (V:=string)) (l : loc) : bool :=
  default false (BPlusTree.is_leaf <$> BPlusTree.heap s !! l).

(** Operations on a skip list of strings. *)
Definition skip_ops : list (LockFreeSkipList.op (K:=string) (V:=string)) :=
  [LockFreeSkipList.Insert "b" "x" [true; false];
   LockFreeSkipList.Insert "a" "y" [];
   LockFreeSkipList.Remove "b";
   LockFreeSkipList.Search "a"].

End Examples.

From Stdlib Require Import ZArith.
From stdpp Require Import base gmap sets list strings sorting.

(** * What the indices hold, told from the operations alone *)

Module Contents.

Section hash.
Context {K V : Type} `{Countable K, Countable V}.

(** The values the hash index holds for [k] after one more operation,
    [vs] being what it held before. *)
Definition hash_apply (k : K) (vs : gset V) (o : InvertedIndex.op (K:=K) (V:=V)) : gset V :=
  match o with
  | InvertedIndex.Insert k' v => if decide (k' = k) then {[v]} ∪ vs else vs
  | InvertedIndex.Remove k' => if decide (k' = k) then ∅ else vs
  | InvertedIndex.RemoveValue k' v => if decide (k' = k) then vs ∖ {[v]} else vs
  end.

Definition hash_holds (ops : list (InvertedIndex.op (K:=K) (V:=V))) (k : K) : gset V :=
  foldl (hash_apply k) ∅ ops.

End hash.

Section skip.
Context {K V : Type} `{EqDecision K, Countable V}.

(** The same for the skip list; the draws of an insert play no part. *)
Definition skip_apply (k : K) (vs : gset V) (o : LockFreeSkipList.op (K:=K) (V:=V)) : gset V :=
  match o with
  | LockFreeSkipList.Insert k' v _ => if decide (k' = k) then {[v]} ∪ vs else vs
  | LockFreeSkipList.Remove k' => if decide (k' = k) then ∅ else vs
  | LockFreeSkipList.Search _ => vs
  end.

Definition skip_holds (ops : list (LockFreeSkipList.op (K:=K) (V:=V))) (k : K) : gset V :=
  foldl (skip_apply k) ∅ ops.

End skip.

(** The number of draws that come up 1 before the first 0. *)
Fixpoint leading (coins : list bool) : nat :=
  match coins with
  | true :: coins => S (leading coins)
  | _ => 0
  end.

End Contents.

(** * Pointer marking on machine words

    [is_marked], [get_marked_ref] and [get_unmarked_ref] as the source
    writes them, on a [uintptr_t] of 64 bits: [& 1], [| 1] and [& ~1]. *)

Module PointerWords.

Definition WORD : Z := 2 ^ 64.

Definition is_marked (w : Z) : bool := negb (Z.land w 1 =? 0)%Z.
Definition get_marked_ref (w : Z) : Z := Z.lor w 1.
Definition get_unmarked_ref (w : Z) : Z := Z.land w (Z.lxor (WORD - 1) 1).

(** A pointer to a [Node]: a word whose low bit is clear. *)
Definition aligned (w : Z) : Prop := (0 ≤ w < WORD)%Z ∧ Z.testbit w 0 = false.

(** The pair the model of the skip list keeps for a word: the word
    without its low bit, and the low bit. *)
Definition decode (w : Z) : Z * bool := (get_unmarked_ref w, is_marked w).

End PointerWords.

(** * An [insert] of the skip list in two steps

    [insert] publishes its node with the exchange on level 0 and only
    then fills and links the upper levels.  The two halves are given
    here as steps of their own, so that a call of another thread can be
    placed between them. *)

Module LockFreeSkipListSteps.
Import LockFreeSkipList.

Section steps.
Context {K V : Type} `{EqDecision K, Inhabited K, KeyOrder K, Countable V}.

(** What an [insert] holds in its local variables once its node is
    published: [new_node], [new_level], [preds] and [succs]. *)
Record pending := mkPending {
  p_node : loc;
  p_level : nat;
  p_preds : list loc;
  p_succs : list loc;
}.

(** [insert] up to and including the exchange on level 0, for a key that
    [find] does not find and an exchange that succeeds; on the other
    paths of [insert] there is no such step. *)
Definition insert_publish (fuel : nat) (k : K) (value : V) (coins : list bool)
    (s : t (K:=K) (V:=V)) : option (pending * t (K:=K) (V:=V)) :=
  '(found, preds, succs, s) ← find fuel k s;
  if (found : bool) then None
  else
    let '(new_level, coins) := random_level coins in
    let '(new_node, h) := create_node k {[value]} new_level (nodes s) in
    s0 ← succs !! 0;
    h ← store_next h new_node 0 (ref s0);
    p0 ← preds !! 0;
    '(ok, h) ← cas_next h p0 0 (ref s0) (ref new_node);
    if (ok : bool)
    then Some (mkPending new_node new_level preds succs, mk h (head s) (tail s))
    else None.

(** The rest of that [insert]: the loop over the upper levels and
    [return true], on the store as it is by then. *)
Definition insert_link (p : pending) (s : t (K:=K) (V:=V))
    : option (bool * t (K:=K) (V:=V)) :=
  h ← link_upper (p_level p - 1) 1 (nodes s) (p_node p) (p_preds p) (p_succs p);
  Some (true, mk h (head s) (tail s)).

End steps.
End LockFreeSkipListSteps.

(** * The destructor of the lock-free skip list

    [~LockFreeSkipList] walks level 0 from the node after the head to the
    tail, reading [next[0]] of a node and then freeing it, and at the end
    frees the head and the tail.  Freeing removes the node from the
    store; reading or freeing a node that is not in the store has no
    answer.  What is returned is the store that is left. *)

Module LockFreeSkipListDrop.
Import LockFreeSkipList.

Section drop.
Context {K V : Type} `{EqDecision K, Inhabited K, KeyOrder K, Countable V}.

Local Abbreviation Node := (LockFreeSkipList.Node (K:=K) (V:=V)).

(** [curr->~Node(); delete[] reinterpret_cast<char*>(curr);] *)
Definition free_node (h : gmap loc Node) (x : loc) : option (gmap loc Node) :=
  _ ← h !! x; Some (delete x h).

(** The [while (curr != tail)] loop. *)
Fixpoint free_from (fuel : nat) (h : gmap loc Node) (tl curr : loc)
    : option (gmap loc Node) :=
  match fuel with
  | 0 => None
  | S fuel =>
      if decide (curr = tl) then Some h
      else
        p ← load_next h curr 0;
        next_curr ← addr (get_unmarked_ref p);
        h ← free_node h curr;
        free_from fuel h tl next_curr
  end.

Definition destroy (s : t (K:=K) (V:=V)) : option (gmap loc Node) :=
  p ← load_next (nodes s) (head s) 0;
  curr ← addr (get_unmarked_ref p);
  h ← free_from (fuel_of s) (nodes s) (tail s) curr;
  h ← free_node h (head s);
  free_node h (tail s).

End drop.
End LockFreeSkipListDrop.

(** * The benchmark driver

    [loadPhase] and the SCAN branch of [workerThread] of [test.cpp], for
    a [Runner] made with [IndexType::BPLUS_TREE]; with the other two
    indices the [dynamic_cast] fails and SCAN does nothing.  What is
    modelled starts at the vector of operations that [parseFile]
    returns. *)

Module Driver.

Inductive OpType := GET | PUT | SCAN.

#[export] Instance OpType_eq_dec : EqDecision OpType.
Proof. solve_decision. Defined.

(** [range] is an [int]. *)
Record Operation := mkOperation {
  type : OpType;
  key : string;
  value : string;
  range : Z;
}.

(** The conversion to [size_t] of a sum with an [int]. *)
Definition to_size_t (z : Z) : nat := Z.to_nat (z mod 2 ^ 64).

(** [operator<=] on [std::string], the order [std::sort] leaves: it is
    total and antisymmetric, so the sorted vector is the same whatever
    the algorithm. *)
Definition string_le (a b : string) : Prop := klt b a = false.

#[export] Instance string_le_dec a b : Decision (string_le a b) :=
  decide (klt b a = false).

Section runner.
Variable ORDER : nat.

Record Runner := mkRunner {
  index : BPlusTree.t (K:=string) (V:=string);
  sorted_keys : list string;
  key_to_index_map : gmap string nat;
}.

(** One turn of the loop of [loadPhase] over the operations: a PUT is
    inserted and its key pushed onto [generated_keys]. *)
Definition load_op (st : BPlusTree.t (K:=string) (V:=string) * list string)
    (op : Operation) : option (BPlusTree.t (K:=string) (V:=string) * list string) :=
  match type op with
  | PUT =>
      '(_, t) ← BPlusTree.insert ORDER (key op) (value op) st.1;
      Some (t, st.2 ++ [key op])
  | _ => Some st
  end.

Fixpoint load_ops (operations : list Operation)
    (st : BPlusTree.t (K:=string) (V:=string) * list string)
    : option (BPlusTree.t (K:=string) (V:=string) * list string) :=
  match operations with
  | [] => Some st
  | op :: operations => st ← load_op st op; load_ops operations st
  end.

(** [for (i = 0; i < sorted_keys.size(); ++i)
       key_to_index_map[sorted_keys[i]] = i;] from position [i] on. *)
Fixpoint index_keys (i : nat) (ks : list string) (m : gmap string nat)
    : gmap string nat :=
  match ks with
  | [] => m
  | k :: ks => index_keys (S i) ks (<[k := i]> m)
  end.

(** [loadPhase]; it ends by printing [operations[0].key] and
    [operations[0].value], which reads outside the vector when there is
    no operation. *)
Definition loadPhase (operations : list Operation) : option Runner :=
  '(t, generated_keys) ← load_ops operations (BPlusTree.empty, []);
  let sorted := merge_sort string_le generated_keys in
  let r := mkRunner t sorted (index_keys 0 sorted ∅) in
  _ ← key <$> operations !! 0;
  _ ← value <$> operations !! 0;
  Some r.

(** The SCAN branch of [workerThread]: what [range_search] returned, or
    [None] when it is not called. *)
Definition scan (r : Runner) (op : Operation)
    : option (option (list (string * gset string))) :=
  match key_to_index_map r !! key op with
  | None => Some None
  | Some start_idx =>
      let end_idx := to_size_t (Z.of_nat start_idx + range op) in
      match sorted_keys r !! end_idx with
      | Some end_key =>
          res ← BPlusTree.range_search (key op) end_key (index r);
          Some (Some res)
      | None => Some None
      end
  end.

End runner.

(** The keys of the PUT operations, in their order. *)
Definition loaded_keys (operations : list Operation) : list string :=
  key <$> filter (λ op, type op = PUT) operations.

(** A load file of five keys and a scan of two keys from "02" on. *)
Definition load_five : list Operation :=
  [mkOperation PUT "03" "*" 0; mkOperation PUT "01" "*" 0; mkOperation GET "09" "" 0;
   mkOperation PUT "05" "*" 0; mkOperation PUT "02" "*" 0; mkOperation PUT "04" "*" 0].
Definition scan_two : Operation := mkOperation SCAN "02" "" 2.

End Driver.

(** * Node occupancy in the B+ tree *)

Module NodeCapacity.
Import BPlusTree.

Section capacity.
Context {K V : Type} `{EqDecision K, KeyOrder K, Countable V}.
Variable ORDER : nat.

Local Abbreviation Node := (BPlusTree.Node (K:=K) (V:=V)).

(** A node holds no more keys than its kind allows, a leaf one value set
    for each key, an internal node one child more than keys. *)
Definition fits (nd : Node) : Prop :=
  if is_leaf nd
  then length (keys nd) ≤ MAX_KEYS_LEAF ORDER ∧ length (values nd) = length (keys nd)
  else (Z.of_nat (length (keys nd)) ≤ MAX_KEYS_INTERNAL ORDER)%Z ∧
       length (children nd) = S (length (keys nd)).

(** A node is at least half full. *)
Definition half_full (nd : Node) : Prop :=
  if is_leaf nd then MIN_KEYS_LEAF ORDER ≤ length (keys nd)
  else MIN_CHILDREN_INTERNAL ORDER ≤ length (children nd).

(** Every node of the store fits; every node but [x] fits; every node
    outside [E] is at least half full. *)
Definition capacity_ok (h : gmap loc Node) : Prop :=
  ∀ y nd, h !! y = Some nd → fits nd.
Definition capacity_but (x : loc) (h : gmap loc Node) : Prop :=
  ∀ y nd, h !! y = Some nd → y ≠ x → fits nd.
Definition half_ok (E : gset loc) (h : gmap loc Node) : Prop :=
  ∀ y nd, h !! y = Some nd → y ∉ E → half_full nd.

(** What an insert below [l] leaves: every node fits, and the nodes
    outside [E] are half full, [l] too if it was split. *)
Definition after_insert (E : gset loc) (l : loc) (h' : gmap loc Node)
    (r : option (loc * K)) : Prop :=
  capacity_ok h' ∧ half_ok (if r then E ∖ {[l]} else E) h'.

End capacity.
End NodeCapacity.

(** * More concrete trees *)

Module MoreExamples.
Import Examples.

(** A B+ tree of order 4 holding one key. *)
Definition one_key_tree : BPlusTree.t (K:=string) (V:=string) :=
  default bplus_empty (BPlusTree.run 4 [("01", "a")] bplus_empty).

(** A leaf of an order 4 tree just after a fifth key went in. *)
Definition five_key_node : BPlusTree.Node (K:=string) (V:=string) :=
  BPlusTree.mkNode ["01"; "02"; "03"; "04"; "05"]
    [{["a"]}; {["b"]}; {["c"]}; {["d"]}; {["e"]}] [] None true.
Definition five_key_leaf : gmap loc (BPlusTree.Node (K:=string) (V:=string)) :=
  {[1%positive := five_key_node]}.

(** An internal node of an order 4 tree just after a fourth key went in. *)
Definition four_key_node : BPlusTree.Node (K:=string) (V:=string) :=
  BPlusTree.mkNode ["02"; "04"; "06"; "08"] []
    [2%positive; 3%positive; 4%positive; 5%positive; 6%positive] None false.
Definition four_key_internal : gmap loc (BPlusTree.Node (K:=string) (V:=string)) :=
  {[1%positive := four_key_node]}.

(** A skip list run in which a removed node is unlinked by a later
    search for a greater key. *)
Definition unlink_ops : list (LockFreeSkipList.op (K:=string) (V:=string)) :=
  [LockFreeSkipList.Insert "a" "x" [true];
   LockFreeSkipList.Insert "b" "y" [];
   LockFreeSkipList.Remove "a";
   LockFreeSkipList.Search "c"].

(** Inserts that leave two nodes on level 1 and four on level 0. *)
Definition two_level_ops : list (LockFreeSkipList.op (K:=string) (V:=string)) :=
  [LockFreeSkipList.Insert "b" "x" [true; false];
   LockFreeSkipList.Insert "f" "y" [true; false];
   LockFreeSkipList.Insert "a" "z" [];
   LockFreeSkipList.Insert "c" "w" []].

(** The skip list holding "d", and what it becomes when a [remove("b")]
    runs between the two steps of an [insert("b", "x")] that draws
    level 2. *)
Definition list_d : LockFreeSkipList.t (K:=string) (V:=string) :=
  default LockFreeSkipList.empty
    (LockFreeSkipList.run [LockFreeSkipList.Insert "d" "w" []] LockFreeSkipList.empty).

Definition overlapped : option (LockFreeSkipList.t (K:=string) (V:=string)) :=
  '(p, s) ← LockFreeSkipListSteps.insert_publish
              (LockFreeSkipList.fuel_of list_d) "b" "x" [true; false] list_d;
  '(_, s) ← LockFreeSkipList.remove "b" s;
  '(_, s) ← LockFreeSkipListSteps.insert_link p s;
  Some s.

Definition overlapped_list : LockFreeSkipList.t (K:=string) (V:=string) :=
  default LockFreeSkipList.empty overlapped.

(** That list after a [remove("d")]. *)
Definition overlapped_removed : LockFreeSkipList.t (K:=string) (V:=string) :=
  default overlapped_list (snd <$> LockFreeSkipList.remove "d" overlapped_list).

End MoreExamples.

From Stdlib Require Import OrderedTypeEx.
From stdpp Require Import base gmap sets list strings sorting.

(** * The order on [std::string] keys *)

Lemma string_ltb_lt (a b : string) : String.ltb a b = true ↔ String_as_OT.lt a b.
Proof.
  rewrite <-String_as_OT.cmp_lt. unfold String.ltb, String_as_OT.cmp.
  destruct (String.compare a b); split; congruence.
Qed.

#[export] Instance string_key_laws : KeyOrderLaws string.
Proof.
  split; unfold klt, string_key_order.
  - intros a. unfold String.ltb.
    assert (String_as_OT.cmp a a = Eq) as Heq by by apply String_as_OT.cmp_eq.
    unfold String_as_OT.cmp in Heq. by rewrite Heq.
  - intros a b c. rewrite !string_ltb_lt. apply String_as_OT.lt_trans.
  - intros a b Hab Hba. apply String_as_OT.cmp_eq.
    unfold String.ltb in *. pose proof (String_as_OT.cmp_antisym b a) as Hanti.
    unfold String_as_OT.cmp in *.
    destruct (String.compare a b); [done|done|].
    simpl in Hanti. by rewrite Hanti in Hba.
Qed.

(** * Consequences of the order laws *)

Module KeyOrderFacts.
Section order.
Context {K : Type} `{KeyOrderLaws K}.

Lemma klt_asym (a b : K) : klt a b = true → klt b a = false.
Proof.
  intros Hab. destruct (klt b a) eqn:Hba; [|done].
  pose proof (klt_trans _ _ _ Hab Hba) as Haa. by rewrite klt_irrefl in Haa.
Qed.

Lemma klt_le_trans (a b c : K) : klt a b = true → klt c b = false → klt a c = true.
Proof.
  intros Hab Hcb. destruct (klt a c) eqn:Hac; [done|].
  destruct (klt c a) eqn:Hca.
  - by rewrite (klt_trans _ _ _ Hca Hab) in Hcb.
  - pose proof (klt_total _ _ Hac Hca) as ->. congruence.
Qed.

Lemma kle_lt_trans (a b c : K) : klt b a = false → klt b c = true → klt a c = true.
Proof.
  intros Hba Hbc. destruct (klt a c) eqn:Hac; [done|].
  destruct (klt c a) eqn:Hca.
  - by rewrite (klt_trans _ _ _ Hbc Hca) in Hba.
  - pose proof (klt_total _ _ Hac Hca) as ->. congruence.
Qed.

Lemma kle_trans (a b c : K) : klt b a = false → klt c b = false → klt c a = false.
Proof.
  intros Hba Hcb. destruct (klt c a) eqn:Hca; [|done].
  by rewrite (klt_le_trans _ _ _ Hca Hba) in Hcb.
Qed.

Lemma klt_neq (a b : K) : klt a b = true → a ≠ b.
Proof. intros Hab ->. by rewrite klt_irrefl in Hab. Qed.

End order.
End KeyOrderFacts.

From stdpp Require Import base gmap sets list strings sorting.

(** * The sharded hash index: proofs *)

Module InvertedIndexFacts.
Import InvertedIndex.
Section facts.
Context {K V : Type} `{Countable K, Countable V}.
Variable NUM_SHARDS : nat.
Variable hash : K → nat.
Hypothesis NUM_SHARDS_pos : 0 < NUM_SHARDS.

Local Abbreviation shard_of := (shard_of NUM_SHARDS hash).
Local Abbreviation getShard := (getShard NUM_SHARDS hash).
Local Abbreviation getOrCreateBucket := (getOrCreateBucket NUM_SHARDS hash).
Local Abbreviation insert := (insert NUM_SHARDS hash).
Local Abbreviation search := (search NUM_SHARDS hash).
Local Abbreviation remove := (remove NUM_SHARDS hash).
Local Abbreviation remove_value := (remove_value NUM_SHARDS hash).
Local Abbreviation wf := (wf NUM_SHARDS hash).
Local Abbreviation present := (present NUM_SHARDS hash).
Local Abbreviation state := (t (K:=K) (V:=V)).

Lemma shard_of_lt k : shard_of k < NUM_SHARDS.
Proof. unfold InvertedIndex.shard_of. apply Nat.mod_upper_bound. lia. Qed.

Lemma getShard_lookup k (s : state) :
  length (shards s) = NUM_SHARDS →
  shards s !! shard_of k = Some (getShard k s).
Proof.
  intros Hlen. unfold InvertedIndex.getShard.
  apply list_lookup_lookup_total_lt. rewrite Hlen. apply shard_of_lt.
Qed.

(** Reading shard [i] after shard [j] was replaced. *)
Lemma lookup_shard_insert (l : list (gmap K loc)) i j sh sh' :
  <[j := sh']> l !! i = Some sh →
  (i = j ∧ sh = sh' ∧ j < length l) ∨ (i ≠ j ∧ l !! i = Some sh).
Proof.
  intros Hl. destruct (decide (i = j)) as [->|Hne].
  - destruct (decide (j < length l)) as [Hlt|Hge].
    + rewrite list_lookup_insert_eq in Hl by done. left. naive_solver.
    + rewrite list_insert_ge in Hl by lia.
      apply lookup_lt_Some in Hl. lia.
  - rewrite list_lookup_insert_ne in Hl by done. by right.
Qed.

Lemma wf_empty : wf (empty NUM_SHARDS : state).
Proof.
  split; simpl.
  - by rewrite length_replicate.
  - intros i sh k b [-> _]%lookup_replicate Hk. by rewrite lookup_empty in Hk.
  - intros i sh k b [-> _]%lookup_replicate Hk. by rewrite lookup_empty in Hk.
  - intros i sh k b i' sh' k' [-> _]%lookup_replicate Hk. by rewrite lookup_empty in Hk.
Qed.

Lemma search_fresh_key (s : state) k :
  getShard k s !! k = None → search k s = ∅.
Proof. intros Hk. unfold InvertedIndex.search. by rewrite Hk. Qed.

(** What [getOrCreateBucket] hands back: the bucket now registered for
    [key], holding what [search] saw before. *)
Lemma getOrCreateBucket_spec (s : state) key b s1 :
  wf s → getOrCreateBucket key s = (b, s1) →
  wf s1 ∧ getShard key s1 !! key = Some b ∧
  buckets s1 !!! b = search key s ∧
  (∀ k, k ≠ key → search k s1 = search k s) ∧
  (∀ i sh k b', shards s1 !! i = Some sh → sh !! k = Some b' → k ≠ key → b' ≠ b).
Proof.
  intros Hwf. unfold InvertedIndex.getOrCreateBucket.
  pose proof (getShard_lookup key s (wf_length _ _ _ Hwf)) as Hsh.
  destruct (getShard key s !! key) as [b0|] eqn:Hk; intros [= <- <-].
  - split_and!; try done.
    + unfold InvertedIndex.search. by rewrite Hk.
    + intros i sh k b' Hi Hb' Hne ->.
      apply Hne. symmetry. exact (wf_inj _ _ _ Hwf _ _ _ _ _ _ _ Hsh Hk Hi Hb').
  - set (b := fresh (dom (buckets s))).
    assert (Hfresh : buckets s !! b = None).
    { apply not_elem_of_dom. apply is_fresh. }
    assert (Hlt : shard_of key < length (shards s)).
    { rewrite (wf_length _ _ _ Hwf). apply shard_of_lt. }
    assert (Hother : ∀ i sh k b',
      <[shard_of key := <[key := b]> (getShard key s)]> (shards s) !! i = Some sh →
      sh !! k = Some b' → k ≠ key →
      ∃ sh0, shards s !! i = Some sh0 ∧ sh0 !! k = Some b').
    { intros i sh k b' Hi Hb' Hne.
      apply lookup_shard_insert in Hi as [(-> & -> & _)|[Hne' Hi]].
      - rewrite lookup_insert_ne in Hb' by done. eauto.
      - eauto. }
    split_and!.
    + split; simpl.
      * rewrite length_insert. apply Hwf.
      * intros i sh k b' Hi Hb'. destruct (decide (k = key)) as [->|Hne].
        -- apply lookup_shard_insert in Hi as [(-> & -> & _)|[Hne' Hi]]; [done|].
           exfalso. pose proof (wf_home _ _ _ Hwf _ _ _ _ Hi Hb') as ->.
           done.
        -- destruct (Hother _ _ _ _ Hi Hb' Hne) as (sh0 & Hi0 & Hb0).
           eapply (wf_home _ _ _ Hwf); eauto.
      * intros i sh k b' Hi Hb'. destruct (decide (k = key)) as [->|Hne].
        -- apply lookup_shard_insert in Hi as [(-> & -> & _)|[Hne' Hi]].
           ++ rewrite lookup_insert_eq in Hb'. injection Hb' as <-.
              rewrite lookup_insert_eq. eauto.
           ++ exfalso. pose proof (wf_home _ _ _ Hwf _ _ _ _ Hi Hb') as ->. done.
        -- destruct (Hother _ _ _ _ Hi Hb' Hne) as (sh0 & Hi0 & Hb0).
           destruct (wf_alloc _ _ _ Hwf _ _ _ _ Hi0 Hb0) as [vs Hvs].
           rewrite lookup_insert_ne; [eauto|]. intros <-. congruence.
      * assert (Hkey : ∀ i sh b', 
          <[shard_of key := <[key := b]> (getShard key s)]> (shards s) !! i = Some sh →
          sh !! key = Some b' → b' = b).
        { intros i sh b' Hi Hb'.
          apply lookup_shard_insert in Hi as [(-> & -> & _)|[Hne' Hi]].
          - rewrite lookup_insert_eq in Hb'. congruence.
          - exfalso. pose proof (wf_home _ _ _ Hwf _ _ _ _ Hi Hb') as ->. done. }
        assert (Hnb : ∀ i sh k b',
          <[shard_of key := <[key := b]> (getShard key s)]> (shards s) !! i = Some sh →
          sh !! k = Some b' → k ≠ key → b' ≠ b).
        { intros i sh k b' Hi Hb' Hne ->.
          destruct (Hother _ _ _ _ Hi Hb' Hne) as (sh0 & Hi0 & Hb0).
          destruct (wf_alloc _ _ _ Hwf _ _ _ _ Hi0 Hb0) as [vs Hvs]. congruence. }
        intros i sh k b' i' sh' k' Hi Hb' Hi' Hb''.
        destruct (decide (k = key)) as [->|Hne], (decide (k' = key)) as [->|Hne'];
          try done.
        -- pose proof (Hkey _ _ _ Hi Hb') as ->. by destruct (Hnb _ _ _ _ Hi' Hb'' Hne').
        -- pose proof (Hkey _ _ _ Hi' Hb'') as ->. by destruct (Hnb _ _ _ _ Hi Hb' Hne).
        -- destruct (Hother _ _ _ _ Hi Hb' Hne) as (sh0 & Hi0 & Hb0).
           destruct (Hother _ _ _ _ Hi' Hb'' Hne') as (sh1 & Hi1 & Hb1).
           exact (wf_inj _ _ _ Hwf _ _ _ _ _ _ _ Hi0 Hb0 Hi1 Hb1).
    + unfold InvertedIndex.getShard; simpl.
      rewrite list_lookup_total_insert_eq by done. apply lookup_insert_eq.
    + simpl. rewrite lookup_total_insert_eq.
      unfold InvertedIndex.search. by rewrite Hk.
    + intros k Hne. unfold InvertedIndex.search, InvertedIndex.getShard at 1; simpl.
      destruct (decide (shard_of k = shard_of key)) as [Heq|Hneq].
      * rewrite Heq, list_lookup_total_insert_eq by done.
        rewrite lookup_insert_ne by done.
        unfold InvertedIndex.getShard at 2. rewrite Heq.
        fold (getShard key s).
        destruct (getShard key s !! k) as [b'|] eqn:Hb'; [|done].
        rewrite lookup_total_insert_ne; [done|]. intros <-.
        destruct (wf_alloc _ _ _ Hwf _ _ _ _ Hsh Hb'). congruence.
      * rewrite list_lookup_total_insert_ne by done.
        fold (getShard k s).
        destruct (getShard k s !! k) as [b'|] eqn:Hb'; [|done].
        rewrite lookup_total_insert_ne; [done|]. intros <-.
        pose proof (getShard_lookup k s (wf_length _ _ _ Hwf)) as Hshk.
        destruct (wf_alloc _ _ _ Hwf _ _ _ _ Hshk Hb'). congruence.
    + simpl. intros i sh k b' Hi Hb' Hne ->.
      destruct (Hother _ _ _ _ Hi Hb' Hne) as (sh0 & Hi0 & Hb0).
      destruct (wf_alloc _ _ _ Hwf _ _ _ _ Hi0 Hb0) as [vs Hvs]. congruence.
Qed.


Lemma getShard_update key (s : state) m (bs : gmap loc (gset V)) k :
  length (shards s) = NUM_SHARDS →
  getShard k (mk (<[shard_of key := m]> (shards s)) bs) !! k =
  if decide (shard_of k = shard_of key) then m !! k else getShard k s !! k.
Proof.
  intros Hlen. unfold InvertedIndex.getShard; simpl. case_decide as Heq.
  - rewrite Heq, list_lookup_total_insert_eq; [done|].
    rewrite Hlen. apply shard_of_lt.
  - by rewrite list_lookup_total_insert_ne.
Qed.

(** An entry of a well-formed store is the one [search] reads. *)
Lemma wf_entry (s : state) i sh k b :
  wf s → shards s !! i = Some sh → sh !! k = Some b →
  getShard k s !! k = Some b ∧ search k s = buckets s !!! b.
Proof.
  intros Hwf Hi Hb.
  pose proof (wf_home _ _ _ Hwf _ _ _ _ Hi Hb) as ->.
  pose proof (getShard_lookup k s (wf_length _ _ _ Hwf)) as Hsh.
  assert (sh = getShard k s) as -> by congruence.
  split; [done|]. unfold InvertedIndex.search. by rewrite Hb.
Qed.

Lemma buckets_nonempty_alt (s : state) :
  wf s → buckets_nonempty s ↔ ∀ k, present k s → search k s ≠ ∅.
Proof.
  intros Hwf. split.
  - intros Hne k [b Hb].
    pose proof (getShard_lookup k s (wf_length _ _ _ Hwf)) as Hsh.
    destruct (wf_entry _ _ _ _ _ Hwf Hsh Hb) as [_ ->]. eapply Hne; eauto.
  - intros Hne i sh k b Hi Hb.
    destruct (wf_entry _ _ _ _ _ Hwf Hi Hb) as [Hk <-].
    apply Hne. by exists b.
Qed.

(** Dropping entries keeps a store well formed. *)
Lemma wf_sub (s s' : state) :
  wf s → length (shards s') = NUM_SHARDS →
  (∀ i sh' k b, shards s' !! i = Some sh' → sh' !! k = Some b →
     ∃ sh, shards s !! i = Some sh ∧ sh !! k = Some b) →
  (∀ b, is_Some (buckets s !! b) → is_Some (buckets s' !! b)) →
  wf s'.
Proof.
  intros Hwf Hlen Hsub Hbs. split; [done|..].
  - intros i sh k b Hi Hb. destruct (Hsub _ _ _ _ Hi Hb) as (sh0 & Hi0 & Hb0).
    exact (wf_home _ _ _ Hwf _ _ _ _ Hi0 Hb0).
  - intros i sh k b Hi Hb. destruct (Hsub _ _ _ _ Hi Hb) as (sh0 & Hi0 & Hb0).
    apply Hbs. exact (wf_alloc _ _ _ Hwf _ _ _ _ Hi0 Hb0).
  - intros i sh k b i' sh' k' Hi Hb Hi' Hb'.
    destruct (Hsub _ _ _ _ Hi Hb) as (sh0 & Hi0 & Hb0).
    destruct (Hsub _ _ _ _ Hi' Hb') as (sh1 & Hi1 & Hb1).
    exact (wf_inj _ _ _ Hwf _ _ _ _ _ _ _ Hi0 Hb0 Hi1 Hb1).
Qed.

Lemma erase_sub key (s : state) i sh' k b :
  length (shards s) = NUM_SHARDS →
  <[shard_of key := delete key (getShard key s)]> (shards s) !! i = Some sh' →
  sh' !! k = Some b →
  ∃ sh, shards s !! i = Some sh ∧ sh !! k = Some b.
Proof.
  intros Hlen Hi Hb.
  apply lookup_shard_insert in Hi as [(-> & -> & _)|[Hne Hi]]; [|eauto].
  exists (getShard key s). split; [by apply getShard_lookup|].
  apply lookup_delete_Some in Hb. tauto.
Qed.

Lemma getOrCreateBucket_present (s : state) key b s1 k :
  wf s → getOrCreateBucket key s = (b, s1) →
  present k s1 ↔ k = key ∨ present k s.
Proof.
  intros Hwf. unfold InvertedIndex.getOrCreateBucket, InvertedIndex.present.
  destruct (getShard key s !! key) as [b0|] eqn:Hk; intros [= <- <-].
  - split; [tauto|]. intros [->|?]; [|done]. by rewrite Hk.
  - rewrite getShard_update by apply Hwf.
    destruct (decide (k = key)) as [->|Hne].
    + rewrite decide_True by done. rewrite lookup_insert_eq. split; eauto.
    + case_decide as Heq.
      * rewrite lookup_insert_ne by done.
        unfold InvertedIndex.getShard. rewrite Heq. tauto.
      * tauto.
Qed.

Lemma insert_spec key value (s : state) :
  wf s →
  wf (insert key value s).2 ∧
  (insert key value s).1 = bool_decide (value ∉ search key s) ∧
  search key (insert key value s).2 = {[value]} ∪ search key s ∧
  (∀ k, k ≠ key → search k (insert key value s).2 = search k s) ∧
  (∀ k, present k (insert key value s).2 ↔ k = key ∨ present k s).
Proof.
  intros Hwf. unfold InvertedIndex.insert.
  destruct (getOrCreateBucket key s) as [b s1] eqn:Hg.
  destruct (getOrCreateBucket_spec _ _ _ _ Hwf Hg) as (Hwf1 & Hb & Hvs & Hframe & Hnb).
  simpl. split_and!.
  - apply (wf_sub s1); simpl; [done|apply Hwf1|eauto|].
    intros b' Hb'. destruct (decide (b = b')) as [->|Hne].
    + rewrite lookup_insert_eq; eauto.
    + by rewrite lookup_insert_ne.
  - by rewrite Hvs.
  - unfold InvertedIndex.search, InvertedIndex.getShard; simpl.
    fold (getShard key s1). rewrite Hb, lookup_total_insert_eq. by rewrite Hvs.
  - intros k Hne. rewrite <-(Hframe k Hne).
    unfold InvertedIndex.search, InvertedIndex.getShard; simpl.
    fold (getShard k s1). destruct (getShard k s1 !! k) as [b'|] eqn:Hb'; [|done].
    rewrite lookup_total_insert_ne; [done|]. intros <-.
    pose proof (getShard_lookup k s1 (wf_length _ _ _ Hwf1)) as Hsh.
    by destruct (Hnb _ _ _ _ Hsh Hb' Hne).
  - intros k. rewrite <-(getOrCreateBucket_present _ _ _ _ k Hwf Hg). done.
Qed.

Lemma remove_spec key (s : state) :
  wf s →
  wf (remove key s).2 ∧
  ((remove key s).1 = true ↔ present key s) ∧
  search key (remove key s).2 = ∅ ∧
  (∀ k, k ≠ key → search k (remove key s).2 = search k s) ∧
  (∀ k, present k (remove key s).2 ↔ k ≠ key ∧ present k s).
Proof.
  intros Hwf. unfold InvertedIndex.remove, InvertedIndex.present.
  destruct (getShard key s !! key) as [b|] eqn:Hk; simpl.
  - assert (Hlook : ∀ k (bs : gmap loc (gset V)),
      getShard k (mk (<[shard_of key := delete key (getShard key s)]> (shards s)) bs) !! k
      = if decide (k = key) then None else getShard k s !! k).
    { intros k bs. rewrite getShard_update by apply Hwf.
      destruct (decide (k = key)) as [->|Hne].
      - rewrite decide_True by done. apply lookup_delete_eq.
      - case_decide as Heq; [|done]. rewrite lookup_delete_ne by done.
        unfold InvertedIndex.getShard. by rewrite Heq. }
    split_and!.
    + apply (wf_sub s); simpl; [done| |intros ????; apply erase_sub, Hwf|done].
      rewrite length_insert. apply Hwf.
    + split; eauto.
    + unfold InvertedIndex.search. rewrite Hlook. by rewrite decide_True.
    + intros k Hne. unfold InvertedIndex.search. rewrite Hlook.
      by rewrite decide_False.
    + intros k. rewrite Hlook. case_decide as Hd.
      * split; [by intros []|tauto].
      * tauto.
  - split_and!.
    + done.
    + split; [done|]. intros [? ?]; congruence.
    + unfold InvertedIndex.search. by rewrite Hk.
    + done.
    + intros k. split; [|tauto]. intros Hp. split; [|done].
      intros ->. destruct Hp. congruence.
Qed.

Lemma remove_value_spec key value (s : state) :
  wf s →
  wf (remove_value key value s).2 ∧
  (remove_value key value s).1 = bool_decide (value ∈ search key s) ∧
  search key (remove_value key value s).2 = search key s ∖ {[value]} ∧
  (∀ k, k ≠ key → search k (remove_value key value s).2 = search k s) ∧
  (∀ k, present k (remove_value key value s).2 ↔
        present k s ∧ ¬ (k = key ∧ value ∈ search key s ∧
                         search key s ∖ {[value]} = ∅)).
Proof.
  intros Hwf. unfold InvertedIndex.remove_value, InvertedIndex.present.
  pose proof (getShard_lookup key s (wf_length _ _ _ Hwf)) as Hsh.
  destruct (getShard key s !! key) as [b|] eqn:Hk; simpl.
  2:{ split_and!.
      - done.
      - unfold InvertedIndex.search. rewrite Hk.
        rewrite bool_decide_eq_false_2; [done|set_solver].
      - unfold InvertedIndex.search. rewrite Hk. set_solver.
      - done.
      - intros k. split; [|tauto]. intros Hp. split; [done|].
        intros (-> & _). destruct Hp. congruence. }
  assert (Hs : search key s = buckets s !!! b).
  { unfold InvertedIndex.search. by rewrite Hk. }
  rewrite <-Hs.
  assert (Hbs : ∀ b', is_Some (buckets s !! b') →
                is_Some (<[b := search key s ∖ {[value]}]> (buckets s) !! b')).
  { intros b' Hb'. destruct (decide (b = b')) as [->|Hne].
    - rewrite lookup_insert_eq; eauto.
    - by rewrite lookup_insert_ne. }
  assert (Hother : ∀ k b', k ≠ key → getShard k s !! k = Some b' →
     <[b := search key s ∖ {[value]}]> (buckets s) !!! b' = buckets s !!! b').
  { intros k b' Hne Hb'. rewrite lookup_total_insert_ne; [done|]. intros <-.
    pose proof (getShard_lookup k s (wf_length _ _ _ Hwf)) as Hshk.
    apply Hne. exact (wf_inj _ _ _ Hwf _ _ _ _ _ _ _ Hshk Hb' Hsh Hk). }
  destruct (bool_decide (value ∈ search key s)
            && bool_decide (search key s ∖ {[value]} = ∅)) eqn:Hcond; simpl.
  - apply andb_true_iff in Hcond as [Hin%bool_decide_eq_true Hemp%bool_decide_eq_true].
    assert (Hlook : ∀ k (bs : gmap loc (gset V)),
      getShard k (mk (<[shard_of key := delete key (getShard key s)]> (shards s)) bs) !! k
      = if decide (k = key) then None else getShard k s !! k).
    { intros k bs. rewrite getShard_update by apply Hwf.
      destruct (decide (k = key)) as [->|Hne].
      - rewrite decide_True by done. apply lookup_delete_eq.
      - case_decide as Heq; [|done]. rewrite lookup_delete_ne by done.
        unfold InvertedIndex.getShard. by rewrite Heq. }
    split_and!.
    + apply (wf_sub s); simpl; [done| |intros ????; apply erase_sub, Hwf|done].
      rewrite length_insert. apply Hwf.
    + by rewrite bool_decide_eq_true_2.
    + unfold InvertedIndex.search at 1. rewrite Hlook. by rewrite decide_True.
    + intros k Hne. unfold InvertedIndex.search. rewrite Hlook.
      rewrite decide_False by done.
      destruct (getShard k s !! k) as [b'|] eqn:Hb'; [|done]. simpl. eauto.
    + intros k. rewrite Hlook. case_decide as Hd.
      * split; [by intros []|]. intros [_ Hn]. by destruct Hn.
      * split; [|tauto]. intros Hp. split; [done|]. by intros [? _].
  - split_and!.
    + apply (wf_sub s); simpl; [done|apply Hwf|eauto|done].
    + done.
    + unfold InvertedIndex.search at 1, InvertedIndex.getShard; simpl.
      fold (getShard key s). rewrite Hk. apply lookup_total_insert_eq.
    + intros k Hne. unfold InvertedIndex.search, InvertedIndex.getShard; simpl.
      fold (getShard k s).
      destruct (getShard k s !! k) as [b'|] eqn:Hb'; [|done]. eauto.
    + intros k. unfold InvertedIndex.getShard at 1; simpl. fold (getShard k s).
      split; [|tauto]. intros Hp. split; [done|]. intros (-> & Hin & Hemp).
      apply andb_false_iff in Hcond as [Hc|Hc]; apply bool_decide_eq_false in Hc; done.
Qed.

(** Complete operations keep the store well formed and every registered
    bucket non-empty. *)
Lemma step_wf o (s : state) : wf s → wf (step NUM_SHARDS hash o s).2.
Proof.
  intros Hwf. destruct o as [k v|k|k v]; simpl.
  - by apply insert_spec.
  - by apply remove_spec.
  - by apply remove_value_spec.
Qed.

Lemma step_nonempty o (s : state) :
  wf s → buckets_nonempty s → buckets_nonempty (step NUM_SHARDS hash o s).2.
Proof.
  intros Hwf Hne. pose proof (step_wf o s Hwf) as Hwf'.
  rewrite buckets_nonempty_alt in Hne by done.
  rewrite buckets_nonempty_alt by done.
  destruct o as [key v|key|key v]; simpl in *; intros k Hp.
  - destruct (insert_spec key v s Hwf) as (_ & _ & Hk & Hframe & Hpres).
    destruct (decide (k = key)) as [->|Hneq].
    + rewrite Hk. set_solver.
    + rewrite Hframe by done. apply Hne. apply Hpres in Hp as [?|?]; done.
  - destruct (remove_spec key s Hwf) as (_ & _ & Hk & Hframe & Hpres).
    apply Hpres in Hp as [Hneq Hp]. rewrite Hframe by done. by apply Hne.
  - destruct (remove_value_spec key v s Hwf) as (_ & _ & Hk & Hframe & Hpres).
    apply Hpres in Hp as [Hp Hn].
    destruct (decide (k = key)) as [->|Hneq].
    + rewrite Hk. intros Hemp. 
      destruct (decide (v ∈ search key s)) as [Hin|Hnin].
      * apply Hn. done.
      * apply (Hne key Hp). set_solver.
    + rewrite Hframe by done. by apply Hne.
Qed.

Lemma run_wf ops : wf (run NUM_SHARDS hash ops : state) ∧
                   buckets_nonempty (run NUM_SHARDS hash ops : state).
Proof.
  unfold run.
  induction ops as [|o ops IH] using rev_ind.
  - split; [apply wf_empty|]. intros i sh k b [-> _]%lookup_replicate Hk.
    by rewrite lookup_empty in Hk.
  - rewrite foldl_app. simpl. destruct IH as [Hwf Hne].
    split; [by apply step_wf|by apply step_nonempty].
Qed.

End facts.
End InvertedIndexFacts.

From stdpp Require Import base gmap sets list strings sorting.

(** * The B+ tree: proofs *)

Module BPlusTreeFacts.
Import BPlusTree BPlusTreeInv KeyOrderFacts.

Section facts.
Context {K V : Type} `{EqDecision K, KeyOrderLaws K, Countable V}.

Local Abbreviation Node := (BPlusTree.Node (K:=K) (V:=V)).
Local Abbreviation leaf_abs := (leaf_abs (K:=K) (V:=V)).
Implicit Types (h : gmap loc Node) (lvs : list leaf_abs) (fp : gset loc).
Implicit Types (lo hi : option K) (l c x : loc) (key k : K).

(** ** Bounds *)

Lemma in_range_left lo hi k k' :
  sep_range lo hi k → in_range lo (Some k) k' → in_range lo hi k'.
Proof.
  intros [_ Hhi] [Hlo Hx]. split; [done|].
  destruct hi as [u|]; [|done]. simpl in *. by eapply klt_le_trans.
Qed.

Lemma in_range_sep lo hi k : in_range lo hi k → sep_range lo hi k.
Proof.
  intros [Hlo Hhi]. split; [done|].
  destruct hi as [u|]; [|done]. simpl in *. by apply klt_asym.
Qed.

Lemma sep_range_left lo hi k k' :
  sep_range lo hi k → sep_range lo (Some k) k' → sep_range lo hi k'.
Proof.
  intros [_ Hhi] [Hlo Hx]. split; [done|].
  destruct hi as [u|]; [|done]. simpl in *. by eapply kle_trans.
Qed.

Lemma in_range_right lo hi k k' :
  sep_range lo hi k → in_range (Some k) hi k' → in_range lo hi k'.
Proof.
  intros [Hlo _] [Hx Hhi]. split; [|done].
  destruct lo as [a|]; [|done]. simpl in *. by eapply kle_trans.
Qed.

(** ** Structure of [kids] and [btree] *)

Lemma kids_impl (P Q : loc → option K → option K → list leaf_abs → gset loc → Prop)
    cs ks lo hi lvs fp :
  (∀ c lo hi lvs fp', fp' ⊆ fp → P c lo hi lvs fp' → Q c lo hi lvs fp') →
  kids P cs ks lo hi lvs fp → kids Q cs ks lo hi lvs fp.
Proof.
  revert ks lo lvs fp. induction cs as [|c cs IH]; intros ks lo lvs fp HPQ; [done|].
  destruct ks as [|k ks]; simpl.
  - intros [-> HP]. split; [done|]. by apply HPQ.
  - intros (Hk & lvs1 & lvs2 & fp1 & fp2 & HP & Hkids & -> & -> & Hdisj).
    split; [done|]. exists lvs1, lvs2, fp1, fp2. split_and!; try done.
    + apply HPQ; [set_solver|done].
    + apply IH; [|done]. intros c' lo' hi' lvs' fp' Hsub. apply HPQ. set_solver.
Qed.

Lemma kids_elim (R : option K → option K → list leaf_abs → gset loc → Prop)
    (P : loc → option K → option K → list leaf_abs → gset loc → Prop)
    cs ks lo hi lvs fp :
  (∀ c lo hi lvs fp, P c lo hi lvs fp → R lo hi lvs fp) →
  (∀ lo k hi lvs1 lvs2 fp1 fp2,
     sep_range lo hi k → R lo (Some k) lvs1 fp1 → R (Some k) hi lvs2 fp2 →
     fp1 ## fp2 → R lo hi (lvs1 ++ lvs2) (fp1 ∪ fp2)) →
  kids P cs ks lo hi lvs fp → R lo hi lvs fp.
Proof.
  intros HP Hstep. revert ks lo lvs fp.
  induction cs as [|c cs IH]; intros ks lo lvs fp; [done|].
  destruct ks as [|k ks]; simpl.
  - intros [_ H']. by eapply HP.
  - intros (Hk & lvs1 & lvs2 & fp1 & fp2 & HP1 & Hkids & -> & -> & Hdisj).
    apply (Hstep lo k hi); eauto.
Qed.

Lemma kids_length (P : loc → option K → option K → list leaf_abs → gset loc → Prop)
    cs ks lo hi lvs fp :
  kids P cs ks lo hi lvs fp → length cs = S (length ks).
Proof.
  revert ks lo lvs fp. induction cs as [|c cs IH]; intros ks lo lvs fp; [done|].
  destruct ks as [|k ks]; simpl.
  - by intros [-> _].
  - intros (_ & lvs1 & lvs2 & fp1 & fp2 & _ & Hkids & _). f_equal. eauto.
Qed.

Lemma btree_frame n h h' l lo hi lvs fp :
  (∀ x, x ∈ fp → h' !! x = h !! x) →
  btree n h l lo hi lvs fp → btree n h' l lo hi lvs fp.
Proof.
  revert l lo hi lvs fp. induction n as [|n IH]; intros l lo hi lvs fp Hagree; simpl.
  - intros (nd & Hl & Hrest). exists nd. split; [|done].
    rewrite Hagree; [done|]. destruct Hrest as (_ & _ & _ & _ & _ & ->). set_solver.
  - intros (nd & fpk & Hl & Hleaf & Hkids & Hnin & ->).
    exists nd, fpk. split_and!; try done.
    + rewrite Hagree; [done|set_solver].
    + eapply kids_impl; [|done]. intros c lo' hi' lvs' fp' Hsub.
      apply IH. intros x Hx. apply Hagree. set_solver.
Qed.

Lemma btree_dom n h l lo hi lvs fp : btree n h l lo hi lvs fp → fp ⊆ dom h.
Proof.
  revert l lo hi lvs fp. induction n as [|n IH]; intros l lo hi lvs fp; simpl.
  - intros (nd & Hl & _ & _ & _ & _ & _ & ->).
    apply singleton_subseteq_l, elem_of_dom. eauto.
  - intros (nd & fpk & Hl & _ & Hkids & _ & ->).
    apply union_least.
    + apply singleton_subseteq_l, elem_of_dom. eauto.
    + revert Hkids. apply (kids_elim (λ _ _ _ fp, fp ⊆ dom h)).
      * intros c lo' hi' lvs' fp'. apply IH.
      * intros. set_solver.
Qed.

Lemma leaf_entries_range (ks : list K) (vs : list (gset V)) lo hi :
  Forall (in_range lo hi) ks → Forall (λ e, in_range lo hi e.1) (zip ks vs).
Proof.
  intros Hks. revert vs. induction Hks as [|k ks Hk Hks IH]; intros [|v vs]; simpl;
    constructor; eauto.
Qed.

Lemma entries_app lvs1 lvs2 : entries (lvs1 ++ lvs2) = entries lvs1 ++ entries lvs2.
Proof. unfold entries. by rewrite fmap_app, concat_app. Qed.

Lemma btree_range n h l lo hi lvs fp :
  btree n h l lo hi lvs fp → Forall (λ e, in_range lo hi e.1) (entries lvs).
Proof.
  revert l lo hi lvs fp. induction n as [|n IH]; intros l lo hi lvs fp; simpl.
  - intros (nd & _ & _ & _ & _ & Hr & -> & _).
    unfold entries; simpl. rewrite app_nil_r. by apply leaf_entries_range.
  - intros (nd & fpk & _ & _ & Hkids & _ & _). revert Hkids.
    apply (kids_elim (λ lo hi lvs _, Forall (λ e, in_range lo hi e.1) (entries lvs))).
    + intros c lo' hi' lvs' fp'. apply IH.
    + intros lo' k hi' lvs1 lvs2 _ _ Hk Hl Hr _. rewrite entries_app.
      apply Forall_app. split.
      * eapply Forall_impl; [exact Hl|]. intros e. by apply in_range_left.
      * eapply Forall_impl; [exact Hr|]. intros e. by apply in_range_right.
Qed.

(** The leaves of a subtree are distinct nodes of its footprint, and there
    is at least one. *)
Lemma btree_leaf_locs n h l lo hi lvs fp :
  btree n h l lo hi lvs fp →
  NoDup (leaf_locs lvs) ∧ (∀ x, x ∈ leaf_locs lvs → x ∈ fp) ∧ is_Some (first_leaf lvs).
Proof.
  revert l lo hi lvs fp. induction n as [|n IH]; intros l lo hi lvs fp; simpl.
  - intros (nd & _ & _ & _ & _ & _ & -> & ->). simpl. split_and!.
    + apply NoDup_singleton.
    + intros x. set_solver.
    + by eexists.
  - intros (nd & fpk & _ & _ & Hkids & _ & ->).
    assert (NoDup (leaf_locs lvs) ∧ (∀ x, x ∈ leaf_locs lvs → x ∈ fpk) ∧
            is_Some (first_leaf lvs)) as (? & ? & ?); [|set_solver].
    revert Hkids.
    apply (kids_elim (λ _ _ lvs fp, NoDup (leaf_locs lvs) ∧
             (∀ x, x ∈ leaf_locs lvs → x ∈ fp) ∧ is_Some (first_leaf lvs))).
    + intros c lo' hi' lvs' fp'. apply IH.
    + intros _ _ _ lvs1 lvs2 fp1 fp2 _ (Hnd1 & Hin1 & Hf1) (Hnd2 & Hin2 & Hf2) Hdisj.
      unfold leaf_locs. rewrite fmap_app. split_and!.
      * apply NoDup_app. split_and!; [done| |done]. intros x Hx1 Hx2.
        apply (Hdisj x); eauto.
      * intros x [?|?]%elem_of_app; set_solver.
      * destruct lvs1; [by destruct Hf1|]. by eexists.
Qed.

Lemma btree_first_leaf n h l lo hi lvs fp :
  btree n h l lo hi lvs fp → is_Some (first_leaf lvs).
Proof. intros Hb. by apply btree_leaf_locs in Hb as (_ & _ & ?). Qed.

(** A subtree of height [n] has more than [n] nodes. *)
Lemma btree_height n h l lo hi lvs fp : btree n h l lo hi lvs fp → n < size fp.
Proof.
  revert l lo hi lvs fp. induction n as [|n IH]; intros l lo hi lvs fp; simpl.
  - intros (nd & _ & _ & _ & _ & _ & _ & ->). rewrite size_singleton. lia.
  - intros (nd & fpk & _ & _ & Hkids & Hnin & ->).
    rewrite size_union by set_solver. rewrite size_singleton.
    assert (n < size fpk); [|lia]. revert Hkids.
    apply (kids_elim (λ _ _ _ fp, n < size fp)).
    + intros c lo' hi' lvs' fp'. apply IH.
    + intros _ _ _ _ _ fp1 fp2 _ Hl _ Hdisj. rewrite size_union by done. lia.
Qed.

(** ** Vectors *)

Lemma vec_insert_cons {A} p (x a : A) (l : list A) :
  vec_insert (S p) x (a :: l) = (a ::.) <$> vec_insert p x l.
Proof.
  unfold vec_insert; simpl. destruct (decide (p ≤ length l)).
  - rewrite decide_True by lia. done.
  - rewrite decide_False by lia. done.
Qed.

Lemma vec_insert_0 {A} (x : A) (l : list A) : vec_insert 0 x l = Some (x :: l).
Proof. unfold vec_insert. rewrite decide_True by lia. done. Qed.

(** ** Descending one level

    The child chosen by [upper_bound] covers the key; the leaves to its
    left hold smaller keys, the leaves to its right larger ones.  The
    node can be put together again around a changed child, or around
    the two halves of a split child. *)

Lemma kids_range (P : loc → option K → option K → list leaf_abs → gset loc → Prop)
    cs ks lo hi lvs fp :
  (∀ c lo hi lvs fp, P c lo hi lvs fp → Forall (λ e, in_range lo hi e.1) (entries lvs)) →
  kids P cs ks lo hi lvs fp → Forall (λ e, in_range lo hi e.1) (entries lvs).
Proof.
  intros HP.
  apply (kids_elim (λ lo hi lvs _, Forall (λ e, in_range lo hi e.1) (entries lvs))).
  - exact HP.
  - intros lo' k hi' lvs1 lvs2 _ _ Hk Hl Hr _. rewrite entries_app.
    apply Forall_app. split.
    + eapply Forall_impl; [exact Hl|]. intros e. by apply in_range_left.
    + eapply Forall_impl; [exact Hr|]. intros e. by apply in_range_right.
Qed.

Lemma kids_locs (P : loc → option K → option K → list leaf_abs → gset loc → Prop)
    cs ks lo hi lvs fp :
  (∀ c lo hi lvs fp, P c lo hi lvs fp → ∀ x, x ∈ leaf_locs lvs → x ∈ fp) →
  kids P cs ks lo hi lvs fp → ∀ x, x ∈ leaf_locs lvs → x ∈ fp.
Proof.
  intros HP.
  apply (kids_elim (λ _ _ lvs fp, ∀ x, x ∈ leaf_locs lvs → x ∈ fp)).
  - exact HP.
  - intros _ _ _ lvs1 lvs2 fp1 fp2 _ Hl Hr _ x.
    unfold leaf_locs. rewrite fmap_app. intros [?|?]%elem_of_app; set_solver.
Qed.

Lemma kids_focus (P : loc → option K → option K → list leaf_abs → gset loc → Prop)
    cs ks lo hi lvs fp key :
  (∀ c lo hi lvs fp, P c lo hi lvs fp → Forall (λ e, in_range lo hi e.1) (entries lvs)) →
  (∀ c lo hi lvs fp, P c lo hi lvs fp → ∀ x, x ∈ leaf_locs lvs → x ∈ fp) →
  kids P cs ks lo hi lvs fp → in_range lo hi key →
  ∃ c lo' hi' A Lc B fpc fpr,
    cs !! upper_bound ks key = Some c ∧
    P c lo' hi' Lc fpc ∧ in_range lo' hi' key ∧
    lvs = A ++ Lc ++ B ∧ fp = fpc ∪ fpr ∧ fpc ## fpr ∧
    Forall (λ e, klt e.1 key = true) (entries A) ∧
    Forall (λ e, klt key e.1 = true) (entries B) ∧
    (∀ x, x ∈ leaf_locs A ++ leaf_locs B → x ∈ fpr) ∧
    ∀ P' : loc → option K → option K → list leaf_abs → gset loc → Prop,
      (∀ c0 lo0 hi0 L0 f0, f0 ⊆ fpr → P c0 lo0 hi0 L0 f0 → P' c0 lo0 hi0 L0 f0) →
      (∀ Lc' fpc', P' c lo' hi' Lc' fpc' → fpc' ## fpr →
         kids P' cs ks lo hi (A ++ Lc' ++ B) (fpc' ∪ fpr)) ∧
      (∀ sb pk L1 L2 f1 f2,
         P' c lo' (Some pk) L1 f1 → P' sb (Some pk) hi' L2 f2 →
         sep_range lo' hi' pk → f1 ## f2 → (f1 ∪ f2) ## fpr →
         ∃ ks' cs',
           vec_insert (upper_bound ks key) pk ks = Some ks' ∧
           vec_insert (upper_bound ks key + 1) sb cs = Some cs' ∧
           kids P' cs' ks' lo hi (A ++ L1 ++ L2 ++ B) (f1 ∪ f2 ∪ fpr)).
Proof.
  intros Hrange Hlocs. revert ks lo lvs fp.
  induction cs as [|c cs IH]; intros ks lo lvs fp Hkids Hkey; [done|].
  destruct ks as [|k ks]; simpl in Hkids.
  - destruct Hkids as [-> HP]. simpl.
    exists c, lo, hi, [], lvs, [], fp, ∅. split_and!; try done.
    + by rewrite app_nil_r.
    + set_solver.
    + simpl. intros x Hx. by apply elem_of_nil in Hx.
    + intros P' _. split.
      * intros Lc' fpc' HP' _. simpl. rewrite app_nil_r.
        replace (fpc' ∪ ∅) with fpc' by set_solver. done.
      * intros sb pk L1 L2 f1 f2 HP1 HP2 Hpk Hd1 Hd2.
        exists [pk], [c; sb]. split_and!; try done. simpl.
        split; [done|]. exists L1, L2, f1, f2. rewrite app_nil_r.
        split_and!; try done. set_solver.
  - destruct Hkids as (Hk & lvs1 & lvs2 & fp1 & fp2 & HP & Hkids & -> & -> & Hdisj).
    simpl. destruct (klt key k) eqn:Hlt.
    + exists c, lo, (Some k), [], lvs1, lvs2, fp1, fp2. split_and!; try done.
      * split; [apply Hkey|done].
      * apply kids_range in Hkids; [|done].
        eapply Forall_impl; [exact Hkids|]. intros e [Hlo _]. simpl in Hlo.
        by eapply klt_le_trans.
      * simpl. exact (kids_locs _ _ _ _ _ _ _ Hlocs Hkids).
      * intros P' Htr. split.
        -- intros Lc' fpc' HP' Hd. simpl. split; [done|].
           exists Lc', lvs2, fpc', fp2. split_and!; try done.
           eapply kids_impl; [|done]. intros; by apply Htr.
        -- intros sb pk L1 L2 f1 f2 HP1 HP2 Hpk Hd1 Hd2.
           exists (pk :: k :: ks), (c :: sb :: cs). split_and!.
           ++ apply vec_insert_0.
           ++ simpl. rewrite vec_insert_cons, vec_insert_0. done.
           ++ assert (Hk' : sep_range (Some pk) hi k).
              { destruct Hpk as [_ Hpk]. simpl in Hpk. split; [done|apply Hk]. }
              assert (Hkids' : kids P' cs ks (Some k) hi lvs2 fp2).
              { eapply kids_impl; [|done]. intros; by apply Htr. }
              simpl. split; [exact (sep_range_left _ _ _ _ Hk Hpk)|].
              exists L1, (L2 ++ lvs2), f1, (f2 ∪ fp2).
              split; [done|]. split.
              { split; [done|]. exists L2, lvs2, f2, fp2.
                split; [done|]. split; [done|]. split; [done|]. split; [done|].
                set_solver. }
              split; [done|]. split; set_solver.
    + assert (Hkey' : in_range (Some k) hi key) by (split; [done|apply Hkey]).
      destruct (IH ks (Some k) lvs2 fp2 Hkids Hkey')
        as (c0 & lo' & hi' & A & Lc & B & fpc & fpr & Hc0 & HPc & Hin & -> & -> & Hd
            & HA & HB & HAB & Hre).
      exists c0, lo', hi', (lvs1 ++ A), Lc, B, fpc, (fp1 ∪ fpr). split_and!; try done.
      * by rewrite <-app_assoc.
      * set_solver.
      * set_solver.
      * rewrite entries_app. apply Forall_app. split; [|done].
        apply Hrange in HP. eapply Forall_impl; [exact HP|].
        intros e [_ He]. simpl in He. by eapply klt_le_trans.
      * intros x. unfold leaf_locs. rewrite fmap_app, <-app_assoc.
        intros [Hx|Hx]%elem_of_app.
        -- apply elem_of_union_l. by eapply Hlocs.
        -- apply elem_of_union_r. by apply HAB.
      * intros P' Htr.
        destruct (Hre P') as [Hre1 Hre2].
        { intros c1 lo1 hi1 L1 f1 Hsub. apply Htr. set_solver. }
        split.
        -- intros Lc' fpc' HP' Hd'. simpl. split; [done|].
           exists lvs1, (A ++ Lc' ++ B), fp1, (fpc' ∪ fpr). split_and!.
           ++ apply Htr; [set_solver|done].
           ++ apply Hre1; [done|set_solver].
           ++ by rewrite <-app_assoc.
           ++ set_solver.
           ++ set_solver.
        -- intros sb pk L1 L2 f1 f2 HP1 HP2 Hpk Hd1 Hd2.
           destruct (Hre2 sb pk L1 L2 f1 f2) as (ks' & cs' & Hks' & Hcs' & Hkids');
             try done; [set_solver|].
           exists (k :: ks'), (c :: cs'). split_and!.
           ++ rewrite vec_insert_cons, Hks'. done.
           ++ simpl. rewrite vec_insert_cons, Hcs'. done.
           ++ simpl. split; [done|].
              exists lvs1, (A ++ L1 ++ L2 ++ B), fp1, (f1 ∪ f2 ∪ fpr). split_and!.
              ** apply Htr; [set_solver|done].
              ** done.
              ** by rewrite <-app_assoc.
              ** set_solver.
              ** set_solver.
Qed.

(** ** The leaf chain *)

Lemma next_of_app lvs1 lvs2 nxt :
  next_of (lvs1 ++ lvs2) nxt = next_of lvs1 (next_of lvs2 nxt).
Proof. by destruct lvs1. Qed.

Lemma lchain_app h lvs1 lvs2 nxt :
  lchain h (lvs1 ++ lvs2) nxt ↔ lchain h lvs1 (next_of lvs2 nxt) ∧ lchain h lvs2 nxt.
Proof.
  induction lvs1 as [|lf lvs1 IH]; simpl; [tauto|].
  rewrite IH, next_of_app. tauto.
Qed.

Lemma lchain_frame h h' lvs nxt :
  (∀ x, x ∈ leaf_locs lvs → h' !! x = h !! x) →
  lchain h lvs nxt → lchain h' lvs nxt.
Proof.
  induction lvs as [|lf lvs IH]; simpl; [done|].
  intros Hagree [(n & Hn & Hnext) Hrest]. split.
  - exists n. split; [|done]. rewrite Hagree; [done|]. apply list_elem_of_here.
  - apply IH; [|done]. intros x Hx. apply Hagree. by apply list_elem_of_further.
Qed.

Lemma next_of_first lvs lvs' nxt :
  first_leaf lvs' = first_leaf lvs → next_of lvs' nxt = next_of lvs nxt.
Proof. unfold next_of. by intros ->. Qed.

Lemma next_of_is_Some lvs nxt nxt' :
  is_Some (first_leaf lvs) → next_of lvs nxt = next_of lvs nxt'.
Proof. unfold next_of. by intros [l ->]. Qed.

Lemma first_leaf_app lvs1 lvs2 :
  is_Some (first_leaf lvs1) → first_leaf (lvs1 ++ lvs2) = first_leaf lvs1.
Proof. destruct lvs1; [by intros []|done]. Qed.

(** The part of a chain between [A] and [B], and the chain around a
    replacement [Lc'] of it that starts at the same leaf. *)
Lemma lchain_middle h A Lc B nxt :
  lchain h (A ++ Lc ++ B) nxt → lchain h Lc (next_of B nxt).
Proof. rewrite !lchain_app. tauto. Qed.

Lemma lchain_replace h h' A Lc Lc' B nxt :
  lchain h (A ++ Lc ++ B) nxt →
  (∀ x, x ∈ leaf_locs A ++ leaf_locs B → h' !! x = h !! x) →
  lchain h' Lc' (next_of B nxt) →
  first_leaf Lc' = first_leaf Lc → is_Some (first_leaf Lc) →
  lchain h' (A ++ Lc' ++ B) nxt.
Proof.
  rewrite !lchain_app. intros (HA & HLc & HB) Hagree HLc' Hfirst Hsome.
  split_and!.
  - rewrite next_of_app in *.
    rewrite (next_of_first Lc Lc') by done.
    eapply lchain_frame; [|done]. intros x Hx. apply Hagree.
    apply elem_of_app. by left.
  - done.
  - eapply lchain_frame; [|done]. intros x Hx. apply Hagree.
    apply elem_of_app. by right.
Qed.

(** ** Nodes on the way to a key *)

Lemma on_path_refl n h l lo hi lvs fp key :
  btree n h l lo hi lvs fp → in_range lo hi key →
  on_path n h l lo hi lvs fp key n l lo hi lvs fp [] [].
Proof.
  intros Hb Hkey. unfold on_path. split_and!; try done.
  - by rewrite app_nil_r.
  - simpl. intros y Hy. by apply elem_of_nil in Hy.
  - intros h' Ls' fps' _ Hb' Hsub. exists fps'. simpl. rewrite app_nil_r. done.
Qed.

Lemma on_path_step n h l lo hi lvs fp key nd c :
  btree (S n) h l lo hi lvs fp → in_range lo hi key →
  h !! l = Some nd → children nd !! upper_bound (keys nd) key = Some c →
  ∃ lo_c hi_c Lc fpc A B,
    btree n h c lo_c hi_c Lc fpc ∧ in_range lo_c hi_c key ∧
    ∀ m x lo' hi' Ls fps A' B',
      on_path n h c lo_c hi_c Lc fpc key m x lo' hi' Ls fps A' B' →
      on_path (S n) h l lo hi lvs fp key m x lo' hi' Ls fps (A ++ A') (B' ++ B).
Proof.
  intros Hb Hkey Hl Hc. pose proof (btree_dom _ _ _ _ _ _ _ Hb) as Hdom.
  simpl in Hb.
  destruct Hb as (nd' & fpk & Hl' & Hleaf & Hkids & Hnin & ->).
  assert (nd' = nd) as -> by congruence.
  destruct (kids_focus _ _ _ _ _ _ _ key (btree_range n h)
              (λ c lo hi lvs fp Hb, proj1 (proj2 (btree_leaf_locs n h c lo hi lvs fp Hb)))
              Hkids Hkey)
    as (c0 & lo_c & hi_c & A & Lc & B & fpc & fpr & Hc0 & Hbc & Hin & -> & -> & Hd
        & HA & HB & HAB & Hre).
  assert (c0 = c) as -> by congruence.
  exists lo_c, hi_c, Lc, fpc, A, B. split_and!; try done.
  intros m x lo' hi' Ls fps A' B'
    (Hm & Hbx & Hinx & -> & Hfps & HA' & HB' & HAB' & Hre').
  unfold on_path. split_and!; try done.
  - lia.
  - by rewrite <-!app_assoc.
  - set_solver.
  - rewrite entries_app. by apply Forall_app.
  - rewrite entries_app. by apply Forall_app.
  - intros y. unfold leaf_locs. rewrite !fmap_app.
    intros Hy. 
    assert (y ∈ leaf_locs A ++ leaf_locs B ∨ y ∈ leaf_locs A' ++ leaf_locs B') as [Hy'|Hy'].
    { unfold leaf_locs. set_solver. }
    + apply HAB in Hy'. set_solver.
    + apply HAB' in Hy'. set_solver.
  - intros h' Ls' fps' Hframe Hbx' Hsub.
    destruct (Hre' h' Ls' fps' Hframe Hbx' Hsub) as (fpc' & Hbc' & Hsubc).
    destruct (Hre (btree n h')) as [Hre1 _].
    { intros c0 lo0 hi0 L0 f0 Hf0 Hb0. eapply btree_frame; [|done].
      intros y Hy. apply Hframe; set_solver. }
    assert (Hd' : fpc' ## fpr) by set_solver.
    specialize (Hre1 _ _ Hbc' Hd').
    exists ({[l]} ∪ (fpc' ∪ fpr)). split.
    + simpl. exists nd, (fpc' ∪ fpr). split_and!; try done.
      * rewrite Hframe; [done|apply elem_of_dom; eauto|set_solver].
      * by rewrite <-!app_assoc in *.
      * assert (l ∈ dom h) by (apply elem_of_dom; eauto). set_solver.
    + set_solver.
Qed.

Lemma find_leaf_spec n h l lo hi lvs fp key fuel :
  btree n h l lo hi lvs fp → in_range lo hi key → n < fuel →
  ∃ x lo' hi' Ls fps A B,
    find_leaf fuel h l key = Some x ∧
    on_path n h l lo hi lvs fp key 0 x lo' hi' Ls fps A B.
Proof.
  revert h l lo hi lvs fp fuel.
  induction n as [|n IH]; intros h l lo hi lvs fp fuel Hb Hkey Hfuel;
    (destruct fuel as [|fuel]; [lia|]).
  - exists l, lo, hi, lvs, fp, [], []. split; [|by apply on_path_refl].
    destruct Hb as (nd & Hl & Hleaf & _). simpl. rewrite Hl. simpl. by rewrite Hleaf.
  - pose proof Hb as (nd & fpk & Hl & Hleaf & Hkids & _).
    destruct (kids_focus _ _ _ _ _ _ _ key (btree_range n h)
                (λ c lo hi lvs fp Hb, proj1 (proj2 (btree_leaf_locs n h c lo hi lvs fp Hb)))
                Hkids Hkey) as (c & _ & _ & _ & _ & _ & _ & _ & Hc & _).
    destruct (on_path_step _ _ _ _ _ _ _ _ _ _ Hb Hkey Hl Hc)
      as (lo_c & hi_c & Lc & fpc & A & B & Hbc & Hin & Hstep).
    destruct (IH h c lo_c hi_c Lc fpc fuel Hbc Hin ltac:(lia))
      as (x & lo' & hi' & Ls & fps & A' & B' & Hfind & Hpath).
    exists x, lo', hi', Ls, fps, (A ++ A'), (B' ++ B). split; [|by apply Hstep].
    simpl. rewrite Hl. simpl. rewrite Hleaf, Hc. simpl. done.
Qed.

(** ** Sorted entry lists *)

Implicit Types (es : list (K * gset V)) (v : V).

Lemma put_keys k v es k' : k' ∈ (put k v es).*1 ↔ k' = k ∨ k' ∈ es.*1.
Proof.
  induction es as [|[k0 vs] es IH]; simpl.
  - set_solver.
  - destruct (klt k0 k); [|case_decide]; simpl; set_solver.
Qed.

Lemma put_sorted k v es : key_sorted es.*1 → key_sorted (put k v es).*1.
Proof.
  unfold key_sorted. induction es as [|[k0 vs] es IH]; simpl.
  - intros _. repeat constructor.
  - intros [Hall Hs]%StronglySorted_cons.
    destruct (klt k0 k) eqn:Hlt; [|case_decide as Heq]; simpl.
    + apply StronglySorted_cons. split; [|by apply IH].
      apply Forall_forall. intros k' [->|Hk']%put_keys; [done|].
      by eapply Forall_forall in Hall.
    + subst k0. by apply StronglySorted_cons.
    + assert (Hk : klt k k0 = true).
      { destruct (klt k k0) eqn:Hk; [done|]. by destruct Heq; apply klt_total. }
      apply StronglySorted_cons. split; [|by apply StronglySorted_cons].
      constructor; [done|]. eapply Forall_impl; [exact Hall|].
      intros k' Hk'. by eapply klt_trans.
Qed.

Lemma put_Forall (P : K → Prop) k v es :
  P k → Forall (λ e, P e.1) es → Forall (λ e, P e.1) (put k v es).
Proof.
  intros Hk. induction 1 as [|[k0 vs] es Hk0 Hes IH]; simpl.
  - by repeat constructor.
  - destruct (klt k0 k); [|case_decide]; repeat constructor; done.
Qed.

Lemma put_length k v es : length (put k v es) ≤ S (length es).
Proof.
  induction es as [|[k0 vs] es IH]; simpl; [done|].
  destruct (klt k0 k); [|case_decide]; simpl; lia.
Qed.

Lemma put_app_l k v es1 es2 :
  Forall (λ e, klt e.1 k = true) es1 → put k v (es1 ++ es2) = es1 ++ put k v es2.
Proof.
  induction 1 as [|[k0 vs] es1 Hk0 Hes IH]; simpl; [done|].
  simpl in Hk0. by rewrite Hk0, IH.
Qed.

Lemma put_app_r k v es1 es2 :
  Forall (λ e, klt k e.1 = true) es2 → put k v (es1 ++ es2) = put k v es1 ++ es2.
Proof.
  intros Hes2. induction es1 as [|[k0 vs] es1 IH]; simpl.
  - destruct Hes2 as [|[k0 vs] es2 Hk0 Hes2]; simpl; [done|]. simpl in Hk0.
    rewrite (klt_asym _ _ Hk0). rewrite decide_False; [done|].
    intros ->. by rewrite klt_irrefl in Hk0.
  - destruct (klt k0 k); [|case_decide]; simpl; by rewrite ?IH.
Qed.

Lemma put_middle k v es1 es es2 :
  Forall (λ e, klt e.1 k = true) es1 → Forall (λ e, klt k e.1 = true) es2 →
  put k v (es1 ++ es ++ es2) = es1 ++ put k v es ++ es2.
Proof. intros H1' H2'. by rewrite put_app_l, put_app_r. Qed.

Lemma get_not_in k es : k ∉ es.*1 → get k es = ∅.
Proof.
  induction es as [|[k0 vs] es IH]; simpl; [done|].
  intros Hnin. rewrite decide_False by set_solver. apply IH. set_solver.
Qed.

Lemma get_put k v es k' :
  key_sorted es.*1 →
  get k' (put k v es) = if decide (k' = k) then {[v]} ∪ get k es else get k' es.
Proof.
  unfold key_sorted. induction es as [|[k0 vs] es IH]; simpl.
  - intros _. repeat case_decide; try congruence; set_solver.
  - intros [Hall Hs]%StronglySorted_cons.
    destruct (klt k0 k) eqn:Hlt; [|destruct (decide (k0 = k)) as [->|Hne]]; simpl.
    + rewrite IH by done. pose proof (klt_neq _ _ Hlt).
      repeat case_decide; congruence.
    + repeat case_decide; congruence.
    + assert (Hk : klt k k0 = true).
      { destruct (klt k k0) eqn:Hk; [done|]. by destruct Hne; apply klt_total. }
      assert (get k es = ∅) as ->.
      { apply get_not_in. intros Hin. eapply Forall_forall in Hall; [|done].
        pose proof (klt_trans _ _ _ Hk Hall) as Hkk. by rewrite klt_irrefl in Hkk. }
      repeat case_decide; try congruence. set_solver.
Qed.

Lemma get_app_l k es1 es2 :
  Forall (λ e, klt e.1 k = true) es1 → get k (es1 ++ es2) = get k es2.
Proof.
  induction 1 as [|[k0 vs] es1 Hk0 Hes IH]; simpl; [done|].
  rewrite decide_False; [done|]. by apply klt_neq.
Qed.

Lemma get_app_r k es1 es2 :
  Forall (λ e, klt k e.1 = true) es2 → get k (es1 ++ es2) = get k es1.
Proof.
  intros Hes2. induction es1 as [|[k0 vs] es1 IH]; simpl.
  - apply get_not_in. intros (e & -> & He)%list_elem_of_fmap.
    eapply Forall_forall in Hes2; [|done]. by rewrite klt_irrefl in Hes2.
  - by rewrite IH.
Qed.

(** ** Inside a leaf *)

Lemma lower_bound_le (ks : list K) key : lower_bound ks key ≤ length ks.
Proof. induction ks as [|k ks IH]; simpl; [done|]. destruct (klt k key); simpl; lia. Qed.

Lemma lower_bound_take (ks : list K) key :
  Forall (λ k, klt k key = true) (take (lower_bound ks key) ks).
Proof.
  induction ks as [|k ks IH]; simpl; [done|].
  destruct (klt k key) eqn:Hlt; simpl; [|done]. by constructor.
Qed.

Lemma lower_bound_drop (ks : list K) key :
  key_sorted ks → Forall (λ k, klt k key = false) (drop (lower_bound ks key) ks).
Proof.
  unfold key_sorted. induction ks as [|k ks IH]; simpl; [done|].
  intros [Hall Hs]%StronglySorted_cons.
  destruct (klt k key) eqn:Hlt; simpl; [by apply IH|].
  constructor; [done|]. eapply Forall_impl; [exact Hall|].
  intros k' Hk'. simpl in Hk'. destruct (klt k' key) eqn:Hk'k; [|done].
  by rewrite (klt_trans _ _ _ Hk' Hk'k) in Hlt.
Qed.

Lemma zip_Forall_fst (P : K → Prop) (ks : list K) (vs : list (gset V)) :
  Forall P ks → Forall (λ e, P e.1) (zip ks vs).
Proof.
  intros Hks. revert vs. induction Hks as [|k ks Hk Hks IH]; intros [|v' vs]; simpl;
    constructor; eauto.
Qed.

Lemma zip_split n (ks : list K) (vs : list (gset V)) :
  zip ks vs = zip (take n ks) (take n vs) ++ zip (drop n ks) (drop n vs).
Proof. by rewrite <-zip_with_take, <-zip_with_drop, take_drop. Qed.

(** Adding [key] in front of entries that are all beyond it. *)
Lemma put_front key v es :
  key_sorted es.*1 → Forall (λ e, klt e.1 key = false) es →
  key ∉ es.*1 → put key v es = (key, {[v]}) :: es.
Proof.
  destruct es as [|[k vs] es]; simpl; [done|].
  intros _ [Hk _]%Forall_cons Hnin. simpl in Hk. rewrite Hk.
  rewrite decide_False; [done|]. set_solver.
Qed.

Lemma leaf_put_spec key v (n : Node) :
  length (values n) = length (keys n) → key_sorted (keys n) →
  ∃ n', leaf_put key v n = Some n' ∧
        is_leaf n' = is_leaf n ∧ next n' = next n ∧ children n' = children n ∧
        length (values n') = length (keys n') ∧
        zip (keys n') (values n') = put key v (zip (keys n) (values n)).
Proof.
  destruct n as [ks vs cs nx lf]; simpl. intros Hlen Hsorted.
  unfold leaf_put; simpl. set (pos := lower_bound ks key).
  pose proof (lower_bound_le ks key) as Hpos. fold pos in Hpos.
  pose proof (lower_bound_take ks key) as Htake. fold pos in Htake.
  pose proof (lower_bound_drop ks key Hsorted) as Hdrop. fold pos in Hdrop.
  assert (Hleft : Forall (λ e : K * gset V, klt e.1 key = true)
                    (zip (take pos ks) (take pos vs)))
    by by apply (zip_Forall_fst (λ k, klt k key = true)).
  assert (Hlt : length (take pos ks) = length (take pos vs)).
  { rewrite !length_take. lia. }
  assert (Hfresh : key ∉ drop pos ks →
    ∃ n', (ks' ← vec_insert pos key ks; vs' ← vec_insert pos {[v]} vs;
           Some (mkNode ks' vs' cs nx lf)) = Some n' ∧
          is_leaf n' = lf ∧ next n' = nx ∧ children n' = cs ∧
          length (values n') = length (keys n') ∧
          zip (keys n') (values n') = put key v (zip ks vs)).
  { intros Hnin. unfold vec_insert. rewrite !decide_True by lia. simpl.
    eexists. split; [done|]. simpl. split_and!; try done.
    - rewrite !length_app. simpl. rewrite !length_take, !length_drop. lia.
    - rewrite (zip_split pos ks vs), put_app_l by done.
      rewrite zip_with_app by done. f_equal. simpl.
      rewrite put_front; [done| | |].
      + rewrite fst_zip by (rewrite !length_drop; lia).
        unfold key_sorted in *. rewrite <-(take_drop pos ks) in Hsorted.
        by apply StronglySorted_app_1_r in Hsorted.
      + by apply (zip_Forall_fst (λ k, klt k key = false)).
      + rewrite fst_zip by (rewrite !length_drop; lia). done. }
  destruct (ks !! pos) as [k|] eqn:Hk.
  - assert (Hdk : drop pos ks = k :: drop (S pos) ks) by by apply drop_S.
    destruct (decide (k = key)) as [->|Hne].
    + destruct (lookup_lt_is_Some_2 vs pos) as [old Hold].
      { rewrite Hlen. by eapply lookup_lt_Some. }
      rewrite Hold. simpl. eexists. split; [done|]. simpl. split_and!; try done.
      * by rewrite length_insert.
      * rewrite (zip_split pos ks vs), put_app_l by done.
        rewrite (zip_split pos ks (<[pos:=_]> vs)).
        rewrite take_insert_ge by lia. f_equal.
        rewrite drop_insert_ge by lia. rewrite Nat.sub_diag.
        rewrite Hdk, (drop_S vs old pos Hold). simpl.
        rewrite Hdk in Hdrop. apply Forall_cons in Hdrop as [Hkk _].
        rewrite Hkk. by rewrite decide_True.
    + apply Hfresh. rewrite Hdk. intros [->|Hin]%elem_of_cons; [done|].
      unfold key_sorted in *. rewrite <-(take_drop pos ks), Hdk in Hsorted.
      apply StronglySorted_app_1_r, StronglySorted_cons in Hsorted as [Hall _].
      eapply Forall_forall in Hall; [|done].
      rewrite Hdk in Hdrop. apply Forall_cons in Hdrop as [Hkk _]. congruence.
  - apply Hfresh. apply lookup_ge_None in Hk. rewrite drop_ge by done.
    apply not_elem_of_nil.
Qed.

(** What [search] reads in a leaf. *)
Lemma leaf_get_spec key (ks : list K) (vs : list (gset V)) :
  length vs = length ks → key_sorted ks →
  match ks !! lower_bound ks key with
  | None => Some ∅
  | Some k => if decide (k = key) then vs !! lower_bound ks key else Some ∅
  end = Some (get key (zip ks vs)).
Proof.
  intros Hlen Hsorted. set (pos := lower_bound ks key).
  pose proof (lower_bound_take ks key) as Htake. fold pos in Htake.
  pose proof (lower_bound_drop ks key Hsorted) as Hdrop. fold pos in Hdrop.
  rewrite (zip_split pos ks vs), get_app_l
    by by apply (zip_Forall_fst (λ k, klt k key = true)).
  destruct (ks !! pos) as [k|] eqn:Hk.
  - assert (Hdk : drop pos ks = k :: drop (S pos) ks) by by apply drop_S.
    destruct (lookup_lt_is_Some_2 vs pos) as [old Hold].
    { rewrite Hlen. by eapply lookup_lt_Some. }
    rewrite Hdk, (drop_S vs old pos Hold). simpl.
    destruct (decide (k = key)) as [->|Hne]; [done|].
    f_equal. symmetry. apply get_not_in.
    rewrite fst_zip by (rewrite !length_drop; lia). intros Hin.
    unfold key_sorted in *. rewrite <-(take_drop pos ks), Hdk in Hsorted.
    apply StronglySorted_app_1_r, StronglySorted_cons in Hsorted as [Hall _].
    eapply Forall_forall in Hall; [|done].
    rewrite Hdk in Hdrop. apply Forall_cons in Hdrop as [Hkk _]. congruence.
  - apply lookup_ge_None in Hk. rewrite drop_ge by done. done.
Qed.

(** ** Insertion into a subtree *)

Variable ORDER : nat.

Local Arguments Nat.div _ _ : simpl never.

Lemma half_le n : n / 2 ≤ n.
Proof.
  pose proof (Nat.div_mod_eq n 2) as Hq.
  pose proof (Nat.mod_upper_bound n 2 ltac:(lia)) as Hr.
  revert Hq Hr. generalize (n / 2) (n mod 2). lia.
Qed.

Lemma half_lt n : 0 < n → n / 2 < n.
Proof.
  pose proof (Nat.div_mod_eq n 2) as Hq.
  pose proof (Nat.mod_upper_bound n 2 ltac:(lia)) as Hr.
  revert Hq Hr. generalize (n / 2) (n mod 2). lia.
Qed.

Lemma key_sorted_take_drop (ks : list K) mid pk :
  key_sorted ks → ks !! mid = Some pk →
  key_sorted (take mid ks) ∧ key_sorted (drop mid ks) ∧
  Forall (λ k, klt k pk = true) (take mid ks) ∧
  Forall (λ k, klt k pk = false) (drop mid ks).
Proof.
  unfold key_sorted. intros Hs Hpk.
  pose proof (drop_S _ _ _ Hpk) as Hd.
  rewrite <-(take_drop mid ks) in Hs.
  pose proof (StronglySorted_app_1_l _ _ _ Hs) as Hl.
  pose proof (StronglySorted_app_1_r _ _ _ Hs) as Hr.
  split_and!; try done.
  - apply Forall_forall. intros k Hk.
    eapply (StronglySorted_app_1_elem_of _ _ _ _ _ Hs); [done|].
    rewrite Hd. apply list_elem_of_here.
  - rewrite Hd in Hr |- *. apply StronglySorted_cons in Hr as [Hall _].
    constructor; [apply klt_irrefl|].
    eapply Forall_impl; [exact Hall|]. intros k Hk. by apply klt_asym.
Qed.

Lemma insert_into_leaf_spec h l lo hi lvs fp key v :
  btree 0 h l lo hi lvs fp → in_range lo hi key →
  ∃ h' r, insert_into_leaf ORDER l key v h = Some (h', r) ∧
          insert_post 0 h l lo hi lvs fp
            (MAX_KEYS_LEAF ORDER) (MAX_KEYS_INTERNAL ORDER) key v h' r.
Proof.
  intros (nd & Hl & Hleaf & Hlen & Hsorted & Hrange & -> & ->) Hkey.
  destruct (leaf_put_spec key v nd Hlen Hsorted)
    as (n' & Hput & Hleaf' & Hnext' & Hch' & Hlen' & Hzip).
  assert (Hkeys : keys n' = (put key v (zip (keys nd) (values nd))).*1).
  { rewrite <-Hzip, fst_zip; [done|lia]. }
  assert (Hsorted' : key_sorted (keys n')).
  { rewrite Hkeys. apply put_sorted. rewrite fst_zip; [done|lia]. }
  assert (Hrange' : Forall (in_range lo hi) (keys n')).
  { rewrite Hkeys. apply Forall_fmap.
    apply (put_Forall (in_range lo hi)); [done|].
    by apply (zip_Forall_fst (in_range lo hi)). }
  assert (Hsize : length (keys n') ≤ S (length (keys nd))).
  { rewrite Hkeys, length_fmap. etrans; [apply put_length|].
    rewrite length_zip. lia. }
  assert (Hldom : l ∈ dom h) by (apply elem_of_dom; eauto).
  unfold insert_into_leaf. rewrite Hl. simpl. rewrite Hput. simpl.
  destruct (decide (MAX_KEYS_LEAF ORDER < length (keys n'))) as [Hover|Hfit].
  - (* the leaf overflows and is split *)
    unfold split_leaf. rewrite lookup_insert_eq. simpl.
    set (mid := length (keys n') / 2).
    assert (Hmid : mid < length (keys n')) by (apply half_lt; lia).
    clearbody mid. unfold vec_from, vec_shrink. rewrite !decide_True by lia. simpl.
    destruct (lookup_lt_is_Some_2 (keys n') mid Hmid) as [pk Hpk].
    rewrite head_lookup, lookup_drop, Nat.add_0_r, Hpk. simpl.
    set (sl := fresh (dom (<[l:=n']> h))).
    assert (Hsl : sl ∉ dom h).
    { pose proof (is_fresh (dom (<[l:=n']> h))) as Hf. fold sl in Hf.
      rewrite dom_insert_L in Hf. set_solver. }
    assert (Hne : sl ≠ l) by (intros ->; done).
    destruct (key_sorted_take_drop _ _ _ Hsorted' Hpk) as (Hsl1 & Hsl2 & Hlt & Hge).
    assert (Hpkr : in_range lo hi pk).
    { eapply Forall_forall in Hrange'; [done|]. by eapply list_elem_of_lookup_2. }
    eexists _, _. split; [done|]. unfold insert_post. split_and!.
    + intros y Hy Hyl. rewrite lookup_insert_ne by set_solver.
      rewrite lookup_insert_ne by set_solver.
      rewrite lookup_insert_ne by set_solver. done.
    + rewrite !dom_insert_L. set_solver.
    + eexists [(l, _)], [(sl, _)], {[l]}, {[sl]}. split_and!.
      * simpl. eexists. split; [apply lookup_insert_eq|]. simpl.
        split_and!.
        -- congruence.
        -- rewrite !length_take. lia.
        -- done.
        -- apply Forall_take with (n := mid) in Hrange'.
           apply Forall_forall. intros k Hk. split.
           ++ eapply Forall_forall in Hrange'; [|done]. apply Hrange'.
           ++ eapply Forall_forall in Hlt; [|done]. done.
        -- done.
        -- done.
      * simpl. eexists. split.
        { rewrite lookup_insert_ne by done. apply lookup_insert_eq. }
        simpl. split_and!.
        -- done.
        -- rewrite !length_drop. lia.
        -- done.
        -- apply Forall_drop with (n := mid) in Hrange'.
           apply Forall_forall. intros k Hk. split.
           ++ eapply Forall_forall in Hge; [|done]. done.
           ++ eapply Forall_forall in Hrange'; [|done]. apply Hrange'.
        -- done.
        -- done.
      * by apply in_range_sep.
      * set_solver.
      * rewrite !dom_insert_L. set_solver.
      * intros nxt [(n0 & Hn0 & Hnx) _]. simpl in *.
        assert (n0 = nd) as -> by congruence.
        split; [|split; [|done]].
        -- eexists. split; [apply lookup_insert_eq|]. done.
        -- eexists. split.
           { rewrite lookup_insert_ne by done. apply lookup_insert_eq. }
           simpl. congruence.
      * done.
      * unfold entries. simpl. rewrite !app_nil_r.
        rewrite <-zip_split. done.
      * intros nd0 Hnd0. assert (nd0 = nd) as -> by congruence.
        rewrite Hleaf. lia.
  - (* the key fits *)
    eexists _, _. split; [done|]. unfold insert_post. split_and!.
    + intros y Hy Hyl. rewrite lookup_insert_ne by set_solver. done.
    + rewrite dom_insert_L. set_solver.
    + eexists [(l, _)], {[l]}. split_and!.
      * simpl. exists n'. split; [apply lookup_insert_eq|].
        split_and!; try done. congruence.
      * set_solver.
      * intros nxt [(n0 & Hn0 & Hnx) _]. simpl in *.
        assert (n0 = nd) as -> by congruence.
        split; [|done]. exists n'. split; [apply lookup_insert_eq|]. congruence.
      * done.
      * unfold entries. simpl. rewrite !app_nil_r. done.
Qed.

Lemma kids_split (P : loc → option K → option K → list leaf_abs → gset loc → Prop)
    cs ks lo hi lvs fp mid pk :
  kids P cs ks lo hi lvs fp → ks !! mid = Some pk →
  ∃ lvs1 lvs2 fp1 fp2,
    kids P (take (mid + 1) cs) (take mid ks) lo (Some pk) lvs1 fp1 ∧
    kids P (drop (mid + 1) cs) (drop (mid + 1) ks) (Some pk) hi lvs2 fp2 ∧
    lvs = lvs1 ++ lvs2 ∧ fp = fp1 ∪ fp2 ∧ fp1 ## fp2 ∧ sep_range lo hi pk.
Proof.
  revert cs ks lo lvs fp.
  induction mid as [|mid IH]; intros [|c cs] [|k ks] lo lvs fp; simpl; try done.
  - intros (Hk & lvs1 & lvs2 & fp1 & fp2 & HP & Hkids & -> & -> & Hd) [= ->].
    exists lvs1, lvs2, fp1, fp2. rewrite take_0. split_and!; done.
  - intros (Hk & lvs1 & lvs2 & fp1 & fp2 & HP & Hkids & -> & -> & Hd) Hpk.
    destruct (IH _ _ _ _ _ Hkids Hpk)
      as (l1 & l2 & f1 & f2 & Hleft & Hright & -> & -> & Hd' & Hsep).
    assert (Hkpk : klt pk k = false) by apply Hsep.
    exists (lvs1 ++ l1), l2, (fp1 ∪ f1), f2.
    split.
    { simpl. split; [split; [apply Hk|done]|].
      exists lvs1, l1, fp1, f1. repeat (split; [done|]). set_solver. }
    split; [done|]. split; [by rewrite <-app_assoc|].
    split; [set_solver|]. split; [set_solver|].
    split; [|apply Hsep]. destruct Hk as [Hlo _].
    destruct lo as [a|]; [|done]. simpl in *. by eapply kle_trans.
Qed.

Lemma vec_insert_length {A} p (a : A) (xs xs' : list A) :
  vec_insert p a xs = Some xs' → length xs' = S (length xs).
Proof.
  unfold vec_insert. case_decide; [|done]. intros [= <-].
  rewrite length_app. simpl. rewrite length_take, length_drop. lia.
Qed.

Lemma split_internal_spec n h l lo hi lvs fp nd :
  btree (S n) h l lo hi lvs fp → h !! l = Some nd → 0 < length (keys nd) →
  ∃ sib pk lvs1 lvs2 fp1 fp2 h',
    split_internal l h = Some (h', Some (sib, pk)) ∧
    sib ∉ dom h ∧ dom h' = dom h ∪ {[sib]} ∧
    (∀ y, y ≠ l → y ≠ sib → h' !! y = h !! y) ∧
    btree (S n) h' l lo (Some pk) lvs1 fp1 ∧
    btree (S n) h' sib (Some pk) hi lvs2 fp2 ∧
    lvs = lvs1 ++ lvs2 ∧ sep_range lo hi pk ∧
    fp1 ## fp2 ∧ fp1 ∪ fp2 = fp ∪ {[sib]} ∧ is_Some (first_leaf lvs1).
Proof.
  intros Hb Hl Hpos. pose proof (btree_dom _ _ _ _ _ _ _ Hb) as Hdom.
  destruct Hb as (nd' & fpk & Hl' & Hleaf & Hkids & Hnin & ->).
  assert (nd' = nd) as -> by congruence.
  pose proof (kids_length _ _ _ _ _ _ _ Hkids) as Hlen.
  unfold split_internal. rewrite Hl. simpl.
  set (mid := length (keys nd) / 2).
  assert (Hmid : mid < length (keys nd)) by by apply half_lt.
  clearbody mid.
  destruct (lookup_lt_is_Some_2 (keys nd) mid Hmid) as [pk Hpk].
  rewrite Hpk. simpl. unfold vec_from, vec_shrink.
  rewrite !decide_True by lia. simpl.
  set (sib := fresh (dom h)).
  assert (Hsib : sib ∉ dom h) by apply is_fresh.
  assert (Hldom : l ∈ dom h) by (apply elem_of_dom; eauto).
  assert (Hne : sib ≠ l) by (intros ->; done).
  destruct (kids_split _ _ _ _ _ _ _ _ _ Hkids Hpk)
    as (lvs1 & lvs2 & fp1 & fp2 & Hleft & Hright & -> & -> & Hd & Hsep).
  set (h' := <[l := _]> (<[sib := _]> h)).
  assert (Hframe : ∀ y, y ≠ l → y ≠ sib → h' !! y = h !! y).
  { intros y Hy1 Hy2. unfold h'. by rewrite !lookup_insert_ne. }
  assert (Htr : ∀ c0 lo0 hi0 L0 f0, f0 ⊆ fp1 ∪ fp2 →
            btree n h c0 lo0 hi0 L0 f0 → btree n h' c0 lo0 hi0 L0 f0).
  { intros c0 lo0 hi0 L0 f0 Hsub Hb0. eapply btree_frame; [|done].
    intros y Hy. apply Hframe; set_solver. }
  assert (Hleft' : kids (btree n h') (take (mid + 1) (children nd))
                     (take mid (keys nd)) lo (Some pk) lvs1 fp1).
  { eapply kids_impl; [|done]. intros c0 lo0 hi0 L0 f0 Hsub. apply Htr. set_solver. }
  assert (Hright' : kids (btree n h') (drop (mid + 1) (children nd))
                     (drop (mid + 1) (keys nd)) (Some pk) hi lvs2 fp2).
  { eapply kids_impl; [|done]. intros c0 lo0 hi0 L0 f0 Hsub. apply Htr. set_solver. }
  exists sib, pk, lvs1, lvs2, ({[l]} ∪ fp1), ({[sib]} ∪ fp2), h'.
  split_and!.
  - done.
  - done.
  - unfold h'. rewrite !dom_insert_L. set_solver.
  - done.
  - simpl. eexists _, fp1. split; [apply lookup_insert_eq|]. simpl.
    split_and!; try done. set_solver.
  - simpl. eexists _, fp2. split.
    { unfold h'. rewrite lookup_insert_ne by done. apply lookup_insert_eq. }
    simpl. split_and!; try done. set_solver.
  - done.
  - done.
  - set_solver.
  - set_solver.
  - assert (is_Some (first_leaf lvs1) ∧ True) as [? _]; [|done].
    revert Hleft'. apply (kids_elim (λ _ _ lvs _, is_Some (first_leaf lvs) ∧ True)).
    + intros c0 lo0 hi0 L0 f0 Hb0. split; [|done]. by eapply btree_first_leaf.
    + intros _ _ _ L1 L2 _ _ _ [Hs _] _ _. split; [|done].
      by rewrite first_leaf_app.
Qed.

Lemma first_leaf_middle (A Lc Lc' B : list leaf_abs) :
  first_leaf Lc' = first_leaf Lc → is_Some (first_leaf Lc) →
  first_leaf (A ++ Lc' ++ B) = first_leaf (A ++ Lc ++ B).
Proof.
  intros Hfirst Hsome. destruct A; [|done]. simpl.
  rewrite !first_leaf_app; [done..|]. by rewrite Hfirst.
Qed.

Lemma btree_root_not_leaf n h l lo hi lvs fp :
  btree (S n) h l lo hi lvs fp → l ∉ leaf_locs lvs.
Proof.
  intros (nd & fpk & _ & _ & Hkids & Hnin & _) Hin. apply Hnin.
  revert Hin. eapply (kids_locs (btree n h)); [|done].
  intros c lo' hi' lvs' fp' Hb. by apply btree_leaf_locs in Hb as (_ & ? & _).
Qed.

Lemma size_pred_nonneg (a : nat) : (0 ≤ size_pred a)%Z.
Proof. unfold size_pred. case_decide; lia. Qed.

(** The overflow test that ends [insert_into_internal]. *)
Lemma insert_internal_finish n h h2 l lo hi lvs fp lvs' fp' key v nd n2 :
  btree (S n) h2 l lo hi lvs' fp' →
  h !! l = Some nd → is_leaf nd = false → l ∈ fp →
  h2 !! l = Some n2 → length (keys n2) ≤ S (length (keys nd)) →
  (∀ y, y ∈ dom h → y ∉ fp → h2 !! y = h !! y) → dom h ⊆ dom h2 →
  fp' ⊆ fp ∪ (dom h2 ∖ dom h) →
  (∀ nxt, lchain h lvs nxt → lchain h2 lvs' nxt) →
  first_leaf lvs' = first_leaf lvs →
  entries lvs' = put key v (entries lvs) →
  ∃ h' r,
    (if decide (MAX_KEYS_INTERNAL ORDER < Z.of_nat (length (keys n2)))%Z
     then split_internal l h2 else Some (h2, None)) = Some (h', r) ∧
    insert_post (S n) h l lo hi lvs fp
      (MAX_KEYS_LEAF ORDER) (MAX_KEYS_INTERNAL ORDER) key v h' r.
Proof.
  intros Hb Hl Hleaf Hlfp Hl2 Hsize Hframe Hdom Hfp Hchain Hfirst Hentries.
  pose proof (btree_dom _ _ _ _ _ _ _ Hb) as Hdom2.
  pose proof (size_pred_nonneg (MAX_CHILDREN_INTERNAL ORDER)) as Hnn.
  fold (MAX_KEYS_INTERNAL ORDER) in Hnn.
  case_decide as Hover.
  - destruct (split_internal_spec _ _ _ _ _ _ _ _ Hb Hl2 ltac:(lia))
      as (sib & pk & lvs1 & lvs2 & fp1 & fp2 & h' & Hsplit & Hsib & Hdom' & Hframe'
          & Hb1 & Hb2 & -> & Hsep & Hd & Hfps & Hsome).
    exists h', (Some (sib, pk)). split; [done|]. unfold insert_post. split_and!.
    + intros y Hy Hyfp. rewrite Hframe'; [by apply Hframe| |]; set_solver.
    + set_solver.
    + exists lvs1, lvs2, fp1, fp2. split_and!; try done.
      * rewrite Hfps, Hdom'. clear -Hfp Hsib Hdom. set_solver.
      * intros nxt Hc. eapply lchain_frame; [|by apply Hchain].
        intros x Hx. apply Hframe'.
        -- intros ->. exact (btree_root_not_leaf _ _ _ _ _ _ _ Hb Hx).
        -- intros ->. apply btree_leaf_locs in Hb as (_ & Hin & _).
           apply Hsib, Hdom2, Hin, Hx.
      * rewrite <-Hfirst. by rewrite first_leaf_app.
      * intros nd0 Hnd0. assert (nd0 = nd) as -> by congruence.
        rewrite Hleaf. lia.
  - exists h2, None. split; [done|]. unfold insert_post. split_and!; try done.
    exists lvs', fp'. done.
Qed.

Lemma insert_recursive_spec n h l lo hi lvs fp key v fuel :
  btree n h l lo hi lvs fp → in_range lo hi key → n < fuel →
  ∃ h' r, insert_recursive ORDER fuel l key v h = Some (h', r) ∧
          insert_post n h l lo hi lvs fp
            (MAX_KEYS_LEAF ORDER) (MAX_KEYS_INTERNAL ORDER) key v h' r.
Proof.
  revert h l lo hi lvs fp fuel.
  induction n as [|n IH]; intros h l lo hi lvs fp fuel Hb Hkey Hfuel;
    (destruct fuel as [|fuel]; [lia|]).
  - pose proof Hb as (nd & Hl & Hleaf & _). simpl. rewrite Hl. simpl. rewrite Hleaf.
    by apply insert_into_leaf_spec.
  - pose proof (btree_dom _ _ _ _ _ _ _ Hb) as Hdom.
    pose proof Hb as (nd & fpk & Hl & Hleaf & Hkids & Hnin & ->).
    assert (Hldom : l ∈ dom h) by (apply elem_of_dom; eauto).
    destruct (kids_focus _ _ _ _ _ _ _ key (btree_range n h)
                (λ c lo hi lvs fp Hb, proj1 (proj2 (btree_leaf_locs n h c lo hi lvs fp Hb)))
                Hkids Hkey)
      as (c & lo_c & hi_c & A & Lc & B & fpc & fpr & Hc & Hbc & Hin & -> & -> & Hd
          & HA & HB & HAB & Hre).
    destruct (IH h c lo_c hi_c Lc fpc fuel Hbc Hin ltac:(lia))
      as (h1 & r1 & Hrec & Hframe1 & Hdom1 & Hpost).
    pose proof (btree_first_leaf _ _ _ _ _ _ _ Hbc) as HLc.
    assert (Hl1 : h1 !! l = Some nd).
    { rewrite Hframe1; [done..|set_solver]. }
    assert (Htr1 : ∀ c0 lo0 hi0 L0 f0, f0 ⊆ fpr →
              btree n h c0 lo0 hi0 L0 f0 → btree n h1 c0 lo0 hi0 L0 f0).
    { intros c0 lo0 hi0 L0 f0 Hsub Hb0. eapply btree_frame; [|done].
      intros y Hy. apply Hframe1; set_solver. }
    simpl. rewrite Hl. simpl. rewrite Hleaf.
    unfold insert_into_internal. rewrite Hl. simpl. rewrite Hc. simpl.
    rewrite Hrec. simpl.
    destruct r1 as [[sb pk]|].
    + (* the child was split *)
      destruct Hpost as (L1 & L2 & f1 & f2 & Hb1 & Hb2 & Hsep & Hd12 & Hf12 & Hchain
                         & Hfirst & Hentries & _).
      destruct (Hre (btree n (<[l := mkNode
                   (take (upper_bound (keys nd) key) (keys nd) ++
                      pk :: drop (upper_bound (keys nd) key) (keys nd))
                   (values nd)
                   (take (upper_bound (keys nd) key + 1) (children nd) ++
                      sb :: drop (upper_bound (keys nd) key + 1) (children nd))
                   (next nd) (is_leaf nd)]> h1))) as [_ Hre2].
      { intros c0 lo0 hi0 L0 f0 Hsub Hb0. eapply btree_frame; [|by eapply Htr1].
        intros y Hy. rewrite lookup_insert_ne; [done|set_solver]. }
      assert (Hlf12 : l ∉ f1 ∪ f2) by set_solver.
      destruct (Hre2 sb pk L1 L2 f1 f2) as (ks' & cs' & Hks' & Hcs' & Hkids');
        [| |done|done|set_solver|].
      { eapply btree_frame; [|done]. intros y Hy.
        rewrite lookup_insert_ne; [done|set_solver]. }
      { eapply btree_frame; [|done]. intros y Hy.
        rewrite lookup_insert_ne; [done|set_solver]. }
      unfold add_child. rewrite Hl1. simpl. rewrite Hks'. simpl. rewrite Hcs'. simpl.
      rewrite lookup_insert_eq. simpl.
      assert (Hks'' : ks' = take (upper_bound (keys nd) key) (keys nd) ++
                      pk :: drop (upper_bound (keys nd) key) (keys nd)).
      { unfold vec_insert in Hks'. case_decide; [|done]. congruence. }
      assert (Hcs'' : cs' = take (upper_bound (keys nd) key + 1) (children nd) ++
                      sb :: drop (upper_bound (keys nd) key + 1) (children nd)).
      { unfold vec_insert in Hcs'. case_decide; [|done]. congruence. }
      rewrite <-Hks'', <-Hcs'' in Hkids'.
      apply (insert_internal_finish n h
                (<[l := mkNode ks' (values nd) cs' (next nd) (is_leaf nd)]> h1)
                l lo hi (A ++ Lc ++ B) ({[l]} ∪ (fpc ∪ fpr))
                (A ++ L1 ++ L2 ++ B) ({[l]} ∪ (f1 ∪ f2 ∪ fpr)) key v nd
                (mkNode ks' (values nd) cs' (next nd) (is_leaf nd))).
      * simpl. eexists _, _. split; [apply lookup_insert_eq|]. simpl.
        split_and!; [done|exact Hkids'|set_solver|done].
      * done.
      * done.
      * set_solver.
      * apply lookup_insert_eq.
      * simpl. rewrite (vec_insert_length _ _ _ _ Hks'). done.
      * intros y Hy Hyfp. rewrite lookup_insert_ne by set_solver.
        apply Hframe1; set_solver.
      * rewrite dom_insert_L. set_solver.
      * rewrite dom_insert_L. set_solver.
      * intros nxt Hch.
        replace (A ++ L1 ++ L2 ++ B) with (A ++ (L1 ++ L2) ++ B)
          by by rewrite <-app_assoc.
        eapply (lchain_replace h); [done| | | |done].
        -- intros x Hx. rewrite lookup_insert_ne by set_solver.
           apply Hframe1; [|set_solver]. apply Hdom. set_solver.
        -- eapply lchain_frame; [|apply Hchain; by eapply lchain_middle].
           intros x Hx. rewrite lookup_insert_ne; [done|]. intros <-.
           apply Hlf12. unfold leaf_locs in Hx. rewrite fmap_app in Hx.
           apply btree_leaf_locs in Hb1 as (_ & Hin1 & _).
           apply btree_leaf_locs in Hb2 as (_ & Hin2 & _).
           apply elem_of_app in Hx as [?|?]; set_solver.
        -- rewrite <-Hfirst. apply first_leaf_app. rewrite Hfirst. done.
      * replace (A ++ L1 ++ L2 ++ B) with (A ++ (L1 ++ L2) ++ B)
          by by rewrite <-app_assoc.
        apply first_leaf_middle; [|done].
        rewrite <-Hfirst. apply first_leaf_app. rewrite Hfirst. done.
      * replace (A ++ L1 ++ L2 ++ B) with (A ++ (L1 ++ L2) ++ B)
          by by rewrite <-app_assoc.
        rewrite !entries_app in *. rewrite put_middle by done.
        by rewrite Hentries.
    + (* the child took the key *)
      destruct Hpost as (Lc' & fpc' & Hbc' & Hfpc' & Hchain & Hfirst & Hentries).
      destruct (Hre (btree n h1)) as [Hre1 _]; [done|].
      simpl. rewrite Hl1. simpl.
      eapply (insert_internal_finish n h h1 l lo hi (A ++ Lc ++ B) ({[l]} ∪ (fpc ∪ fpr))
                (A ++ Lc' ++ B) ({[l]} ∪ (fpc' ∪ fpr)) key v nd).
      * simpl. exists nd, (fpc' ∪ fpr). split_and!; try done.
        -- apply Hre1; [done|set_solver].
        -- set_solver.
      * done.
      * done.
      * set_solver.
      * done.
      * lia.
      * intros y Hy Hyfp. apply Hframe1; set_solver.
      * done.
      * set_solver.
      * intros nxt Hch. eapply (lchain_replace h); [done| | |done|done].
        -- intros x Hx. apply Hframe1; [|set_solver]. apply Hdom. set_solver.
        -- apply Hchain. by eapply lchain_middle.
      * by apply first_leaf_middle.
      * rewrite !entries_app in *. rewrite put_middle by done. by rewrite Hentries.
Qed.

(** ** The operations on a whole tree *)

Lemma btree_root_lookup n h l lo hi lvs fp :
  btree n h l lo hi lvs fp → ∃ nd, h !! l = Some nd ∧ l ∈ fp.
Proof.
  destruct n; simpl.
  - intros (nd & Hl & _ & _ & _ & _ & _ & ->). exists nd. split; [done|set_solver].
  - intros (nd & fpk & Hl & _ & _ & _ & ->). exists nd. split; [done|set_solver].
Qed.

(** A subtree on the way to [key] took the key without splitting: the
    tree around it is a tree again. *)
Lemma on_path_insert n h l lo hi lvs fp key v m x lo' hi' Ls fps A B h' nxt :
  btree n h l lo hi lvs fp →
  on_path n h l lo hi lvs fp key m x lo' hi' Ls fps A B →
  insert_post m h x lo' hi' Ls fps
    (MAX_KEYS_LEAF ORDER) (MAX_KEYS_INTERNAL ORDER) key v h' None →
  lchain h lvs nxt →
  ∃ lvs' fp', btree n h' l lo hi lvs' fp' ∧ lchain h' lvs' nxt ∧
              entries lvs' = put key v (entries lvs).
Proof.
  intros Hb (Hm & Hbx & Hin & -> & Hsub & HA & HB & HAB & Hre)
    (Hframe & Hdom' & Ls' & fps' & Hbx' & Hfps' & Hchain & Hfirst & Hentries) Hch.
  pose proof (btree_dom _ _ _ _ _ _ _ Hb) as Hdom.
  destruct (Hre h' Ls' fps' Hframe Hbx' Hfps') as (fp' & Hb' & _).
  exists (A ++ Ls' ++ B), fp'. split_and!.
  - done.
  - eapply (lchain_replace h); [done| | |done|].
    + intros y Hy. destruct (HAB y Hy) as [Hy1 Hy2]. apply Hframe; set_solver.
    + apply Hchain. by eapply lchain_middle.
    + by eapply btree_first_leaf.
  - rewrite !entries_app. rewrite put_middle by done. by rewrite Hentries.
Qed.

Lemma leaf_safe_no_split h x nd n' key v :
  h !! x = Some nd → is_leaf nd = true → is_safe_for_insert ORDER nd = true →
  length (values nd) = length (keys nd) → key_sorted (keys nd) →
  leaf_put key v nd = Some n' →
  insert_into_leaf ORDER x key v h = Some (<[x := n']> h, None).
Proof.
  intros Hx Hleaf Hsafe Hlen Hsorted Hput.
  unfold insert_into_leaf. rewrite Hx. simpl. rewrite Hput. simpl.
  rewrite decide_False; [done|].
  unfold is_safe_for_insert in Hsafe. rewrite Hleaf in Hsafe.
  apply bool_decide_eq_true in Hsafe.
  destruct (leaf_put_spec key v nd Hlen Hsorted) as (n'' & Hput' & _ & _ & _ & Hlen' & Hzip).
  assert (n'' = n') as -> by congruence.
  assert (length (keys n') ≤ S (length (keys nd))); [|lia].
  rewrite <-(fst_zip (keys n') (values n')) by lia.
  rewrite Hzip, length_fmap. etrans; [apply put_length|]. rewrite length_zip. lia.
Qed.

Lemma optimistic_insert_spec n (s : t (K:=K) (V:=V)) lvs fp key v fuel :
  btree n (heap s) (root s) None None lvs fp → lchain (heap s) lvs None → n < fuel →
  ∃ x nd, find_leaf fuel (heap s) (root s) key = Some x ∧ heap s !! x = Some nd ∧
          is_leaf nd = true ∧
    if is_safe_for_insert ORDER nd then
      ∃ s' lvs' fp',
        optimistic_insert_fuel ORDER fuel key v s = Some (true, s') ∧
        root s' = root s ∧ dom (heap s') = dom (heap s) ∧
        btree n (heap s') (root s') None None lvs' fp' ∧
        lchain (heap s') lvs' None ∧
        entries lvs' = put key v (entries lvs)
    else optimistic_insert_fuel ORDER fuel key v s = Some (false, s).
Proof.
  intros Hb Hch Hfuel.
  destruct (find_leaf_spec n (heap s) (root s) None None lvs fp key fuel Hb)
    as (x & lo' & hi' & Ls & fps & A & B & Hfind & Hpath); [done|done|].
  pose proof Hpath as (_ & Hbx & Hin & _).
  pose proof Hbx as (nd & Hx & Hleaf & Hlen & Hsorted & _).
  exists x, nd. split_and!; try done.
  unfold optimistic_insert_fuel. rewrite Hfind. simpl. rewrite Hx. simpl.
  destruct (is_safe_for_insert ORDER nd) eqn:Hsafe; simpl; [|done].
  destruct (leaf_put_spec key v nd Hlen Hsorted) as (n' & Hput & _).
  rewrite Hput. simpl.
  destruct (insert_into_leaf_spec _ _ _ _ _ _ key v Hbx Hin) as (h' & r & Hins & Hpost).
  rewrite (leaf_safe_no_split _ _ _ _ _ _ Hx Hleaf Hsafe Hlen Hsorted Hput) in Hins.
  injection Hins as <- <-.
  destruct (on_path_insert _ _ _ _ _ _ _ _ _ _ _ _ _ _ _ _ _ _ None Hb Hpath Hpost Hch)
    as (lvs' & fp' & Hb' & Hch' & Hentries).
  eexists _, lvs', fp'. split; [done|]. simpl. split_and!; try done.
  rewrite dom_insert_L. assert (x ∈ dom (heap s)) by (apply elem_of_dom; eauto).
  set_solver.
Qed.

Lemma find_head_spec n h l lo hi lvs fp key fuel hd :
  btree n h l lo hi lvs fp → in_range lo hi key → n < fuel →
  ∃ hd', find_head ORDER fuel h l hd key = Some hd' ∧
    (hd' = hd ∨
     ∃ m x lo' hi' Ls fps A B nd,
       hd' = Some x ∧ on_path n h l lo hi lvs fp key m x lo' hi' Ls fps A B ∧
       h !! x = Some nd ∧ is_safe_for_insert ORDER nd = true).
Proof.
  revert h l lo hi lvs fp fuel hd.
  induction n as [|n IH]; intros h l lo hi lvs fp fuel hd Hb Hkey Hfuel;
    (destruct fuel as [|fuel]; [lia|]).
  - exists hd. split; [|by left].
    destruct Hb as (nd & Hl & Hleaf & _). simpl. rewrite Hl. simpl. by rewrite Hleaf.
  - pose proof Hb as (nd & fpk & Hl & Hleaf & Hkids & _).
    destruct (kids_focus _ _ _ _ _ _ _ key (btree_range n h)
                (λ c lo hi lvs fp Hb, proj1 (proj2 (btree_leaf_locs n h c lo hi lvs fp Hb)))
                Hkids Hkey) as (c & _ & _ & _ & _ & _ & _ & _ & Hc & _).
    destruct (on_path_step _ _ _ _ _ _ _ _ _ _ Hb Hkey Hl Hc)
      as (lo_c & hi_c & Lc & fpc & A & B & Hbc & Hin & Hstep).
    destruct (btree_root_lookup _ _ _ _ _ _ _ Hbc) as (cn & Hcn & _).
    destruct (IH h c lo_c hi_c Lc fpc fuel
                (if is_safe_for_insert ORDER cn then Some c else hd) Hbc Hin ltac:(lia))
      as (hd' & Hfind & Hhd').
    exists hd'. split.
    { simpl. rewrite Hl. simpl. rewrite Hleaf, Hc. simpl. rewrite Hcn. simpl. done. }
    destruct Hhd' as [->|(m & x & lo' & hi' & Ls & fps & A' & B' & nd' & -> & Hpath & Hx & Hsafe)].
    + destruct (is_safe_for_insert ORDER cn) eqn:Hsafe; [|by left].
      right. exists n, c, lo_c, hi_c, Lc, fpc, (A ++ []), ([] ++ B), cn.
      split_and!; try done. apply Hstep. by apply on_path_refl.
    + right. exists m, x, lo', hi', Ls, fps, (A ++ A'), (B' ++ B), nd'.
      split_and!; try done. by apply Hstep.
Qed.

End facts.
End BPlusTreeFacts.

From stdpp Require Import base gmap sets list strings sorting.

Module BPlusTreeOps.
Import KeyOrderFacts BPlusTree BPlusTreeInv BPlusTreeFacts.

Section ops.
Context {K V : Type} `{EqDecision K, KeyOrderLaws K, Countable V}.
Variable ORDER : nat.

Local Abbreviation Node := (BPlusTree.Node (K:=K) (V:=V)).
Local Abbreviation leaf_abs := (leaf_abs (K:=K) (V:=V)).
Local Abbreviation state := (BPlusTree.t (K:=K) (V:=V)).
Implicit Types (h : gmap loc Node) (lvs : list leaf_abs) (fp : gset loc).
Implicit Types (lo hi : option K) (l c x : loc) (key k : K) (v : V) (s : state).

Lemma entries_cons (lf : leaf_abs) lvs : entries (lf :: lvs) = lf.2 ++ entries lvs.
Proof. done. Qed.

Lemma pessimistic_insert_spec n s lvs fp key v fuel :
  btree n (heap s) (root s) None None lvs fp → lchain (heap s) lvs None → n < fuel →
  ∃ s' n' lvs' fp',
    pessimistic_insert_fuel ORDER fuel key v s = Some s' ∧
    btree n' (heap s') (root s') None None lvs' fp' ∧
    lchain (heap s') lvs' None ∧
    entries lvs' = put key v (entries lvs).
Proof.
  intros Hb Hch Hfuel.
  destruct (btree_root_lookup _ _ _ _ _ _ _ Hb) as (rn & Hroot & _).
  unfold pessimistic_insert_fuel. rewrite Hroot. simpl.
  destruct (find_head_spec ORDER n (heap s) (root s) None None lvs fp key fuel
              (if is_safe_for_insert ORDER rn then Some (root s) else None) Hb)
    as (hd' & Hfind & Hhd'); [done|done|].
  rewrite Hfind. simpl.
  destruct Hhd' as [->|(m & x & lo' & hi' & Ls & fps & A & B & nd & -> & Hpath & Hx & Hsafe)].
  - assert (default (root s) (if is_safe_for_insert ORDER rn then Some (root s) else None)
            = root s) as -> by by destruct (is_safe_for_insert ORDER rn).
    destruct (insert_recursive_spec ORDER n (heap s) (root s) None None lvs fp key v fuel Hb)
      as (h1 & r & Hrec & Hframe & Hdom & Hpost); [done|done|].
    rewrite Hrec. simpl. destruct r as [[sib pk]|].
    + destruct Hpost as (lvs1 & lvs2 & fp1 & fp2 & Hb1 & Hb2 & Hsep & Hd & Hfp & Hchain
                         & Hfirst & Hentries & _).
      rewrite decide_True by done. unfold alloc.
      set (nr := fresh (dom h1)).
      assert (Hnr : nr ∉ dom h1) by apply is_fresh.
      pose proof (btree_dom _ _ _ _ _ _ _ Hb1) as Hdom1.
      pose proof (btree_dom _ _ _ _ _ _ _ Hb2) as Hdom2.
      eexists _, (S n), (lvs1 ++ lvs2), ({[nr]} ∪ (fp1 ∪ fp2)).
      split; [done|]. simpl. split_and!.
      * eexists _, (fp1 ∪ fp2). split; [apply lookup_insert_eq|]. simpl.
        split_and!; try done.
        -- exists lvs1, lvs2, fp1, fp2. split_and!; try done.
           ++ eapply btree_frame; [|done]. intros y Hy.
              rewrite lookup_insert_ne; [done|]. intros <-. set_solver.
           ++ eapply btree_frame; [|done]. intros y Hy.
              rewrite lookup_insert_ne; [done|]. intros <-. set_solver.
        -- set_solver.
      * eapply lchain_frame; [|by apply Hchain]. intros y Hy.
        rewrite lookup_insert_ne; [done|]. intros <-. apply Hnr.
        unfold leaf_locs in Hy. rewrite fmap_app in Hy.
        apply btree_leaf_locs in Hb1 as (_ & Hin1 & _).
        apply btree_leaf_locs in Hb2 as (_ & Hin2 & _).
        apply elem_of_app in Hy as [Hy|Hy]; [apply Hdom1, Hin1, Hy|apply Hdom2, Hin2, Hy].
      * done.
    + destruct Hpost as (lvs' & fp' & Hb' & _ & Hchain & _ & Hentries).
      eexists _, n, lvs', fp'. split; [done|]. simpl. split_and!; try done.
      by apply Hchain.
  - simpl. pose proof Hpath as (Hm & Hbx & Hin & _).
    destruct (insert_recursive_spec ORDER m (heap s) x lo' hi' Ls fps key v fuel Hbx Hin)
      as (h1 & r & Hrec & Hpost); [lia|].
    rewrite Hrec. simpl. destruct r as [[sib pk]|].
    + exfalso. destruct Hpost as (_ & _ & lvs1 & lvs2 & fp1 & fp2 & Hrest).
      destruct Hrest as (_ & _ & _ & _ & _ & _ & _ & _ & Hfull).
      specialize (Hfull nd Hx). unfold is_safe_for_insert in Hsafe.
      destruct (is_leaf nd); apply bool_decide_eq_true in Hsafe; lia.
    + destruct (on_path_insert ORDER _ _ _ _ _ _ _ _ _ _ _ _ _ _ _ _ _ _ None
                  Hb Hpath Hpost Hch) as (lvs' & fp' & Hb' & Hch' & Hentries).
      eexists _, n, lvs', fp'. split; [done|]. done.
Qed.

(** The number of allocated nodes is fuel enough. *)
Lemma fuel_enough n s lvs fp :
  btree n (heap s) (root s) None None lvs fp → n < fuel_of s ∧ length lvs < fuel_of s.
Proof.
  intros Hb. pose proof (btree_height _ _ _ _ _ _ _ Hb) as Hn.
  pose proof (btree_dom _ _ _ _ _ _ _ Hb) as Hdom.
  apply subseteq_size in Hdom. rewrite size_dom in Hdom.
  unfold fuel_of. split; [lia|].
  apply btree_leaf_locs in Hb as (Hnd & Hin & _).
  assert (length lvs ≤ size fp); [|lia].
  replace (length lvs) with (length (leaf_locs lvs)) by apply length_fmap.
  rewrite <-(size_list_to_set (C:=gset loc)) by done.
  apply subseteq_size. intros y Hy. apply Hin. set_solver.
Qed.

Lemma bp_empty_inv : tree_inv (empty : state) [(root (empty : state), [])].
Proof.
  exists 0, {[root (empty : state)]}. unfold empty, alloc. simpl. split.
  - eexists. split; [apply lookup_insert_eq|]. simpl.
    split_and!; try done. constructor.
  - split; [|done]. eexists. split; [apply lookup_insert_eq|]. done.
Qed.

Lemma bp_insert_spec s lvs key v :
  tree_inv s lvs →
  ∃ s' lvs', insert ORDER key v s = Some (true, s') ∧ tree_inv s' lvs' ∧
             entries lvs' = put key v (entries lvs).
Proof.
  intros (n & fp & Hb & Hch).
  destruct (fuel_enough _ _ _ _ Hb) as [Hfuel _].
  unfold insert, insert_fuel.
  destruct (optimistic_insert_spec ORDER n s lvs fp key v (fuel_of s) Hb Hch Hfuel)
    as (x & nd & _ & _ & _ & Hopt).
  destruct (is_safe_for_insert ORDER nd).
  - destruct Hopt as (s' & lvs' & fp' & -> & _ & _ & Hb' & Hch' & Hentries).
    simpl. exists s', lvs'. split_and!; try done. by exists n, fp'.
  - rewrite Hopt. simpl.
    destruct (pessimistic_insert_spec n s lvs fp key v (fuel_of s) Hb Hch Hfuel)
      as (s' & n' & lvs' & fp' & -> & Hb' & Hch' & Hentries).
    simpl. exists s', lvs'. split_and!; try done. by exists n', fp'.
Qed.

Lemma bp_search_spec s lvs key :
  tree_inv s lvs → search key s = Some (get key (entries lvs)).
Proof.
  intros (n & fp & Hb & Hch).
  destruct (fuel_enough _ _ _ _ Hb) as [Hfuel _].
  destruct (find_leaf_spec n (heap s) (root s) None None lvs fp key (fuel_of s) Hb)
    as (x & lo' & hi' & Ls & fps & A & B & Hfind & Hpath); [done|done|].
  destruct Hpath as (_ & Hbx & _ & -> & _ & HA & HB & _).
  destruct Hbx as (nd & Hx & _ & Hlen & Hsorted & _ & -> & _).
  unfold search, search_fuel. rewrite Hfind. simpl. rewrite Hx. simpl.
  rewrite leaf_get_spec by done.
  rewrite !entries_app. rewrite (get_app_l key (entries A)) by done.
  rewrite entries_cons. simpl. by rewrite (get_app_r key _ (entries B)).
Qed.

End ops.
End BPlusTreeOps.

From stdpp Require Import base gmap sets list strings sorting.

Module BPlusTreeScan.
Import KeyOrderFacts BPlusTree BPlusTreeInv BPlusTreeFacts BPlusTreeOps.

Section scan.
Context {K V : Type} `{EqDecision K, KeyOrderLaws K, Countable V}.

Local Abbreviation Node := (BPlusTree.Node (K:=K) (V:=V)).
Local Abbreviation leaf_abs := (leaf_abs (K:=K) (V:=V)).
Local Abbreviation state := (BPlusTree.t (K:=K) (V:=V)).
Implicit Types (h : gmap loc Node) (lvs : list leaf_abs) (fp : gset loc).
Implicit Types (lo hi : option K) (l c x : loc) (key k : K) (v : V) (s : state).
Implicit Types (es r : list (K * gset V)).

(** ** The result map *)

Lemma map_emplace_snoc k (vs : gset V) r :
  Forall (λ a, klt a.1 k = true) r → map_emplace k vs r = r ++ [(k, vs)].
Proof.
  induction 1 as [|[k' vs'] r Hk' Hr IH]; simpl; [done|].
  simpl in Hk'. rewrite (klt_asym _ _ Hk'), Hk'. by rewrite IH.
Qed.

Lemma filter_none {A} (P : A → Prop) `{!∀ a, Decision (P a)} (xs : list A) :
  Forall (λ a, ¬ P a) xs → filter P xs = [].
Proof.
  induction 1 as [|a xs Ha Hxs IH]; [done|]. by rewrite filter_cons_False.
Qed.

Lemma filter_all {A} (P : A → Prop) `{!∀ a, Decision (P a)} (xs : list A) :
  Forall P xs → filter P xs = xs.
Proof.
  induction 1 as [|a xs Ha Hxs IH]; [done|]. by rewrite filter_cons_True, IH.
Qed.

Lemma filter_Forall_iff {A} (P Q : A → Prop)
    `{!∀ a, Decision (P a), !∀ a, Decision (Q a)} (xs : list A) :
  Forall (λ a, P a ↔ Q a) xs → filter P xs = filter Q xs.
Proof.
  induction 1 as [|a xs Ha Hxs IH]; [done|].
  rewrite !filter_cons, IH. repeat case_decide; tauto.
Qed.

(** ** Scanning one leaf *)

Lemma scan_list_spec (hi : K) es r :
  key_sorted es.*1 → all_before r es →
  ∃ done, scan_list es hi r = (r ++ filter (λ e, klt e.1 hi = true) es, done) ∧
          (done = false → Forall (λ e, klt e.1 hi = true) es) ∧
          (done = true → Exists (λ e, klt e.1 hi = false) es).
Proof.
  unfold key_sorted, all_before. revert r.
  induction es as [|[k vs] es IH]; intros r Hs Hr; simpl.
  - exists false. rewrite app_nil_r. split_and!; done.
  - apply StronglySorted_cons in Hs as [Hall Hs].
    destruct (klt k hi) eqn:Hk; simpl.
    + destruct (IH (r ++ [(k, vs)]) Hs) as (done & Hscan & Hf & Ht).
      { apply Forall_app. split.
        - eapply Forall_impl; [exact Hr|]. intros a Ha. by apply Forall_cons in Ha as [_ ?].
        - constructor; [|done]. apply Forall_fmap in Hall. exact Hall. }
      exists done. rewrite map_emplace_snoc.
      2:{ eapply Forall_impl; [exact Hr|]. intros a Ha. by apply Forall_cons in Ha as [? _]. }
      rewrite Hscan, filter_cons_True by done. rewrite <-app_assoc. simpl.
      split_and!; [done| |].
      * intros Hd. constructor; auto.
      * intros Hd. apply Exists_cons_tl. auto.
    + exists true. rewrite filter_cons_False by (simpl; congruence).
      rewrite filter_none.
      2:{ apply Forall_fmap in Hall. eapply Forall_impl; [exact Hall|].
          intros e He. simpl in He. intros Hlt.
          by rewrite (klt_trans _ _ _ He Hlt) in Hk. }
      rewrite app_nil_r. split_and!; [done|done|].
      intros _. by apply Exists_cons_hd.
Qed.

Lemma scan_leaf_list (nd : Node) (hi : K) count idx r :
  length (values nd) = length (keys nd) → idx + count = length (keys nd) →
  scan_leaf nd idx count hi r =
  Some (scan_list (drop idx (zip (keys nd) (values nd))) hi r).
Proof.
  intros Hlen. revert idx r. induction count as [|count IH]; intros idx r Hidx; simpl.
  - rewrite drop_ge; [done|]. rewrite length_zip. lia.
  - destruct (lookup_lt_is_Some_2 (keys nd) idx) as [k Hk]; [lia|].
    destruct (lookup_lt_is_Some_2 (values nd) idx) as [vs Hvs]; [lia|].
    assert (Hz : zip (keys nd) (values nd) !! idx = Some (k, vs)).
    { rewrite lookup_zip_with, Hk. simpl. by rewrite Hvs. }
    rewrite (drop_S _ _ _ Hz). simpl. rewrite Hk. simpl.
    destruct (klt k hi); simpl; [|done].
    rewrite Hvs. simpl. apply IH. lia.
Qed.

(** What one leaf contributes to the window. *)
Lemma filter_window_leaf (ks : list K) (vs : list (gset V)) (lo hi : K) :
  key_sorted ks →
  filter (in_window_p lo hi) (zip ks vs) =
  filter (λ e, klt e.1 hi = true) (drop (lower_bound ks lo) (zip ks vs)).
Proof.
  intros Hs. set (idx := lower_bound ks lo).
  rewrite <-(take_drop idx (zip ks vs)) at 1. rewrite filter_app.
  rewrite zip_with_take, zip_with_drop.
  rewrite filter_none, app_nil_l.
  - apply filter_Forall_iff.
    eapply Forall_impl.
    { apply (zip_Forall_fst (λ k, klt k lo = false) (drop idx ks) (drop idx vs)).
      by apply lower_bound_drop. }
    intros e He. unfold in_window_p, in_window. simpl in *. rewrite He. simpl. done.
  - eapply Forall_impl.
    { apply (zip_Forall_fst (λ k, klt k lo = true) (take idx ks) (take idx vs)).
      apply lower_bound_take. }
    intros e He. unfold in_window_p, in_window. simpl in *. rewrite He. simpl. done.
Qed.

(** ** Leaves and order of a whole tree *)

Lemma btree_leaves_ok n h l lo hi lvs fp :
  btree n h l lo hi lvs fp → Forall (leaf_ok h) lvs.
Proof.
  revert l lo hi lvs fp. induction n as [|n IH]; intros l lo hi lvs fp; simpl.
  - intros (nd & Hl & _ & Hlen & Hs & _ & -> & _). constructor; [|done].
    exists nd. done.
  - intros (nd & fpk & _ & _ & Hkids & _ & _).
    assert (Forall (leaf_ok h) lvs ∧ True) as [? _]; [|done]. revert Hkids.
    apply (kids_elim (λ _ _ lvs _, Forall (leaf_ok h) lvs ∧ True)).
    + intros c lo' hi' lvs' fp' Hb. split; [|done]. by eapply IH.
    + intros _ _ _ lvs1 lvs2 _ _ _ [Hl _] [Hr _] _. split; [|done].
      by apply Forall_app.
Qed.

Lemma btree_sorted n h l lo hi lvs fp :
  btree n h l lo hi lvs fp → key_sorted (entries lvs).*1.
Proof.
  intros Hb.
  assert (key_sorted (entries lvs).*1 ∧
          Forall (λ e, in_range lo hi e.1) (entries lvs)) as [? _]; [|done].
  revert l lo hi lvs fp Hb. induction n as [|n IH]; intros l lo hi lvs fp Hb.
  - split; [|by eapply btree_range].
    destruct Hb as (nd & _ & _ & Hlen & Hs & _ & -> & _).
    unfold entries. simpl. rewrite app_nil_r, fst_zip; [done|lia].
  - destruct Hb as (nd & fpk & _ & _ & Hkids & _ & _). revert Hkids.
    apply (kids_elim (λ lo hi lvs _, key_sorted (entries lvs).*1 ∧
                        Forall (λ e, in_range lo hi e.1) (entries lvs))).
    + intros c lo' hi' lvs' fp'. apply IH.
    + intros lo' k hi' lvs1 lvs2 _ _ Hk [Hs1 Hr1] [Hs2 Hr2] _.
      rewrite entries_app. split.
      * rewrite fmap_app. apply StronglySorted_app_2; [|done..].
        intros k1 k2 (e1 & -> & He1)%list_elem_of_fmap (e2 & -> & He2)%list_elem_of_fmap.
        eapply Forall_forall in Hr1; [|done]. eapply Forall_forall in Hr2; [|done].
        destruct Hr1 as [_ Hr1], Hr2 as [Hr2 _]. simpl in *.
        by eapply klt_le_trans.
      * apply Forall_app. split.
        -- eapply Forall_impl; [exact Hr1|]. intros e. by apply in_range_left.
        -- eapply Forall_impl; [exact Hr2|]. intros e. by apply in_range_right.
Qed.

(** ** Scanning the chain *)

Lemma all_before_nil es : all_before [] es.
Proof. constructor. Qed.

Lemma scan_chain_spec h (lo hi : K) lvs :
  ∀ fuel cur r,
    Forall (leaf_ok h) lvs → lchain h lvs None → first_leaf lvs = Some cur →
    length lvs ≤ fuel → key_sorted (entries lvs).*1 → all_before r (entries lvs) →
    scan_chain fuel h cur lo hi r = Some (r ++ filter (in_window_p lo hi) (entries lvs)).
Proof.
  induction lvs as [|[l es] lvs IH]; intros fuel cur r Hok Hch Hfirst Hfuel Hs Hr;
    [done|].
  simpl in Hfirst. injection Hfirst as <-.
  destruct fuel as [|fuel]; [simpl in Hfuel; lia|].
  apply Forall_cons in Hok as [(nd & Hl & Hlen & Hks & Hes) Hok]. simpl in Hl, Hes.
  destruct Hch as [(nd' & Hl' & Hnext) Hch]. simpl in Hl'.
  assert (nd' = nd) as -> by congruence.
  rewrite entries_cons in Hs, Hr |- *. simpl in Hs, Hr |- *.
  unfold key_sorted in Hs. rewrite fmap_app in Hs.
  pose proof (StronglySorted_app_1_l _ _ _ Hs) as Hs1.
  pose proof (StronglySorted_app_1_r _ _ _ Hs) as Hs2.
  set (idx := lower_bound (keys nd) lo).
  rewrite Hl. simpl.
  rewrite (scan_leaf_list nd hi) by (pose proof (lower_bound_le (keys nd) lo); fold idx; lia).
  fold idx. rewrite <-Hes.
  destruct (scan_list_spec hi (drop idx es) r) as (done & Hscan & Hf & Ht).
  { unfold key_sorted. rewrite fmap_drop.
    rewrite <-(take_drop idx es.*1) in Hs1. by apply StronglySorted_app_1_r in Hs1. }
  { eapply Forall_impl; [exact Hr|]. intros a Ha.
    apply Forall_app in Ha as [Ha _]. by apply Forall_drop. }
  rewrite Hscan. simpl.
  assert (Hwin : filter (in_window_p lo hi) es =
                 filter (λ e, klt e.1 hi = true) (drop idx es)).
  { rewrite Hes. by apply filter_window_leaf. }
  rewrite filter_app, <-Hwin.
  destruct done.
  - rewrite (filter_none _ (entries lvs)); [by rewrite app_nil_r|].
    specialize (Ht eq_refl). apply Exists_exists in Ht as (e & He & Hehi).
    apply Forall_forall. intros e' He' Hw.
    unfold in_window_p, in_window in Hw. apply andb_true_iff in Hw as [_ Hw].
    assert (klt e.1 e'.1 = true) as Hee.
    { eapply (StronglySorted_app_1_elem_of _ _ _ _ _ Hs).
      - apply list_elem_of_fmap. exists e. split; [done|].
        by eapply subseteq_drop.
      - apply list_elem_of_fmap. by exists e'. }
    by rewrite (klt_trans _ _ _ Hee Hw) in Hehi.
  - destruct lvs as [|[l' es'] lvs].
    + simpl in Hnext. rewrite Hnext. unfold entries. simpl.
      by rewrite filter_nil, app_nil_r.
    + simpl in Hnext. rewrite Hnext. rewrite app_assoc.
      apply IH; try done.
      * simpl in Hfuel |- *. lia.
      * apply Forall_app. split.
        -- eapply Forall_impl; [exact Hr|]. intros a Ha.
           by apply Forall_app in Ha as [_ ?].
        -- apply Forall_forall. intros a [_ Ha]%list_elem_of_filter.
           apply Forall_forall. intros b Hb.
           eapply (StronglySorted_app_1_elem_of _ _ _ _ _ Hs).
           ++ apply list_elem_of_fmap. by exists a.
           ++ apply list_elem_of_fmap. by exists b.
Qed.

Lemma range_search_spec s lvs (lo hi : K) :
  tree_inv s lvs →
  range_search lo hi s = Some (filter (in_window_p lo hi) (entries lvs)).
Proof.
  intros (n & fp & Hb & Hch). unfold range_search, range_search_fuel.
  destruct (fuel_enough _ _ _ _ Hb) as [Hfuel Hleaves].
  remember (fuel_of s) as f eqn:Hf. clear Hf.
  destruct (klt lo hi) eqn:Hlohi; simpl.
  - destruct (find_leaf_spec n (heap s) (root s) None None lvs fp lo f Hb)
      as (x & lo' & hi' & Ls & fps & A & B & Hfind & Hpath); [done|done|].
    rewrite Hfind. simpl.
    destruct Hpath as (_ & Hbx & _ & -> & _ & HA & _).
    pose proof (btree_leaves_ok _ _ _ _ _ _ _ Hb) as Hok.
    pose proof (btree_sorted _ _ _ _ _ _ _ Hb) as Hs.
    apply Forall_app in Hok as [_ Hok].
    apply lchain_app in Hch as [_ Hch].
    rewrite entries_app in Hs |- *. rewrite filter_app.
    unfold key_sorted in Hs. rewrite fmap_app in Hs.
    apply StronglySorted_app_1_r in Hs.
    rewrite (filter_none _ (entries A)).
    2:{ eapply Forall_impl; [exact HA|]. intros e He.
        unfold in_window_p, in_window. rewrite He. simpl. done. }
    rewrite (scan_chain_spec (heap s) lo hi (Ls ++ B) f x []); try done.
    + destruct Hbx as (nd & _ & _ & _ & _ & _ & -> & _). done.
    + rewrite !length_app in *. lia.
    + apply all_before_nil.
  - f_equal. symmetry. apply filter_none. apply Forall_forall.
    intros e _ Hw. unfold in_window_p, in_window in Hw.
    apply andb_true_iff in Hw as [Hw1%negb_true_iff Hw2].
    by rewrite (klt_le_trans _ _ _ Hw2 Hlohi) in Hw1.
Qed.

End scan.
End BPlusTreeScan.

From stdpp Require Import base gmap sets list strings sorting.

Module BPlusTreeRuns.
Import KeyOrderFacts BPlusTree BPlusTreeInv BPlusTreeFacts BPlusTreeOps BPlusTreeScan.

Section runs.
Context {K V : Type} `{EqDecision K, KeyOrderLaws K, Countable V}.
Variable ORDER : nat.

Local Abbreviation leaf_abs := (leaf_abs (K:=K) (V:=V)).
Local Abbreviation state := (BPlusTree.t (K:=K) (V:=V)).
Implicit Types (lvs : list leaf_abs) (key k : K) (v : V) (s : state).
Implicit Types (es r : list (K * gset V)) (ops : list (K * V)).

(** ** Entries built by a sequence of inserts *)

Lemma foldl_put_sorted ops es :
  key_sorted es.*1 → key_sorted (foldl (λ es o, put o.1 o.2 es) es ops).*1.
Proof.
  revert es. induction ops as [|[k v] ops IH]; intros es Hs; simpl; [done|].
  apply IH. by apply put_sorted.
Qed.

Lemma contents_sorted ops : key_sorted (contents ops).*1.
Proof. apply foldl_put_sorted. constructor. Qed.

Lemma values_of_cons k0 v0 ops k :
  values_of ((k0, v0) :: ops) k =
  if decide (k0 = k) then {[v0]} ∪ values_of ops k else values_of ops k.
Proof.
  unfold values_of. rewrite filter_cons. simpl. by case_decide.
Qed.

Lemma foldl_put_get ops es k :
  key_sorted es.*1 →
  get k (foldl (λ es o, put o.1 o.2 es) es ops) = get k es ∪ values_of ops k.
Proof.
  revert es. induction ops as [|[k0 v0] ops IH]; intros es Hs; simpl.
  - unfold values_of. simpl. set_solver.
  - rewrite IH by by apply put_sorted.
    rewrite get_put, values_of_cons by done.
    repeat case_decide; try congruence; set_solver.
Qed.

Lemma contents_get ops k : get k (contents ops) = values_of ops k.
Proof.
  unfold contents. rewrite foldl_put_get by constructor. simpl. set_solver.
Qed.

Lemma foldl_put_keys ops es k :
  k ∈ (foldl (λ es o, put o.1 o.2 es) es ops).*1 ↔ k ∈ es.*1 ∨ ∃ v, (k, v) ∈ ops.
Proof.
  revert es. induction ops as [|[k0 v0] ops IH]; intros es; simpl.
  - split; [tauto|]. intros [?|[v Hv]]; [done|]. by apply elem_of_nil in Hv.
  - rewrite IH, put_keys. split.
    + intros [[->|?]|[v Hv]]; [right|by left|right].
      * exists v0. apply list_elem_of_here.
      * exists v. by apply list_elem_of_further.
    + intros [?|[v [[= -> ->]|Hv]%elem_of_cons]]; [tauto|tauto|].
      right. by exists v.
Qed.

Lemma contents_keys ops k : k ∈ (contents ops).*1 ↔ ∃ v, (k, v) ∈ ops.
Proof.
  unfold contents. rewrite foldl_put_keys. simpl. split; [|tauto].
  intros [Hk|?]; [|done]. by apply elem_of_nil in Hk.
Qed.

Lemma values_of_elem ops k v : v ∈ values_of ops k ↔ (k, v) ∈ ops.
Proof.
  unfold values_of. rewrite elem_of_list_to_set, list_elem_of_fmap. split.
  - intros ([k' v'] & -> & [Hk Hin]%list_elem_of_filter). simpl in *. by subst.
  - intros Hin. exists (k, v). split; [done|]. by apply list_elem_of_filter.
Qed.

(** In a sorted list an entry is what [get] reads under its key. *)
Lemma sorted_elem_get es k (vs : gset V) :
  key_sorted es.*1 → (k, vs) ∈ es ↔ k ∈ es.*1 ∧ get k es = vs.
Proof.
  unfold key_sorted. induction es as [|[k0 v0] es IH]; simpl.
  - intros _. split; [by intros ?%elem_of_nil|by intros [?%elem_of_nil _]].
  - intros [Hall Hs]%StronglySorted_cons.
    assert (Hfresh : k0 ∉ es.*1).
    { intros Hin. eapply Forall_forall in Hall; [|done].
      by rewrite klt_irrefl in Hall. }
    rewrite !elem_of_cons, (IH Hs). case_decide as Hk.
    + subst k0. split.
      * intros [[= ->]|[? _]]; [auto|done].
      * intros [_ ->]. by left.
    + split.
      * intros [[= -> ->]|[? ?]]; [done|auto].
      * intros [[->|?] ?]; [done|auto].
Qed.

Lemma filter_sorted (P : K * gset V → Prop) `{!∀ e, Decision (P e)} es :
  key_sorted es.*1 → key_sorted (filter P es).*1.
Proof.
  unfold key_sorted. induction es as [|e es IH]; [done|].
  rewrite fmap_cons. intros [Hall Hs]%StronglySorted_cons.
  rewrite filter_cons. case_decide; [|by apply IH].
  rewrite fmap_cons. apply StronglySorted_cons. split; [|by apply IH].
  apply Forall_forall. intros k (e' & -> & [_ He']%list_elem_of_filter)%list_elem_of_fmap.
  eapply Forall_forall in Hall; [done|]. apply list_elem_of_fmap. by exists e'.
Qed.

(** ** Trees built by a sequence of inserts *)

Lemma run_spec ops s lvs :
  tree_inv s lvs →
  ∃ s' lvs', run ORDER ops s = Some s' ∧ tree_inv s' lvs' ∧
             entries lvs' = foldl (λ es o, put o.1 o.2 es) (entries lvs) ops.
Proof.
  revert s lvs. induction ops as [|[k v] ops IH]; intros s lvs Hinv; simpl.
  - by exists s, lvs.
  - destruct (bp_insert_spec ORDER s lvs k v Hinv) as (s1 & lvs1 & -> & Hinv1 & Hentries).
    simpl. destruct (IH s1 lvs1 Hinv1) as (s' & lvs' & Hrun & Hinv' & Hentries').
    exists s', lvs'. split_and!; try done. by rewrite Hentries', Hentries.
Qed.

Lemma run_empty_spec ops :
  ∃ s lvs, run ORDER ops empty = Some s ∧ tree_inv s lvs ∧ entries lvs = contents ops.
Proof.
  destruct (run_spec ops empty _ bp_empty_inv) as (s & lvs & Hrun & Hinv & Hentries).
  exists s, lvs. split_and!; try done.
Qed.

End runs.
End BPlusTreeRuns.

From stdpp Require Import base gmap sets list strings sorting.

(** * The lock-free skip list: proofs *)

Module LockFreeSkipListFacts.
Import KeyOrderFacts LockFreeSkipList LockFreeSkipListInv.

Section facts.
Context {K V : Type} `{EqDecision K, Inhabited K, KeyOrder K, Countable V}.

Local Abbreviation Node := (LockFreeSkipList.Node (K:=K) (V:=V)).
Implicit Types (h : gmap loc Node) (nd : Node) (p q : ptr) (i j : nat).
Implicit Types (x y n hd tl pred curr : loc) (xs B R l : list loc).

(** ** Slots *)

Lemma store_next_Some h n j p nd :
  h !! n = Some nd → j < length (next nd) →
  store_next h n j p = Some (<[n := set_next nd j p]> h).
Proof.
  intros Hn Hj. unfold store_next. rewrite Hn. simpl. by rewrite decide_True.
Qed.

Lemma cas_next_hit h n j p q nd :
  h !! n = Some nd → next nd !! j = Some p →
  cas_next h n j p q = Some (true, <[n := set_next nd j q]> h).
Proof.
  intros Hn Hj. unfold cas_next, load_next. rewrite Hn. simpl. rewrite Hj. simpl.
  rewrite decide_True by done.
  rewrite (store_next_Some h n j q nd); [done|done|]. by eapply lookup_lt_Some.
Qed.

Lemma load_next_insert_eq h n nd j :
  load_next (<[n := nd]> h) n j = next nd !! j.
Proof. unfold load_next. by rewrite lookup_insert_eq. Qed.

Lemma load_next_insert_ne h n nd x j :
  x ≠ n → load_next (<[n := nd]> h) x j = load_next h x j.
Proof. intros Hne. unfold load_next. by rewrite lookup_insert_ne. Qed.

Lemma next_addr_insert_ne h n nd x j :
  x ≠ n → next_addr (<[n := nd]> h) x j = next_addr h x j.
Proof. intros Hne. unfold next_addr. by rewrite load_next_insert_ne. Qed.

Lemma next_addr_set_next h n nd j p :
  j < length (next nd) →
  next_addr (<[n := set_next nd j p]> h) n j = addr p.
Proof.
  intros Hj. unfold next_addr. rewrite load_next_insert_eq. simpl.
  by rewrite list_lookup_insert_eq.
Qed.

Lemma next_addr_set_next_ne h n nd j i p :
  h !! n = Some nd → i ≠ j →
  next_addr (<[n := set_next nd j p]> h) n i = next_addr h n i.
Proof.
  intros Hn Hij. unfold next_addr, load_next. rewrite lookup_insert_eq, Hn. simpl.
  by rewrite list_lookup_insert_ne.
Qed.

(** ** Stores that differ on one level *)

Lemma same_but_level_refl i h : same_but_level i h h.
Proof. intros x. by destruct (h !! x). Qed.

Lemma same_but_level_sym i h h' : same_but_level i h h' → same_but_level i h' h.
Proof.
  intros Hs x. specialize (Hs x). destruct (h !! x), (h' !! x); try done.
  destruct Hs as (? & ? & ? & ? & Hj & ?). split_and!; try done.
  intros j Hne. by rewrite Hj.
Qed.

Lemma same_but_level_trans i h1 h2 h3 :
  same_but_level i h1 h2 → same_but_level i h2 h3 → same_but_level i h1 h3.
Proof.
  intros H12 H23 x. specialize (H12 x). specialize (H23 x).
  destruct (h1 !! x), (h2 !! x), (h3 !! x); try done.
  destruct H12 as (? & ? & ? & ? & Hj & ?), H23 as (? & ? & ? & ? & Hj' & ?).
  split_and!; try congruence. intros j Hne. rewrite Hj', Hj; done.
Qed.

Lemma same_but_level_store i h n nd p q :
  h !! n = Some nd → next nd !! i = Some q → mark p = mark q →
  same_but_level i h (<[n := set_next nd i p]> h).
Proof.
  intros Hn Hq Hm x. destruct (decide (x = n)) as [->|Hne].
  - rewrite Hn, lookup_insert_eq. simpl. split_and!; try done.
    + by rewrite length_insert.
    + intros j Hj. by rewrite list_lookup_insert_ne.
    + rewrite list_lookup_insert_eq by by eapply lookup_lt_Some.
      rewrite Hq. simpl. by rewrite Hm.
  - rewrite lookup_insert_ne by done. by destruct (h !! x).
Qed.

Lemma same_but_level_lookup i h h' x nd :
  same_but_level i h h' → h !! x = Some nd →
  ∃ nd', h' !! x = Some nd' ∧ key nd' = key nd ∧ values nd' = values nd ∧
         level nd' = level nd ∧ length (next nd') = length (next nd) ∧
         (∀ j, j ≠ i → next nd' !! j = next nd !! j) ∧
         (∀ j, mark <$> next nd' !! j = mark <$> next nd !! j).
Proof.
  intros Hs Hx. specialize (Hs x). rewrite Hx in Hs.
  destruct (h' !! x) as [nd'|]; [|done]. exists nd'.
  destruct Hs as (? & ? & ? & ? & Hj & Hm). split_and!; try done.
  intros j. destruct (decide (j = i)) as [->|Hne]; [done|]. by rewrite Hj.
Qed.

Lemma same_but_level_None i h h' x :
  same_but_level i h h' → h !! x = None → h' !! x = None.
Proof.
  intros Hs Hx. specialize (Hs x). rewrite Hx in Hs. by destruct (h' !! x).
Qed.

Lemma same_but_level_dom i h h' : same_but_level i h h' → dom h' = dom h.
Proof.
  intros Hs. apply set_eq. intros x. rewrite !elem_of_dom.
  specialize (Hs x). destruct (h !! x), (h' !! x); try done;
    split; intros [? ?]; try done; eauto.
Qed.

Lemma same_but_level_node_mark i h h' x nd nd' :
  same_but_level i h h' → h !! x = Some nd → h' !! x = Some nd' →
  node_mark nd' = node_mark nd.
Proof.
  intros Hs Hx Hx'. destruct (same_but_level_lookup _ _ _ _ _ Hs Hx)
    as (nd'' & Hx'' & _ & _ & _ & _ & _ & Hm).
  assert (nd'' = nd') as -> by congruence.
  unfold node_mark. by rewrite Hm.
Qed.

Lemma same_but_level_uniform i h h' x nd nd' :
  same_but_level i h h' → h !! x = Some nd → h' !! x = Some nd' →
  uniform nd → uniform nd'.
Proof.
  intros Hs Hx Hx' Hu. pose proof (same_but_level_node_mark _ _ _ _ _ _ Hs Hx Hx') as Hnm.
  destruct (same_but_level_lookup _ _ _ _ _ Hs Hx)
    as (nd'' & Hx'' & _ & _ & _ & _ & _ & Hm).
  assert (nd'' = nd') as -> by congruence.
  unfold uniform in *. rewrite Hnm. apply Forall_lookup. intros j p Hp.
  specialize (Hm j). rewrite Hp in Hm. simpl in Hm.
  destruct (next nd !! j) as [q|] eqn:Hq; [|done].
  eapply Forall_lookup in Hu; [|done]. simpl in Hm. congruence.
Qed.

Lemma same_but_level_live i h h' x : same_but_level i h h' → live h x → live h' x.
Proof.
  intros Hs (nd & Hx & Hm).
  destruct (same_but_level_lookup _ _ _ _ _ Hs Hx) as (nd' & Hx' & _).
  exists nd'. split; [done|]. by rewrite (same_but_level_node_mark _ _ _ _ _ _ Hs Hx Hx').
Qed.

Lemma same_but_level_dead i h h' x : same_but_level i h h' → dead h x → dead h' x.
Proof.
  intros Hs (nd & Hx & Hm).
  destruct (same_but_level_lookup _ _ _ _ _ Hs Hx) as (nd' & Hx' & _).
  exists nd'. split; [done|]. by rewrite (same_but_level_node_mark _ _ _ _ _ _ Hs Hx Hx').
Qed.

Lemma same_but_level_node_lt i h h' x y :
  same_but_level i h h' → node_lt h x y → node_lt h' x y.
Proof.
  intros Hs (nx & ny & Hx & Hy & Hlt).
  destruct (same_but_level_lookup _ _ _ _ _ Hs Hx) as (nx' & Hx' & Hkx & _).
  destruct (same_but_level_lookup _ _ _ _ _ Hs Hy) as (ny' & Hy' & Hky & _).
  exists nx', ny'. split_and!; try done. by rewrite Hkx, Hky.
Qed.

Lemma same_but_level_key_below i h h' k x :
  same_but_level i h h' → key_below h k x → key_below h' k x.
Proof.
  intros Hs (nd & Hx & Hlt).
  destruct (same_but_level_lookup _ _ _ _ _ Hs Hx) as (nd' & Hx' & Hk & _).
  exists nd'. split; [done|]. by rewrite Hk.
Qed.

Lemma same_but_level_key_from i h h' k x :
  same_but_level i h h' → key_from h k x → key_from h' k x.
Proof.
  intros Hs (nd & Hx & Hlt).
  destruct (same_but_level_lookup _ _ _ _ _ Hs Hx) as (nd' & Hx' & Hk & _).
  exists nd'. split; [done|]. by rewrite Hk.
Qed.

Lemma same_but_level_load i j h h' x :
  same_but_level i h h' → j ≠ i → load_next h' x j = load_next h x j.
Proof.
  intros Hs Hne. unfold load_next. destruct (h !! x) as [nd|] eqn:Hx.
  - destruct (same_but_level_lookup _ _ _ _ _ Hs Hx) as (nd' & -> & _ & _ & _ & _ & Hj & _).
    simpl. by apply Hj.
  - by rewrite (same_but_level_None _ _ _ _ Hs Hx).
Qed.

Lemma same_but_level_path i j h h' y xs :
  same_but_level i h h' → j ≠ i → path h j y xs → path h' j y xs.
Proof.
  intros Hs Hne. revert y. induction xs as [|x xs IH]; intros y; simpl; [done|].
  intros [Hp Hxs]. split; [|by apply IH].
  unfold next_addr in *. by rewrite (same_but_level_load _ _ _ _ _ Hs Hne).
Qed.

Lemma same_but_level_cget i h h' l k :
  same_but_level i h h' → cget h' l k = cget h l k.
Proof.
  intros Hs. induction l as [|x l IH]; simpl; [done|].
  destruct (h !! x) as [nd|] eqn:Hx.
  - destruct (same_but_level_lookup _ _ _ _ _ Hs Hx) as (nd' & Hx' & Hk & Hv & _).
    rewrite Hx', (same_but_level_node_mark _ _ _ _ _ _ Hs Hx Hx'), Hk, Hv, IH. done.
  - by rewrite (same_but_level_None _ _ _ _ Hs Hx).
Qed.

(** ** Paths *)

Lemma last_or_nil y : last_or y [] = y.
Proof. done. Qed.

Lemma last_or_snoc y xs x : last_or y (xs ++ [x]) = x.
Proof. unfold last_or. by rewrite last_snoc. Qed.

Lemma last_or_cons y x xs : last_or y (x :: xs) = last_or x xs.
Proof.
  unfold last_or. destruct xs as [|a xs]; [done|]. rewrite last_cons_cons.
  destruct (last (a :: xs)) eqn:E; [done|]. by apply last_None in E.
Qed.

Lemma last_or_elem y xs : last_or y xs ∈ y :: xs.
Proof.
  revert y. induction xs as [|a xs IH]; intros y.
  - rewrite last_or_nil. set_solver.
  - rewrite last_or_cons. specialize (IH a). set_solver.
Qed.

Lemma last_or_cases y xs : (xs = [] ∧ last_or y xs = y) ∨ last_or y xs ∈ xs.
Proof.
  destruct xs as [|a xs]; [by left|]. right.
  rewrite last_or_cons. apply last_or_elem.
Qed.

Lemma first_or_nil y : first_or y [] = y.
Proof. done. Qed.

Lemma first_or_cons y x xs : first_or y (x :: xs) = x.
Proof. done. Qed.

Lemma path_app h i y xs zs :
  path h i y (xs ++ zs) ↔ path h i y xs ∧ path h i (last_or y xs) zs.
Proof.
  revert y. induction xs as [|a xs IH]; intros y; simpl.
  - rewrite last_or_nil. tauto.
  - rewrite IH, last_or_cons. tauto.
Qed.

Lemma path_frame h h' i y xs z :
  (∀ x, x ∈ y :: xs → next_addr h' x i = next_addr h x i) →
  path h i y (xs ++ [z]) → path h' i y (xs ++ [z]).
Proof.
  revert y. induction xs as [|a xs IH]; intros y Hf; simpl.
  - intros [Hy _]. split; [|done]. rewrite Hf; [done|set_solver].
  - intros [Hy Hp]. split.
    + rewrite Hf; [done|set_solver].
    + apply IH; [|done]. intros x Hx. apply Hf. set_solver.
Qed.

Lemma path_next h i hd tl B R :
  path h i hd (B ++ R ++ [tl]) → next_addr h (last_or hd B) i = Some (first_or tl R).
Proof.
  rewrite path_app. intros [_ Hp]. destruct R as [|r R]; simpl in Hp; by destruct Hp.
Qed.

Lemma path_prefix_frame h i hd B nd' :
  NoDup (hd :: B) → path h i hd B → path (<[last_or hd B := nd']> h) i hd B.
Proof.
  intros Hnd Hp. destruct B as [|b B _] using rev_ind; [done|].
  rewrite last_or_snoc. revert Hp. apply path_frame. intros x Hx.
  apply next_addr_insert_ne. intros ->.
  rewrite app_comm_cons in Hnd. apply NoDup_app in Hnd as (_ & Hd & _).
  apply (Hd b Hx). set_solver.
Qed.

Lemma path_suffix_frame h i n r R tl nd' :
  n ∉ r :: R → path h i r (R ++ [tl]) → path (<[n := nd']> h) i r (R ++ [tl]).
Proof.
  intros Hn. apply path_frame. intros x Hx.
  apply next_addr_insert_ne. intros ->. done.
Qed.

Lemma path_unlink h i hd tl B x R nd p :
  path h i hd (B ++ x :: R ++ [tl]) → NoDup (hd :: B ++ x :: R) →
  h !! last_or hd B = Some nd → i < length (next nd) →
  addr p = Some (first_or tl R) →
  path (<[last_or hd B := set_next nd i p]> h) i hd (B ++ R ++ [tl]).
Proof.
  intros Hp Hnd Hpred Hi Hp'. apply path_app in Hp as [HB HR].
  assert (NoDup (hd :: B) ∧ ∀ z, z ∈ hd :: B → z ∉ x :: R) as [HndB Hdis].
  { rewrite app_comm_cons in Hnd. apply NoDup_app in Hnd as (? & ? & _). done. }
  apply path_app. split; [by apply path_prefix_frame|].
  pose proof (Hdis _ (last_or_elem hd B)) as Hout.
  simpl in HR. destruct HR as [_ HR].
  destruct R as [|r R]; simpl.
  - split; [|done]. by rewrite next_addr_set_next.
  - simpl in HR. destruct HR as [_ HR].
    split; [by rewrite next_addr_set_next|].
    apply path_suffix_frame; [|done]. set_solver.
Qed.

Lemma path_link h i hd tl B R n nd :
  path h i hd (B ++ R ++ [tl]) → NoDup (hd :: B ++ R) → n ∉ hd :: B ++ R →
  h !! last_or hd B = Some nd → i < length (next nd) →
  next_addr h n i = Some (first_or tl R) →
  path (<[last_or hd B := set_next nd i (ref n)]> h) i hd (B ++ n :: R ++ [tl]).
Proof.
  intros Hp Hnd Hn Hpred Hi Hnn. apply path_app in Hp as [HB HR].
  assert (NoDup (hd :: B) ∧ ∀ z, z ∈ hd :: B → z ∉ R) as [HndB Hdis].
  { rewrite app_comm_cons in Hnd. apply NoDup_app in Hnd as (? & ? & _). done. }
  pose proof (last_or_elem hd B) as Hin.
  assert (n ≠ last_or hd B) as Hne by (intros ->; set_solver).
  apply path_app. split; [by apply path_prefix_frame|].
  simpl. split; [by rewrite next_addr_set_next|].
  destruct R as [|r R]; simpl.
  - split; [|done]. by rewrite next_addr_insert_ne.
  - simpl in HR. destruct HR as [_ HR].
    split; [by rewrite next_addr_insert_ne|].
    apply path_suffix_frame; [|done]. intros Hx. by apply (Hdis _ Hin).
Qed.

(** ** Levels *)

Context `{!KeyOrderLaws K}.

Lemma node_lt_irrefl h x : ¬ node_lt h x x.
Proof.
  intros (nx & ny & Hx & Hy & Hlt). assert (nx = ny) as -> by congruence.
  by rewrite klt_irrefl in Hlt.
Qed.

Lemma node_lt_trans h x y z : node_lt h x y → node_lt h y z → node_lt h x z.
Proof.
  intros (nx & ny & Hx & Hy & Hxy) (ny' & nz & Hy' & Hz & Hyz).
  assert (ny' = ny) as -> by congruence.
  exists nx, nz. split_and!; try done. by eapply klt_trans.
Qed.

Lemma node_lt_key_below h k x y : node_lt h x y → key_below h k y → key_below h k x.
Proof.
  intros (nx & ny & Hx & Hy & Hxy) (ny' & Hy' & Hyk).
  assert (ny' = ny) as -> by congruence.
  exists nx. split; [done|]. by eapply klt_trans.
Qed.

Lemma sorted_mono {A} (R1 R2 : relation A) (l : list A) :
  (∀ a b, R1 a b → R2 a b) → StronglySorted R1 l → StronglySorted R2 l.
Proof.
  intros HR. induction 1 as [|a l Hs IH Hall]; constructor; [done|].
  eapply Forall_impl; [done|]. apply HR.
Qed.

Lemma sorted_NoDup h l : StronglySorted (node_lt h) l → NoDup l.
Proof.
  induction 1 as [|a l Hs IH Hall]; constructor; [|done].
  intros Hin. eapply Forall_forall in Hall; [|done]. by apply node_lt_irrefl in Hall.
Qed.

Lemma sorted_drop_middle h B x R :
  StronglySorted (node_lt h) (B ++ x :: R) → StronglySorted (node_lt h) (B ++ R).
Proof.
  rewrite !StronglySorted_app, StronglySorted_cons.
  intros (Hall & HB & _ & HR). split_and!; try done.
  intros a b Ha Hb. apply Hall; [done|]. set_solver.
Qed.

Lemma chain_NoDup h i hd tl l : chain_ok h i hd tl l → NoDup (hd :: l).
Proof.
  intros (_ & Hhd & _ & _ & Hs). constructor; [done|]. by eapply sorted_NoDup.
Qed.

Lemma head_ok_live h hd : head_ok h hd → live h hd.
Proof. intros (hn & Hh & _ & Hm). by exists hn. Qed.

Lemma head_ok_has_level h hd i : head_ok h hd → i < MAX_LEVEL → has_level h i hd.
Proof. intros (hn & Hh & Hl & _) Hi. exists hn. split; [done|]. by rewrite Hl. Qed.

Lemma pred_has_level h hd i B :
  head_ok h hd → i < MAX_LEVEL → Forall (has_level h i) B → has_level h i (last_or hd B).
Proof.
  intros Hh Hi HB. destruct (last_or_cases hd B) as [[_ ->]|Hin].
  - by apply head_ok_has_level.
  - by eapply Forall_forall in HB.
Qed.

Lemma node_slot h i x nd :
  nodes_ok h → h !! x = Some nd → i < level nd →
  ∃ p, next nd !! i = Some p ∧ mark p = node_mark nd.
Proof.
  intros Hok Hx Hi. destruct (Hok _ _ Hx) as (Hlen & _ & Hu).
  destruct (lookup_lt_is_Some_2 (next nd) i) as [p Hp]; [by rewrite Hlen|].
  exists p. split; [done|]. by eapply Forall_lookup in Hu.
Qed.

Lemma pred_slot h i hd tl B R :
  nodes_ok h → path h i hd (B ++ R ++ [tl]) →
  live h (last_or hd B) → has_level h i (last_or hd B) →
  ∃ pn, h !! last_or hd B = Some pn ∧ next pn !! i = Some (ref (first_or tl R)).
Proof.
  intros Hok Hp (pn & Hpn & Hm) (pn' & Hpn' & Hi).
  assert (pn' = pn) as -> by congruence.
  exists pn. split; [done|].
  destruct (node_slot _ _ _ _ Hok Hpn Hi) as (p & Hpi & Hmp).
  apply path_next in Hp. unfold next_addr, load_next in Hp.
  rewrite Hpn in Hp. simpl in Hp. rewrite Hpi in Hp. simpl in Hp.
  rewrite Hpi. f_equal. destruct p as [a m]. simpl in *. unfold ref. congruence.
Qed.

Lemma same_but_level_has_level i j h h' x :
  same_but_level i h h' → has_level h j x → has_level h' j x.
Proof.
  intros Hs (nd & Hx & Hj).
  destruct (same_but_level_lookup _ _ _ _ _ Hs Hx) as (nd' & Hx' & _ & _ & Hl & _).
  exists nd'. split; [done|]. by rewrite Hl.
Qed.

Lemma same_but_level_nodes_ok i h h' : same_but_level i h h' → nodes_ok h → nodes_ok h'.
Proof.
  intros Hs Hok x nd' Hx'.
  destruct (same_but_level_lookup _ _ _ _ _ (same_but_level_sym _ _ _ Hs) Hx')
    as (nd & Hx & _ & _ & Hl & Hlen & _).
  destruct (Hok _ _ Hx) as (Ha & Hb & Hc). split_and!; try congruence.
  - lia.
  - lia.
  - by eapply same_but_level_uniform.
Qed.

Lemma same_but_level_head_ok i h h' hd : same_but_level i h h' → head_ok h hd → head_ok h' hd.
Proof.
  intros Hs (hn & Hh & Hl & Hm).
  destruct (same_but_level_lookup _ _ _ _ _ Hs Hh) as (hn' & Hh' & _ & _ & Hl' & _).
  exists hn'. split_and!; [done|congruence|].
  by rewrite (same_but_level_node_mark _ _ _ _ _ _ Hs Hh Hh').
Qed.

Lemma same_but_level_levels i h h' l j :
  same_but_level i h h' → Forall (has_level h j) l → Forall (has_level h' j) l.
Proof.
  intros Hs Hl. eapply Forall_impl; [done|]. intros x. by apply (same_but_level_has_level i).
Qed.

Lemma same_but_level_sorted i h h' l :
  same_but_level i h h' → StronglySorted (node_lt h) l → StronglySorted (node_lt h') l.
Proof. intros Hs. apply sorted_mono. intros a b. by apply (same_but_level_node_lt i). Qed.

Lemma chain_ok_other i j h h' hd tl l :
  same_but_level i h h' → j ≠ i → chain_ok h j hd tl l → chain_ok h' j hd tl l.
Proof.
  intros Hs Hne (Hp & Hhd & Htl & Hl & Hsrt). split_and!; try done.
  - by eapply same_but_level_path.
  - by eapply same_but_level_levels.
  - by eapply same_but_level_sorted.
Qed.

(** ** Unlinking logically deleted nodes *)

Lemma chain_unlink h i hd tl B x R pn p :
  chain_ok h i hd tl (B ++ x :: R) →
  h !! last_or hd B = Some pn → next pn !! i = Some (ref x) →
  addr p = Some (first_or tl R) → mark p = false →
  same_but_level i h (<[last_or hd B := set_next pn i p]> h) ∧
  chain_ok (<[last_or hd B := set_next pn i p]> h) i hd tl (B ++ R).
Proof.
  intros Hc Hpn Hslot Hp Hm.
  assert (same_but_level i h (<[last_or hd B := set_next pn i p]> h)) as Hs.
  { eapply same_but_level_store; [done|done|]. by rewrite Hm. }
  split; [done|].
  pose proof (chain_NoDup _ _ _ _ _ Hc) as Hnd.
  destruct Hc as (Hpath & Hhd & Htl & Hl & Hsrt). split_and!.
  - rewrite <-app_assoc in Hpath. simpl in Hpath.
    rewrite <-app_assoc. eapply path_unlink; try done. by eapply lookup_lt_Some.
  - set_solver.
  - set_solver.
  - eapply same_but_level_levels; [done|].
    apply Forall_app in Hl as [HB HR]. apply Forall_cons in HR as [_ HR].
    by apply Forall_app.
  - eapply same_but_level_sorted; [done|]. by eapply sorted_drop_middle.
Qed.

Lemma succ_of_is_Some tl h i hd R :
  nodes_ok h → Forall (has_level h i) R → is_Some (succ_of tl h (first_or tl R) i).
Proof.
  intros Hok HR. unfold succ_of. destruct R as [|r R].
  - rewrite first_or_nil. rewrite decide_True by done. eauto.
  - rewrite first_or_cons. destruct (decide (r = tl)); [eauto|].
    apply Forall_cons in HR as [(nd & Hr & Hi) _].
    destruct (node_slot _ _ _ _ Hok Hr Hi) as (p & Hp & _).
    unfold load_next. rewrite Hr. simpl. eauto.
Qed.

Lemma unlink_marked_spec tl hd i R : ∀ B h fuel succ,
  i < MAX_LEVEL → nodes_ok h → head_ok h hd →
  chain_ok h i hd tl (B ++ R) → live h (last_or hd B) →
  length R < fuel →
  succ_of tl h (first_or tl R) i = Some succ →
  ∃ R1 R2 h' succ',
    unlink_marked tl fuel h i (last_or hd B) (first_or tl R) succ
      = Some (h', Some (first_or tl R2, succ')) ∧
    R = R1 ++ R2 ∧ Forall (dead h) R1 ∧
    mark succ' = false ∧ succ_of tl h' (first_or tl R2) i = Some succ' ∧
    (∀ x, R2 !! 0 = Some x → live h' x) ∧
    same_but_level i h h' ∧ chain_ok h' i hd tl (B ++ R2).
Proof.
  induction R as [|x R IH]; intros B h fuel succ Hi Hok Hhd Hc Hlive Hfuel Hsucc.
  - destruct fuel as [|fuel]; [simpl in Hfuel; lia|].
    rewrite first_or_nil in *. unfold succ_of in Hsucc.
    rewrite decide_True in Hsucc by done. injection Hsucc as <-.
    exists [], [], h, (ref tl). simpl. split_and!; try done.
    + unfold succ_of. by rewrite decide_True.
    + apply same_but_level_refl.
  - destruct fuel as [|fuel]; [simpl in Hfuel; lia|]. simpl in Hfuel.
    rewrite first_or_cons in *.
    assert (x ≠ tl) as Hxtl.
    { intros ->. destruct Hc as (_ & _ & Htl & _). set_solver. }
    unfold succ_of in Hsucc. rewrite decide_False in Hsucc by done.
    assert (has_level h i x) as (nd & Hx & Hxi).
    { destruct Hc as (_ & _ & _ & Hl & _). apply Forall_app in Hl as [_ Hl].
      by apply Forall_cons in Hl as [? _]. }
    destruct (node_slot _ _ _ _ Hok Hx Hxi) as (p & Hp & Hmp).
    unfold load_next in Hsucc. rewrite Hx in Hsucc. simpl in Hsucc.
    assert (succ = p) as -> by congruence.
    simpl. unfold is_marked. destruct (mark p) eqn:Hm.
    + (* [x] is logically deleted: unlink it *)
      assert (has_level h i (last_or hd B)) as Hpl.
      { apply pred_has_level; [done|done|].
        destruct Hc as (_ & _ & _ & Hl & _). by apply Forall_app in Hl as [? _]. }
      pose proof Hc as (Hpath & _).
      rewrite <-app_assoc in Hpath.
      destruct (pred_slot _ _ _ _ _ _ Hok Hpath Hlive Hpl) as (pn & Hpn & Hslot).
      rewrite first_or_cons in Hslot.
      assert (addr p = Some (first_or tl R)) as Haddr.
      { pose proof Hc as (Hpath' & _).
        replace ((B ++ x :: R) ++ [tl]) with ((B ++ [x]) ++ R ++ [tl]) in Hpath'
          by (by rewrite <-!app_assoc).
        apply path_next in Hpath'. rewrite last_or_snoc in Hpath'.
        unfold next_addr, load_next in Hpath'. rewrite Hx in Hpath'. simpl in Hpath'.
        by rewrite Hp in Hpath'. }
      destruct (chain_unlink _ _ _ _ _ _ _ _ (get_unmarked_ref p) Hc Hpn Hslot Haddr eq_refl)
        as [Hs Hc1].
      rewrite (cas_next_hit h _ i (ref x) (get_unmarked_ref p) pn Hpn Hslot). simpl.
      rewrite load_next_insert_eq. simpl.
      rewrite list_lookup_insert_eq by by eapply lookup_lt_Some.
      simpl. rewrite Haddr. simpl.
      change (mkNode (key pn) (values pn) (level pn) (<[i:=get_unmarked_ref p]> (next pn)))
        with (set_next pn i (get_unmarked_ref p)).
      set (h1 := <[last_or hd B := set_next pn i (get_unmarked_ref p)]> h) in *.
      pose proof (same_but_level_nodes_ok _ _ _ Hs Hok) as Hok1.
      destruct (succ_of_is_Some tl h1 i hd R Hok1) as [succ1 Hsucc1].
      { destruct Hc1 as (_ & _ & _ & Hl & _). by apply Forall_app in Hl as [_ ?]. }
      rewrite Hsucc1. simpl.
      destruct (IH B h1 fuel succ1) as (R1 & R2 & h' & succ' & Hrun & -> & Hdead & Hm' & Hs' & Hl' & Hsame & Hc');
        try done.
      { by eapply same_but_level_head_ok. }
      { by eapply same_but_level_live. }
      { lia. }
      exists (x :: R1), R2, h', succ'. split_and!; try done.
      * constructor.
        -- exists nd. split; [done|]. by rewrite <-Hmp.
        -- eapply Forall_impl; [done|]. intros y.
           apply same_but_level_dead with (i := i). by apply same_but_level_sym.
      * by eapply same_but_level_trans.
    + exists [], (x :: R), h, p. split_and!; try done.
      * unfold succ_of. rewrite first_or_cons, decide_False by done.
        unfold load_next. rewrite Hx. done.
      * intros y [= <-]. exists nd. split; [done|]. by rewrite <-Hmp.
      * apply same_but_level_refl.
Qed.

(** ** Walking one level *)

Local Arguments unlink_marked : simpl never.

Lemma dead_not_live h x : dead h x → ¬ live h x.
Proof.
  intros (nd & Hx & Hm) (nd' & Hx' & Hm'). assert (nd' = nd) as -> by congruence.
  congruence.
Qed.

Lemma cget_app_dead h B R1 R2 k :
  Forall (dead h) R1 → cget h (B ++ R1 ++ R2) k = cget h (B ++ R2) k.
Proof.
  intros Hd. induction B as [|b B IH]; simpl.
  - induction Hd as [|x R1 (nd & Hx & Hm) _ IH]; simpl; [done|].
    rewrite Hx, Hm. simpl. done.
  - by rewrite IH.
Qed.

Lemma pruned_refl h l : pruned h l l.
Proof. by split. Qed.

Lemma pruned_drop h B R1 R2 : Forall (dead h) R1 → pruned h (B ++ R1 ++ R2) (B ++ R2).
Proof.
  intros Hd. split.
  - intros k'. by rewrite cget_app_dead.
  - intros x Hx Hl. rewrite !elem_of_app in Hx. rewrite elem_of_app.
    destruct Hx as [?|[Hx|?]]; [by left| |by right].
    eapply Forall_forall in Hd; [|done]. by apply dead_not_live in Hd.
Qed.

Lemma pruned_trans i h h1 l l1 l2 :
  same_but_level i h h1 → pruned h l l1 → pruned h1 l1 l2 → pruned h l l2.
Proof.
  intros Hs [Hc1 Hl1] [Hc2 Hl2]. split.
  - intros k'. rewrite <-Hc1, <-(same_but_level_cget _ _ _ _ _ Hs), Hc2.
    apply same_but_level_cget with (i := i). done.
  - intros x Hx Hl. apply Hl2; [by apply Hl1|]. by eapply same_but_level_live.
Qed.

Lemma scan_level_eq tl fuel h i k pred curr :
  scan_level tl (S fuel) h i k pred curr =
    succ ← succ_of tl h curr i;
    '(h, r) ← unlink_marked tl (S fuel) h i pred curr succ;
    match r with
    | None => Some (h, None)
    | Some (curr, succ) =>
        if decide (curr = tl) then Some (h, Some (pred, curr))
        else
          nd ← h !! curr;
          if klt (key nd) k then
            next_curr ← addr (get_unmarked_ref succ);
            scan_level tl fuel h i k curr next_curr
          else Some (h, Some (pred, curr))
    end.
Proof. done. Qed.

Lemma scan_level_spec tl hd i k fuel : ∀ R B h,
  i < MAX_LEVEL → nodes_ok h → head_ok h hd →
  chain_ok h i hd tl (B ++ R) → live h (last_or hd B) →
  Forall (key_below h k) B →
  length R < fuel →
  ∃ h' B' R',
    scan_level tl fuel h i k (last_or hd B) (first_or tl R)
      = Some (h', Some (last_or hd B', first_or tl R')) ∧
    same_but_level i h h' ∧ chain_ok h' i hd tl (B' ++ R') ∧
    live h' (last_or hd B') ∧ Forall (key_below h' k) B' ∧ stop_at h' k R' ∧
    pruned h (B ++ R) (B' ++ R').
Proof.
  induction fuel as [|fuel IH]; intros R B h Hi Hok Hhd Hc Hlive HB Hfuel; [lia|].
  rewrite scan_level_eq.
  destruct (succ_of_is_Some tl h i hd R Hok) as [succ Hsucc].
  { destruct Hc as (_ & _ & _ & Hl & _). by apply Forall_app in Hl as [_ ?]. }
  rewrite Hsucc. simpl.
  destruct (unlink_marked_spec tl hd i R B h (S fuel) succ)
    as (R1 & R2 & h1 & succ' & Hrun & -> & Hdead & Hm & Hs' & Hl' & Hsame & Hc1);
    try done.
  rewrite Hrun. simpl.
  pose proof (same_but_level_live _ _ _ _ Hsame Hlive) as Hlive1.
  assert (Forall (key_below h1 k) B) as HB1.
  { eapply Forall_impl; [done|]. intros y. by apply (same_but_level_key_below i). }
  destruct R2 as [|x R2].
  - rewrite first_or_nil, decide_True by done.
    exists h1, B, []. split_and!; try done. by apply pruned_drop.
  - rewrite first_or_cons in *.
    assert (x ≠ tl) as Hxtl.
    { intros ->. destruct Hc1 as (_ & _ & Htl & _). set_solver. }
    rewrite decide_False by done.
    assert (has_level h1 i x) as (nd & Hx & Hxi).
    { destruct Hc1 as (_ & _ & _ & Hl & _). apply Forall_app in Hl as [_ Hl].
      by apply Forall_cons in Hl as [? _]. }
    rewrite Hx. simpl.
    destruct (klt (key nd) k) eqn:Hk.
    + assert (addr succ' = Some (first_or tl R2)) as Haddr.
      { pose proof Hc1 as (Hpath' & _).
        replace ((B ++ x :: R2) ++ [tl]) with ((B ++ [x]) ++ R2 ++ [tl]) in Hpath'
          by (by rewrite <-!app_assoc).
        apply path_next in Hpath'. rewrite last_or_snoc in Hpath'.
        unfold succ_of in Hs'. rewrite decide_False in Hs' by done.
        unfold next_addr in Hpath'. rewrite Hs' in Hpath'. done. }
      rewrite Haddr. simpl.
      destruct (IH R2 (B ++ [x]) h1) as (h' & B' & R' & Hrun' & Hsame' & Hc' & Hlive' & HB' & Hstop & Hpr);
        try done.
      { by eapply same_but_level_nodes_ok. }
      { by eapply same_but_level_head_ok. }
      { by rewrite <-app_assoc. }
      { rewrite last_or_snoc. by apply Hl'. }
      { apply Forall_app. split; [done|]. constructor; [|done]. by exists nd. }
      { rewrite length_app in Hfuel. simpl in Hfuel. lia. }
      rewrite last_or_snoc in Hrun'.
      exists h', B', R'. split_and!; try done.
      * by eapply same_but_level_trans.
      * eapply pruned_trans; [done|by apply pruned_drop|].
        by rewrite <-app_assoc in Hpr.
    + exists h1, B, (x :: R2). split_and!; try done.
      * split; [by apply Hl'|]. by exists nd.
      * by apply pruned_drop.
Qed.

(** ** Stores with the same data *)

Lemma same_data_refl h : same_data h h.
Proof. intros x. by destruct (h !! x). Qed.

Lemma same_data_trans h1 h2 h3 : same_data h1 h2 → same_data h2 h3 → same_data h1 h3.
Proof.
  intros H12 H23 x. specialize (H12 x). specialize (H23 x).
  destruct (h1 !! x), (h2 !! x), (h3 !! x); try done.
  destruct H12 as (? & ? & ? & ?), H23 as (? & ? & ? & ?). split_and!; congruence.
Qed.

Lemma same_but_level_data i h h' : same_but_level i h h' → same_data h h'.
Proof.
  intros Hs x. destruct (h !! x) as [nd|] eqn:Hx.
  - destruct (same_but_level_lookup _ _ _ _ _ Hs Hx) as (nd' & Hx' & ? & ? & ? & _).
    rewrite Hx'. split_and!; try done. by eapply same_but_level_node_mark.
  - by rewrite (same_but_level_None _ _ _ _ Hs Hx).
Qed.

Lemma same_data_lookup h h' x nd :
  same_data h h' → h !! x = Some nd →
  ∃ nd', h' !! x = Some nd' ∧ key nd' = key nd ∧ values nd' = values nd ∧
         level nd' = level nd ∧ node_mark nd' = node_mark nd.
Proof.
  intros Hs Hx. specialize (Hs x). rewrite Hx in Hs.
  destruct (h' !! x) as [nd'|]; [|done]. by exists nd'.
Qed.

Lemma same_data_live h h' x : same_data h h' → live h x → live h' x.
Proof.
  intros Hs (nd & Hx & Hm).
  destruct (same_data_lookup _ _ _ _ Hs Hx) as (nd' & Hx' & _ & _ & _ & Hm').
  exists nd'. split; [done|]. congruence.
Qed.

Lemma same_data_key_below h h' k x : same_data h h' → key_below h k x → key_below h' k x.
Proof.
  intros Hs (nd & Hx & Hk).
  destruct (same_data_lookup _ _ _ _ Hs Hx) as (nd' & Hx' & Hk' & _).
  exists nd'. split; [done|]. congruence.
Qed.

Lemma same_data_key_from h h' k x : same_data h h' → key_from h k x → key_from h' k x.
Proof.
  intros Hs (nd & Hx & Hk).
  destruct (same_data_lookup _ _ _ _ Hs Hx) as (nd' & Hx' & Hk' & _).
  exists nd'. split; [done|]. congruence.
Qed.

Lemma same_data_at_level h h' hd tl k l pred curr :
  same_data h h' → at_level h hd tl k l pred curr → at_level h' hd tl k l pred curr.
Proof.
  intros Hs (B & R & -> & -> & -> & HB & Hl & Hstop).
  exists B, R. split_and!; try done.
  - eapply Forall_impl; [done|]. intros y. by apply same_data_key_below.
  - by eapply same_data_live.
  - destruct R as [|r R]; [done|]. destruct Hstop as [Hr Hk]. split.
    + by eapply same_data_live.
    + by eapply same_data_key_from.
Qed.

(** ** The shape after one level has changed *)

Lemma shape_update i h h' hd tl chains l' :
  shape h hd tl chains → same_but_level i h h' → chain_ok h' i hd tl l' →
  shape h' hd tl (<[i := l']> chains).
Proof.
  intros [Hne Hhd Htl Hok Hlen Hch] Hs Hc. split.
  - done.
  - by eapply same_but_level_head_ok.
  - destruct Htl as [tn Htl].
    destruct (same_but_level_lookup _ _ _ _ _ Hs Htl) as (tn' & -> & _). eauto.
  - by eapply same_but_level_nodes_ok.
  - by rewrite length_insert.
  - intros j l Hj. destruct (decide (j = i)) as [->|Hji].
    + pose proof (lookup_lt_Some _ _ _ Hj) as Hlt. rewrite length_insert in Hlt.
      rewrite list_lookup_insert_eq in Hj by done.
      by injection Hj as <-.
    + rewrite list_lookup_insert_ne in Hj by done.
      eapply chain_ok_other; [done|done|]. by apply Hch.
Qed.

Lemma linked_update (o : option loc) i h h' hd tl chains l l' :
  linked_but o h hd tl chains → same_but_level i h h' → chains !! i = Some l →
  (∀ x, x ∈ l → live h x → x ∈ l') →
  linked_but o h' hd tl (<[i := l']> chains).
Proof.
  intros Hlk Hs Hi Hkeep x nd' j l0 Hx' Hxhd Hxtl Hxn Hm Hj Hl0.
  destruct (same_but_level_lookup _ _ _ _ _ (same_but_level_sym _ _ _ Hs) Hx')
    as (nd & Hx & _ & _ & Hlv & _).
  assert (node_mark nd = false) as Hm0.
  { by rewrite <-(same_but_level_node_mark _ _ _ _ _ _ Hs Hx Hx'). }
  destruct (decide (j = i)) as [->|Hji].
  - rewrite list_lookup_insert_eq in Hl0 by by eapply lookup_lt_Some.
    injection Hl0 as <-. apply Hkeep; [|by exists nd].
    eapply Hlk; try done. congruence.
  - rewrite list_lookup_insert_ne in Hl0 by done.
    eapply Hlk; try done. congruence.
Qed.

Lemma chain_length h i hd tl l :
  head_ok h hd → chain_ok h i hd tl l → length l < size h.
Proof.
  intros (hn & Hh & _) Hc. pose proof (chain_NoDup _ _ _ _ _ Hc) as Hnd.
  destruct Hc as (_ & _ & _ & Hl & _).
  assert (list_to_set (hd :: l) ⊆ dom h) as Hsub.
  { intros x. rewrite elem_of_list_to_set, elem_of_cons, elem_of_dom.
    intros [->|Hx]; [eauto|]. eapply Forall_forall in Hl as (nd & -> & _); [eauto|done]. }
  apply subseteq_size in Hsub. rewrite size_list_to_set, size_dom in Hsub by done.
  simpl in Hsub. lia.
Qed.

Lemma start_split h hd tl k i l pred chains :
  chains !! i = Some l → chain_ok h i hd tl l → linked_but None h hd tl chains →
  start_ok h hd tl k (S i) pred →
  ∃ B R, l = B ++ R ∧ pred = last_or hd B ∧ Forall (key_below h k) B.
Proof.
  intros Hi Hc Hlk [Hlive [->|(Hne & Hnt & Hk & nd & Hp & Hlv)]].
  - exists [], l. by split_and!.
  - assert (pred ∈ l) as Hin.
    { destruct Hlive as (nd' & Hp' & Hm). assert (nd' = nd) as -> by congruence.
      eapply Hlk; done. }
    apply list_elem_of_split in Hin as (l1 & l2 & ->).
    exists (l1 ++ [pred]), l2. split_and!.
    + by rewrite <-app_assoc.
    + by rewrite last_or_snoc.
    + destruct Hc as (_ & _ & _ & _ & Hs).
      apply StronglySorted_app in Hs as (Hall & _ & _).
      apply Forall_app. split; [|by constructor].
      apply Forall_forall. intros y Hy.
      eapply node_lt_key_below; [|done]. apply Hall; [done|]. set_solver.
Qed.

(** ** [find] *)

Lemma same_but_level_size i h h' : same_but_level i h h' → size h' = size h.
Proof. intros Hs. by rewrite <-!size_dom, (same_but_level_dom _ _ _ Hs). Qed.

Lemma find_levels_spec tl hd k fuel (lv : nat) : ∀ h pred preds succs chains,
  lv ≤ MAX_LEVEL → shape h hd tl chains → linked_but None h hd tl chains →
  start_ok h hd tl k lv pred → size h < fuel →
  ∃ h' chains' ps ss,
    find_levels tl fuel h k lv pred preds succs
      = Some (h', Some (ps ++ preds, ss ++ succs)) ∧
    length ps = lv ∧ length ss = lv ∧
    shape h' hd tl chains' ∧ linked_but None h' hd tl chains' ∧ same_data h h' ∧
    size h' = size h ∧
    (∀ k', cget h' (default [] (chains' !! 0)) k' = cget h (default [] (chains !! 0)) k') ∧
    (∀ j, lv ≤ j → chains' !! j = chains !! j) ∧
    (∀ j l, j < lv → chains' !! j = Some l →
       ∃ a c, ps !! j = Some a ∧ ss !! j = Some c ∧ at_level h' hd tl k l a c).
Proof.
  induction lv as [|m IH]; intros h pred preds succs chains Hn Hsh Hlk Hst Hfuel.
  - exists h, chains, [], []. simpl. split_and!; try done.
    + apply same_data_refl.
    + intros j l Hj. lia.
  - simpl.
    destruct (lookup_lt_is_Some_2 chains m) as [l Hl].
    { rewrite (shape_length _ _ _ _ Hsh). lia. }
    pose proof (shape_chain _ _ _ _ Hsh _ _ Hl) as Hc.
    destruct (start_split _ _ _ _ _ _ _ _ Hl Hc Hlk Hst) as (B & R & -> & -> & HB).
    assert (has_level h m (last_or hd B)) as Hpl.
    { apply pred_has_level; [apply Hsh|lia|].
      destruct Hc as (_ & _ & _ & Hlv & _). by apply Forall_app in Hlv as [? _]. }
    pose proof Hc as (Hpath & _). rewrite <-app_assoc in Hpath.
    destruct (pred_slot _ _ _ _ _ _ (shape_nodes _ _ _ _ Hsh) Hpath (proj1 Hst) Hpl)
      as (pn & Hpn & Hslot).
    unfold load_next. rewrite Hpn. simpl. rewrite Hslot. simpl.
    destruct (scan_level_spec tl hd m k fuel R B h)
      as (h1 & B' & R' & Hrun & Hsame & Hc' & Hlive' & HB' & Hstop & Hpr); try done.
    { apply Hsh. }
    { apply Hsh. }
    { by destruct Hst. }
    { pose proof (chain_length _ _ _ _ _ (shape_head _ _ _ _ Hsh) Hc) as Hlen.
      rewrite length_app in Hlen. lia. }
    rewrite Hrun. simpl.
    destruct (IH h1 (last_or hd B') (last_or hd B' :: preds) (first_or tl R' :: succs)
                 (<[m := B' ++ R']> chains))
      as (h' & chains' & ps & ss & Hrun' & Hps & Hss & Hsh' & Hlk' & Hdata & Hsize & Hcg & Hup & Hat).
    { lia. }
    { by eapply shape_update. }
    { eapply linked_update; [done|done|done|]. apply Hpr. }
    { split; [done|]. destruct (last_or_cases hd B') as [[_ ->]|Hin]; [by left|]. right.
      destruct Hc' as (_ & Hhd' & Htl' & Hlv' & _).
      split_and!.
      - intros Heq. rewrite Heq in Hin. set_solver.
      - intros Heq. rewrite Heq in Hin. set_solver.
      - by eapply Forall_forall in HB'.
      - apply Forall_app in Hlv' as [Hlv' _].
        eapply Forall_forall in Hlv' as (nd & Hnd & Hlt); [|done].
        exists nd. split; [done|]. lia. }
    { by rewrite (same_but_level_size _ _ _ Hsame). }
    exists h', chains', (ps ++ [last_or hd B']), (ss ++ [first_or tl R']).
    split_and!.
    + by rewrite <-!app_assoc.
    + rewrite length_app. simpl. lia.
    + rewrite length_app. simpl. lia.
    + done.
    + done.
    + eapply same_data_trans; [|done]. by eapply same_but_level_data.
    + by rewrite Hsize, (same_but_level_size _ _ _ Hsame).
    + intros k'. rewrite Hcg. destruct (decide (m = 0)) as [->|Hm].
      * rewrite list_lookup_insert_eq by by eapply lookup_lt_Some.
        rewrite Hl. simpl.
        rewrite (same_but_level_cget _ _ _ _ _ Hsame). apply Hpr.
      * rewrite list_lookup_insert_ne by done.
        apply (same_but_level_cget _ _ _ _ _ Hsame).
    + intros j Hj. rewrite Hup by lia. rewrite list_lookup_insert_ne by lia. done.
    + intros j l Hj Hjl. destruct (decide (j = m)) as [->|Hjm].
      * rewrite Hup in Hjl by lia.
        rewrite list_lookup_insert_eq in Hjl by by eapply lookup_lt_Some.
        injection Hjl as <-.
        exists (last_or hd B'), (first_or tl R'). split_and!.
        -- rewrite lookup_app_r by lia. by rewrite Hps, Nat.sub_diag.
        -- rewrite lookup_app_r by lia. by rewrite Hss, Nat.sub_diag.
        -- eapply same_data_at_level; [done|]. exists B', R'. by split_and!.
      * destruct (Hat j l) as (p & c & Hp & Hcu & Hal); [lia|done|].
        exists p, c. split_and!; [| |done].
        -- rewrite lookup_app_l by lia. done.
        -- rewrite lookup_app_l by lia. done.
Qed.

Local Arguments find_levels : simpl never.
Local Arguments scan_level : simpl never.

Lemma cget_below h k B R :
  Forall (key_below h k) B → cget h (B ++ R) k = cget h R k.
Proof.
  induction 1 as [|b B (nd & Hb & Hk) _ IH]; simpl; [done|].
  rewrite Hb. rewrite (bool_decide_eq_false_2 (key nd = k)) by by apply klt_neq.
  by rewrite andb_false_r.
Qed.

Lemma cget_above h k R : Forall (key_above h k) R → cget h R k = ∅.
Proof.
  induction 1 as [|b B (nd & Hb & Hk) _ IH]; simpl; [done|].
  rewrite Hb. rewrite (bool_decide_eq_false_2 (key nd = k)).
  - by rewrite andb_false_r.
  - intros Heq. apply klt_neq in Hk. done.
Qed.

Lemma key_from_above h k x nd :
  h !! x = Some nd → key_from h k x → key nd ≠ k → key_above h k x.
Proof.
  intros Hx (nd' & Hx' & Hk) Hne. assert (nd' = nd) as -> by congruence.
  exists nd. split; [done|]. destruct (klt k (key nd)) eqn:Hk'; [done|].
  destruct Hne. by apply klt_total.
Qed.

Lemma rest_above h k x R :
  StronglySorted (node_lt h) (x :: R) → key_from h k x → Forall (key_above h k) R.
Proof.
  intros Hs (nd & Hx & Hk). apply StronglySorted_cons in Hs as [Hall _].
  eapply Forall_impl; [done|]. intros y (nx & ny & Hx' & Hy & Hlt).
  assert (nx = nd) as -> by congruence.
  exists ny. split; [done|]. destruct (klt k (key ny)) eqn:Hk'; [done|].
  by rewrite (klt_le_trans _ _ _ Hlt Hk') in Hk.
Qed.

Lemma key_below_not_from h k x : key_below h k x → ¬ key_from h k x.
Proof.
  intros (nd & Hx & Hk) (nd' & Hx' & Hk'). assert (nd' = nd) as -> by congruence.
  congruence.
Qed.

(** What [found_at] says about level 0. *)
Lemma at_level_found h hd tl k l a c i :
  chain_ok h i hd tl l → at_level h hd tl k l a c → found_at h tl k c = true →
  c ≠ tl ∧ c ∈ l ∧
  ∃ nd, h !! c = Some nd ∧ key nd = k ∧ node_mark nd = false ∧ cget h l k = values nd.
Proof.
  intros Hc (B & R & -> & -> & -> & HB & Hlive & Hstop) Hf.
  unfold found_at in Hf. destruct (decide (first_or tl R = tl)) as [|Hne]; [done|].
  destruct R as [|x R]; [done|]. rewrite first_or_cons in *.
  destruct Hstop as [(nd & Hx & Hm) _]. rewrite Hx in Hf.
  apply bool_decide_eq_true in Hf.
  split_and!; [done|set_solver|]. exists nd. split_and!; try done.
  rewrite cget_below by done. simpl. rewrite Hx, Hm.
  by rewrite bool_decide_eq_true_2.
Qed.

Lemma at_level_above h hd tl k l a c i :
  chain_ok h i hd tl l → at_level h hd tl k l a c →
  (∀ nd, c ≠ tl → h !! c = Some nd → key nd ≠ k) →
  ∃ B R, l = B ++ R ∧ a = last_or hd B ∧ c = first_or tl R ∧ live h a ∧
         Forall (key_below h k) B ∧ Forall (key_above h k) R.
Proof.
  intros Hc (B & R & -> & -> & -> & HB & Hlive & Hstop) Hnk.
  exists B, R. split_and!; try done.
  destruct R as [|x R]; [done|]. rewrite first_or_cons in Hnk.
  destruct Hstop as [(nd & Hx & _) Hk].
  assert (x ≠ tl) as Hxtl.
  { intros ->. destruct Hc as (_ & _ & Htl & _). set_solver. }
  constructor.
  - eapply key_from_above; [done|done|]. by apply Hnk.
  - eapply rest_above; [|done].
    destruct Hc as (_ & _ & _ & _ & Hs). by apply StronglySorted_app in Hs as (_ & _ & ?).
Qed.

Lemma found_at_false h tl k c :
  found_at h tl k c = false → ∀ nd, c ≠ tl → h !! c = Some nd → key nd ≠ k.
Proof.
  unfold found_at. intros Hf nd Hne Hc. rewrite decide_False, Hc in Hf by done.
  by apply bool_decide_eq_false in Hf.
Qed.

Lemma at_level_curr h hd tl k l a c i :
  chain_ok h i hd tl l → at_level h hd tl k l a c → c = tl ∨ (c ∈ l ∧ live h c).
Proof.
  intros Hc (B & R & -> & -> & -> & HB & Hlive & Hstop).
  destruct R as [|x R]; [by left|]. right. rewrite first_or_cons.
  split; [set_solver|]. by destruct Hstop.
Qed.

Lemma find_spec k fuel s chains :
  inv s chains → size (nodes s) < fuel →
  ∃ h' chains' preds succs c0,
    find fuel k s
      = Some (found_at h' (tail s) k c0, preds, succs, mk h' (head s) (tail s)) ∧
    inv (mk h' (head s) (tail s)) chains' ∧ same_data (nodes s) h' ∧
    size h' = size (nodes s) ∧
    (∀ k', model (mk h' (head s) (tail s)) chains' k' = model s chains k') ∧
    succs !! 0 = Some c0 ∧
    (∀ j l, chains' !! j = Some l →
       ∃ a c, preds !! j = Some a ∧ succs !! j = Some c ∧
              at_level h' (head s) (tail s) k l a c).
Proof.
  intros [Hsh Hlk] Hfuel. destruct fuel as [|fuel]; [lia|]. simpl.
  destruct (find_levels_spec (tail s) (head s) k (S fuel) MAX_LEVEL (nodes s) (head s) [] [] chains)
    as (h' & chains' & ps & ss & Hrun & Hps & Hss & Hsh' & Hlk' & Hdata & Hsize & Hcg & _ & Hat);
    try done.
  { split; [|by left]. apply head_ok_live, Hsh. }
  rewrite !app_nil_r in Hrun. rewrite Hrun. simpl.
  destruct (lookup_lt_is_Some_2 chains' 0) as [l0 Hl0].
  { rewrite (shape_length _ _ _ _ Hsh'). unfold MAX_LEVEL. lia. }
  destruct (Hat 0 l0) as (a0 & c0 & Ha0 & Hc0 & Hal0); [unfold MAX_LEVEL; lia|done|].
  rewrite Hc0. simpl.
  exists h', chains', ps, ss, c0. split_and!; try done.
  - unfold found_at. destruct (decide (c0 = tail s)) as [|Hne]; [done|].
    destruct (at_level_curr _ _ _ _ _ _ _ _ (shape_chain _ _ _ _ Hsh' _ _ Hl0) Hal0)
      as [?|[_ (nd & Hnd & _)]]; [done|].
    rewrite Hnd. done.
  - intros j l Hj. apply (Hat j l); [|done].
    apply lookup_lt_Some in Hj. by rewrite (shape_length _ _ _ _ Hsh') in Hj.
Qed.

End facts.
End LockFreeSkipListFacts.

From stdpp Require Import base gmap sets list strings sorting.

(** * The lock-free skip list: the operations *)

Module LockFreeSkipListOps.
Import KeyOrderFacts LockFreeSkipList LockFreeSkipListInv LockFreeSkipListFacts.

Section ops.
Context {K V : Type} `{EqDecision K, Inhabited K, KeyOrderLaws K, Countable V}.

Local Abbreviation Node := (LockFreeSkipList.Node (K:=K) (V:=V)).
Local Abbreviation state := (LockFreeSkipList.t (K:=K) (V:=V)).
Implicit Types (h : gmap loc Node) (nd : Node) (s : state).

Local Arguments find : simpl never.

Lemma fuel_of_enough s : size (nodes s) < fuel_of s.
Proof. unfold fuel_of. lia. Qed.

Lemma not_found_model h hd tl k l a c :
  chain_ok h 0 hd tl l → at_level h hd tl k l a c → found_at h tl k c = false →
  cget h l k = ∅.
Proof.
  intros Hc Hal Hf.
  destruct (at_level_above _ _ _ _ _ _ _ _ Hc Hal (found_at_false _ _ _ _ Hf))
    as (B & R & -> & _ & _ & _ & HB & HR).
  rewrite cget_below by done. by apply cget_above.
Qed.

(** [search] answers what level 0 holds for the key, and what any key
    holds is the same afterwards. *)
Lemma same_data_store h h' : same_data h h' → same_store h h'.
Proof.
  intros Hs x. specialize (Hs x). destruct (h !! x), (h' !! x); try done.
  by destruct Hs as (? & ? & ? & _).
Qed.

Lemma same_store_update h h' x nd nd' :
  same_store h h' → h' !! x = Some nd →
  key nd' = key nd → values nd' = values nd → level nd' = level nd →
  same_store h (<[x := nd']> h').
Proof.
  intros Hs Hx Hk Hv Hl y. specialize (Hs y). destruct (decide (y = x)) as [->|Hne].
  - rewrite lookup_insert_eq. rewrite Hx in Hs. destruct (h !! x); [|done].
    destruct Hs as (? & ? & ?). split_and!; congruence.
  - by rewrite lookup_insert_ne.
Qed.

Lemma sl_search_full k s chains :
  inv s chains →
  ∃ s' chains',
    search k s = Some (model s chains k, s') ∧ inv s' chains' ∧
    head s' = head s ∧ tail s' = tail s ∧
    (∀ k', model s' chains' k' = model s chains k') ∧
    same_store (nodes s) (nodes s').
Proof.
  intros Hinv. unfold search, search_fuel.
  destruct (find_spec k (fuel_of s) s chains Hinv (fuel_of_enough s))
    as (h' & chains' & preds & succs & c0 & Hfind & Hinv' & Hdata & Hsize & Hmodel & Hc0 & Hat).
  rewrite Hfind. simpl.
  exists (mk h' (head s) (tail s)), chains'.
  destruct Hinv' as [Hsh' Hlk']. simpl in Hsh', Hlk'.
  destruct (lookup_lt_is_Some_2 chains' 0) as [l0 Hl0].
  { rewrite (shape_length _ _ _ _ Hsh'). unfold MAX_LEVEL. lia. }
  destruct (Hat 0 l0 Hl0) as (a & c & _ & Hc & Hal).
  assert (c = c0) as -> by congruence.
  pose proof (shape_chain _ _ _ _ Hsh' _ _ Hl0) as Hch.
  rewrite <-(Hmodel k). unfold model at 1. simpl. rewrite Hl0. simpl.
  destruct (found_at h' (tail s) k c0) eqn:Hf.
  - destruct (at_level_found _ _ _ _ _ _ _ _ Hch Hal Hf)
      as (Hne & Hin & nd & Hnd & Hk & Hm & Hcg).
    rewrite Hc0. simpl.
    destruct (shape_nodes _ _ _ _ Hsh' _ _ Hnd) as (Hlen & Hlv & Hu).
    destruct (node_slot _ 0 c0 nd (shape_nodes _ _ _ _ Hsh') Hnd) as (p & Hp & Hmp); [lia|].
    unfold load_next. rewrite Hnd. simpl. rewrite Hp. simpl.
    unfold is_marked. rewrite Hmp, Hm. rewrite Hcg.
    split_and!; try done. by apply same_data_store.
  - rewrite (not_found_model _ _ _ _ _ _ _ Hch Hal Hf).
    split_and!; try done. by apply same_data_store.
Qed.

Lemma sl_search_spec k s chains :
  inv s chains →
  ∃ s' chains',
    search k s = Some (model s chains k, s') ∧ inv s' chains' ∧
    head s' = head s ∧ tail s' = tail s ∧
    ∀ k', model s' chains' k' = model s chains k'.
Proof.
  intros Hinv.
  destruct (sl_search_full k s chains Hinv) as (s' & chains' & ? & ? & ? & ? & ? & _).
  by exists s', chains'.
Qed.

(** ** Updating a node in place *)

Lemma same_links_update h x nd nd' :
  h !! x = Some nd → key nd' = key nd → level nd' = level nd →
  (addr <$> next nd') = (addr <$> next nd) → same_links h (<[x := nd']> h).
Proof.
  intros Hx Hk Hl Ha y. destruct (decide (y = x)) as [->|Hne].
  - by rewrite Hx, lookup_insert_eq.
  - rewrite lookup_insert_ne by done. by destruct (h !! y).
Qed.

Lemma same_links_lookup h h' x nd :
  same_links h h' → h !! x = Some nd →
  ∃ nd', h' !! x = Some nd' ∧ key nd' = key nd ∧ level nd' = level nd ∧
         (addr <$> next nd') = (addr <$> next nd).
Proof.
  intros Hs Hx. specialize (Hs x). rewrite Hx in Hs.
  destruct (h' !! x) as [nd'|]; [|done]. by exists nd'.
Qed.

Lemma same_links_next_addr h h' x i :
  same_links h h' → next_addr h' x i = next_addr h x i.
Proof.
  intros Hs. unfold next_addr, load_next. specialize (Hs x).
  destruct (h !! x) as [nd|], (h' !! x) as [nd'|]; try done. simpl.
  destruct Hs as (_ & _ & Ha).
  assert ((addr <$> next nd') !! i = (addr <$> next nd) !! i) as Hi by by rewrite Ha.
  rewrite !list_lookup_fmap in Hi.
  destruct (next nd' !! i), (next nd !! i); simpl in *; congruence.
Qed.

Lemma same_links_path h h' i y xs : same_links h h' → path h i y xs → path h' i y xs.
Proof.
  intros Hs. revert y. induction xs as [|x xs IH]; intros y; simpl; [done|].
  intros [Hy Hp]. split; [|by apply IH]. by rewrite (same_links_next_addr _ _ _ _ Hs).
Qed.

Lemma same_links_chain_ok h h' i hd tl l :
  same_links h h' → chain_ok h i hd tl l → chain_ok h' i hd tl l.
Proof.
  intros Hs (Hp & Hhd & Htl & Hl & Hsrt). split_and!; try done.
  - by eapply same_links_path.
  - eapply Forall_impl; [done|]. intros x (nd & Hx & Hi).
    destruct (same_links_lookup _ _ _ _ Hs Hx) as (nd' & Hx' & _ & Hlv & _).
    exists nd'. split; [done|]. by rewrite Hlv.
  - eapply sorted_mono; [|done]. intros a b (na & nb & Ha & Hb & Hlt).
    destruct (same_links_lookup _ _ _ _ Hs Ha) as (na' & Ha' & Hka & _).
    destruct (same_links_lookup _ _ _ _ Hs Hb) as (nb' & Hb' & Hkb & _).
    exists na', nb'. split_and!; try done. by rewrite Hka, Hkb.
Qed.

Lemma cget_update_skip h x nd nd' l k :
  h !! x = Some nd → key nd' = key nd → key nd ≠ k →
  cget (<[x := nd']> h) l k = cget h l k.
Proof.
  intros Hx Hk Hne. induction l as [|y l IH]; simpl; [done|].
  destruct (decide (y = x)) as [->|Hyx].
  - rewrite lookup_insert_eq, Hx, Hk.
    rewrite (bool_decide_eq_false_2 (key nd = k)) by done.
    by rewrite !andb_false_r.
  - rewrite lookup_insert_ne by done. by rewrite IH.
Qed.

Lemma sorted_split_keys h l1 x l2 nd :
  StronglySorted (node_lt h) (l1 ++ x :: l2) → h !! x = Some nd →
  Forall (key_below h (key nd)) l1 ∧ Forall (key_above h (key nd)) l2.
Proof.
  intros Hs Hx. apply StronglySorted_app in Hs as (Hall & _ & Hs2).
  apply StronglySorted_cons in Hs2 as [Hall2 _]. split.
  - apply Forall_forall. intros y Hy.
    destruct (Hall y x Hy) as (ny & nx & Hy' & Hx' & Hlt); [set_solver|].
    assert (nx = nd) as -> by congruence. by exists ny.
  - eapply Forall_impl; [done|]. intros y (nx & ny & Hx' & Hy' & Hlt).
    assert (nx = nd) as -> by congruence. by exists ny.
Qed.

Lemma cget_dead_key h l x nd :
  StronglySorted (node_lt h) l → x ∈ l → h !! x = Some nd → node_mark nd = true →
  cget h l (key nd) = ∅.
Proof.
  intros Hs Hin Hx Hm. apply list_elem_of_split in Hin as (l1 & l2 & ->).
  destruct (sorted_split_keys _ _ _ _ _ Hs Hx) as [Hb Ha].
  rewrite cget_below by done. simpl. rewrite Hx, Hm. simpl. by apply cget_above.
Qed.

Lemma cget_live_key h l x nd :
  StronglySorted (node_lt h) l → x ∈ l → h !! x = Some nd → node_mark nd = false →
  cget h l (key nd) = values nd.
Proof.
  intros Hs Hin Hx Hm. apply list_elem_of_split in Hin as (l1 & l2 & ->).
  destruct (sorted_split_keys _ _ _ _ _ Hs Hx) as [Hb Ha].
  rewrite cget_below by done. simpl. rewrite Hx, Hm. simpl.
  by rewrite bool_decide_eq_true_2.
Qed.

Lemma shape_update_node h hd tl chains x nd nd' :
  shape h hd tl chains → h !! x = Some nd →
  key nd' = key nd → level nd' = level nd → (addr <$> next nd') = (addr <$> next nd) →
  length (next nd') = length (next nd) → uniform nd' →
  (x = hd → node_mark nd' = false) →
  shape (<[x := nd']> h) hd tl chains.
Proof.
  intros [Hne Hhd Htl Hok Hlen Hch] Hx Hk Hl Ha Hlen' Hu Hxhd. split.
  - done.
  - destruct Hhd as (hn & Hh & Hhl & Hhm). destruct (decide (hd = x)) as [->|Hhx].
    + exists nd'. rewrite lookup_insert_eq. split_and!; [done| |by apply Hxhd]. congruence.
    + exists hn. by rewrite lookup_insert_ne.
  - apply lookup_insert_is_Some'. by right.
  - intros y ny Hy. destruct (decide (y = x)) as [->|Hyx].
    + rewrite lookup_insert_eq in Hy. injection Hy as <-.
      destruct (Hok _ _ Hx) as (H1' & H2' & _). split_and!; [congruence|lia|lia|done].
    + rewrite lookup_insert_ne in Hy by done. by eapply Hok.
  - done.
  - intros i l Hi. eapply same_links_chain_ok; [by eapply same_links_update|]. by apply Hch.
Qed.

(** ** [remove] *)

Lemma mark_prefix_step (l : list ptr) (m : nat) (p : ptr) :
  l !! m = Some p →
  (get_marked_ref <$> take m (<[m := get_marked_ref p]> l))
    ++ drop m (<[m := get_marked_ref p]> l)
  = (get_marked_ref <$> take (S m) l) ++ drop (S m) l.
Proof.
  revert m. induction l as [|a l IH]; intros [|m] Hm; simpl in *; try done.
  - by injection Hm as ->.
  - f_equal. by apply IH.
Qed.

Lemma mark_below_0 nd : mark_below 0 nd = nd.
Proof. by destruct nd. Qed.

Lemma mark_below_all nd : mark_below (length (next nd)) nd = mark_all nd.
Proof.
  unfold mark_below, mark_all. by rewrite take_ge, drop_ge, app_nil_r.
Qed.

Lemma mark_level_hit fuel h x (m : nat) p nd :
  h !! x = Some nd → next nd !! m = Some p → mark p = false →
  mark_level (S fuel) h x m p = Some (<[x := set_next nd m (get_marked_ref p)]> h).
Proof.
  intros Hx Hp Hm. simpl. unfold is_marked. rewrite Hm.
  by rewrite (cas_next_hit h x m p (get_marked_ref p) nd Hx Hp).
Qed.

Lemma mark_levels_S fuel h x (m : nat) :
  mark_levels fuel h x (S m) =
    succ ← load_next h x m; h ← mark_level fuel h x m succ; mark_levels fuel h x m.
Proof. done. Qed.

Lemma mark_levels_spec fuel h x (m : nat) : ∀ nd,
  h !! x = Some nd → m ≤ length (next nd) →
  (∀ j p, j < m → next nd !! j = Some p → mark p = false) →
  mark_levels (S fuel) h x m = Some (<[x := mark_below m nd]> h).
Proof.
  revert h. induction m as [|m IH]; intros h nd Hx Hm Hun.
  - simpl. by rewrite mark_below_0, insert_id.
  - rewrite mark_levels_S.
    destruct (lookup_lt_is_Some_2 (next nd) m) as [p Hp]; [lia|].
    unfold load_next at 1. rewrite Hx. cbn [mbind option_bind]. rewrite Hp.
    cbn [mbind option_bind].
    rewrite (mark_level_hit fuel h x m p nd Hx Hp) by (apply (Hun m p); [lia|done]).
    cbn [mbind option_bind].
    rewrite (IH _ (set_next nd m (get_marked_ref p))).
    + rewrite insert_insert_eq. do 2 f_equal.
      unfold mark_below, set_next. simpl. f_equal. by apply mark_prefix_step.
    + by rewrite lookup_insert_eq.
    + simpl. rewrite length_insert. lia.
    + intros j q Hj Hq. simpl in Hq. rewrite list_lookup_insert_ne in Hq by lia.
      apply (Hun j q); [lia|done].
Qed.

Lemma node_mark_mark_all nd : 0 < length (next nd) → node_mark (mark_all nd) = true.
Proof.
  intros Hlen. unfold node_mark, mark_all. simpl. rewrite list_lookup_fmap.
  destruct (lookup_lt_is_Some_2 (next nd) 0 Hlen) as [p ->]. done.
Qed.

Lemma uniform_mark_all nd : 0 < length (next nd) → uniform (mark_all nd).
Proof.
  intros Hlen. unfold uniform. rewrite node_mark_mark_all by done.
  unfold mark_all. simpl. apply Forall_fmap, Forall_forall. done.
Qed.

Lemma addr_mark_all nd : addr <$> next (mark_all nd) = addr <$> next nd.
Proof.
  unfold mark_all. simpl. rewrite <-list_fmap_compose. by apply list_fmap_ext.
Qed.

(** [remove] leaves no value for the key and touches no other key. *)
Lemma sl_remove_full k s chains :
  inv s chains →
  ∃ b s' chains',
    remove k s = Some (b, s') ∧ inv s' chains' ∧
    head s' = head s ∧ tail s' = tail s ∧
    model s' chains' k = ∅ ∧
    (∀ k', k' ≠ k → model s' chains' k' = model s chains k') ∧
    (b = false → model s chains k = ∅) ∧
    same_store (nodes s) (nodes s') ∧
    (b = true → ∃ x nd, nodes s !! x = Some nd ∧ x ≠ head s ∧ x ≠ tail s ∧
                        model s chains k = values nd).
Proof.
  intros Hinv. unfold remove, remove_fuel.
  destruct (find_spec k (fuel_of s) s chains Hinv (fuel_of_enough s))
    as (h' & chains' & preds & succs & c0 & Hfind & Hinv' & Hdata & Hsize & Hmodel & Hc0 & Hat).
  rewrite Hfind. simpl.
  destruct Hinv' as [Hsh' Hlk']. simpl in Hsh', Hlk'.
  destruct (lookup_lt_is_Some_2 chains' 0) as [l0 Hl0].
  { rewrite (shape_length _ _ _ _ Hsh'). unfold MAX_LEVEL. lia. }
  destruct (Hat 0 l0 Hl0) as (a & c & _ & Hc & Hal).
  assert (c = c0) as -> by congruence.
  pose proof (shape_chain _ _ _ _ Hsh' _ _ Hl0) as Hch.
  destruct (found_at h' (tail s) k c0) eqn:Hf.
  - destruct (at_level_found _ _ _ _ _ _ _ _ Hch Hal Hf)
      as (Hne & Hin & nd & Hnd & Hk & Hm & Hcg).
    rewrite Hc0. simpl. rewrite Hnd. simpl.
    destruct (shape_nodes _ _ _ _ Hsh' _ _ Hnd) as (Hlen & Hlv & Hu).
    unfold fuel_of. rewrite (mark_levels_spec _ h' c0 (level nd) nd Hnd).
    2: { lia. }
    2: { intros j p Hj Hp. eapply Forall_lookup in Hu; [|done]. congruence. }
    simpl. rewrite <-Hlen, mark_below_all.
    assert (shape (<[c0 := mark_all nd]> h') (head s) (tail s) chains') as Hsh''.
    { eapply shape_update_node; try done.
      - apply addr_mark_all.
      - unfold mark_all. simpl. by rewrite length_fmap.
      - apply uniform_mark_all. lia.
      - intros ->. destruct Hch as (_ & Hhd & _). done. }
    exists true, (mk (<[c0 := mark_all nd]> h') (head s) (tail s)), chains'.
    split_and!; try done.
    + split; [done|]. simpl.
      intros x ndx i l Hx Hxh Hxt _ Hmx Hi Hl.
      destruct (decide (x = c0)) as [->|Hxc].
      * rewrite lookup_insert_eq in Hx. injection Hx as <-.
        rewrite node_mark_mark_all in Hmx by lia. done.
      * rewrite lookup_insert_ne in Hx by done. by eapply Hlk'.
    + unfold model. simpl. rewrite Hl0. simpl. rewrite <-Hk.
      change (key nd) with (key (mark_all nd)).
      eapply cget_dead_key.
      * by destruct (shape_chain _ _ _ _ Hsh'' _ _ Hl0) as (_ & _ & _ & _ & ?).
      * done.
      * by rewrite lookup_insert_eq.
      * apply node_mark_mark_all. lia.
    + intros k' Hk'. rewrite <-Hmodel. unfold model. simpl.
      eapply cget_update_skip; [done|done|congruence].
    + simpl. eapply same_store_update; [by apply same_data_store|done..].
    + intros _. pose proof (Hdata c0) as Hd0. rewrite Hnd in Hd0.
      destruct (nodes s !! c0) as [nd0|] eqn:Hnd0; [|done].
      destruct Hd0 as (_ & Hv0 & _).
      exists c0, nd0. split_and!; try done.
      * intros Heq. rewrite <-Heq in Hch. destruct Hch as (_ & Hhd & _). done.
      * rewrite <-Hmodel. unfold model. simpl. rewrite Hl0. simpl. congruence.
  - exists false, (mk h' (head s) (tail s)), chains'. split_and!; try done.
    + unfold model. simpl. rewrite Hl0. simpl. by eapply not_found_model.
    + intros _. rewrite <-Hmodel. unfold model. simpl. rewrite Hl0. simpl.
      by eapply not_found_model.
    + by apply same_data_store.
Qed.

(** [remove] leaves no value for the key and touches no other key. *)
Lemma sl_remove_spec k s chains :
  inv s chains →
  ∃ b s' chains',
    remove k s = Some (b, s') ∧ inv s' chains' ∧
    head s' = head s ∧ tail s' = tail s ∧
    model s' chains' k = ∅ ∧
    (∀ k', k' ≠ k → model s' chains' k' = model s chains k') ∧
    (b = false → model s chains k = ∅).
Proof.
  intros Hinv.
  destruct (sl_remove_full k s chains Hinv)
    as (b & s' & chains' & ? & ? & ? & ? & ? & ? & ? & _).
  by exists b, s', chains'.
Qed.

(** ** Linking a new node *)

Lemma same_data_key_above h h' k x : same_data h h' → key_above h k x → key_above h' k x.
Proof.
  intros Hs (nd & Hx & Hk).
  destruct (same_data_lookup _ _ _ _ Hs Hx) as (nd' & Hx' & Hk' & _).
  exists nd'. split; [done|]. congruence.
Qed.

Lemma same_data_cget h h' l k : same_data h h' → cget h' l k = cget h l k.
Proof.
  intros Hs. induction l as [|x l IH]; simpl; [done|].
  specialize (Hs x). destruct (h !! x) as [nd|], (h' !! x) as [nd'|]; try done.
  destruct Hs as (-> & -> & _ & ->). by rewrite IH.
Qed.

Lemma sorted_insert h B R n nn :
  h !! n = Some nn → StronglySorted (node_lt h) (B ++ R) →
  Forall (key_below h (key nn)) B → Forall (key_above h (key nn)) R →
  StronglySorted (node_lt h) (B ++ n :: R).
Proof.
  intros Hn Hs HB HR. apply StronglySorted_app in Hs as (Hall & HsB & HsR).
  apply StronglySorted_app. split_and!; [|done|].
  - intros a b Ha Hb. apply elem_of_cons in Hb as [->|Hb]; [|by apply Hall].
    eapply Forall_forall in HB as (na & Hna & Hlt); [|done]. by exists na, nn.
  - apply StronglySorted_cons. split; [|done].
    eapply Forall_impl; [done|]. intros y (ny & Hy & Hlt). by exists nn, ny.
Qed.

Lemma link_level h hd tl chains (j : nat) B R n nn :
  shape h hd tl chains → chains !! j = Some (B ++ R) →
  h !! n = Some nn → n ≠ hd → n ≠ tl → n ∉ B ++ R →
  j < level nn → node_mark nn = false →
  live h (last_or hd B) →
  Forall (key_below h (key nn)) B → Forall (key_above h (key nn)) R →
  ∃ ha hb,
    store_next h n j (ref (first_or tl R)) = Some ha ∧
    cas_next ha (last_or hd B) j (ref (first_or tl R)) (ref n) = Some (true, hb) ∧
    same_but_level j h hb ∧ chain_ok hb j hd tl (B ++ n :: R).
Proof.
  intros Hsh Hj Hn Hnhd Hntl Hnin Hlv Hm Hlive HB HR.
  pose proof (shape_chain _ _ _ _ Hsh _ _ Hj) as Hc.
  pose proof (shape_nodes _ _ _ _ Hsh) as Hok.
  destruct (Hok _ _ Hn) as (Hlen & _ & _).
  destruct (node_slot _ _ _ _ Hok Hn Hlv) as (q & Hq & Hmq).
  set (c := first_or tl R).
  set (ha := <[n := set_next nn j (ref c)]> h).
  assert (same_but_level j h ha) as Hsa.
  { eapply same_but_level_store; [done|done|]. simpl. congruence. }
  assert (last_or hd B ≠ n) as Hpn.
  { intros Heq. pose proof (last_or_elem hd B) as Hin. rewrite Heq in Hin. set_solver. }
  assert (chain_ok ha j hd tl (B ++ R)) as Hca.
  { destruct Hc as (Hp & Hhd & Htl & Hl & Hs). split_and!; try done.
    - revert Hp. apply path_frame. intros x Hx. apply next_addr_insert_ne.
      intros ->. set_solver.
    - by eapply same_but_level_levels.
    - by eapply same_but_level_sorted. }
  pose proof (same_but_level_nodes_ok _ _ _ Hsa Hok) as Hoka.
  assert (has_level ha j (last_or hd B)) as Hpl.
  { apply pred_has_level.
    - eapply same_but_level_head_ok; [done|apply Hsh].
    - apply lookup_lt_Some in Hj. by rewrite (shape_length _ _ _ _ Hsh) in Hj.
    - destruct Hca as (_ & _ & _ & Hl & _). by apply Forall_app in Hl as [? _]. }
  pose proof Hca as (Hpa & _). rewrite <-app_assoc in Hpa.
  destruct (pred_slot _ _ _ _ _ _ Hoka Hpa (same_but_level_live _ _ _ _ Hsa Hlive) Hpl)
    as (pn & Hpred & Hslot).
  set (hb := <[last_or hd B := set_next pn j (ref n)]> ha).
  assert (same_but_level j ha hb) as Hsb.
  { eapply same_but_level_store; [done|done|]. done. }
  exists ha, hb. split_and!.
  - apply store_next_Some; [done|]. by rewrite Hlen.
  - by apply cas_next_hit.
  - by eapply same_but_level_trans.
  - pose proof (chain_NoDup _ _ _ _ _ Hca) as Hnd.
    destruct Hca as (_ & Hhd & Htl & Hl & Hs). split_and!.
    + rewrite <-app_assoc. simpl. eapply path_link; try done.
      * set_solver.
      * by eapply lookup_lt_Some.
      * unfold ha. rewrite next_addr_set_next; [done|]. by rewrite Hlen.
    + set_solver.
    + set_solver.
    + apply (same_but_level_levels j ha hb); [done|].
      apply Forall_app in Hl as [HlB HlR]. apply Forall_app. split; [done|].
      constructor; [|done]. apply (same_but_level_has_level j j h ha); [done|]. by exists nn.
    + apply (same_but_level_sorted j h hb); [by eapply same_but_level_trans|].
      apply (sorted_insert h B R n nn); try done.
      by destruct Hc as (_ & _ & _ & _ & ?).
Qed.

Lemma link_step h hd tl chains k n lv preds succs (j : nat) :
  linking h hd tl chains k n lv preds succs j → j < lv →
  ∃ B R sl pl ha hb,
    chains !! j = Some (B ++ R) ∧
    Forall (key_below h k) B ∧ Forall (key_above h k) R ∧ n ∉ B ++ R ∧
    succs !! j = Some sl ∧ preds !! j = Some pl ∧
    store_next h n j (ref sl) = Some ha ∧
    cas_next ha pl j (ref sl) (ref n) = Some (true, hb) ∧
    same_but_level j h hb ∧
    linking hb hd tl (<[j := B ++ n :: R]> chains) k n lv preds succs (S j).
Proof.
  intros (Hsh & Hlk & Hnhd & Hntl & (nn & Hn & <- & <- & Hm) & Hlow & Hup) Hj.
  destruct (shape_nodes _ _ _ _ Hsh _ _ Hn) as (_ & Hlv & _).
  destruct (lookup_lt_is_Some_2 chains j) as [l Hjl].
  { rewrite (shape_length _ _ _ _ Hsh). lia. }
  destruct (Hup j l) as (B & R & -> & Hp & Hs & Hlive & HB & HR & Hnin); [lia|done|].
  destruct (link_level h hd tl chains j B R n nn) as (ha & hb & Hst & Hcas & Hsame & Hc);
    try done.
  exists B, R, (first_or tl R), (last_or hd B), ha, hb.
  split_and!; try done.
  pose proof (same_but_level_data _ _ _ Hsame) as Hdata.
  split_and!; try done.
  - by eapply shape_update.
  - eapply linked_update; [done|done|done|]. intros x Hx _. set_solver.
  - destruct (same_but_level_lookup _ _ _ _ _ Hsame Hn) as (nn' & Hn' & Hk' & _ & Hl' & _).
    exists nn'. split_and!; try congruence.
    by rewrite (same_but_level_node_mark _ _ _ _ _ _ Hsame Hn Hn').
  - intros i l Hi Hil. destruct (decide (i = j)) as [->|Hij].
    + rewrite list_lookup_insert_eq in Hil by by eapply lookup_lt_Some.
      injection Hil as <-. set_solver.
    + rewrite list_lookup_insert_ne in Hil by done. apply (Hlow i l); [lia|done].
  - intros i l Hi Hil. rewrite list_lookup_insert_ne in Hil by lia.
    destruct (Hup i l) as (B' & R' & -> & Hp' & Hs' & Hlive' & HB' & HR' & Hnin');
      [lia|done|].
    exists B', R'. split_and!; try done.
    + by eapply same_data_live.
    + eapply Forall_impl; [done|]. intros y. by apply same_data_key_below.
    + eapply Forall_impl; [done|]. intros y. by apply same_data_key_above.
Qed.

Lemma link_upper_spec hd tl k n lv preds succs (m : nat) : ∀ (j : nat) h chains,
  linking h hd tl chains k n lv preds succs j → 0 < j → j + m = lv →
  ∃ h' chains',
    link_upper m j h n preds succs = Some h' ∧
    shape h' hd tl chains' ∧ linked_but None h' hd tl chains' ∧
    same_data h h' ∧ chains' !! 0 = chains !! 0.
Proof.
  induction m as [|m IH]; intros j h chains Hlinking Hj Hjm.
  - exists h, chains. simpl. split_and!; try done.
    + apply Hlinking.
    + destruct Hlinking as (Hsh & Hlk & Hnhd & Hntl & (nn & Hn & Hk & Hl & Hm) & Hlow & Hup).
      intros x nd i l Hx Hxh Hxt _ Hmx Hi Hil.
      destruct (decide (x = n)) as [->|Hxn].
      * apply (Hlow i l); [|done]. assert (nd = nn) as -> by congruence. lia.
      * eapply Hlk; try done. congruence.
    + apply same_data_refl.
  - destruct (link_step _ _ _ _ _ _ _ _ _ _ Hlinking)
      as (B & R & sl & pl & ha & hb & Hjl & HB & HR & Hnin & Hs & Hp & Hst & Hcas & Hsame & Hlinking');
      [lia|].
    simpl. rewrite Hs. simpl. rewrite Hst. simpl. rewrite Hp. simpl.
    rewrite Hcas. simpl.
    destruct (IH (S j) hb (<[j := B ++ n :: R]> chains) Hlinking')
      as (h' & chains' & Hrun & Hsh' & Hlk' & Hdata & H0'); [lia|lia|].
    exists h', chains'. split_and!; try done.
    + eapply same_data_trans; [|done]. by eapply same_but_level_data.
    + rewrite H0'. rewrite list_lookup_insert_ne by lia. done.
Qed.

(** ** Allocating a node *)

Lemma random_level_from_bounds coins : ∀ lvl : nat,
  0 < lvl ≤ MAX_LEVEL → 0 < (random_level_from coins lvl).1 ≤ MAX_LEVEL.
Proof.
  induction coins as [|c coins IH]; intros lvl Hl; simpl; [done|].
  destruct c; simpl; [|done]. case_bool_decide; simpl; [|done]. apply IH. lia.
Qed.

Lemma random_level_bounds coins : 0 < (random_level coins).1 ≤ MAX_LEVEL.
Proof. apply random_level_from_bounds. unfold MAX_LEVEL. lia. Qed.

Section alloc.
Variables (h : gmap loc Node) (n : loc) (nn : Node).
Hypothesis Hfresh : h !! n = None.

Lemma alloc_lookup x nd : h !! x = Some nd → <[n := nn]> h !! x = Some nd.
Proof. intros Hx. rewrite lookup_insert_ne; [done|]. intros ->. congruence. Qed.

Lemma alloc_next_addr x i y : next_addr h x i = Some y → next_addr (<[n := nn]> h) x i = Some y.
Proof.
  unfold next_addr, load_next. destruct (h !! x) as [nd|] eqn:Hx; [|done].
  by rewrite (alloc_lookup _ _ Hx).
Qed.

Lemma alloc_path i y xs : path h i y xs → path (<[n := nn]> h) i y xs.
Proof.
  revert y. induction xs as [|x xs IH]; intros y; simpl; [done|].
  intros [Hy Hp]. split; [by apply alloc_next_addr|by apply IH].
Qed.

Lemma alloc_live x : live h x → live (<[n := nn]> h) x.
Proof. intros (nd & Hx & Hm). exists nd. split; [by apply alloc_lookup|done]. Qed.

Lemma alloc_key_below k x : key_below h k x → key_below (<[n := nn]> h) k x.
Proof. intros (nd & Hx & Hm). exists nd. split; [by apply alloc_lookup|done]. Qed.

Lemma alloc_key_above k x : key_above h k x → key_above (<[n := nn]> h) k x.
Proof. intros (nd & Hx & Hm). exists nd. split; [by apply alloc_lookup|done]. Qed.

Lemma alloc_has_level i x : has_level h i x → has_level (<[n := nn]> h) i x.
Proof. intros (nd & Hx & Hm). exists nd. split; [by apply alloc_lookup|done]. Qed.

Lemma alloc_chain_ok i hd tl l : chain_ok h i hd tl l → chain_ok (<[n := nn]> h) i hd tl l.
Proof.
  intros (Hp & Hhd & Htl & Hl & Hs). split_and!; try done.
  - by apply alloc_path.
  - eapply Forall_impl; [done|]. intros x. apply alloc_has_level.
  - eapply sorted_mono; [|done]. intros a b (na & nb & Ha & Hb & Hlt).
    exists na, nb. split_and!; [by apply alloc_lookup|by apply alloc_lookup|done].
Qed.

Lemma alloc_not_in i l : Forall (has_level h i) l → n ∉ l.
Proof.
  intros Hl Hin. eapply Forall_forall in Hl as (nd & Hn & _); [|done]. congruence.
Qed.

Lemma alloc_cget l k : n ∉ l → cget (<[n := nn]> h) l k = cget h l k.
Proof.
  induction l as [|x l IH]; intros Hn; simpl; [done|].
  rewrite lookup_insert_ne by set_solver. rewrite IH by set_solver. done.
Qed.

Lemma alloc_shape hd tl chains :
  shape h hd tl chains →
  length (next nn) = level nn → 0 < level nn ≤ MAX_LEVEL → uniform nn →
  shape (<[n := nn]> h) hd tl chains.
Proof.
  intros [Hne Hhd Htl Hok Hlen Hch] Hl Hlv Hu. split; try done.
  - destruct Hhd as (hn & Hh & ?). exists hn. split; [by apply alloc_lookup|done].
  - destruct Htl as [tn Ht]. exists tn. by apply alloc_lookup.
  - intros x nd Hx. destruct (decide (x = n)) as [->|Hxn].
    + rewrite lookup_insert_eq in Hx. by injection Hx as <-.
    + rewrite lookup_insert_ne in Hx by done. by eapply Hok.
  - intros i l Hi. by apply alloc_chain_ok, Hch.
Qed.

End alloc.

Lemma cget_skip h B n R nn k :
  h !! n = Some nn → key nn ≠ k → cget h (B ++ n :: R) k = cget h (B ++ R) k.
Proof.
  intros Hn Hk. induction B as [|b B IH]; simpl.
  - rewrite Hn. rewrite (bool_decide_eq_false_2 (key nn = k)) by done.
    by rewrite andb_false_r.
  - by rewrite IH.
Qed.

Lemma no_live_key h hd tl chains k l0 a c :
  shape h hd tl chains → linked_but None h hd tl chains →
  chains !! 0 = Some l0 → at_level h hd tl k l0 a c → found_at h tl k c = false →
  ∀ x nd, h !! x = Some nd → node_mark nd = false → x ≠ hd → x ≠ tl → key nd ≠ k.
Proof.
  intros Hsh Hlk Hl0 Hal Hf x nd Hx Hm Hxh Hxt.
  pose proof (shape_chain _ _ _ _ Hsh _ _ Hl0) as Hc.
  destruct (at_level_above _ _ _ _ _ _ _ _ Hc Hal (found_at_false _ _ _ _ Hf))
    as (B & R & -> & _ & _ & _ & HB & HR).
  destruct (shape_nodes _ _ _ _ Hsh _ _ Hx) as (_ & Hlv & _).
  assert (x ∈ B ++ R) as Hin.
  { eapply Hlk; try done. lia. }
  apply elem_of_app in Hin as [Hin|Hin].
  - eapply Forall_forall in HB as (nd' & Hx' & Hlt); [|done].
    assert (nd' = nd) as -> by congruence. by apply klt_neq.
  - eapply Forall_forall in HR as (nd' & Hx' & Hlt); [|done].
    assert (nd' = nd) as -> by congruence. intros Heq. by apply klt_neq in Hlt.
Qed.

(** ** [insert] *)

Local Arguments link_upper : simpl never.
Local Arguments store_next : simpl never.
Local Arguments cas_next : simpl never.
Local Arguments random_level : simpl never.

Lemma insert_found k v s h' chains' l0 a c0 :
  shape h' (head s) (tail s) chains' → linked_but None h' (head s) (tail s) chains' →
  chains' !! 0 = Some l0 → at_level h' (head s) (tail s) k l0 a c0 →
  found_at h' (tail s) k c0 = true →
  ∃ nd, h' !! c0 = Some nd ∧
    (∃ p, load_next h' c0 0 = Some p ∧ is_marked p = false) ∧
    cget h' l0 k = values nd ∧
    inv (mk (<[c0 := add_value v nd]> h') (head s) (tail s)) chains' ∧
    cget (<[c0 := add_value v nd]> h') l0 k = {[v]} ∪ values nd ∧
    (∀ k', k' ≠ k → cget (<[c0 := add_value v nd]> h') l0 k' = cget h' l0 k').
Proof.
  intros Hsh Hlk Hl0 Hal Hf.
  pose proof (shape_chain _ _ _ _ Hsh _ _ Hl0) as Hch.
  destruct (at_level_found _ _ _ _ _ _ _ _ Hch Hal Hf)
    as (Hne & Hin & nd & Hnd & Hk & Hm & Hcg).
  destruct (shape_nodes _ _ _ _ Hsh _ _ Hnd) as (Hlen & Hlv & Hu).
  exists nd. split; [done|].
  assert (shape (<[c0 := add_value v nd]> h') (head s) (tail s) chains') as Hsh''.
  { eapply shape_update_node; done. }
  split_and!.
  - destruct (node_slot _ 0 c0 nd (shape_nodes _ _ _ _ Hsh) Hnd) as (p & Hp & Hmp); [lia|].
    exists p. unfold load_next. rewrite Hnd. simpl. split; [done|].
    unfold is_marked. congruence.
  - done.
  - split; [done|]. simpl. intros x ndx i l Hx Hxh Hxt _ Hmx Hi Hl.
    destruct (decide (x = c0)) as [->|Hxc].
    + rewrite lookup_insert_eq in Hx. injection Hx as <-. by eapply Hlk.
    + rewrite lookup_insert_ne in Hx by done. by eapply Hlk.
  - rewrite <-Hk. change (key nd) with (key (add_value v nd)).
    change ({[v]} ∪ values nd) with (values (add_value v nd)).
    eapply cget_live_key.
    + by destruct (shape_chain _ _ _ _ Hsh'' _ _ Hl0) as (_ & _ & _ & _ & ?).
    + done.
    + by rewrite lookup_insert_eq.
    + done.
  - intros k' Hk'. eapply cget_update_skip; [done|done|congruence].
Qed.

Lemma insert_new k v (lv : nat) hd tl h' chains' preds succs l0 c0 :
  shape h' hd tl chains' → linked_but None h' hd tl chains' →
  0 < lv ≤ MAX_LEVEL →
  chains' !! 0 = Some l0 → succs !! 0 = Some c0 →
  (∀ j l, chains' !! j = Some l →
     ∃ a c, preds !! j = Some a ∧ succs !! j = Some c ∧ at_level h' hd tl k l a c) →
  found_at h' tl k c0 = false →
  ∃ p0 ha hb hf chainsf,
    preds !! 0 = Some p0 ∧
    store_next (<[fresh (dom h') := mkNode k {[v]} lv (replicate lv nullptr)]> h')
               (fresh (dom h')) 0 (ref c0) = Some ha ∧
    cas_next ha p0 0 (ref c0) (ref (fresh (dom h'))) = Some (true, hb) ∧
    link_upper (lv - 1) 1 hb (fresh (dom h')) preds succs = Some hf ∧
    shape hf hd tl chainsf ∧ linked_but None hf hd tl chainsf ∧
    cget hf (default [] (chainsf !! 0)) k = {[v]} ∧
    (∀ k', k' ≠ k → cget hf (default [] (chainsf !! 0)) k' = cget h' l0 k') ∧
    same_data (<[fresh (dom h') := mkNode k {[v]} lv (replicate lv nullptr)]> h') hf.
Proof.
  intros Hsh Hlk Hlv Hl0 Hc0 Hat Hf.
  set (n := fresh (dom h')). set (nn := mkNode k {[v]} lv (replicate lv nullptr)).
  set (h1 := <[n := nn]> h').
  assert (h' !! n = None) as Hfresh.
  { apply not_elem_of_dom. apply is_fresh. }
  destruct (Hat 0 l0 Hl0) as (a0 & c & Ha0 & Hc & Hal0).
  assert (c = c0) as -> by congruence.
  pose proof (no_live_key _ _ _ _ _ _ _ _ Hsh Hlk Hl0 Hal0 Hf) as Hnokey.
  assert (node_mark nn = false) as Hmn.
  { unfold node_mark, nn. simpl. rewrite lookup_replicate_2 by lia. done. }
  assert (linking h1 hd tl chains' k n lv preds succs 0) as Hlinking.
  { split_and!.
    - apply alloc_shape; try done. 
      + simpl. by rewrite length_replicate.
      + unfold uniform. rewrite Hmn. simpl. apply Forall_replicate. done.
    - intros x nd i l Hx Hxh Hxt Hxn Hm Hi Hil.
      unfold h1 in Hx. rewrite lookup_insert_ne in Hx by congruence. by eapply Hlk.
    - intros ->. destruct (shape_head _ _ _ _ Hsh) as (hn & Hh & _). congruence.
    - intros ->. destruct (shape_tail _ _ _ _ Hsh) as (tn & Ht). congruence.
    - exists nn. unfold h1. rewrite lookup_insert_eq. done.
    - intros i l Hi. lia.
    - intros i l _ Hil. destruct (Hat i l Hil) as (a & c & Ha & Hc' & Hal).
      pose proof (shape_chain _ _ _ _ Hsh _ _ Hil) as Hch.
      destruct (at_level_above _ _ _ _ _ _ _ _ Hch Hal) as (B & R & -> & -> & -> & Hlive & HB & HR).
      { intros nd Hne Hnd.
        destruct (at_level_curr _ _ _ _ _ _ _ _ Hch Hal) as [?|[Hin (nd' & Hnd' & Hm)]]; [done|].
        assert (nd' = nd) as -> by congruence.
        apply (Hnokey c nd); try done. intros ->. destruct Hch as (_ & Hhd & _). done. }
      exists B, R. split_and!; try done.
      + by apply alloc_live.
      + eapply Forall_impl; [done|]. intros y. by apply alloc_key_below.
      + eapply Forall_impl; [done|]. intros y. by apply alloc_key_above.
      + destruct Hch as (_ & _ & _ & Hl & _). by eapply alloc_not_in. }
  destruct (link_step _ _ _ _ _ _ _ _ _ _ Hlinking)
    as (B & R & sl & pl & ha & hb & Hjl & HB & HR & Hnin & Hs & Hp & Hst & Hcas & Hsame & Hlinking');
    [lia|].
  assert (sl = c0) as -> by congruence.
  assert (l0 = B ++ R) as -> by congruence.
  destruct (link_upper_spec hd tl k n lv preds succs (lv - 1) 1 hb _ Hlinking')
    as (hf & chainsf & Hrun & Hshf & Hlkf & Hdata & H0f); [lia|lia|].
  exists pl, ha, hb, hf, chainsf. split_and!; try done.
  - rewrite H0f. rewrite list_lookup_insert_eq by by eapply lookup_lt_Some.
    simpl.
    assert (same_data h1 hf) as Hd1.
    { eapply same_data_trans; [by eapply same_but_level_data|done]. }
    destruct (same_data_lookup h1 hf n nn Hd1) as (nf & Hnf & Hkf & Hvf & _ & Hmf).
    { unfold h1. by rewrite lookup_insert_eq. }
    change k with (key nn). rewrite <-Hkf.
    change ({[v]} : gset V) with (values nn). rewrite <-Hvf.
    apply (cget_live_key hf (B ++ n :: R) n nf); [|set_solver|done|congruence].
    assert (chainsf !! 0 = Some (B ++ n :: R)) as Hcf.
    { rewrite H0f. by rewrite list_lookup_insert_eq by by eapply lookup_lt_Some. }
    by destruct (shape_chain _ _ _ _ Hshf _ _ Hcf) as (_ & _ & _ & _ & ?).
  - intros k' Hk'. rewrite H0f. rewrite list_lookup_insert_eq by by eapply lookup_lt_Some.
    simpl.
    assert (same_data h1 hf) as Hd1.
    { eapply same_data_trans; [by eapply same_but_level_data|done]. }
    rewrite (same_data_cget _ _ _ _ Hd1).
    rewrite (cget_skip h1 B n R nn k').
    + by apply alloc_cget.
    + unfold h1. by rewrite lookup_insert_eq.
    + simpl. congruence.
  - eapply same_data_trans; [by eapply same_but_level_data|done].
Qed.

(** [insert] answers whether the value is new for the key, adds it, and
    touches no other key. *)
Lemma same_data_dom h h' : same_data h h' → dom h' = dom h.
Proof.
  intros Hs. apply set_eq. intros x. rewrite !elem_of_dom.
  specialize (Hs x). destruct (h !! x), (h' !! x); try done;
    split; intros [? ?]; try done; eauto.
Qed.

Lemma grown_update k v h h' x nd :
  same_data h h' → h' !! x = Some nd → grown k v h (<[x := add_value v nd]> h').
Proof.
  intros Hs Hx. split.
  - intros y ndy Hy. destruct (same_data_lookup _ _ _ _ Hs Hy) as (ndy' & Hy' & Hk & Hv & _).
    destruct (decide (y = x)) as [->|Hne].
    + exists (add_value v nd). rewrite lookup_insert_eq. split; [done|].
      assert (ndy' = nd) as -> by congruence. simpl. split; [done|]. set_solver.
    + exists ndy'. rewrite lookup_insert_ne by done. split; [done|].
      split; [done|]. by rewrite Hv.
  - intros y ndy' Hy' Hy. specialize (Hs y). rewrite Hy in Hs.
    destruct (decide (y = x)) as [->|Hne].
    + by rewrite Hx in Hs.
    + rewrite lookup_insert_ne in Hy' by done. by rewrite Hy' in Hs.
Qed.

Lemma grown_alloc k v (lv : nat) h h' hf :
  same_data h h' →
  same_data (<[fresh (dom h') := mkNode k {[v]} lv (replicate lv nullptr)]> h') hf →
  grown k v h hf.
Proof.
  intros Hs Hf. pose proof (same_data_dom _ _ Hs) as Hdom.
  assert (h' !! fresh (dom h') = None) as Hfresh.
  { apply not_elem_of_dom. apply is_fresh. }
  split.
  - intros y ndy Hy. destruct (same_data_lookup _ _ _ _ Hs Hy) as (ndy' & Hy' & Hk & Hv & _).
    destruct (same_data_lookup _ _ y ndy' Hf) as (ndf & Hyf & Hkf & Hvf & _).
    { rewrite lookup_insert_ne; [done|]. intros <-. congruence. }
    exists ndf. split; [done|]. split; [congruence|]. by rewrite Hvf, Hv.
  - intros y ndf Hyf Hy. specialize (Hf y). rewrite Hyf in Hf.
    destruct (decide (y = fresh (dom h'))) as [->|Hne].
    + rewrite lookup_insert_eq in Hf. destruct Hf as (Hk & Hv & _).
      by rewrite Hdom.
    + rewrite lookup_insert_ne in Hf by done. specialize (Hs y). rewrite Hy in Hs.
      destruct (h' !! y); done.
Qed.

Lemma sl_insert_full k v coins s chains :
  inv s chains →
  ∃ s' chains',
    insert k v coins s = Some (bool_decide (v ∉ model s chains k), s') ∧
    inv s' chains' ∧ head s' = head s ∧ tail s' = tail s ∧
    model s' chains' k = {[v]} ∪ model s chains k ∧
    (∀ k', k' ≠ k → model s' chains' k' = model s chains k') ∧
    grown k v (nodes s) (nodes s') ∧
    ((size (nodes s') = size (nodes s) ∧
      ∃ x nd, nodes s !! x = Some nd ∧ x ≠ head s ∧ x ≠ tail s ∧
              model s chains k = values nd) ∨
     (size (nodes s') = S (size (nodes s)) ∧ model s chains k = ∅)).
Proof.
  intros Hinv. unfold insert, fuel_of. simpl.
  destruct (find_spec k (S (size (nodes s))) s chains Hinv)
    as (h' & chains' & preds & succs & c0 & Hfind & Hinv' & Hdata & Hsize & Hmodel & Hc0 & Hat);
    [lia|].
  rewrite Hfind. simpl.
  destruct Hinv' as [Hsh' Hlk']. simpl in Hsh', Hlk'.
  destruct (lookup_lt_is_Some_2 chains' 0) as [l0 Hl0].
  { rewrite (shape_length _ _ _ _ Hsh'). unfold MAX_LEVEL. lia. }
  destruct (Hat 0 l0 Hl0) as (a & c & _ & Hc & Hal).
  assert (c = c0) as -> by congruence.
  assert (∀ k', model s chains k' = cget h' l0 k') as Hm0.
  { intros k'. rewrite <-Hmodel. unfold model. simpl. by rewrite Hl0. }
  destruct (found_at h' (tail s) k c0) eqn:Hf.
  - destruct (insert_found k v s h' chains' l0 a c0 Hsh' Hlk' Hl0 Hal Hf)
      as (nd & Hnd & (p & Hp & Hmp) & Hcg & Hinv'' & Hk & Hother).
    rewrite Hc0. simpl. rewrite Hp. simpl. rewrite Hmp, Hnd. simpl.
    exists (mk (<[c0 := add_value v nd]> h') (head s) (tail s)), chains'.
    split_and!; try done.
    + by rewrite Hm0, Hcg.
    + unfold model at 1. simpl. rewrite Hl0. simpl. by rewrite Hk, Hm0, Hcg.
    + intros k' Hk'. unfold model at 1. simpl. rewrite Hl0. simpl.
      by rewrite Hother, Hm0.
    + simpl. by apply grown_update.
    + left. simpl. split.
      * rewrite map_size_insert_Some by done. done.
      * pose proof (Hdata c0) as Hd0. rewrite Hnd in Hd0.
        destruct (nodes s !! c0) as [nd0|] eqn:Hnd0; [|done].
        destruct Hd0 as (_ & Hv0 & _).
        pose proof (shape_chain _ _ _ _ Hsh' _ _ Hl0) as Hch.
        destruct (at_level_found _ _ _ _ _ _ _ _ Hch Hal Hf) as (Hne & Hin & _).
        exists c0, nd0. split_and!; try done.
        -- intros Heq. rewrite <-Heq in Hch. destruct Hch as (_ & Hhd & _). done.
        -- rewrite Hm0, Hcg. congruence.
  - pose proof (random_level_bounds coins) as Hlv.
    destruct (random_level coins) as [lv coins'] eqn:HL. simpl in Hlv.
    unfold create_node. simpl.
    destruct (insert_new k v lv (head s) (tail s) h' chains' preds succs l0 c0)
      as (p0 & ha & hb & hf & chainsf & Hp0 & Hst & Hcas & Hup & Hshf & Hlkf & Hk & Hother & Hgrow);
      try done.
    rewrite Hc0. simpl. rewrite Hst. simpl. rewrite Hp0. simpl. rewrite Hcas. simpl.
    rewrite Hup. simpl.
    assert (cget h' l0 k = ∅) as Hemp.
    { eapply not_found_model; [|done|done]. by apply (shape_chain _ _ _ _ Hsh'). }
    exists (mk hf (head s) (tail s)), chainsf. split_and!; try done.
    + rewrite Hm0, Hemp. by rewrite bool_decide_eq_true_2 by set_solver.
    + rewrite Hm0, Hemp. unfold model. simpl. rewrite Hk. set_solver.
    + intros k' Hk'. unfold model at 1. simpl. by rewrite Hother, Hm0.
    + simpl. by eapply grown_alloc.
    + right. simpl. split; [|by rewrite Hm0].
      rewrite <-Hsize, <-!size_dom, (same_data_dom _ _ Hgrow), dom_insert, size_union.
      * rewrite size_singleton, size_dom. lia.
      * apply disjoint_singleton_l. apply is_fresh.
Qed.

(** [insert] answers whether the value is new for the key, adds it, and
    touches no other key. *)
Lemma sl_insert_spec k v coins s chains :
  inv s chains →
  ∃ s' chains',
    insert k v coins s = Some (bool_decide (v ∉ model s chains k), s') ∧
    inv s' chains' ∧ head s' = head s ∧ tail s' = tail s ∧
    model s' chains' k = {[v]} ∪ model s chains k ∧
    ∀ k', k' ≠ k → model s' chains' k' = model s chains k'.
Proof.
  intros Hinv.
  destruct (sl_insert_full k v coins s chains Hinv)
    as (s' & chains' & ? & ? & ? & ? & ? & ? & _ & _).
  by exists s', chains'.
Qed.

End ops.
End LockFreeSkipListOps.

From stdpp Require Import base gmap sets list strings sorting.

(** * The lock-free skip list: sequences of operations *)

Module LockFreeSkipListRuns.
Import KeyOrderFacts LockFreeSkipList LockFreeSkipListInv LockFreeSkipListFacts
  LockFreeSkipListOps.

Section runs.
Context {K V : Type} `{EqDecision K, Inhabited K, KeyOrderLaws K, Countable V}.

Local Abbreviation Node := (LockFreeSkipList.Node (K:=K) (V:=V)).
Local Abbreviation state := (LockFreeSkipList.t (K:=K) (V:=V)).
Implicit Types (h : gmap loc Node) (nd : Node) (s : state).

Lemma fresh_node_ok (k0 : K) (vs : gset V) (lv : nat) (p : ptr) :
  0 < lv ≤ MAX_LEVEL → mark p = false →
  length (next (mkNode k0 vs lv (replicate lv p))) = level (mkNode k0 vs lv (replicate lv p)) ∧
  0 < level (mkNode k0 vs lv (replicate lv p)) ≤ MAX_LEVEL ∧
  uniform (mkNode k0 vs lv (replicate lv p)).
Proof.
  intros Hlv Hp. cbn [next level]. rewrite length_replicate.
  split_and!; [done|lia|lia|].
  assert (node_mark (mkNode k0 vs lv (replicate lv p)) = false) as Hnm.
  { unfold node_mark. cbn [next]. rewrite lookup_replicate_2 by lia. done. }
  unfold uniform. rewrite Hnm. cbn [next]. by apply Forall_replicate.
Qed.

Lemma sl_empty_inv : inv (empty : state) (replicate MAX_LEVEL []).
Proof.
  unfold empty, create_node. cbv beta iota zeta.
  set (n0 := mkNode inhabitant ∅ MAX_LEVEL (replicate MAX_LEVEL nullptr) : Node).
  set (hd := fresh (dom (∅ : gmap loc Node))).
  set (tl := fresh (dom (<[hd := n0]> (∅ : gmap loc Node)))).
  assert (hd ≠ tl) as Hne.
  { intros Heq. pose proof (is_fresh (dom (<[hd := n0]> (∅ : gmap loc Node)))) as Hf.
    fold tl in Hf. rewrite <-Heq in Hf. apply Hf. rewrite dom_insert. set_solver. }
  unfold link_head. rewrite lookup_insert_ne by done. rewrite lookup_insert_eq.
  cbv beta iota. change (key n0) with (inhabitant : K).
  change (values n0) with (∅ : gset V). change (level n0) with MAX_LEVEL.
  set (nh := mkNode inhabitant ∅ MAX_LEVEL (replicate MAX_LEVEL (ref tl)) : Node).
  set (hE := <[hd := nh]> (<[tl := n0]> (<[hd := n0]> (∅ : gmap loc Node)))).
  assert (hE !! hd = Some nh) as Hhd by (unfold hE; by rewrite lookup_insert_eq).
  assert (hE !! tl = Some n0) as Htl.
  { unfold hE. rewrite lookup_insert_ne by done. by rewrite lookup_insert_eq. }
  assert (∀ x nd, hE !! x = Some nd → (x = hd ∧ nd = nh) ∨ (x = tl ∧ nd = n0)) as Hall.
  { intros x nd Hx. destruct (decide (x = hd)) as [->|Hxh]; [left; split; congruence|].
    destruct (decide (x = tl)) as [->|Hxt]; [right; split; congruence|].
    unfold hE in Hx. rewrite !lookup_insert_ne in Hx by done. done. }
  split; cbn [nodes head tail].
  - split.
    + done.
    + exists nh. split_and!; try done.
    + eauto.
    + intros x nd Hx. destruct (Hall x nd Hx) as [[-> ->]|[-> ->]].
      * apply fresh_node_ok; [unfold MAX_LEVEL; lia|done].
      * apply fresh_node_ok; [unfold MAX_LEVEL; lia|done].
    + by rewrite length_replicate.
    + intros i l Hi. apply lookup_replicate in Hi as [-> Hi].
      split_and!; try done.
      * cbn [app path]. split; [|done]. unfold next_addr, load_next. rewrite Hhd.
        cbn [mbind option_bind next nh]. by rewrite lookup_replicate_2.
      * set_solver.
      * set_solver.
      * constructor.
  - intros x nd i l Hx Hxh Hxt _ _ _ _.
    destruct (Hall x nd Hx) as [[-> ->]|[-> ->]]; done.
Qed.

Lemma empty_model k : model (empty : state) (replicate MAX_LEVEL []) k = ∅.
Proof. done. Qed.

(** Every operation goes through and keeps the shape. *)
Lemma step_inv o s chains :
  inv s chains → ∃ s' chains', step o s = Some s' ∧ inv s' chains'.
Proof.
  intros Hinv. destruct o as [k v coins|k|k]; simpl.
  - destruct (sl_insert_spec k v coins s chains Hinv) as (s' & chains' & -> & Hinv' & _).
    by exists s', chains'.
  - destruct (sl_remove_spec k s chains Hinv) as (b & s' & chains' & -> & Hinv' & _).
    by exists s', chains'.
  - destruct (sl_search_spec k s chains Hinv) as (s' & chains' & -> & Hinv' & _).
    by exists s', chains'.
Qed.

Lemma run_inv ops : ∀ s chains,
  inv s chains → ∃ s' chains', run ops s = Some s' ∧ inv s' chains'.
Proof.
  induction ops as [|o ops IH]; intros s chains Hinv; simpl.
  - by exists s, chains.
  - destruct (step_inv o s chains Hinv) as (s1 & chains1 & -> & Hinv1). simpl.
    by apply (IH s1 chains1).
Qed.

Lemma run_empty_inv (ops : list (op (K:=K) (V:=V))) :
  ∃ s chains, run ops empty = Some s ∧ inv s chains.
Proof. apply (run_inv ops _ _ sl_empty_inv). Qed.

(** A key that holds nothing holds nothing after operations that do not
    insert for it. *)
Lemma run_model_empty k ops : ∀ s chains,
  inv s chains → model s chains k = ∅ → no_insert k ops →
  ∃ s' chains', run ops s = Some s' ∧ inv s' chains' ∧ model s' chains' k = ∅.
Proof.
  induction ops as [|o ops IH]; intros s chains Hinv Hm Hno; simpl.
  - by exists s, chains.
  - apply Forall_cons in Hno as [Ho Hno].
    assert (∃ s1 chains1, step o s = Some s1 ∧ inv s1 chains1 ∧ model s1 chains1 k = ∅)
      as (s1 & chains1 & -> & Hinv1 & Hm1).
    { destruct o as [k' v coins|k'|k']; simpl.
      - destruct (sl_insert_spec k' v coins s chains Hinv)
          as (s' & chains' & -> & Hinv' & _ & _ & _ & Hother).
        exists s', chains'. split_and!; try done. rewrite Hother; done.
      - destruct (sl_remove_spec k' s chains Hinv)
          as (b & s' & chains' & -> & Hinv' & _ & _ & Hk & Hother & _).
        exists s', chains'. split_and!; try done.
        destruct (decide (k = k')) as [->|Hne]; [done|]. by rewrite Hother.
      - destruct (sl_search_spec k' s chains Hinv)
          as (s' & chains' & -> & Hinv' & _ & _ & Hsame).
        exists s', chains'. split_and!; try done. by rewrite Hsame. }
    simpl. by apply (IH s1 chains1).
Qed.

(** ** [display] *)

Lemma level_nodes_spec h tl (i : nat) : ∀ R fuel y,
  nodes_ok h → path h i y (R ++ [tl]) → tl ∉ R → Forall (has_level h i) R →
  length R < fuel →
  level_nodes fuel h tl i (first_or tl R) = Some (shown h <$> R).
Proof.
  induction R as [|x R IH]; intros fuel y Hok Hp Htl Hl Hfuel;
    (destruct fuel as [|fuel]; [simpl in Hfuel; lia|]).
  - simpl. rewrite first_or_nil. by rewrite decide_True.
  - rewrite first_or_cons. simpl in Hfuel. simpl level_nodes.
    rewrite decide_False by set_solver.
    apply Forall_cons in Hl as [(nd & Hx & Hi) Hl]. rewrite Hx. simpl.
    destruct (Hok _ _ Hx) as (_ & Hlv & _).
    destruct (node_slot _ 0 x nd Hok Hx) as (p0 & Hp0 & Hm0); [lia|].
    destruct (node_slot _ i x nd Hok Hx Hi) as (p & Hpi & _).
    rewrite Hp0, Hpi. simpl.
    simpl in Hp. destruct Hp as [_ Hp].
    pose proof (path_next h i x tl [] R Hp) as Hnext. rewrite last_or_nil in Hnext.
    unfold next_addr, load_next in Hnext. rewrite Hx in Hnext. simpl in Hnext.
    rewrite Hpi in Hnext. simpl in Hnext. rewrite Hnext. simpl.
    rewrite (IH fuel x); try done; [|set_solver|lia].
    simpl. unfold shown at 2. rewrite Hx. unfold is_marked. by rewrite Hm0.
Qed.

Local Arguments level_nodes : simpl never.

Lemma display_level_spec s chains (i : nat) l :
  inv s chains → chains !! i = Some l →
  display_level i s = Some (shown (nodes s) <$> l).
Proof.
  intros [Hsh Hlk] Hi. pose proof (shape_chain _ _ _ _ Hsh _ _ Hi) as Hc.
  pose proof (shape_nodes _ _ _ _ Hsh) as Hok.
  assert (i < MAX_LEVEL) as Hlt.
  { apply lookup_lt_Some in Hi. by rewrite (shape_length _ _ _ _ Hsh) in Hi. }
  destruct Hc as (Hp & Hhd & Htl & Hl & Hs).
  destruct (pred_slot (nodes s) i (head s) (tail s) [] l Hok Hp) as (hn & Hh & Hslot).
  { rewrite last_or_nil. apply head_ok_live, Hsh. }
  { rewrite last_or_nil. apply head_ok_has_level; [apply Hsh|done]. }
  rewrite last_or_nil in Hh. unfold display_level, load_next. rewrite Hh. simpl.
  rewrite Hslot. simpl.
  apply (level_nodes_spec _ _ _ l _ (head s)); try done.
  pose proof (chain_length (nodes s) i (head s) (tail s) l (shape_head _ _ _ _ Hsh)) as Hlen.
  unfold fuel_of. assert (length l < size (nodes s)); [|lia].
  apply Hlen. by split_and!.
Qed.

Lemma live_keys_increasing h l :
  StronglySorted (node_lt h) l → increasing (live_keys (shown h <$> l)).
Proof.
  unfold increasing, live_keys.
  induction 1 as [|x l Hs IH Hall]; [constructor|].
  rewrite fmap_cons, filter_cons. case_decide; [|done].
  rewrite fmap_cons. constructor; [done|].
  apply Forall_forall. intros kb Hkb.
  apply list_elem_of_fmap in Hkb as (e & -> & He).
  apply list_elem_of_filter in He as [_ He].
  apply list_elem_of_fmap in He as (y & -> & Hy).
  eapply Forall_forall in Hall as (nx & ny & Hx & Hy' & Hlt); [|done].
  unfold shown. by rewrite Hx, Hy'.
Qed.

End runs.
End LockFreeSkipListRuns.

From stdpp Require Import base gmap sets list strings sorting.

(** * Calls of the skip list that overlap *)

Module SkipListOverlap.
Import LockFreeSkipList LockFreeSkipListSteps.

Section overlap.
Context {K V : Type} `{EqDecision K, Inhabited K, KeyOrder K, Countable V}.

Local Abbreviation state := (LockFreeSkipList.t (K:=K) (V:=V)).

Local Arguments find_levels : simpl never.
Local Arguments find : simpl never.
Local Arguments link_upper : simpl never.
Local Arguments random_level : simpl never.

(** The two steps, run with nothing between them, are [insert]. *)
Lemma insert_two_steps fuel (k : K) (v : V) coins (s s1 : state) p :
  insert_publish fuel k v coins s = Some (p, s1) →
  insert_fuel fuel k v coins s = insert_link p s1.
Proof.
  unfold insert_publish, insert_link. destruct fuel as [|fuel]; [done|].
  cbn [insert_fuel].
  destruct (find (S fuel) k s) as [[[[found preds] succs] s']|]; [|done].
  cbn [mbind option_bind]. destruct found; [done|].
  destruct (random_level coins) as [new_level coins'].
  destruct (create_node k {[v]} new_level (nodes s')) as [new_node h].
  destruct (succs !! 0) as [s0|]; [|done]. cbn [mbind option_bind].
  destruct (store_next h new_node 0 (ref s0)) as [h1|]; [|done]. cbn [mbind option_bind].
  destruct (preds !! 0) as [p0|]; [|done]. cbn [mbind option_bind].
  destruct (cas_next h1 p0 0 (ref s0) (ref new_node)) as [[ok h2]|]; [|done].
  cbn [mbind option_bind]. destruct ok; [|done].
  intros [= <- <-]. done.
Qed.

(** A traversal that is told to restart starts again on the store it
    has reached, with one round less to go. *)
Lemma find_restart fuel (k : K) (s : state) h :
  find_levels (tail s) (S fuel) (nodes s) k MAX_LEVEL (head s) [] [] = Some (h, None) →
  find (S fuel) k s = find fuel k (mk h (head s) (tail s)).
Proof.
  intros Hl.
  change (find (S fuel) k s) with
    ('(h, r) ← find_levels (tail s) (S fuel) (nodes s) k MAX_LEVEL (head s) [] [];
     let s := mk h (head s) (tail s) in
     match r with
     | None => find fuel k s
     | Some (preds, succs) =>
         s0 ← succs !! 0;
         if decide (s0 = tail s) then Some (false, preds, succs, s)
         else
           nd ← nodes s !! s0;
           Some (bool_decide (key nd = k), preds, succs, s)
     end).
  by rewrite Hl.
Qed.

Lemma state_eta (s : state) : mk (nodes s) (head s) (tail s) = s.
Proof. by destruct s. Qed.

End overlap.
End SkipListOverlap.

From stdpp Require Import base gmap sets list strings sorting.

(** * The claims about the sharded hash index *)

Module HashIndexClaims.
Import Examples.

Section claims.
Context {K V : Type} `{Countable K, Countable V}.
Variable NUM_SHARDS : nat.
Variable hash : K → nat.
Hypothesis NUM_SHARDS_pos : 0 < NUM_SHARDS.

Local Abbreviation run := (InvertedIndex.run (K:=K) (V:=V) NUM_SHARDS hash).
Local Abbreviation insert := (InvertedIndex.insert (K:=K) (V:=V) NUM_SHARDS hash).
Local Abbreviation search := (InvertedIndex.search (K:=K) (V:=V) NUM_SHARDS hash).
Local Abbreviation remove_value := (InvertedIndex.remove_value (K:=K) (V:=V) NUM_SHARDS hash).
Local Abbreviation present := (InvertedIndex.present (K:=K) (V:=V) NUM_SHARDS hash).

(** C2, as the code has it: after any sequence of complete [insert],
    [remove(k)] and [remove(k, v)] calls no bucket registered in a shard
    map is empty, and this still holds after one more [insert] or
    [remove(k, v)].  (The state in which [getOrCreateBucket] releases the
    shard lock is not covered: see the counterexample.) *)
Theorem C2_buckets_nonempty_after_operations (ops : list InvertedIndex.op) :
  InvertedIndex.buckets_nonempty (run ops) ∧
  (∀ k v, InvertedIndex.buckets_nonempty (insert k v (run ops)).2) ∧
  (∀ k v, InvertedIndex.buckets_nonempty (remove_value k v (run ops)).2).
Proof.
  split_and!.
  - apply (InvertedIndexFacts.run_wf NUM_SHARDS hash NUM_SHARDS_pos ops).
  - intros k v.
    pose proof (InvertedIndexFacts.run_wf NUM_SHARDS hash NUM_SHARDS_pos
                  (ops ++ [InvertedIndex.Insert k v])) as [_ Hne].
    unfold InvertedIndex.run in Hne. rewrite foldl_app in Hne. exact Hne.
  - intros k v.
    pose proof (InvertedIndexFacts.run_wf NUM_SHARDS hash NUM_SHARDS_pos
                  (ops ++ [InvertedIndex.RemoveValue k v])) as [_ Hne].
    unfold InvertedIndex.run in Hne. rewrite foldl_app in Hne. exact Hne.
Qed.

(** C7: [remove(k, v)] answers true exactly when [v] was among the
    values [search(k)] gave; the values of [k] afterwards are the old
    ones without [v]; and when the removal empties the set the entry of
    [k] is gone from its shard map and [search(k)] gives the empty
    set. *)
Theorem C7_remove_value_result_and_erasure (ops : list InvertedIndex.op) (k : K) (v : V) :
  ((remove_value k v (run ops)).1 = true ↔ v ∈ search k (run ops)) ∧
  search k (remove_value k v (run ops)).2 = search k (run ops) ∖ {[v]} ∧
  (v ∈ search k (run ops) → search k (run ops) ∖ {[v]} = ∅ →
     ¬ present k (remove_value k v (run ops)).2 ∧
     search k (remove_value k v (run ops)).2 = ∅).
Proof.
  destruct (InvertedIndexFacts.run_wf NUM_SHARDS hash NUM_SHARDS_pos ops) as [Hwf _].
  destruct (InvertedIndexFacts.remove_value_spec NUM_SHARDS hash NUM_SHARDS_pos k v _ Hwf)
    as (_ & Hres & Hsearch & _ & Hpres).
  split_and!.
  - rewrite Hres. apply bool_decide_eq_true.
  - done.
  - intros Hin Hemp. split.
    + intros Hp. apply Hpres in Hp as [_ Hn]. by apply Hn.
    + by rewrite Hsearch.
Qed.

End claims.

(** The state in which [getOrCreateBucket] releases the shard lock after
    creating a bucket: the key is registered and its bucket is empty. *)
Lemma C2_empty_bucket_after_getOrCreateBucket :
  InvertedIndex.present 4 str_hash "k" fresh_bucket_state ∧
  InvertedIndex.search 4 str_hash "k" fresh_bucket_state = ∅ ∧
  ¬ InvertedIndex.buckets_nonempty fresh_bucket_state.
Proof.
  assert (InvertedIndex.getShard 4 str_hash "k" fresh_bucket_state !! "k" = Some 1%positive)
    as Hk by (vm_compute; reflexivity).
  assert (InvertedIndex.buckets fresh_bucket_state !!! 1%positive = (∅ : gset string))
    as Hb by (vm_compute; reflexivity).
  split_and!.
  - unfold InvertedIndex.present. rewrite Hk. eauto.
  - unfold InvertedIndex.search. rewrite Hk. exact Hb.
  - intros Hne.
    apply (Hne 1 (InvertedIndex.getShard 4 str_hash "k" fresh_bucket_state) "k" 1%positive);
      [vm_compute; reflexivity|exact Hk|exact Hb].
Qed.

Lemma C2_witness :
  InvertedIndex.buckets_nonempty
    (InvertedIndex.run 4 str_hash
       [InvertedIndex.Insert "k" "v"; InvertedIndex.RemoveValue "k" "v"]) ∧
  (∀ k v : string, InvertedIndex.buckets_nonempty
     (InvertedIndex.insert 4 str_hash k v
        (InvertedIndex.run 4 str_hash
           [InvertedIndex.Insert "k" "v"; InvertedIndex.RemoveValue "k" "v"])).2) ∧
  (∀ k v : string, InvertedIndex.buckets_nonempty
     (InvertedIndex.remove_value 4 str_hash k v
        (InvertedIndex.run 4 str_hash
           [InvertedIndex.Insert "k" "v"; InvertedIndex.RemoveValue "k" "v"])).2).
Proof.
  apply (C2_buckets_nonempty_after_operations 4 str_hash). lia.
Defined.

Lemma C7_witness :
  ((InvertedIndex.remove_value 4 str_hash "k" "v"
      (InvertedIndex.run 4 str_hash [InvertedIndex.Insert "k" "v"])).1 = true
   ↔ "v" ∈ InvertedIndex.search 4 str_hash "k"
             (InvertedIndex.run 4 str_hash [InvertedIndex.Insert "k" "v"])) ∧
  InvertedIndex.search 4 str_hash "k"
    (InvertedIndex.remove_value 4 str_hash "k" "v"
       (InvertedIndex.run 4 str_hash [InvertedIndex.Insert "k" "v"])).2
  = InvertedIndex.search 4 str_hash "k"
      (InvertedIndex.run 4 str_hash [InvertedIndex.Insert "k" "v"]) ∖ {["v"]} ∧
  ("v" ∈ InvertedIndex.search 4 str_hash "k"
           (InvertedIndex.run 4 str_hash [InvertedIndex.Insert "k" "v"]) →
   InvertedIndex.search 4 str_hash "k"
     (InvertedIndex.run 4 str_hash [InvertedIndex.Insert "k" "v"]) ∖ {["v"]} = ∅ →
   ¬ InvertedIndex.present 4 str_hash "k"
       (InvertedIndex.remove_value 4 str_hash "k" "v"
          (InvertedIndex.run 4 str_hash [InvertedIndex.Insert "k" "v"])).2 ∧
   InvertedIndex.search 4 str_hash "k"
     (InvertedIndex.remove_value 4 str_hash "k" "v"
        (InvertedIndex.run 4 str_hash [InvertedIndex.Insert "k" "v"])).2 = ∅).
Proof.
  apply (C7_remove_value_result_and_erasure 4 str_hash). lia.
Defined.

End HashIndexClaims.

From stdpp Require Import base gmap sets list strings sorting.

(** * The claims about the concurrent B+ tree *)

Module BPlusTreeClaims.
Import Examples KeyOrderFacts BPlusTreeInv.

Section claims.
Context {K V : Type} `{EqDecision K, KeyOrderLaws K, Countable V}.
Variable ORDER : nat.

Local Abbreviation state := (BPlusTree.t (K:=K) (V:=V)).
Local Abbreviation empty := (BPlusTree.empty (K:=K) (V:=V)).

(** C4: on a tree built by any sequence of inserts, [range_search(lo, hi)]
    with [lo < hi] returns a list of pairs in strictly ascending key
    order, and a pair [(k, vs)] is in it exactly when [k] is not below
    [lo], is below [hi], was inserted, and [vs] is what [search(k)]
    gives. *)
Theorem C4_range_search_window (ops : list (K * V)) (lo hi : K) :
  0 < ORDER → klt lo hi = true →
  ∃ (s : state) r,
    BPlusTree.run ORDER ops empty = Some s ∧
    BPlusTree.range_search lo hi s = Some r ∧
    key_sorted r.*1 ∧
    ∀ k vs, (k, vs) ∈ r ↔
      klt k lo = false ∧ klt k hi = true ∧ (∃ v, (k, v) ∈ ops) ∧
      BPlusTree.search k s = Some vs.
Proof.
  intros _ _.
  destruct (BPlusTreeRuns.run_empty_spec ORDER ops) as (s & lvs & Hrun & Hinv & Hent).
  exists s, (filter (in_window_p lo hi) (contents ops)).
  pose proof (BPlusTreeRuns.contents_sorted ops) as Hsorted.
  split_and!.
  - done.
  - rewrite <-Hent. by apply BPlusTreeScan.range_search_spec.
  - by apply BPlusTreeRuns.filter_sorted.
  - intros k vs. rewrite list_elem_of_filter.
    rewrite (BPlusTreeRuns.sorted_elem_get _ k vs Hsorted).
    rewrite BPlusTreeRuns.contents_keys.
    rewrite (BPlusTreeOps.bp_search_spec s lvs k Hinv), Hent.
    unfold in_window_p, in_window. simpl.
    rewrite andb_true_iff, negb_true_iff. naive_solver.
Qed.

(** C8: when the leaf that [optimistic_insert] reaches is not safe for
    insert, it answers failure and the tree it leaves is the tree it was
    given; [insert] then goes through [pessimistic_insert], which adds
    the value. *)
Theorem C8_optimistic_insert_unsafe_leaf (ops : list (K * V)) (s : state)
    (key : K) (v : V) (leaf : loc) (n : BPlusTree.Node) :
  0 < ORDER → BPlusTree.run ORDER ops empty = Some s →
  BPlusTree.find_leaf (BPlusTree.fuel_of s) (BPlusTree.heap s) (BPlusTree.root s) key
    = Some leaf →
  BPlusTree.heap s !! leaf = Some n →
  BPlusTree.is_safe_for_insert ORDER n = false →
  BPlusTree.optimistic_insert ORDER key v s = Some (false, s) ∧
  ∃ s', BPlusTree.pessimistic_insert ORDER key v s = Some s' ∧
        BPlusTree.insert ORDER key v s = Some (true, s') ∧
        BPlusTree.search key s' = Some ({[v]} ∪ default ∅ (BPlusTree.search key s)).
Proof.
  intros _ Hrun Hfind Hn Hunsafe.
  assert (BPlusTree.optimistic_insert ORDER key v s = Some (false, s)) as Hopt.
  { unfold BPlusTree.optimistic_insert, BPlusTree.optimistic_insert_fuel.
    rewrite Hfind. simpl. rewrite Hn. simpl. by rewrite Hunsafe. }
  split; [done|].
  destruct (BPlusTreeRuns.run_empty_spec ORDER ops) as (s0 & lvs & Hrun0 & Hinv & Hent).
  assert (s0 = s) as -> by congruence.
  pose proof Hinv as (h & fp & Hb & Hch).
  destruct (BPlusTreeOps.fuel_enough _ _ _ _ Hb) as [Hfuel _].
  destruct (BPlusTreeOps.pessimistic_insert_spec ORDER h s lvs fp key v _ Hb Hch Hfuel)
    as (s' & h' & lvs' & fp' & Hpess & Hb' & Hch' & Hent').
  exists s'. split_and!.
  - done.
  - unfold BPlusTree.insert, BPlusTree.insert_fuel.
    unfold BPlusTree.optimistic_insert in Hopt. rewrite Hopt. simpl.
    unfold BPlusTree.pessimistic_insert in Hpess. by rewrite Hpess.
  - assert (tree_inv s' lvs') as Hinv' by (by exists h', fp').
    rewrite (BPlusTreeOps.bp_search_spec s' lvs' key Hinv').
    rewrite (BPlusTreeOps.bp_search_spec s lvs key Hinv). simpl.
    rewrite Hent', Hent.
    rewrite BPlusTreeFacts.get_put by apply BPlusTreeRuns.contents_sorted.
    by rewrite decide_True.
Qed.

End claims.

(** C3: with order 4 the keys "01" to "04" fill the only leaf; inserting
    "05" then splits it once: three nodes are allocated, the root is an
    internal node with the one key "03" and two leaves holding "01","02"
    and "03","04","05", the left leaf points to the right one, and the
    key in the root is the first key of the right leaf. *)
Theorem C3_five_keys_one_split :
  (∃ s4, BPlusTree.run 4 four_keys bplus_empty = Some s4 ∧
         size (BPlusTree.heap s4) = 1 ∧
         is_leaf_at s4 (BPlusTree.root s4) = true ∧
         keys_at s4 (BPlusTree.root s4) = ["01"; "02"; "03"; "04"]) ∧
  ∃ s l r, BPlusTree.run 4 five_keys bplus_empty = Some s ∧
           size (BPlusTree.heap s) = 3 ∧
           is_leaf_at s (BPlusTree.root s) = false ∧
           keys_at s (BPlusTree.root s) = ["03"] ∧
           children_at s (BPlusTree.root s) = [l; r] ∧
           is_leaf_at s l = true ∧ keys_at s l = ["01"; "02"] ∧
           is_leaf_at s r = true ∧ keys_at s r = ["03"; "04"; "05"] ∧
           (BPlusTree.next <$> BPlusTree.heap s !! l) = Some (Some r) ∧
           keys_at s r !! 0 = keys_at s (BPlusTree.root s) !! 0.
Proof.
  split.
  - exists full_leaf_tree. split_and!; vm_compute; reflexivity.
  - exists (default bplus_empty (BPlusTree.run 4 five_keys bplus_empty)), 1%positive, 2%positive.
    split_and!; vm_compute; reflexivity.
Qed.

Lemma C4_witness :
  ∃ (s : BPlusTree.t (K:=string) (V:=string)) r,
    BPlusTree.run 4 five_keys BPlusTree.empty = Some s ∧
    BPlusTree.range_search "02" "05" s = Some r ∧
    key_sorted r.*1 ∧
    ∀ k vs, (k, vs) ∈ r ↔
      klt k "02" = false ∧ klt k "05" = true ∧ (∃ v, (k, v) ∈ five_keys) ∧
      BPlusTree.search k s = Some vs.
Proof.
  apply (C4_range_search_window 4 five_keys "02" "05"); [lia|reflexivity].
Defined.

Lemma C8_witness :
  BPlusTree.is_safe_for_insert 4
    (default (BPlusTree.new_node true) (BPlusTree.heap full_leaf_tree !! 1%positive)) = false ∧
  BPlusTree.optimistic_insert 4 "05" "e" full_leaf_tree = Some (false, full_leaf_tree) ∧
  ∃ s', BPlusTree.pessimistic_insert 4 "05" "e" full_leaf_tree = Some s' ∧
        BPlusTree.insert 4 "05" "e" full_leaf_tree = Some (true, s') ∧
        BPlusTree.search "05" s'
          = Some ({["e"]} ∪ default ∅ (BPlusTree.search "05" full_leaf_tree)).
Proof.
  split; [vm_compute; reflexivity|].
  apply (C8_optimistic_insert_unsafe_leaf 4 four_keys full_leaf_tree "05" "e" 1%positive
           (default (BPlusTree.new_node true) (BPlusTree.heap full_leaf_tree !! 1%positive)));
    [lia|vm_compute; reflexivity..].
Defined.

End BPlusTreeClaims.

From stdpp Require Import base gmap sets list strings sorting.

(** * The claims about the lock-free skip list *)

Module SkipListClaims.
Import Examples MoreExamples KeyOrderFacts LockFreeSkipListInv.

Section claims.
Context {K V : Type} `{EqDecision K, Inhabited K, KeyOrderLaws K, Countable V}.

Local Abbreviation state := (LockFreeSkipList.t (K:=K) (V:=V)).
Local Abbreviation empty := (LockFreeSkipList.empty (K:=K) (V:=V)).
Local Abbreviation op := (LockFreeSkipList.op (K:=K) (V:=V)).

(** C5, for calls that run one at a time, none overlapping another:
    take the list reached by any operations, call [remove(k)], then
    run any operations among which there is no [insert(k, _)]: a
    [search(k)] after them gives the empty set.  This holds whatever
    [remove] answered, so in particular when it answered true. *)
Theorem C5_search_after_remove (ops0 ops : list op) (k : K) :
  no_insert k ops →
  ∃ (s0 : state) b s1 s2 s3,
    LockFreeSkipList.run ops0 empty = Some s0 ∧
    LockFreeSkipList.remove k s0 = Some (b, s1) ∧
    LockFreeSkipList.run ops s1 = Some s2 ∧
    LockFreeSkipList.search k s2 = Some (∅, s3).
Proof.
  intros Hno.
  destruct (LockFreeSkipListRuns.run_empty_inv ops0) as (s0 & chains0 & Hrun0 & Hinv0).
  destruct (LockFreeSkipListOps.sl_remove_spec k s0 chains0 Hinv0)
    as (b & s1 & chains1 & Hrem & Hinv1 & _ & _ & Hk & _).
  destruct (LockFreeSkipListRuns.run_model_empty k ops s1 chains1 Hinv1 Hk Hno)
    as (s2 & chains2 & Hrun & Hinv2 & Hk2).
  destruct (LockFreeSkipListOps.sl_search_spec k s2 chains2 Hinv2)
    as (s3 & chains3 & Hsearch & _).
  exists s0, b, s1, s2, s3. split_and!; try done. by rewrite Hsearch, Hk2.
Qed.

(** C6: after any sequence of operations, the walk of [display] along
    level 0 ends, and the keys it meets on nodes that are not marked are
    strictly increasing; so no two of them are equal. *)
Theorem C6_level0_keys_increasing (ops : list op) :
  ∃ (s : state) d,
    LockFreeSkipList.run ops empty = Some s ∧
    LockFreeSkipList.display_level 0 s = Some d ∧
    increasing (live_keys d) ∧ NoDup (live_keys d).
Proof.
  destruct (LockFreeSkipListRuns.run_empty_inv ops) as (s & chains & Hrun & Hinv).
  pose proof Hinv as [Hsh _].
  destruct (lookup_lt_is_Some_2 chains 0) as [l0 Hl0].
  { rewrite (shape_length _ _ _ _ Hsh). unfold LockFreeSkipList.MAX_LEVEL. lia. }
  exists s, (shown (LockFreeSkipList.nodes s) <$> l0).
  assert (increasing (live_keys (shown (LockFreeSkipList.nodes s) <$> l0))) as Hinc.
  { apply LockFreeSkipListRuns.live_keys_increasing.
    by destruct (shape_chain _ _ _ _ Hsh _ _ Hl0) as (_ & _ & _ & _ & ?). }
  split_and!; try done.
  - by apply (LockFreeSkipListRuns.display_level_spec s chains 0 l0).
  - unfold increasing in Hinc.
    induction Hinc as [|a ks Hs IH Hall]; constructor; [|done].
    intros Hin. eapply Forall_forall in Hall; [|done]. by rewrite klt_irrefl in Hall.
Qed.

(** C10: on the list reached by any sequence of operations, [search(k)]
    may hand back a changed store, but what [search(k')] gives is the
    same on the store before and on the store after, for every key
    [k']. *)
Theorem C10_search_keeps_contents (ops : list op) (k k' : K) :
  ∃ (s : state) r s',
    LockFreeSkipList.run ops empty = Some s ∧
    LockFreeSkipList.search k s = Some (r, s') ∧
    ∃ r' t t', LockFreeSkipList.search k' s = Some (r', t) ∧
               LockFreeSkipList.search k' s' = Some (r', t').
Proof.
  destruct (LockFreeSkipListRuns.run_empty_inv ops) as (s & chains & Hrun & Hinv).
  destruct (LockFreeSkipListOps.sl_search_spec k s chains Hinv)
    as (s' & chains' & Hsearch & Hinv' & _ & _ & Hsame).
  destruct (LockFreeSkipListOps.sl_search_spec k' s chains Hinv) as (t & _ & Hs1 & _).
  destruct (LockFreeSkipListOps.sl_search_spec k' s' chains' Hinv') as (t' & _ & Hs2 & _).
  exists s, (model s chains k), s'. split_and!; try done.
  exists (model s chains k'), t, t'. split; [done|]. by rewrite Hs2, Hsame.
Qed.

End claims.

(** C5, when calls overlap: on the list that holds "d", an
    [insert("b", "x")] publishes its node on level 0, a [remove("b")]
    runs and marks the node on both levels, and the [insert] then stores
    into [next[1]] of its node, which erases the mark there, and links
    the node on level 1.  On the list this leaves, with no call in
    flight, [remove("d")] answers true, and the [search("d")] after it
    does not return: its traversal is told to restart in every round. *)
Lemma C5_search_never_returns_after_overlap :
  overlapped = Some overlapped_list ∧
  LockFreeSkipList.remove "d" overlapped_list = Some (true, overlapped_removed) ∧
  ∀ fuel, LockFreeSkipList.search_fuel fuel "d" overlapped_removed = None.
Proof.
  split; [vm_compute; reflexivity|].
  split; [vm_compute; reflexivity|].
  assert (∀ fuel, LockFreeSkipList.find fuel "d" overlapped_removed = None) as Hfind.
  { induction fuel as [|fuel IH]; [done|].
    destruct fuel as [|fuel]; [vm_compute; reflexivity|].
    rewrite (SkipListOverlap.find_restart (S fuel) "d" overlapped_removed
               (LockFreeSkipList.nodes overlapped_removed)).
    - rewrite SkipListOverlap.state_eta. exact IH.
    - vm_compute. reflexivity. }
  intros fuel. unfold LockFreeSkipList.search_fuel. by rewrite Hfind.
Qed.

Lemma C5_witness :
  ∃ (s0 : LockFreeSkipList.t (K:=string) (V:=string)) b s1 s2 s3,
    LockFreeSkipList.run skip_ops LockFreeSkipList.empty = Some s0 ∧
    LockFreeSkipList.remove "a" s0 = Some (b, s1) ∧
    LockFreeSkipList.run [LockFreeSkipList.Insert "b" "z" [true]; LockFreeSkipList.Search "a"] s1
      = Some s2 ∧
    LockFreeSkipList.search "a" s2 = Some (∅, s3).
Proof.
  apply (C5_search_after_remove skip_ops
           [LockFreeSkipList.Insert "b" "z" [true]; LockFreeSkipList.Search "a"] "a").
  repeat constructor. discriminate.
Defined.

Lemma C6_witness :
  ∃ (s : LockFreeSkipList.t (K:=string) (V:=string)) d,
    LockFreeSkipList.run skip_ops LockFreeSkipList.empty = Some s ∧
    LockFreeSkipList.display_level 0 s = Some d ∧
    increasing (live_keys d) ∧ NoDup (live_keys d).
Proof. apply (C6_level0_keys_increasing skip_ops). Defined.

Lemma C10_witness :
  ∃ (s : LockFreeSkipList.t (K:=string) (V:=string)) r s',
    LockFreeSkipList.run skip_ops LockFreeSkipList.empty = Some s ∧
    LockFreeSkipList.search "b" s = Some (r, s') ∧
    ∃ r' t t', LockFreeSkipList.search "a" s = Some (r', t) ∧
               LockFreeSkipList.search "a" s' = Some (r', t').
Proof. apply (C10_search_keeps_contents skip_ops "b" "a"). Defined.

End SkipListClaims.

From stdpp Require Import base gmap sets list strings sorting.

(** * The claims about all three indices *)

Module IndexClaims.
Import Examples KeyOrderFacts.

Section claims.
Context {K V : Type} `{Countable K, Inhabited K, KeyOrderLaws K, Countable V}.
Variable NUM_SHARDS : nat.
Variable hash : K → nat.
Variable ORDER : nat.

Local Abbreviation hash_run := (InvertedIndex.run (K:=K) (V:=V) NUM_SHARDS hash).
Local Abbreviation hash_insert := (InvertedIndex.insert (K:=K) (V:=V) NUM_SHARDS hash).
Local Abbreviation hash_search := (InvertedIndex.search (K:=K) (V:=V) NUM_SHARDS hash).
Local Abbreviation skip_empty := (LockFreeSkipList.empty (K:=K) (V:=V)).
Local Abbreviation tree_empty := (BPlusTree.empty (K:=K) (V:=V)).

(** C1, as the code has it, for calls that run one at a time, none
    overlapping another.  On the state reached by any sequence of such
    operations, with [r] what [search(k)] gives there: the hash index
    and the skip list answer [insert(k, v)] with true exactly when [v]
    is not in [r]; the B+ tree answers true always; and in all three
    [search(k)] gives [r] with [v] added afterwards. *)
Theorem C1_insert_result (hops : list InvertedIndex.op)
    (sops : list LockFreeSkipList.op) (bops : list (K * V))
    (k : K) (v : V) (coins : list bool) :
  0 < NUM_SHARDS → 0 < ORDER →
  ((hash_insert k v (hash_run hops)).1 = bool_decide (v ∉ hash_search k (hash_run hops)) ∧
   hash_search k (hash_insert k v (hash_run hops)).2
     = {[v]} ∪ hash_search k (hash_run hops)) ∧
  (∃ s r s1 s2 s3,
     LockFreeSkipList.run sops skip_empty = Some s ∧
     LockFreeSkipList.search k s = Some (r, s1) ∧
     LockFreeSkipList.insert k v coins s = Some (bool_decide (v ∉ r), s2) ∧
     LockFreeSkipList.search k s2 = Some ({[v]} ∪ r, s3)) ∧
  (∃ s r s',
     BPlusTree.run ORDER bops tree_empty = Some s ∧
     BPlusTree.search k s = Some r ∧
     BPlusTree.insert ORDER k v s = Some (true, s') ∧
     BPlusTree.search k s' = Some ({[v]} ∪ r)).
Proof.
  intros Hpos _. split_and!.
  - destruct (InvertedIndexFacts.run_wf NUM_SHARDS hash Hpos hops) as [Hwf _].
    by destruct (InvertedIndexFacts.insert_spec NUM_SHARDS hash Hpos k v _ Hwf)
      as (_ & ? & _).
  - destruct (InvertedIndexFacts.run_wf NUM_SHARDS hash Hpos hops) as [Hwf _].
    by destruct (InvertedIndexFacts.insert_spec NUM_SHARDS hash Hpos k v _ Hwf)
      as (_ & _ & ? & _).
  - destruct (LockFreeSkipListRuns.run_empty_inv sops) as (s & chains & Hrun & Hinv).
    destruct (LockFreeSkipListOps.sl_search_spec k s chains Hinv) as (s1 & _ & Hs & _).
    destruct (LockFreeSkipListOps.sl_insert_spec k v coins s chains Hinv)
      as (s2 & chains2 & Hins & Hinv2 & _ & _ & Hk & _).
    destruct (LockFreeSkipListOps.sl_search_spec k s2 chains2 Hinv2) as (s3 & _ & Hs2 & _).
    exists s, (LockFreeSkipListInv.model s chains k), s1, s2, s3.
    split_and!; try done. by rewrite Hs2, Hk.
  - destruct (BPlusTreeRuns.run_empty_spec ORDER bops) as (s & lvs & Hrun & Hinv & Hent).
    destruct (BPlusTreeOps.bp_insert_spec ORDER s lvs k v Hinv)
      as (s' & lvs' & Hins & Hinv' & Hent').
    exists s, (BPlusTreeInv.get k (BPlusTreeInv.entries lvs)), s'. split_and!; try done.
    + by apply BPlusTreeOps.bp_search_spec.
    + rewrite (BPlusTreeOps.bp_search_spec s' lvs' k Hinv'), Hent', Hent.
      rewrite BPlusTreeFacts.get_put by apply BPlusTreeRuns.contents_sorted.
      by rewrite decide_True.
Qed.

(** C9: in all three indices, on the state reached by any sequence of
    operations, after [insert(k, v)] a second [insert(k, v)] leaves what
    [search(k')] gives unchanged, for every key [k']. *)
Theorem C9_insert_idempotent (hops : list InvertedIndex.op)
    (sops : list LockFreeSkipList.op) (bops : list (K * V))
    (k : K) (v : V) (coins coins' : list bool) :
  0 < NUM_SHARDS → 0 < ORDER →
  (∀ k', hash_search k' (hash_insert k v (hash_insert k v (hash_run hops)).2).2
         = hash_search k' (hash_insert k v (hash_run hops)).2) ∧
  (∃ s b1 s1 b2 s2,
     LockFreeSkipList.run sops skip_empty = Some s ∧
     LockFreeSkipList.insert k v coins s = Some (b1, s1) ∧
     LockFreeSkipList.insert k v coins' s1 = Some (b2, s2) ∧
     ∀ k', ∃ r t1 t2, LockFreeSkipList.search k' s1 = Some (r, t1) ∧
                      LockFreeSkipList.search k' s2 = Some (r, t2)) ∧
  (∃ s b1 s1 b2 s2,
     BPlusTree.run ORDER bops tree_empty = Some s ∧
     BPlusTree.insert ORDER k v s = Some (b1, s1) ∧
     BPlusTree.insert ORDER k v s1 = Some (b2, s2) ∧
     ∀ k', ∃ r, BPlusTree.search k' s1 = Some r ∧ BPlusTree.search k' s2 = Some r).
Proof.
  intros Hpos _. split_and!.
  - intros k'.
    destruct (InvertedIndexFacts.run_wf NUM_SHARDS hash Hpos hops) as [Hwf _].
    destruct (InvertedIndexFacts.insert_spec NUM_SHARDS hash Hpos k v _ Hwf)
      as (Hwf1 & _ & Hk1 & _).
    destruct (InvertedIndexFacts.insert_spec NUM_SHARDS hash Hpos k v _ Hwf1)
      as (_ & _ & Hk2 & Hother & _).
    destruct (decide (k' = k)) as [->|Hne]; [|by apply Hother].
    rewrite Hk2, Hk1. set_solver.
  - destruct (LockFreeSkipListRuns.run_empty_inv sops) as (s & chains & Hrun & Hinv).
    destruct (LockFreeSkipListOps.sl_insert_spec k v coins s chains Hinv)
      as (s1 & chains1 & Hins1 & Hinv1 & _ & _ & Hk1 & _).
    destruct (LockFreeSkipListOps.sl_insert_spec k v coins' s1 chains1 Hinv1)
      as (s2 & chains2 & Hins2 & Hinv2 & _ & _ & Hk2 & Hother).
    eexists s, _, s1, _, s2. split_and!; try done.
    intros k'.
    destruct (LockFreeSkipListOps.sl_search_spec k' s1 chains1 Hinv1) as (t1 & _ & Hs1 & _).
    destruct (LockFreeSkipListOps.sl_search_spec k' s2 chains2 Hinv2) as (t2 & _ & Hs2 & _).
    exists (LockFreeSkipListInv.model s1 chains1 k'), t1, t2. split; [done|].
    rewrite Hs2. do 2 f_equal.
    destruct (decide (k' = k)) as [->|Hne]; [|by apply Hother].
    rewrite Hk2, Hk1. set_solver.
  - destruct (BPlusTreeRuns.run_empty_spec ORDER bops) as (s & lvs & Hrun & Hinv & Hent).
    destruct (BPlusTreeOps.bp_insert_spec ORDER s lvs k v Hinv)
      as (s1 & lvs1 & Hins1 & Hinv1 & Hent1).
    destruct (BPlusTreeOps.bp_insert_spec ORDER s1 lvs1 k v Hinv1)
      as (s2 & lvs2 & Hins2 & Hinv2 & Hent2).
    exists s, true, s1, true, s2. split_and!; try done.
    intros k'. exists (BPlusTreeInv.get k' (BPlusTreeInv.entries lvs1)).
    split; [by apply BPlusTreeOps.bp_search_spec|].
    rewrite (BPlusTreeOps.bp_search_spec s2 lvs2 k' Hinv2), Hent2. f_equal.
    assert (BPlusTreeInv.key_sorted (BPlusTreeInv.entries lvs).*1) as Hs0.
    { rewrite Hent. apply BPlusTreeRuns.contents_sorted. }
    assert (BPlusTreeInv.key_sorted (BPlusTreeInv.entries lvs1).*1) as Hs1.
    { rewrite Hent1. by apply BPlusTreeFacts.put_sorted. }
    rewrite BPlusTreeFacts.get_put by done.
    destruct (decide (k' = k)) as [->|Hne]; [|done].
    rewrite Hent1, BPlusTreeFacts.get_put by done. rewrite decide_True by done.
    set_solver.
Qed.

End claims.

(** The B+ tree answers true to an [insert] of a pair it already holds,
    and holds the same afterwards. *)
Lemma C1_bplus_insert_true_on_duplicate :
  ∃ s s', BPlusTree.run 4 [("01", "a")] bplus_empty = Some s ∧
          BPlusTree.search "01" s = Some {["a"]} ∧
          BPlusTree.insert 4 "01" "a" s = Some (true, s') ∧
          BPlusTree.search "01" s' = Some {["a"]}.
Proof.
  exists (default bplus_empty (BPlusTree.run 4 [("01", "a")] bplus_empty)).
  exists (default bplus_empty (BPlusTree.run 4 [("01", "a"); ("01", "a")] bplus_empty)).
  split_and!; vm_compute; reflexivity.
Qed.

Lemma C1_witness :
  ((InvertedIndex.insert 4 str_hash "k" "v"
      (InvertedIndex.run 4 str_hash [InvertedIndex.Insert "k" "v"])).1
   = bool_decide ("v" ∉ InvertedIndex.search 4 str_hash "k"
                          (InvertedIndex.run 4 str_hash [InvertedIndex.Insert "k" "v"])) ∧
   InvertedIndex.search 4 str_hash "k"
     (InvertedIndex.insert 4 str_hash "k" "v"
        (InvertedIndex.run 4 str_hash [InvertedIndex.Insert "k" "v"])).2
   = {["v"]} ∪ InvertedIndex.search 4 str_hash "k"
                 (InvertedIndex.run 4 str_hash [InvertedIndex.Insert "k" "v"])) ∧
  (∃ s r s1 s2 s3,
     LockFreeSkipList.run skip_ops LockFreeSkipList.empty = Some s ∧
     LockFreeSkipList.search "k" s = Some (r, s1) ∧
     LockFreeSkipList.insert "k" "v" [true] s = Some (bool_decide ("v" ∉ r), s2) ∧
     LockFreeSkipList.search "k" s2 = Some ({["v"]} ∪ r, s3)) ∧
  (∃ s r s',
     BPlusTree.run 4 four_keys BPlusTree.empty = Some s ∧
     BPlusTree.search "k" s = Some r ∧
     BPlusTree.insert 4 "k" "v" s = Some (true, s') ∧
     BPlusTree.search "k" s' = Some ({["v"]} ∪ r)).
Proof.
  apply (C1_insert_result 4 str_hash 4 [InvertedIndex.Insert "k" "v"] skip_ops four_keys
           "k" "v" [true]); lia.
Defined.

Lemma C9_witness :
  (∀ k', InvertedIndex.search 4 str_hash k'
           (InvertedIndex.insert 4 str_hash "k" "v"
              (InvertedIndex.insert 4 str_hash "k" "v"
                 (InvertedIndex.run 4 str_hash [])).2).2
         = InvertedIndex.search 4 str_hash k'
             (InvertedIndex.insert 4 str_hash "k" "v"
                (InvertedIndex.run 4 str_hash [])).2) ∧
  (∃ s b1 s1 b2 s2,
     LockFreeSkipList.run skip_ops LockFreeSkipList.empty = Some s ∧
     LockFreeSkipList.insert "k" "v" [true] s = Some (b1, s1) ∧
     LockFreeSkipList.insert "k" "v" [] s1 = Some (b2, s2) ∧
     ∀ k', ∃ r t1 t2, LockFreeSkipList.search k' s1 = Some (r, t1) ∧
                      LockFreeSkipList.search k' s2 = Some (r, t2)) ∧
  (∃ s b1 s1 b2 s2,
     BPlusTree.run 4 four_keys BPlusTree.empty = Some s ∧
     BPlusTree.insert 4 "k" "v" s = Some (b1, s1) ∧
     BPlusTree.insert 4 "k" "v" s1 = Some (b2, s2) ∧
     ∀ k', ∃ r, BPlusTree.search k' s1 = Some r ∧ BPlusTree.search k' s2 = Some r).
Proof.
  apply (C9_insert_idempotent 4 str_hash 4 [] skip_ops four_keys "k" "v" [true] []); lia.
Defined.

End IndexClaims.

From stdpp Require Import base gmap sets list strings sorting.

(** * More about the sharded hash index *)

Module HashIndexExtras.
Import Examples Contents.

Section extras.
Context {K V : Type} `{Countable K, Countable V}.
Variable NUM_SHARDS : nat.
Variable hash : K → nat.
Hypothesis NUM_SHARDS_pos : 0 < NUM_SHARDS.

Local Abbreviation run := (InvertedIndex.run (K:=K) (V:=V) NUM_SHARDS hash).
Local Abbreviation op := (InvertedIndex.op (K:=K) (V:=V)).
Local Abbreviation step := (InvertedIndex.step (K:=K) (V:=V) NUM_SHARDS hash).
Local Abbreviation insert := (InvertedIndex.insert (K:=K) (V:=V) NUM_SHARDS hash).
Local Abbreviation search := (InvertedIndex.search (K:=K) (V:=V) NUM_SHARDS hash).
Local Abbreviation remove := (InvertedIndex.remove (K:=K) (V:=V) NUM_SHARDS hash).
Local Abbreviation remove_value := (InvertedIndex.remove_value (K:=K) (V:=V) NUM_SHARDS hash).
Local Abbreviation present := (InvertedIndex.present (K:=K) (V:=V) NUM_SHARDS hash).
Local Abbreviation getShard := (InvertedIndex.getShard (K:=K) (V:=V) NUM_SHARDS hash).
Local Abbreviation getOrCreateBucket :=
  (InvertedIndex.getOrCreateBucket (K:=K) (V:=V) NUM_SHARDS hash).

Lemma run_snoc ops o : run (ops ++ [o]) = (step o (run ops)).2.
Proof. unfold InvertedIndex.run. by rewrite foldl_app. Qed.

Lemma hash_holds_snoc (ops : list (InvertedIndex.op (K:=K) (V:=V))) o (k : K) :
  hash_holds (ops ++ [o]) k = hash_apply k (hash_holds ops k) o.
Proof. unfold hash_holds. by rewrite foldl_app. Qed.

Lemma present_iff_nonempty ops k : present k (run ops) ↔ search k (run ops) ≠ ∅.
Proof.
  destruct (InvertedIndexFacts.run_wf NUM_SHARDS hash NUM_SHARDS_pos ops) as [Hwf Hne].
  split.
  - intros Hp. by apply (InvertedIndexFacts.buckets_nonempty_alt NUM_SHARDS hash NUM_SHARDS_pos _ Hwf).
  - intros Hs. unfold InvertedIndex.present.
    destruct (getShard k (run ops) !! k) eqn:Hk; [eauto|].
    destruct Hs. unfold InvertedIndex.search. by rewrite Hk.
Qed.

(** The hash index refines a map from keys to sets: after any sequence
    of operations [search(k)] gives what the operations on [k] leave,
    inserts adding a value, [remove(k)] clearing the set, [remove(k, v)]
    taking one value out; and [k] is registered in its shard exactly
    when that set is not empty. *)
Theorem X_hash_search_refines_map (ops : list op) (k : K) :
  search k (run ops) = hash_holds ops k ∧
  (present k (run ops) ↔ hash_holds ops k ≠ ∅).
Proof.
  assert (search k (run ops) = hash_holds ops k) as Heq.
  { induction ops as [|o ops IH] using rev_ind.
    { unfold InvertedIndex.run, InvertedIndex.search, InvertedIndex.getShard. simpl.
      rewrite lookup_total_replicate_2
        by apply (InvertedIndexFacts.shard_of_lt NUM_SHARDS hash NUM_SHARDS_pos).
      by rewrite lookup_empty. }
    rewrite run_snoc, hash_holds_snoc, <-IH.
    destruct (InvertedIndexFacts.run_wf NUM_SHARDS hash NUM_SHARDS_pos ops) as [Hwf _].
    destruct o as [k' v|k'|k' v]; simpl.
    - destruct (InvertedIndexFacts.insert_spec NUM_SHARDS hash NUM_SHARDS_pos k' v _ Hwf)
        as (_ & _ & Hk & Hother & _).
      case_decide as Hd; [by subst|]. apply Hother. congruence.
    - destruct (InvertedIndexFacts.remove_spec NUM_SHARDS hash NUM_SHARDS_pos k' _ Hwf)
        as (_ & _ & Hk & Hother & _).
      case_decide as Hd; [by subst|]. apply Hother. congruence.
    - destruct (InvertedIndexFacts.remove_value_spec NUM_SHARDS hash NUM_SHARDS_pos k' v _ Hwf)
        as (_ & _ & Hk & Hother & _).
      case_decide as Hd; [by subst|]. apply Hother. congruence. }
  split; [done|]. rewrite <-Heq. apply present_iff_nonempty.
Qed.

(** [remove(k)] answers true exactly when [search(k)] gave a non-empty
    set; afterwards [k] is not registered, [search(k)] gives the empty
    set and every other key gives what it gave before. *)
Theorem X_hash_remove_key (ops : list op) (k : K) :
  ((remove k (run ops)).1 = true ↔ search k (run ops) ≠ ∅) ∧
  ¬ present k (remove k (run ops)).2 ∧
  search k (remove k (run ops)).2 = ∅ ∧
  (∀ k', k' ≠ k → search k' (remove k (run ops)).2 = search k' (run ops)).
Proof.
  destruct (InvertedIndexFacts.run_wf NUM_SHARDS hash NUM_SHARDS_pos ops) as [Hwf _].
  destruct (InvertedIndexFacts.remove_spec NUM_SHARDS hash NUM_SHARDS_pos k _ Hwf)
    as (_ & Hres & Hk & Hother & Hpres).
  split_and!; try done.
  - rewrite Hres. apply present_iff_nonempty.
  - intros Hp. apply Hpres in Hp as [Hne _]. done.
Qed.

(** The layout the operations keep: there are [NUM_SHARDS] shard maps; a
    key is registered only in the shard its hash selects; every
    registered bucket is allocated; and no bucket is registered for two
    keys. *)
Theorem X_hash_shard_layout (ops : list op) :
  length (InvertedIndex.shards (run ops)) = NUM_SHARDS ∧
  (∀ i sh k b, InvertedIndex.shards (run ops) !! i = Some sh → sh !! k = Some b →
     i = hash k mod NUM_SHARDS ∧ is_Some (InvertedIndex.buckets (run ops) !! b)) ∧
  (∀ i sh k b i' sh' k',
     InvertedIndex.shards (run ops) !! i = Some sh → sh !! k = Some b →
     InvertedIndex.shards (run ops) !! i' = Some sh' → sh' !! k' = Some b → k = k').
Proof.
  destruct (InvertedIndexFacts.run_wf NUM_SHARDS hash NUM_SHARDS_pos ops) as [Hwf _].
  destruct Hwf as [Hlen Hhome Halloc Hinj]. split_and!.
  - done.
  - intros i sh k b Hi Hk. split; [by eapply Hhome|by eapply Halloc].
  - done.
Qed.

(** [getOrCreateBucket] changes what no [search] gives (the bucket it
    creates is empty), and calling it again hands back the same bucket
    and the same state. *)
Theorem X_hash_getOrCreateBucket_again (ops : list op) (k : K) :
  (∀ k', search k' (getOrCreateBucket k (run ops)).2 = search k' (run ops)) ∧
  getOrCreateBucket k (getOrCreateBucket k (run ops)).2 = getOrCreateBucket k (run ops).
Proof.
  destruct (InvertedIndexFacts.run_wf NUM_SHARDS hash NUM_SHARDS_pos ops) as [Hwf _].
  destruct (getOrCreateBucket k (run ops)) as [b s1] eqn:Hg.
  destruct (InvertedIndexFacts.getOrCreateBucket_spec NUM_SHARDS hash NUM_SHARDS_pos _ _ _ _ Hwf Hg)
    as (_ & Hb & Hvs & Hframe & _).
  simpl. split.
  - intros k'. destruct (decide (k' = k)) as [->|Hne]; [|by apply Hframe].
    unfold InvertedIndex.search at 1. by rewrite Hb.
  - unfold InvertedIndex.getOrCreateBucket at 1. by rewrite Hb.
Qed.

End extras.

Lemma X_hash_search_refines_map_witness :
  InvertedIndex.search 4 str_hash "k"
    (InvertedIndex.run 4 str_hash
       [InvertedIndex.Insert "k" "v"; InvertedIndex.Insert "k" "w";
        InvertedIndex.RemoveValue "k" "v"])
  = hash_holds [InvertedIndex.Insert "k" "v"; InvertedIndex.Insert "k" "w";
                InvertedIndex.RemoveValue "k" "v"] "k" ∧
  (InvertedIndex.present 4 str_hash "k"
     (InvertedIndex.run 4 str_hash
        [InvertedIndex.Insert "k" "v"; InvertedIndex.Insert "k" "w";
         InvertedIndex.RemoveValue "k" "v"])
   ↔ hash_holds [InvertedIndex.Insert "k" "v"; InvertedIndex.Insert "k" "w";
                 InvertedIndex.RemoveValue "k" "v"] "k" ≠ (∅ : gset string)).
Proof. apply (X_hash_search_refines_map 4 str_hash). lia. Defined.

Lemma X_hash_remove_key_witness :
  ((InvertedIndex.remove 4 str_hash "k"
      (InvertedIndex.run 4 str_hash [InvertedIndex.Insert "k" "v"])).1 = true
   ↔ InvertedIndex.search 4 str_hash "k"
       (InvertedIndex.run 4 str_hash [InvertedIndex.Insert "k" "v"]) ≠ ∅) ∧
  ¬ InvertedIndex.present 4 str_hash "k"
      (InvertedIndex.remove 4 str_hash "k"
         (InvertedIndex.run 4 str_hash [InvertedIndex.Insert "k" "v"])).2 ∧
  InvertedIndex.search 4 str_hash "k"
    (InvertedIndex.remove 4 str_hash "k"
       (InvertedIndex.run 4 str_hash [InvertedIndex.Insert "k" "v"])).2 = ∅ ∧
  (∀ k', k' ≠ "k" →
     InvertedIndex.search 4 str_hash k'
       (InvertedIndex.remove 4 str_hash "k"
          (InvertedIndex.run 4 str_hash [InvertedIndex.Insert "k" "v"])).2
     = InvertedIndex.search 4 str_hash k'
         (InvertedIndex.run 4 str_hash [InvertedIndex.Insert "k" "v"])).
Proof. apply (X_hash_remove_key 4 str_hash). lia. Defined.

Lemma X_hash_shard_layout_witness :
  length (InvertedIndex.shards
            (InvertedIndex.run 4 str_hash [InvertedIndex.Insert "k" "v"])) = 4 ∧
  (∀ i sh k b,
     InvertedIndex.shards (InvertedIndex.run 4 str_hash [InvertedIndex.Insert "k" "v"]) !! i
       = Some sh → sh !! k = Some b →
     i = str_hash k mod 4 ∧
     is_Some (InvertedIndex.buckets
                (InvertedIndex.run 4 str_hash [InvertedIndex.Insert "k" "v"]) !! b)) ∧
  (∀ i sh k b i' sh' k',
     InvertedIndex.shards (InvertedIndex.run 4 str_hash [InvertedIndex.Insert "k" "v"]) !! i
       = Some sh → sh !! k = Some b →
     InvertedIndex.shards (InvertedIndex.run 4 str_hash [InvertedIndex.Insert "k" "v"]) !! i'
       = Some sh' → sh' !! k' = Some b → k = k').
Proof. apply (X_hash_shard_layout 4 str_hash). lia. Defined.

Lemma X_hash_getOrCreateBucket_again_witness :
  (∀ k', InvertedIndex.search 4 str_hash k'
           (InvertedIndex.getOrCreateBucket 4 str_hash "k"
              (InvertedIndex.run 4 str_hash [InvertedIndex.Insert "j" "v"])).2
         = InvertedIndex.search 4 str_hash k'
             (InvertedIndex.run 4 str_hash [InvertedIndex.Insert "j" "v"])) ∧
  InvertedIndex.getOrCreateBucket 4 str_hash "k"
    (InvertedIndex.getOrCreateBucket 4 str_hash "k"
       (InvertedIndex.run 4 str_hash [InvertedIndex.Insert "j" "v"])).2
  = InvertedIndex.getOrCreateBucket 4 str_hash "k"
      (InvertedIndex.run 4 str_hash [InvertedIndex.Insert "j" "v"]).
Proof. apply (X_hash_getOrCreateBucket_again 4 str_hash). lia. Defined.

End HashIndexExtras.

From Stdlib Require Import ZArith.
From stdpp Require Import base gmap sets list strings sorting.

(** * More about the lock-free skip list *)

Module SkipListExtras.
Import Examples MoreExamples Contents KeyOrderFacts LockFreeSkipListInv.

(** ** [random_level] *)

Local Arguments Nat.min : simpl never.

Lemma random_level_from_exact coins : ∀ lvl : nat,
  lvl ≤ LockFreeSkipList.MAX_LEVEL →
  (LockFreeSkipList.random_level_from coins lvl).1
  = Nat.min LockFreeSkipList.MAX_LEVEL (lvl + leading coins).
Proof.
  induction coins as [|c coins IH]; intros lvl Hl; simpl.
  - unfold LockFreeSkipList.MAX_LEVEL in *. lia.
  - destruct c; simpl; [|unfold LockFreeSkipList.MAX_LEVEL in *; lia].
    case_bool_decide as Hlt; simpl.
    + rewrite IH by (unfold LockFreeSkipList.MAX_LEVEL in *; lia).
      unfold LockFreeSkipList.MAX_LEVEL in *. lia.
    + unfold LockFreeSkipList.MAX_LEVEL in *. lia.
Qed.

(** [random_level] gives one more than the number of leading 1 draws,
    capped at [MAX_LEVEL]; so a level between 1 and [MAX_LEVEL] whatever
    the draws. *)
Theorem X_random_level_exact (coins : list bool) :
  (LockFreeSkipList.random_level coins).1
  = Nat.min LockFreeSkipList.MAX_LEVEL (S (leading coins)) ∧
  1 ≤ (LockFreeSkipList.random_level coins).1 ≤ LockFreeSkipList.MAX_LEVEL.
Proof.
  assert ((LockFreeSkipList.random_level coins).1
          = Nat.min LockFreeSkipList.MAX_LEVEL (S (leading coins))) as Heq.
  { unfold LockFreeSkipList.random_level. rewrite random_level_from_exact.
    - done.
    - unfold LockFreeSkipList.MAX_LEVEL. lia. }
  split; [done|]. rewrite Heq. unfold LockFreeSkipList.MAX_LEVEL. lia.
Qed.

(** ** Pointer marking on words *)

Lemma testbit_one (n : Z) : (0 ≤ n)%Z → Z.testbit 1 n = (n =? 0)%Z.
Proof.
  intros Hn. change 1%Z with (Z.ones 1). rewrite Z.testbit_ones_nonneg by lia.
  destruct (Z.ltb_spec n 1), (Z.eqb_spec n 0); lia || done.
Qed.

Lemma testbit_mask (n : Z) :
  (0 ≤ n)%Z →
  Z.testbit (Z.lxor (PointerWords.WORD - 1) 1) n = ((0 <? n) && (n <? 64))%Z.
Proof.
  intros Hn. rewrite Z.lxor_spec, testbit_one by done.
  change (PointerWords.WORD - 1)%Z with (Z.ones 64).
  rewrite Z.testbit_ones_nonneg by lia.
  destruct (Z.ltb_spec n 64), (Z.eqb_spec n 0), (Z.ltb_spec 0 n); simpl; lia || done.
Qed.

Lemma testbit_high (w n : Z) :
  (0 ≤ w < PointerWords.WORD)%Z → (64 ≤ n)%Z → Z.testbit w n = false.
Proof.
  intros Hw Hn. rewrite <-(Z.mod_small w (2 ^ 64)) by done.
  apply Z.mod_pow2_bits_high. lia.
Qed.

Lemma unmark_aligned (w : Z) :
  PointerWords.aligned w → PointerWords.get_unmarked_ref w = w.
Proof.
  intros [Hw H0]. unfold PointerWords.get_unmarked_ref.
  apply Z.bits_inj'. intros n Hn. rewrite Z.land_spec, testbit_mask by done.
  destruct (Z.ltb_spec 0 n), (Z.ltb_spec n 64); simpl; rewrite ?andb_true_r, ?andb_false_r.
  - done.
  - symmetry. apply testbit_high; [done|lia].
  - assert (n = 0%Z) as -> by lia. by rewrite H0.
  - lia.
Qed.

Lemma unmark_mark (w : Z) :
  PointerWords.get_unmarked_ref (PointerWords.get_marked_ref w)
  = PointerWords.get_unmarked_ref w.
Proof.
  unfold PointerWords.get_unmarked_ref, PointerWords.get_marked_ref.
  apply Z.bits_inj'. intros n Hn.
  rewrite !Z.land_spec, Z.lor_spec, testbit_mask, testbit_one by done.
  destruct (Z.ltb_spec 0 n), (Z.eqb_spec n 0); simpl; try lia;
    by rewrite ?orb_false_r, ?andb_false_r.
Qed.

Lemma is_marked_testbit (w : Z) : PointerWords.is_marked w = Z.testbit w 0.
Proof.
  unfold PointerWords.is_marked. change 1%Z with (Z.ones 1).
  rewrite Z.land_ones by lia. change (2 ^ 1)%Z with 2%Z.
  rewrite <-(Z.bit0_mod w). by destruct (Z.testbit w 0).
Qed.

(** Marking loses nothing on a pointer whose low bit is clear: the
    pointer itself is not marked, its marked form is, unmarking gives
    the pointer back from either, marking twice is marking once, and a
    marked pointer still fits the word. *)
Theorem X_pointer_marking_round_trip (w : Z) :
  PointerWords.aligned w →
  PointerWords.is_marked w = false ∧
  PointerWords.is_marked (PointerWords.get_marked_ref w) = true ∧
  PointerWords.get_unmarked_ref (PointerWords.get_marked_ref w) = w ∧
  PointerWords.get_unmarked_ref w = w ∧
  PointerWords.get_marked_ref (PointerWords.get_marked_ref w)
    = PointerWords.get_marked_ref w ∧
  (0 ≤ PointerWords.get_marked_ref w < PointerWords.WORD)%Z ∧
  PointerWords.decode w = (w, false) ∧
  PointerWords.decode (PointerWords.get_marked_ref w) = (w, true).
Proof.
  intros Hal. pose proof Hal as [Hw H0].
  assert (PointerWords.is_marked w = false) as Hm by by rewrite is_marked_testbit.
  assert (PointerWords.is_marked (PointerWords.get_marked_ref w) = true) as Hm'.
  { rewrite is_marked_testbit. unfold PointerWords.get_marked_ref.
    rewrite Z.lor_spec, testbit_one by lia. by rewrite orb_true_r. }
  assert (PointerWords.get_unmarked_ref (PointerWords.get_marked_ref w) = w) as Hu.
  { rewrite unmark_mark. by apply unmark_aligned. }
  assert (0 ≤ PointerWords.get_marked_ref w < PointerWords.WORD)%Z as Hfit.
  { unfold PointerWords.get_marked_ref. split.
    - apply Z.lor_nonneg. lia.
    - assert (Z.lor w 1 = Z.lor w 1 mod 2 ^ 64)%Z as Heq.
      { apply Z.bits_inj'. intros n Hn.
        destruct (Z.ltb_spec n 64).
        - rewrite Z.mod_pow2_bits_low by lia. done.
        - rewrite Z.mod_pow2_bits_high by lia.
          rewrite Z.lor_spec, testbit_one, (testbit_high w n) by (done || lia).
          destruct (Z.eqb_spec n 0); [lia|done]. }
      rewrite Heq. apply Z.mod_pos_bound. done. }
  assert (PointerWords.get_marked_ref (PointerWords.get_marked_ref w)
          = PointerWords.get_marked_ref w) as Hidem.
  { unfold PointerWords.get_marked_ref. by rewrite <-Z.lor_assoc, Z.lor_diag. }
  assert (PointerWords.decode w = (w, false)) as Hd.
  { unfold PointerWords.decode. by rewrite unmark_aligned, Hm. }
  assert (PointerWords.decode (PointerWords.get_marked_ref w) = (w, true)) as Hd'.
  { unfold PointerWords.decode. by rewrite Hu, Hm'. }
  pose proof (unmark_aligned w Hal) as Hu0.
  repeat split; done || apply Hfit.
Qed.

Section extras.
Context {K V : Type} `{EqDecision K, Inhabited K, KeyOrderLaws K, Countable V}.

Local Abbreviation state := (LockFreeSkipList.t (K:=K) (V:=V)).
Local Abbreviation empty := (LockFreeSkipList.empty (K:=K) (V:=V)).
Local Abbreviation op := (LockFreeSkipList.op (K:=K) (V:=V)).

(** ** What the list holds *)

Lemma step_model o (s : state) chains :
  inv s chains →
  ∃ s' chains', LockFreeSkipList.step o s = Some s' ∧ inv s' chains' ∧
                ∀ k, model s' chains' k = skip_apply k (model s chains k) o.
Proof.
  intros Hinv. destruct o as [k' v coins|k'|k']; simpl.
  - destruct (LockFreeSkipListOps.sl_insert_spec k' v coins s chains Hinv)
      as (s' & chains' & -> & Hinv' & _ & _ & Hk & Hother).
    exists s', chains'. split_and!; try done.
    intros k. case_decide as Hd; [by subst|]. apply Hother. congruence.
  - destruct (LockFreeSkipListOps.sl_remove_spec k' s chains Hinv)
      as (b & s' & chains' & -> & Hinv' & _ & _ & Hk & Hother & _).
    exists s', chains'. split_and!; try done.
    intros k. case_decide as Hd; [by subst|]. apply Hother. congruence.
  - destruct (LockFreeSkipListOps.sl_search_spec k' s chains Hinv)
      as (s' & chains' & -> & Hinv' & _ & _ & Hsame).
    by exists s', chains'.
Qed.

Lemma run_model (ops : list op) : ∀ (s : state) chains,
  inv s chains →
  ∃ s' chains', LockFreeSkipList.run ops s = Some s' ∧ inv s' chains' ∧
                ∀ k, model s' chains' k = foldl (skip_apply k) (model s chains k) ops.
Proof.
  induction ops as [|o ops IH]; intros s chains Hinv; simpl.
  - by exists s, chains.
  - destruct (step_model o s chains Hinv) as (s1 & chains1 & -> & Hinv1 & Hm1). simpl.
    destruct (IH s1 chains1 Hinv1) as (s' & chains' & Hrun & Hinv' & Hm).
    exists s', chains'. split_and!; try done. intros k. by rewrite Hm, Hm1.
Qed.

Lemma run_empty_model (ops : list op) :
  ∃ (s : state) chains, LockFreeSkipList.run ops empty = Some s ∧ inv s chains ∧
                        ∀ k, model s chains k = skip_holds ops k.
Proof.
  destruct (run_model ops empty _ LockFreeSkipListRuns.sl_empty_inv)
    as (s & chains & Hrun & Hinv & Hm).
  exists s, chains. split_and!; try done.
Qed.

(** The skip list refines a map from keys to sets: after any sequence of
    operations [search(k)] gives what the operations on [k] leave, an
    insert adding its value and [remove(k)] clearing the set, whatever
    levels the inserts drew.  So an [insert(k, v)] after a [remove(k)]
    starts from the empty set. *)
Theorem X_skip_search_refines_map (ops : list op) (k : K) :
  ∃ (s : state) s',
    LockFreeSkipList.run ops empty = Some s ∧
    LockFreeSkipList.search k s = Some (skip_holds ops k, s').
Proof.
  destruct (run_empty_model ops) as (s & chains & Hrun & Hinv & Hm).
  destruct (LockFreeSkipListOps.sl_search_spec k s chains Hinv) as (s' & _ & Hs & _).
  exists s, s'. split; [done|]. by rewrite Hs, Hm.
Qed.

(** ** The levels *)

Lemma shown_keys_increasing (h : gmap loc (LockFreeSkipList.Node (K:=K) (V:=V))) l :
  StronglySorted (node_lt h) l → increasing (shown h <$> l).*1.
Proof.
  unfold increasing. induction 1 as [|x l Hs IH Hall]; [constructor|].
  rewrite !fmap_cons. constructor; [done|].
  apply Forall_forall. intros kb Hkb.
  apply list_elem_of_fmap in Hkb as (e & -> & He).
  apply list_elem_of_fmap in He as (y & -> & Hy).
  eapply Forall_forall in Hall as (nx & ny & Hx & Hy' & Hlt); [|done].
  unfold shown. by rewrite Hx, Hy'.
Qed.

(** After any sequence of operations that ran one at a time, none
    overlapping another: on every level the walk of [display] ends, and
    the keys it meets, those of marked nodes included, are strictly
    increasing. *)
Theorem X_skip_every_level_increasing (ops : list op) (i : nat) :
  i < LockFreeSkipList.MAX_LEVEL →
  ∃ (s : state) d,
    LockFreeSkipList.run ops empty = Some s ∧
    LockFreeSkipList.display_level i s = Some d ∧
    increasing d.*1.
Proof.
  intros Hi.
  destruct (LockFreeSkipListRuns.run_empty_inv ops) as (s & chains & Hrun & Hinv).
  pose proof Hinv as [Hsh _].
  destruct (lookup_lt_is_Some_2 chains i) as [l Hl].
  { by rewrite (shape_length _ _ _ _ Hsh). }
  exists s, (shown (LockFreeSkipList.nodes s) <$> l). split_and!; try done.
  - by apply (LockFreeSkipListRuns.display_level_spec s chains i l).
  - apply shown_keys_increasing.
    by destruct (shape_chain _ _ _ _ Hsh _ _ Hl) as (_ & _ & _ & _ & ?).
Qed.

(** A node that is not marked and shows on a level shows on every level
    below it. *)
Theorem X_skip_levels_nested (ops : list op) (i j : nat) :
  i ≤ j → j < LockFreeSkipList.MAX_LEVEL →
  ∃ (s : state) di dj,
    LockFreeSkipList.run ops empty = Some s ∧
    LockFreeSkipList.display_level i s = Some di ∧
    LockFreeSkipList.display_level j s = Some dj ∧
    ∀ k, (k, false) ∈ dj → (k, false) ∈ di.
Proof.
  intros Hij Hj.
  destruct (LockFreeSkipListRuns.run_empty_inv ops) as (s & chains & Hrun & Hinv).
  pose proof Hinv as [Hsh Hlk].
  destruct (lookup_lt_is_Some_2 chains i) as [li Hli].
  { rewrite (shape_length _ _ _ _ Hsh). lia. }
  destruct (lookup_lt_is_Some_2 chains j) as [lj Hlj].
  { by rewrite (shape_length _ _ _ _ Hsh). }
  exists s, (shown (LockFreeSkipList.nodes s) <$> li), (shown (LockFreeSkipList.nodes s) <$> lj).
  split_and!; try done.
  - by apply (LockFreeSkipListRuns.display_level_spec s chains i li).
  - by apply (LockFreeSkipListRuns.display_level_spec s chains j lj).
  - intros k Hk. apply list_elem_of_fmap in Hk as (x & Hx & Hin).
    apply list_elem_of_fmap. exists x. split; [done|].
    destruct (shape_chain _ _ _ _ Hsh _ _ Hlj) as (_ & Hhd & Htl & Hlv & _).
    eapply Forall_forall in Hlv as (nd & Hnd & Hlt); [|done].
    unfold shown in Hx. rewrite Hnd in Hx. injection Hx as _ Hm.
    eapply (Hlk x nd i li); try done.
    + intros ->. done.
    + intros ->. done.
    + lia.
Qed.

(** ** Nodes and their values *)

Lemma same_store_values_ok (s s' : state) :
  same_store (LockFreeSkipList.nodes s) (LockFreeSkipList.nodes s') →
  LockFreeSkipList.head s' = LockFreeSkipList.head s →
  LockFreeSkipList.tail s' = LockFreeSkipList.tail s →
  values_ok s → values_ok s'.
Proof.
  intros Hs Hh Ht Hok x nd' Hx' Hxh Hxt. specialize (Hs x). rewrite Hx' in Hs.
  destruct (LockFreeSkipList.nodes s !! x) as [nd|] eqn:Hx; [|done].
  destruct Hs as (_ & -> & _). apply (Hok x nd Hx); congruence.
Qed.


Lemma grown_values_ok k v (s s' : state) :
  grown k v (LockFreeSkipList.nodes s) (LockFreeSkipList.nodes s') →
  LockFreeSkipList.head s' = LockFreeSkipList.head s →
  LockFreeSkipList.tail s' = LockFreeSkipList.tail s →
  values_ok s → values_ok s'.
Proof.
  intros [Hold Hnew] Hh Ht Hok x nd' Hx' Hxh Hxt.
  destruct (LockFreeSkipList.nodes s !! x) as [nd|] eqn:Hx.
  - destruct (Hold x nd Hx) as (nd'' & Hx'' & _ & Hsub).
    assert (nd'' = nd') as -> by congruence.
    pose proof (Hok x nd Hx) as Hne. intros Hemp. apply Hne; [congruence..|].
    set_solver.
  - destruct (Hnew x nd' Hx' Hx) as (_ & _ & ->). set_solver.
Qed.


Lemma empty_values_ok : values_ok empty.
Proof.
  unfold LockFreeSkipList.empty, LockFreeSkipList.create_node. cbv beta iota zeta.
  set (n0 := LockFreeSkipList.mkNode inhabitant ∅ LockFreeSkipList.MAX_LEVEL
               (replicate LockFreeSkipList.MAX_LEVEL LockFreeSkipList.nullptr)
             : LockFreeSkipList.Node (K:=K) (V:=V)).
  set (hd := fresh (dom (∅ : gmap loc (LockFreeSkipList.Node (K:=K) (V:=V))))).
  set (tl := fresh (dom (<[hd := n0]> (∅ : gmap loc (LockFreeSkipList.Node (K:=K) (V:=V)))))).
  assert (hd ≠ tl) as Hne.
  { intros Heq.
    pose proof (is_fresh (dom (<[hd := n0]> (∅ : gmap loc (LockFreeSkipList.Node (K:=K) (V:=V))))))
      as Hf.
    fold tl in Hf. rewrite <-Heq in Hf. apply Hf. rewrite dom_insert. set_solver. }
  unfold LockFreeSkipList.link_head. rewrite lookup_insert_ne by done.
  rewrite lookup_insert_eq. cbv beta iota.
  intros x nd Hx Hxh Hxt.
  cbn [LockFreeSkipList.nodes LockFreeSkipList.head LockFreeSkipList.tail] in *.
  rewrite !lookup_insert_ne in Hx by done. by rewrite lookup_empty in Hx.
Qed.

Lemma step_full o (s : state) chains :
  inv s chains → values_ok s →
  ∃ s' chains', LockFreeSkipList.step o s = Some s' ∧ inv s' chains' ∧ values_ok s' ∧
                ∀ k, model s' chains' k = skip_apply k (model s chains k) o.
Proof.
  intros Hinv Hok. destruct o as [k' v coins|k'|k']; simpl.
  - destruct (LockFreeSkipListOps.sl_insert_full k' v coins s chains Hinv)
      as (s' & chains' & -> & Hinv' & Hh & Ht & Hk & Hother & Hgrow & _).
    exists s', chains'. split_and!; try done.
    + by eapply grown_values_ok.
    + intros k. case_decide as Hd; [by subst|]. apply Hother. congruence.
  - destruct (LockFreeSkipListOps.sl_remove_full k' s chains Hinv)
      as (b & s' & chains' & -> & Hinv' & Hh & Ht & Hk & Hother & _ & Hst & _).
    exists s', chains'. split_and!; try done.
    + by eapply same_store_values_ok.
    + intros k. case_decide as Hd; [by subst|]. apply Hother. congruence.
  - destruct (LockFreeSkipListOps.sl_search_full k' s chains Hinv)
      as (s' & chains' & -> & Hinv' & Hh & Ht & Hsame & Hst).
    exists s', chains'. split_and!; try done. by eapply same_store_values_ok.
Qed.

Lemma run_full (ops : list op) : ∀ (s : state) chains,
  inv s chains → values_ok s →
  ∃ s' chains', LockFreeSkipList.run ops s = Some s' ∧ inv s' chains' ∧ values_ok s' ∧
                ∀ k, model s' chains' k = foldl (skip_apply k) (model s chains k) ops.
Proof.
  induction ops as [|o ops IH]; intros s chains Hinv Hok; simpl.
  - by exists s, chains.
  - destruct (step_full o s chains Hinv Hok) as (s1 & chains1 & -> & Hinv1 & Hok1 & Hm1).
    simpl. destruct (IH s1 chains1 Hinv1 Hok1) as (s' & chains' & Hrun & Hinv' & Hok' & Hm).
    exists s', chains'. split_and!; try done. intros k. by rewrite Hm, Hm1.
Qed.

Lemma run_empty_full (ops : list op) :
  ∃ (s : state) chains,
    LockFreeSkipList.run ops empty = Some s ∧ inv s chains ∧ values_ok s ∧
    ∀ k, model s chains k = skip_holds ops k.
Proof.
  destruct (run_full ops empty _ LockFreeSkipListRuns.sl_empty_inv empty_values_ok)
    as (s & chains & Hrun & Hinv & Hok & Hm).
  exists s, chains. split_and!; try done.
Qed.

(** [remove(k)] answers true exactly when [search(k)] gives a set that
    is not empty. *)
Theorem X_skip_remove_result (ops : list op) (k : K) :
  ∃ (s : state) r s1 b s2,
    LockFreeSkipList.run ops empty = Some s ∧
    LockFreeSkipList.search k s = Some (r, s1) ∧
    LockFreeSkipList.remove k s = Some (b, s2) ∧
    (b = true ↔ r ≠ ∅).
Proof.
  destruct (run_empty_full ops) as (s & chains & Hrun & Hinv & Hok & _).
  destruct (LockFreeSkipListOps.sl_search_spec k s chains Hinv) as (s1 & _ & Hs & _).
  destruct (LockFreeSkipListOps.sl_remove_full k s chains Hinv)
    as (b & s2 & _ & Hrem & _ & _ & _ & _ & _ & Hfalse & _ & Htrue).
  exists s, (model s chains k), s1, b, s2. split_and!; try done.
  split.
  - intros Hb. destruct (Htrue Hb) as (x & nd & Hx & Hxh & Hxt & ->). by eapply Hok.
  - intros Hne. destruct b; [done|]. destruct Hne. by apply Hfalse.
Qed.


End extras.


Lemma X_pointer_marking_round_trip_witness :
  PointerWords.is_marked 4096 = false ∧
  PointerWords.is_marked (PointerWords.get_marked_ref 4096) = true ∧
  PointerWords.get_unmarked_ref (PointerWords.get_marked_ref 4096) = 4096%Z ∧
  PointerWords.get_unmarked_ref 4096 = 4096%Z ∧
  PointerWords.get_marked_ref (PointerWords.get_marked_ref 4096)
    = PointerWords.get_marked_ref 4096 ∧
  (0 ≤ PointerWords.get_marked_ref 4096 < PointerWords.WORD)%Z ∧
  PointerWords.decode 4096 = (4096%Z, false) ∧
  PointerWords.decode (PointerWords.get_marked_ref 4096) = (4096%Z, true).
Proof.
  apply (X_pointer_marking_round_trip 4096). split; [|reflexivity].
  unfold PointerWords.WORD. lia.
Defined.

Lemma X_skip_search_refines_map_witness :
  ∃ (s s' : LockFreeSkipList.t (K:=string) (V:=string)),
    LockFreeSkipList.run skip_ops LockFreeSkipList.empty = Some s ∧
    LockFreeSkipList.search "b" s = Some (skip_holds skip_ops "b", s').
Proof. apply (X_skip_search_refines_map skip_ops "b"). Defined.

Lemma X_skip_every_level_increasing_witness :
  1 < LockFreeSkipList.MAX_LEVEL ∧
  ∃ (s : LockFreeSkipList.t (K:=string) (V:=string)) d,
    LockFreeSkipList.run two_level_ops LockFreeSkipList.empty = Some s ∧
    LockFreeSkipList.display_level 1 s = Some d ∧
    increasing d.*1.
Proof.
  assert (1 < LockFreeSkipList.MAX_LEVEL) as Hlt by (unfold LockFreeSkipList.MAX_LEVEL; lia).
  split; [exact Hlt|]. apply (X_skip_every_level_increasing two_level_ops 1 Hlt).
Defined.

Lemma X_skip_levels_nested_witness :
  ∃ (s : LockFreeSkipList.t (K:=string) (V:=string)) di dj,
    LockFreeSkipList.run skip_ops LockFreeSkipList.empty = Some s ∧
    LockFreeSkipList.display_level 0 s = Some di ∧
    LockFreeSkipList.display_level 1 s = Some dj ∧
    ∀ k, (k, false) ∈ dj → (k, false) ∈ di.
Proof.
  apply (X_skip_levels_nested skip_ops 0 1); [lia|].
  unfold LockFreeSkipList.MAX_LEVEL. lia.
Defined.

Lemma X_skip_remove_result_witness :
  ∃ (s : LockFreeSkipList.t (K:=string) (V:=string)) r s1 b s2,
    LockFreeSkipList.run skip_ops LockFreeSkipList.empty = Some s ∧
    LockFreeSkipList.search "a" s = Some (r, s1) ∧
    LockFreeSkipList.remove "a" s = Some (b, s2) ∧
    (b = true ↔ r ≠ ∅).
Proof. apply (X_skip_remove_result skip_ops "a"). Defined.



End SkipListExtras.

From stdpp Require Import base gmap sets list strings sorting.

(** * Further properties of the concurrent B+ tree *)

Module BPlusTreeExtras.
Import Examples MoreExamples KeyOrderFacts BPlusTreeInv.

Section splits.
Context {K V : Type} `{EqDecision K, Countable V}.

Local Abbreviation Node := (BPlusTree.Node (K:=K) (V:=V)).
Implicit Types (h : gmap loc Node) (n : Node).

Local Arguments Nat.div : simpl never.

(** [split_leaf] on a leaf that holds at least one key, with as many value
    sets as keys: a new node is allocated for the sibling; the leaf keeps
    the first [total / 2] keys and the sibling takes the rest, so that the
    keys and the values of the two halves, in this order, are the keys
    and the values the leaf had; the key handed to the parent is the
    first key of the sibling; the leaf now points to the sibling, which
    points to where the leaf pointed; no other node is touched. *)
Theorem X_bplus_split_leaf_keeps_entries h (leaf : loc) n :
  h !! leaf = Some n →
  0 < length (BPlusTree.keys n) →
  length (BPlusTree.values n) = length (BPlusTree.keys n) →
  ∃ h' sib pk l r,
    BPlusTree.split_leaf leaf h = Some (h', Some (sib, pk)) ∧
    h !! sib = None ∧ h' !! leaf = Some l ∧ h' !! sib = Some r ∧
    BPlusTree.keys l ++ BPlusTree.keys r = BPlusTree.keys n ∧
    BPlusTree.values l ++ BPlusTree.values r = BPlusTree.values n ∧
    length (BPlusTree.keys l) = length (BPlusTree.keys n) / 2 ∧
    length (BPlusTree.values l) = length (BPlusTree.keys l) ∧
    length (BPlusTree.values r) = length (BPlusTree.keys r) ∧
    BPlusTree.keys r !! 0 = Some pk ∧
    BPlusTree.next l = Some sib ∧ BPlusTree.next r = BPlusTree.next n ∧
    BPlusTree.is_leaf r = true ∧
    ∀ y, y ≠ leaf → y ≠ sib → h' !! y = h !! y.
Proof.
  intros Hn Hpos Hlen.
  set (mid := length (BPlusTree.keys n) / 2).
  assert (mid < length (BPlusTree.keys n)) as Hmid
    by (apply Nat.div_lt; lia).
  assert (is_Some (drop mid (BPlusTree.keys n) !! 0)) as [pk Hpk].
  { apply lookup_lt_is_Some. rewrite length_drop. lia. }
  assert (fresh (dom h) ≠ leaf) as Hne.
  { intros Heq. apply (is_fresh (dom h)). rewrite Heq. apply elem_of_dom. eauto. }
  eexists _, (fresh (dom h)), pk, _, _.
  split.
  { unfold BPlusTree.split_leaf, vec_from, vec_shrink, BPlusTree.alloc.
    rewrite Hn. simpl. fold mid.
    rewrite !decide_True by lia. simpl.
    rewrite head_lookup, Hpk. simpl. reflexivity. }
  split; [apply not_elem_of_dom, is_fresh|].
  split; [apply lookup_insert_eq|].
  split; [rewrite lookup_insert_ne by done; apply lookup_insert_eq|].
  simpl. split_and!; try done.
  - apply take_drop.
  - apply take_drop.
  - rewrite length_take. lia.
  - rewrite !length_take. lia.
  - rewrite !length_drop. lia.
  - intros y Hy1 Hy2. by rewrite !lookup_insert_ne.
Qed.

(** [split_internal] on an internal node with at least one key and one
    more child than keys: a new node is allocated for the sibling; the
    key at position [total / 2] moves up to the parent and stays in
    neither half, the keys before it stay, the keys after it go to the
    sibling; the children are divided so that each half again has one
    more child than keys, and none is lost; no other node is touched. *)
Theorem X_bplus_split_internal_keeps_children h (x : loc) n :
  h !! x = Some n →
  0 < length (BPlusTree.keys n) →
  length (BPlusTree.children n) = S (length (BPlusTree.keys n)) →
  ∃ h' sib pk l r,
    BPlusTree.split_internal x h = Some (h', Some (sib, pk)) ∧
    h !! sib = None ∧ h' !! x = Some l ∧ h' !! sib = Some r ∧
    BPlusTree.keys l ++ pk :: BPlusTree.keys r = BPlusTree.keys n ∧
    BPlusTree.children l ++ BPlusTree.children r = BPlusTree.children n ∧
    length (BPlusTree.keys l) = length (BPlusTree.keys n) / 2 ∧
    length (BPlusTree.children l) = S (length (BPlusTree.keys l)) ∧
    length (BPlusTree.children r) = S (length (BPlusTree.keys r)) ∧
    BPlusTree.is_leaf r = false ∧
    ∀ y, y ≠ x → y ≠ sib → h' !! y = h !! y.
Proof.
  intros Hn Hpos Hlen.
  set (mid := length (BPlusTree.keys n) / 2).
  assert (mid < length (BPlusTree.keys n)) as Hmid
    by (apply Nat.div_lt; lia).
  destruct (lookup_lt_is_Some_2 (BPlusTree.keys n) mid Hmid) as [pk Hpk].
  assert (fresh (dom h) ≠ x) as Hne.
  { intros Heq. apply (is_fresh (dom h)). rewrite Heq. apply elem_of_dom. eauto. }
  eexists _, (fresh (dom h)), pk, _, _.
  split.
  { unfold BPlusTree.split_internal, vec_from, vec_shrink, BPlusTree.alloc.
    rewrite Hn. simpl. fold mid. rewrite Hpk. simpl.
    rewrite !decide_True by lia. simpl. reflexivity. }
  split; [apply not_elem_of_dom, is_fresh|].
  split; [apply lookup_insert_eq|].
  split; [rewrite lookup_insert_ne by done; apply lookup_insert_eq|].
  simpl. split_and!; try done.
  - rewrite <-(take_drop_middle _ _ _ Hpk) at 3.
    by replace (mid + 1) with (S mid) by lia.
  - apply take_drop.
  - rewrite length_take. lia.
  - rewrite !length_take. lia.
  - rewrite !length_drop. lia.
  - intros y Hy1 Hy2. by rewrite !lookup_insert_ne.
Qed.

End splits.

Section extras.
Context {K V : Type} `{EqDecision K, KeyOrderLaws K, Countable V}.
Variable ORDER : nat.

Local Abbreviation state := (BPlusTree.t (K:=K) (V:=V)).
Local Abbreviation empty := (BPlusTree.empty (K:=K) (V:=V)).

(** For a tree of order at least 1: any sequence of inserts into the
    empty tree runs to the end, however many splits it takes, and on the
    tree it builds [search(k)] returns exactly the values inserted under
    [k]: the empty set for a key never inserted, each value once however
    often it was inserted, and nothing that depends on the sequence in
    which the inserts came. *)
Theorem X_bplus_search_returns_inserted (ops : list (K * V)) (k : K) :
  0 < ORDER →
  ∃ (s : state) r,
    BPlusTree.run ORDER ops empty = Some s ∧
    BPlusTree.search k s = Some r ∧
    (∀ v, v ∈ r ↔ (k, v) ∈ ops) ∧
    (r = ∅ ↔ ∀ v, (k, v) ∉ ops).
Proof.
  intros _.
  destruct (BPlusTreeRuns.run_empty_spec ORDER ops) as (s & lvs & Hrun & Hinv & Hent).
  exists s, (values_of ops k).
  assert (∀ v, v ∈ values_of ops k ↔ (k, v) ∈ ops) as Hval
    by (intros v; apply BPlusTreeRuns.values_of_elem).
  split_and!; try done.
  - rewrite (BPlusTreeOps.bp_search_spec s lvs k Hinv), Hent.
    by rewrite BPlusTreeRuns.contents_get.
  - split.
    + intros Hr v Hv. apply Hval in Hv. set_solver.
    + intros Hno. apply set_eq. intros v. rewrite Hval. set_solver.
Qed.

(** When the leaf that [optimistic_insert] reaches is safe for insert,
    the insert is done in place: it succeeds, [insert] returns its
    result without the pessimistic pass, no node is allocated, the root
    is the same, every node other than that leaf is as it was, and
    [search] then finds the value added to what the key had. *)
Theorem X_bplus_optimistic_insert_in_place (ops : list (K * V)) (s : state)
    (key : K) (v : V) (leaf : loc) (n : BPlusTree.Node) :
  BPlusTree.run ORDER ops empty = Some s →
  BPlusTree.find_leaf (BPlusTree.fuel_of s) (BPlusTree.heap s) (BPlusTree.root s) key
    = Some leaf →
  BPlusTree.heap s !! leaf = Some n →
  BPlusTree.is_safe_for_insert ORDER n = true →
  ∃ s', BPlusTree.optimistic_insert ORDER key v s = Some (true, s') ∧
        BPlusTree.insert ORDER key v s = Some (true, s') ∧
        BPlusTree.root s' = BPlusTree.root s ∧
        dom (BPlusTree.heap s') = dom (BPlusTree.heap s) ∧
        (∀ y, y ≠ leaf → BPlusTree.heap s' !! y = BPlusTree.heap s !! y) ∧
        BPlusTree.search key s' = Some ({[v]} ∪ default ∅ (BPlusTree.search key s)).
Proof.
  intros Hrun Hfind Hn Hsafe.
  destruct (BPlusTreeRuns.run_empty_spec ORDER ops) as (s0 & lvs & Hrun0 & Hinv & Hent).
  assert (s0 = s) as -> by congruence.
  pose proof Hinv as (d & fp & Hb & Hch).
  destruct (BPlusTreeOps.fuel_enough _ _ _ _ Hb) as [Hfuel _].
  destruct (BPlusTreeFacts.optimistic_insert_spec ORDER d s lvs fp key v _ Hb Hch Hfuel)
    as (x & nd & Hfind' & Hx & _ & Hopt).
  assert (x = leaf) as -> by congruence.
  assert (nd = n) as -> by congruence.
  rewrite Hsafe in Hopt.
  destruct Hopt as (s' & lvs' & fp' & Hopt & Hroot & Hdom & Hb' & Hch' & Hent').
  exists s'. split_and!; try done.
  - unfold BPlusTree.insert, BPlusTree.insert_fuel. by rewrite Hopt.
  - intros y Hy. revert Hopt. unfold BPlusTree.optimistic_insert_fuel.
    rewrite Hfind. simpl. rewrite Hn. simpl. rewrite Hsafe. simpl.
    destruct (BPlusTree.leaf_put key v n); simpl; [|done].
    intros [= <-]. simpl. by rewrite lookup_insert_ne.
  - assert (tree_inv s' lvs') as Hinv'.
    { by exists d, fp'. }
    rewrite (BPlusTreeOps.bp_search_spec s' lvs' key Hinv').
    rewrite (BPlusTreeOps.bp_search_spec s lvs key Hinv). simpl.
    rewrite Hent', Hent.
    rewrite BPlusTreeFacts.get_put by apply BPlusTreeRuns.contents_sorted.
    by rewrite decide_True.
Qed.

End extras.

Lemma X_bplus_split_leaf_keeps_entries_witness :
  ∃ h' sib pk l r,
    BPlusTree.split_leaf 1%positive five_key_leaf = Some (h', Some (sib, pk)) ∧
    five_key_leaf !! sib = None ∧ h' !! 1%positive = Some l ∧ h' !! sib = Some r ∧
    BPlusTree.keys l ++ BPlusTree.keys r = BPlusTree.keys five_key_node ∧
    BPlusTree.values l ++ BPlusTree.values r = BPlusTree.values five_key_node ∧
    length (BPlusTree.keys l) = length (BPlusTree.keys five_key_node) / 2 ∧
    length (BPlusTree.values l) = length (BPlusTree.keys l) ∧
    length (BPlusTree.values r) = length (BPlusTree.keys r) ∧
    BPlusTree.keys r !! 0 = Some pk ∧
    BPlusTree.next l = Some sib ∧ BPlusTree.next r = BPlusTree.next five_key_node ∧
    BPlusTree.is_leaf r = true ∧
    ∀ y, y ≠ 1%positive → y ≠ sib → h' !! y = five_key_leaf !! y.
Proof.
  apply (X_bplus_split_leaf_keeps_entries five_key_leaf 1%positive five_key_node);
    [vm_compute; reflexivity|simpl; lia|reflexivity].
Defined.

Lemma X_bplus_split_internal_keeps_children_witness :
  ∃ h' sib pk l r,
    BPlusTree.split_internal 1%positive four_key_internal = Some (h', Some (sib, pk)) ∧
    four_key_internal !! sib = None ∧ h' !! 1%positive = Some l ∧ h' !! sib = Some r ∧
    BPlusTree.keys l ++ pk :: BPlusTree.keys r = BPlusTree.keys four_key_node ∧
    BPlusTree.children l ++ BPlusTree.children r = BPlusTree.children four_key_node ∧
    length (BPlusTree.keys l) = length (BPlusTree.keys four_key_node) / 2 ∧
    length (BPlusTree.children l) = S (length (BPlusTree.keys l)) ∧
    length (BPlusTree.children r) = S (length (BPlusTree.keys r)) ∧
    BPlusTree.is_leaf r = false ∧
    ∀ y, y ≠ 1%positive → y ≠ sib → h' !! y = four_key_internal !! y.
Proof.
  apply (X_bplus_split_internal_keeps_children four_key_internal 1%positive four_key_node);
    [vm_compute; reflexivity|simpl; lia|reflexivity].
Defined.

Lemma X_bplus_search_returns_inserted_witness :
  ∃ (s : BPlusTree.t (K:=string) (V:=string)) r,
    BPlusTree.run 4 five_keys BPlusTree.empty = Some s ∧
    BPlusTree.search "03" s = Some r ∧
    (∀ v, v ∈ r ↔ ("03", v) ∈ five_keys) ∧
    (r = ∅ ↔ ∀ v, ("03", v) ∉ five_keys).
Proof.
  apply (X_bplus_search_returns_inserted 4 five_keys "03"). lia.
Defined.

Lemma X_bplus_optimistic_insert_in_place_witness :
  ∃ s', BPlusTree.optimistic_insert 4 "02" "b" one_key_tree = Some (true, s') ∧
        BPlusTree.insert 4 "02" "b" one_key_tree = Some (true, s') ∧
        BPlusTree.root s' = BPlusTree.root one_key_tree ∧
        dom (BPlusTree.heap s') = dom (BPlusTree.heap one_key_tree) ∧
        (∀ y, y ≠ 1%positive →
              BPlusTree.heap s' !! y = BPlusTree.heap one_key_tree !! y) ∧
        BPlusTree.search "02" s'
          = Some ({["b"]} ∪ default ∅ (BPlusTree.search "02" one_key_tree)).
Proof.
  apply (X_bplus_optimistic_insert_in_place 4 [("01", "a")] one_key_tree "02" "b" 1%positive
           (default (BPlusTree.new_node true) (BPlusTree.heap one_key_tree !! 1%positive)));
    vm_compute; reflexivity.
Defined.


End BPlusTreeExtras.

From stdpp Require Import base gmap sets list strings sorting.

(** * Node occupancy and balance in the B+ tree *)

Module BPlusTreeCapacity.
Import Examples KeyOrderFacts BPlusTree BPlusTreeInv BPlusTreeFacts BPlusTreeOps NodeCapacity.

Section capacity.
Context {K V : Type} `{EqDecision K, KeyOrderLaws K, Countable V}.
Variable ORDER : nat.

Local Abbreviation Node := (BPlusTree.Node (K:=K) (V:=V)).
Local Abbreviation leaf_abs := (leaf_abs (K:=K) (V:=V)).
Local Abbreviation state := (BPlusTree.t (K:=K) (V:=V)).
Implicit Types (h : gmap loc Node) (lvs : list leaf_abs) (fp : gset loc).
Implicit Types (lo hi : option K) (l c x : loc) (key k : K) (v : V) (s : state).

Local Arguments Nat.div : simpl never.
Local Arguments Nat.modulo : simpl never.

(** What [lia] needs to know about the two halves of [ORDER] and of
    [ORDER + 1]. *)
Lemma halves :
  ORDER = 2 * (ORDER / 2) + ORDER mod 2 ∧ ORDER mod 2 < 2 ∧
  ORDER + 1 = 2 * ((ORDER + 1) / 2) + (ORDER + 1) mod 2 ∧ (ORDER + 1) mod 2 < 2.
Proof.
  split_and!.
  - apply Nat.div_mod_eq.
  - apply Nat.mod_upper_bound. lia.
  - apply Nat.div_mod_eq.
  - apply Nat.mod_upper_bound. lia.
Qed.

Lemma max_internal_pos :
  1 ≤ ORDER → MAX_KEYS_INTERNAL ORDER = (Z.of_nat ORDER - 1)%Z.
Proof.
  intros Hord. unfold MAX_KEYS_INTERNAL, MAX_CHILDREN_INTERNAL, size_pred.
  rewrite decide_False by lia. done.
Qed.

Lemma capacity_ok_but x h : capacity_ok ORDER h → capacity_but ORDER x h.
Proof. intros Hok y nd Hy _. by eapply Hok. Qed.

Lemma capacity_insert x (nd : Node) h :
  capacity_but ORDER x h → fits ORDER nd → capacity_ok ORDER (<[x := nd]> h).
Proof.
  intros Hbut Hfit y ny Hy. destruct (decide (y = x)) as [->|Hne].
  - rewrite lookup_insert_eq in Hy. by injection Hy as <-.
  - rewrite lookup_insert_ne in Hy by done. by eapply Hbut.
Qed.

Lemma capacity_but_insert x (nd : Node) h :
  capacity_but ORDER x h → capacity_but ORDER x (<[x := nd]> h).
Proof.
  intros Hbut y ny Hy Hne. rewrite lookup_insert_ne in Hy by done. by eapply Hbut.
Qed.

Lemma half_weaken (E E' : gset loc) h : E ⊆ E' → half_ok ORDER E h → half_ok ORDER E' h.
Proof. intros Hsub Hok y nd Hy HE. eapply Hok; [done|set_solver]. Qed.

Lemma half_exempt (E : gset loc) x h :
  half_ok ORDER E h → half_ok ORDER (E ∖ {[x]} ∪ {[x]}) h.
Proof.
  apply half_weaken. intros y Hy. destruct (decide (y = x)); set_solver.
Qed.

Lemma half_insert (E : gset loc) x (nd : Node) h :
  half_ok ORDER (E ∪ {[x]}) h → (x ∉ E → half_full ORDER nd) →
  half_ok ORDER E (<[x := nd]> h).
Proof.
  intros Hok Hnd y ny Hy HE. destruct (decide (y = x)) as [->|Hne].
  - rewrite lookup_insert_eq in Hy. injection Hy as <-. by apply Hnd.
  - rewrite lookup_insert_ne in Hy by done. eapply Hok; [done|set_solver].
Qed.

Lemma leaf_put_shape key v (n n' : Node) :
  leaf_put key v n = Some n' →
  is_leaf n' = is_leaf n ∧ children n' = children n ∧
  length (keys n) ≤ length (keys n') ≤ S (length (keys n)) ∧
  (length (values n) = length (keys n) → length (values n') = length (keys n')).
Proof.
  unfold leaf_put, vec_insert. intros Hput.
  repeat (case_match || case_decide || simplify_option_eq); simpl;
    rewrite ?length_insert, ?length_app, ?length_cons, ?length_take, ?length_drop;
    split_and!; (done || lia).
Qed.

Lemma split_leaf_ok (E : gset loc) h x (n : Node) h' r :
  capacity_but ORDER x h → half_ok ORDER (E ∪ {[x]}) h →
  h !! x = Some n → is_leaf n = true →
  length (keys n) = S (MAX_KEYS_LEAF ORDER) → length (values n) = length (keys n) →
  1 ≤ ORDER →
  split_leaf x h = Some (h', r) →
  capacity_ok ORDER h' ∧ half_ok ORDER E h' ∧ is_Some r.
Proof.
  unfold MAX_KEYS_LEAF. intros Hbut Hhalf Hx Hleaf Hlen Hvals Hord Hsplit.
  unfold split_leaf, vec_from, vec_shrink, alloc in Hsplit.
  rewrite Hx in Hsplit. simpl in Hsplit. rewrite Hvals, Hlen in Hsplit.
  replace (S ORDER) with (ORDER + 1) in Hsplit by lia.
  pose proof halves as (Hh1 & Hh2 & Hh3 & Hh4).
  set (mid := (ORDER + 1) / 2) in *.
  destruct (decide (mid ≤ ORDER + 1)) as [_|?]; [|lia]. simpl in Hsplit.
  destruct (head (drop mid (keys n))); [|done]. simpl in Hsplit. injection Hsplit as <- <-.
  split_and!; [| |done].
  - apply capacity_insert.
    + intros y ny Hy Hne. destruct (decide (y = fresh (dom h))) as [->|Hne'].
      * rewrite lookup_insert_eq in Hy. injection Hy as <-.
        unfold fits, MAX_KEYS_LEAF. simpl. rewrite !length_drop. lia.
      * rewrite !lookup_insert_ne in Hy by done. by eapply Hbut.
    + unfold fits, MAX_KEYS_LEAF. simpl. rewrite Hleaf, !length_take. lia.
  - apply half_insert.
    + intros y ny Hy HE. destruct (decide (y = fresh (dom h))) as [->|Hne'].
      * rewrite lookup_insert_eq in Hy. injection Hy as <-.
        unfold half_full, MIN_KEYS_LEAF. simpl. rewrite length_drop. fold mid. lia.
      * rewrite !lookup_insert_ne in Hy by done. by eapply Hhalf.
    + intros _. unfold half_full, MIN_KEYS_LEAF. simpl. rewrite Hleaf, length_take.
      fold mid. lia.
Qed.

Lemma split_internal_ok (E : gset loc) h x (n : Node) h' r :
  capacity_but ORDER x h → half_ok ORDER (E ∪ {[x]}) h →
  h !! x = Some n → is_leaf n = false →
  Z.of_nat (length (keys n)) = (MAX_KEYS_INTERNAL ORDER + 1)%Z →
  length (children n) = S (length (keys n)) →
  1 ≤ ORDER →
  split_internal x h = Some (h', r) →
  capacity_ok ORDER h' ∧ half_ok ORDER E h' ∧ is_Some r.
Proof.
  intros Hbut Hhalf Hx Hleaf Hlen Hkids Hord Hsplit.
  pose proof (max_internal_pos Hord) as Hmax. rewrite Hmax in Hlen.
  assert (length (keys n) = ORDER) as Hlen' by lia. clear Hlen.
  unfold split_internal, vec_from, vec_shrink, alloc in Hsplit.
  rewrite Hx in Hsplit. simpl in Hsplit. rewrite Hkids, Hlen' in Hsplit.
  pose proof halves as (Hh1 & Hh2 & Hh3 & Hh4).
  set (mid := ORDER / 2) in *.
  destruct (keys n !! mid); [|done]. simpl in Hsplit.
  destruct (decide (mid + 1 ≤ ORDER)) as [_|?]; [|lia].
  destruct (decide (mid + 1 ≤ S ORDER)) as [_|?]; [|lia].
  destruct (decide (mid ≤ ORDER)) as [_|?]; [|lia].
  simpl in Hsplit. injection Hsplit as <- <-.
  split_and!; [| |done].
  - apply capacity_insert.
    + intros y ny Hy Hne. destruct (decide (y = fresh (dom h))) as [->|Hne'].
      * rewrite lookup_insert_eq in Hy. injection Hy as <-.
        unfold fits. simpl. rewrite Hmax, !length_drop. lia.
      * rewrite !lookup_insert_ne in Hy by done. by eapply Hbut.
    + unfold fits. simpl. rewrite Hleaf, Hmax, !length_take. lia.
  - apply half_insert.
    + intros y ny Hy HE. destruct (decide (y = fresh (dom h))) as [->|Hne'].
      * rewrite lookup_insert_eq in Hy. injection Hy as <-.
        unfold half_full, MIN_CHILDREN_INTERNAL. simpl. rewrite length_drop. lia.
      * rewrite !lookup_insert_ne in Hy by done. by eapply Hhalf.
    + intros _. unfold half_full, MIN_CHILDREN_INTERNAL. simpl.
      rewrite Hleaf, length_take. lia.
Qed.

Lemma insert_into_leaf_ok (E : gset loc) h x (n : Node) key v h' r :
  capacity_ok ORDER h → half_ok ORDER E h →
  h !! x = Some n → is_leaf n = true → 1 ≤ ORDER →
  insert_into_leaf ORDER x key v h = Some (h', r) → after_insert ORDER E x h' r.
Proof.
  intros Hok Hhalf Hx Hleaf Hord Hins. unfold insert_into_leaf in Hins.
  rewrite Hx in Hins. simpl in Hins.
  destruct (leaf_put key v n) as [n'|] eqn:Hput; [|done]. simpl in Hins.
  destruct (leaf_put_shape _ _ _ _ Hput) as (Hleaf' & _ & Hlen & Hvals).
  pose proof (Hok _ _ Hx) as Hfit. unfold fits in Hfit. rewrite Hleaf in Hfit.
  destruct Hfit as [Hfit Hv]. specialize (Hvals Hv).
  assert (x ∉ E → half_full ORDER n') as Hhalf'.
  { intros HE. pose proof (Hhalf _ _ Hx HE) as Hn. unfold half_full in *.
    rewrite Hleaf', Hleaf in *. lia. }
  case_decide as Hover.
  - destruct (split_leaf_ok (E ∖ {[x]}) (<[x := n']> h) x n' h' r) as (Hok' & Hh' & [p ->]);
      try done.
    + by apply capacity_but_insert, capacity_ok_but.
    + apply half_insert; [|set_solver].
      eapply half_weaken; [|by apply (half_exempt E x)]. set_solver.
    + apply lookup_insert_eq.
    + congruence.
    + lia.
  - injection Hins as <- <-. split.
    + apply capacity_insert; [by apply capacity_ok_but|].
      unfold fits. rewrite Hleaf', Hleaf. split; [lia|done].
    + apply half_insert; [|done]. eapply half_weaken; [|done]. set_solver.
Qed.

Lemma insert_recursive_ok n : ∀ (E : gset loc) h l lo hi lvs fp key v fuel h' r,
  btree n h l lo hi lvs fp → in_range lo hi key → n < fuel →
  capacity_ok ORDER h → half_ok ORDER E h → 1 ≤ ORDER →
  insert_recursive ORDER fuel l key v h = Some (h', r) → after_insert ORDER E l h' r.
Proof.
  induction n as [|n IH];
    intros E h l lo hi lvs fp key v fuel h' r Hb Hkey Hfuel Hok Hhalf Hord;
    (destruct fuel as [|fuel]; [lia|]).
  - pose proof Hb as (nd & Hl & Hleaf & _). simpl. rewrite Hl. simpl. rewrite Hleaf.
    by apply (insert_into_leaf_ok E h l nd key v h' r).
  - pose proof (btree_dom _ _ _ _ _ _ _ Hb) as Hdom.
    pose proof Hb as (nd & fpk & Hl & Hleaf & Hkids & Hnin & ->).
    assert (Hldom : l ∈ dom h) by (apply elem_of_dom; eauto).
    destruct (kids_focus _ _ _ _ _ _ _ key (btree_range n h)
                (λ c lo hi lvs fp Hb, proj1 (proj2 (btree_leaf_locs n h c lo hi lvs fp Hb)))
                Hkids Hkey)
      as (c & lo_c & hi_c & A & Lc & B & fpc & fpr & Hc & Hbc & Hin & -> & -> & Hd & _).
    destruct (insert_recursive_spec ORDER n h c lo_c hi_c Lc fpc key v fuel Hbc Hin ltac:(lia))
      as (h1 & r1 & Hrec & Hframe1 & Hdom1 & Hpost).
    destruct (IH E h c lo_c hi_c Lc fpc key v fuel h1 r1 Hbc Hin ltac:(lia) Hok Hhalf Hord Hrec)
      as [Hok1 Hhalf1].
    assert (half_ok ORDER E h1) as Hhalf1'.
    { eapply half_weaken; [|done]. destruct r1; set_solver. }
    clear Hhalf1.
    assert (Hl1 : h1 !! l = Some nd).
    { rewrite Hframe1; [done..|set_solver]. }
    pose proof (Hok _ _ Hl) as Hfit. unfold fits in Hfit. rewrite Hleaf in Hfit.
    destruct Hfit as [Hfit Hshape].
    simpl. rewrite Hl. simpl. rewrite Hleaf.
    unfold insert_into_internal. rewrite Hl. simpl. rewrite Hc. simpl.
    rewrite Hrec. simpl.
    destruct r1 as [[sb pk]|].
    + unfold add_child, vec_insert. rewrite Hl1. simpl.
      destruct (decide (upper_bound (keys nd) key ≤ length (keys nd))) as [Hub|?];
        [|simpl; done]. simpl.
      destruct (decide (upper_bound (keys nd) key + 1 ≤ length (children nd))) as [_|?];
        [|simpl; done]. simpl. rewrite lookup_insert_eq. simpl.
      set (n' := mkNode _ _ _ _ _).
      assert (length (keys n') = S (length (keys nd))) as Hk'.
      { simpl. rewrite length_app, length_cons, length_take, length_drop. lia. }
      assert (length (children n') = S (length (children nd))) as Hc'.
      { simpl. rewrite length_app, length_cons, length_take, length_drop. lia. }
      assert (half_ok ORDER E (<[l := n']> h1)) as Hhalf2.
      { apply half_insert; [eapply half_weaken; [|done]; set_solver|].
        intros HE. pose proof (Hhalf1' _ _ Hl1 HE) as Hn. unfold half_full in *.
        change (is_leaf n') with (is_leaf nd). rewrite Hleaf in *. rewrite Hc'. lia. }
      change (length (_ ++ _ :: _)) with (length (keys n')). rewrite Hk'.
      case_decide as Hover.
      * intros Hsp.
        destruct (split_internal_ok (E ∖ {[l]}) (<[l := n']> h1) l n' h' r)
          as (Hok' & Hh' & [p ->]); try done.
        -- by apply capacity_but_insert, capacity_ok_but.
        -- by apply half_exempt.
        -- apply lookup_insert_eq.
        -- lia.
        -- lia.
      * intros [= <- <-]. split; [|done].
        apply capacity_insert; [by apply capacity_ok_but|].
        unfold fits. simpl is_leaf. rewrite Hleaf. split; lia.
    + simpl. rewrite Hl1. simpl. case_decide as Hover; [lia|].
      by intros [= <- <-].
Qed.

Lemma find_leaf_is_leaf fuel : ∀ h l key x,
  find_leaf fuel h l key = Some x → ∃ n : Node, h !! x = Some n ∧ is_leaf n = true.
Proof.
  induction fuel as [|fuel IH]; intros h l key x; [done|]. simpl.
  destruct (h !! l) as [n|] eqn:Hl; [|done]. simpl.
  destruct (is_leaf n) eqn:Hleaf.
  - intros [= <-]. eauto.
  - destruct (children n !! upper_bound (keys n) key) as [c|]; [|done]. simpl. apply IH.
Qed.

Lemma optimistic_insert_ok fuel key v s b s' :
  capacity_ok ORDER (heap s) → half_ok ORDER {[root s]} (heap s) →
  optimistic_insert_fuel ORDER fuel key v s = Some (b, s') →
  capacity_ok ORDER (heap s') ∧ half_ok ORDER {[root s']} (heap s').
Proof.
  intros Hok Hhalf. unfold optimistic_insert_fuel.
  destruct (find_leaf fuel (heap s) (root s) key) as [x|] eqn:Hfind; [|done]. simpl.
  destruct (find_leaf_is_leaf _ _ _ _ _ Hfind) as (n & Hx & Hleaf). rewrite Hx. simpl.
  destruct (is_safe_for_insert ORDER n) eqn:Hsafe; simpl; [|by intros [= _ <-]].
  destruct (leaf_put key v n) as [n'|] eqn:Hput; [|done]. simpl. intros [= _ <-]. simpl.
  destruct (leaf_put_shape _ _ _ _ Hput) as (Hleaf' & Hch' & Hlen & Hvals).
  pose proof (Hok _ _ Hx) as Hfit. unfold fits in Hfit.
  unfold is_safe_for_insert in Hsafe. rewrite Hleaf in Hfit, Hsafe.
  apply bool_decide_eq_true in Hsafe. destruct Hfit as [_ Hsh].
  split.
  - apply capacity_insert; [by apply capacity_ok_but|].
    unfold fits. rewrite Hleaf', Hleaf. split; [lia|by apply Hvals].
  - apply half_insert; [eapply half_weaken; [|done]; set_solver|].
    intros HE. pose proof (Hhalf _ _ Hx HE) as Hn. unfold half_full in *.
    rewrite Hleaf', Hleaf in *. lia.
Qed.

Lemma pessimistic_insert_ok n s lvs fp key v fuel s' :
  btree n (heap s) (root s) None None lvs fp → n < fuel →
  capacity_ok ORDER (heap s) → half_ok ORDER {[root s]} (heap s) → 2 ≤ ORDER →
  pessimistic_insert_fuel ORDER fuel key v s = Some s' →
  capacity_ok ORDER (heap s') ∧ half_ok ORDER {[root s']} (heap s').
Proof.
  intros Hb Hfuel Hok Hhalf Hord.
  destruct (btree_root_lookup _ _ _ _ _ _ _ Hb) as (rn & Hroot & _).
  unfold pessimistic_insert_fuel. rewrite Hroot. simpl.
  destruct (find_head_spec ORDER n (heap s) (root s) None None lvs fp key fuel
              (if is_safe_for_insert ORDER rn then Some (root s) else None) Hb)
    as (hd' & -> & Hhd); [done|done|]. simpl.
  assert (default (root s) hd' = root s ∨
          ∃ m x lo' hi' Ls fps A B nd,
            hd' = Some x ∧ x ≠ root s ∧
            on_path n (heap s) (root s) None None lvs fp key m x lo' hi' Ls fps A B ∧
            heap s !! x = Some nd ∧ is_safe_for_insert ORDER nd = true) as [Hstart|Hstart].
  { destruct Hhd as [->|(m & x & lo' & hi' & Ls & fps & A & B & nd & -> & Hpath & Hx & Hsafe)].
    - left. by destruct (is_safe_for_insert ORDER rn).
    - destruct (decide (x = root s)) as [->|Hne]; [by left|].
      right. by exists m, x, lo', hi', Ls, fps, A, B, nd. }
  - rewrite Hstart.
    destruct (insert_recursive_spec ORDER n (heap s) (root s) None None lvs fp key v fuel Hb)
      as (h1 & r1 & Hrec & _); [done|done|].
    destruct (insert_recursive_ok n {[root s]} _ _ _ _ _ _ key v fuel h1 r1 Hb
                ltac:(done) Hfuel Hok Hhalf ltac:(lia) Hrec) as [Hok1 Hhalf1].
    rewrite Hrec. simpl. destruct r1 as [[sb pk]|]; [|by intros [= <-]].
    rewrite decide_True by done. unfold alloc. intros [= <-]. simpl. split.
    + apply capacity_insert; [by apply capacity_ok_but|].
      unfold fits. simpl. rewrite max_internal_pos by lia. lia.
    + apply half_insert; [|set_solver]. eapply half_weaken; [|done]. set_solver.
  - destruct Hstart as (m & x & lo' & hi' & Ls & fps & A & B & nd & -> & Hne & Hpath & Hx & Hsafe).
    simpl. destruct Hpath as (Hm & Hbx & Hinx & _).
    destruct (insert_recursive_spec ORDER m (heap s) x lo' hi' Ls fps key v fuel Hbx Hinx)
      as (h1 & r1 & Hrec & _ & _ & Hpost); [lia|].
    destruct (insert_recursive_ok m {[root s]} _ _ _ _ _ _ key v fuel h1 r1 Hbx
                Hinx ltac:(lia) Hok Hhalf ltac:(lia) Hrec) as [Hok1 Hhalf1].
    rewrite Hrec. simpl. destruct r1 as [[sb pk]|]; [|by intros [= <-]].
    exfalso. destruct Hpost as (_ & _ & _ & _ & _ & _ & _ & _ & _ & _ & _ & _ & Hfull).
    specialize (Hfull _ Hx). unfold is_safe_for_insert in Hsafe.
    destruct (is_leaf nd); apply bool_decide_eq_true in Hsafe; lia.
Qed.

Lemma insert_ok s lvs key v b s' :
  tree_inv s lvs →
  capacity_ok ORDER (heap s) → half_ok ORDER {[root s]} (heap s) → 2 ≤ ORDER →
  insert ORDER key v s = Some (b, s') →
  capacity_ok ORDER (heap s') ∧ half_ok ORDER {[root s']} (heap s').
Proof.
  intros (n & fp & Hb & Hch) Hok Hhalf Hord.
  destruct (fuel_enough _ _ _ _ Hb) as [Hfuel _].
  unfold insert, insert_fuel.
  destruct (optimistic_insert_fuel ORDER (fuel_of s) key v s) as [[ok s1]|] eqn:Hopt; [|done].
  simpl. destruct ok.
  - intros [= _ <-]. by eapply optimistic_insert_ok.
  - assert (s1 = s) as ->.
    { revert Hopt. unfold optimistic_insert_fuel.
      destruct (find_leaf _ _ _ _) as [x|]; [|done]. simpl.
      destruct (heap s !! x) as [nd|]; [|done]. simpl.
      destruct (is_safe_for_insert ORDER nd); simpl; [|by intros [= <-]].
      destruct (leaf_put key v nd); simpl; [|done]. by intros [=]. }
    destruct (pessimistic_insert_fuel ORDER (fuel_of s) key v s) as [s2|] eqn:Hpess; [|done].
    simpl. intros [= _ <-]. by eapply pessimistic_insert_ok.
Qed.

Lemma run_ok ops : ∀ s lvs s',
  tree_inv s lvs →
  capacity_ok ORDER (heap s) → half_ok ORDER {[root s]} (heap s) → 2 ≤ ORDER →
  run ORDER ops s = Some s' →
  capacity_ok ORDER (heap s') ∧ half_ok ORDER {[root s']} (heap s').
Proof.
  induction ops as [|[k v] ops IH]; intros s lvs s' Hinv Hok Hhalf Hord; simpl.
  - by intros [= <-].
  - destruct (bp_insert_spec ORDER s lvs k v Hinv) as (s1 & lvs1 & Hins & Hinv1 & _).
    rewrite Hins. simpl.
    destruct (insert_ok s lvs k v true s1 Hinv Hok Hhalf Hord Hins) as [Hok1 Hhalf1].
    by apply (IH s1 lvs1).
Qed.

(** With an order of at least 2, after any sequence of inserts: a leaf
    holds at most [ORDER] keys and one value set for each key; an
    internal node has at most [ORDER] children and one key fewer than
    children; and every node other than the root is at least half
    full, [(ORDER + 1) / 2] keys in a leaf and as many children in an
    internal node.  A node that an insert overfills is split before the
    insert returns. *)
Theorem X_bplus_node_occupancy (ops : list (K * V)) :
  2 ≤ ORDER →
  ∃ s : state,
    run ORDER ops BPlusTree.empty = Some s ∧
    ∀ x nd, heap s !! x = Some nd →
      (if is_leaf nd
       then length (keys nd) ≤ ORDER ∧ length (values nd) = length (keys nd)
       else length (children nd) ≤ ORDER ∧
            length (children nd) = S (length (keys nd))) ∧
      (x ≠ root s →
       (ORDER + 1) / 2 ≤ if is_leaf nd then length (keys nd) else length (children nd)).
Proof.
  intros Hord.
  destruct (BPlusTreeRuns.run_empty_spec ORDER ops) as (s & lvs & Hrun & Hinv & _).
  exists s. split; [done|].
  destruct (run_ok ops BPlusTree.empty _ s bp_empty_inv) as [Hok Hhalf]; try done.
  - intros y nd. unfold BPlusTree.empty, alloc. simpl.
    intros Hy. apply lookup_insert_Some in Hy as [[_ <-]|[_ Hy]]; [|done].
    unfold fits. simpl. split; [lia|done].
  - intros y nd. unfold BPlusTree.empty, alloc. simpl.
    intros Hy. apply lookup_insert_Some in Hy as [[<- _]|[_ Hy]]; [|done]. set_solver.
  - intros x nd Hx. split.
    + pose proof (Hok _ _ Hx) as Hfit. unfold fits, MAX_KEYS_LEAF in Hfit.
      rewrite max_internal_pos in Hfit by lia. destruct (is_leaf nd); [done|].
      split; [lia|tauto].
    + intros Hne. pose proof (Hhalf _ _ Hx ltac:(set_solver)) as Hh.
      unfold half_full, MIN_KEYS_LEAF, MIN_CHILDREN_INTERNAL in Hh. by destruct (is_leaf nd).
Qed.

(** ** Balance *)

Lemma find_leaf_short n : ∀ h l lo hi lvs fp key,
  btree n h l lo hi lvs fp → in_range lo hi key → find_leaf n h l key = None.
Proof.
  induction n as [|n IH]; intros h l lo hi lvs fp key Hb Hkey; [done|].
  pose proof Hb as (nd & fpk & Hl & Hleaf & Hkids & _).
  destruct (kids_focus _ _ _ _ _ _ _ key (btree_range n h)
              (λ c lo hi lvs fp Hb, proj1 (proj2 (btree_leaf_locs n h c lo hi lvs fp Hb)))
              Hkids Hkey)
    as (c & lo_c & hi_c & A & Lc & B & fpc & fpr & Hc & Hbc & Hin & _).
  simpl. rewrite Hl. simpl. rewrite Hleaf, Hc. simpl. by eapply IH.
Qed.

(** A tree of order at least 1 stays balanced: after any sequence of
    inserts there is a depth [d] such that for every key the descent
    from the root passes [d] internal nodes and then stands on a leaf,
    so it ends when it may visit [d + 1] nodes and does not when it may
    visit [d]. *)
Theorem X_bplus_balanced (ops : list (K * V)) :
  0 < ORDER →
  ∃ (s : state) (d : nat),
    run ORDER ops BPlusTree.empty = Some s ∧
    ∀ key,
      find_leaf d (heap s) (root s) key = None ∧
      ∃ leaf nd, find_leaf (S d) (heap s) (root s) key = Some leaf ∧
                 heap s !! leaf = Some nd ∧ is_leaf nd = true.
Proof.
  intros _.
  destruct (BPlusTreeRuns.run_empty_spec ORDER ops) as (s & lvs & Hrun & Hinv & _).
  destruct Hinv as (d & fp & Hb & _).
  exists s, d. split; [done|]. intros key. split.
  - by apply (find_leaf_short d _ _ None None lvs fp).
  - destruct (find_leaf_spec d (heap s) (root s) None None lvs fp key (S d) Hb)
      as (x & lo' & hi' & Ls & fps & A & B & Hfind & Hpath); [done|lia|].
    destruct Hpath as (_ & Hbx & _). destruct Hbx as (nd & Hx & Hleaf & _).
    by exists x, nd.
Qed.

End capacity.

Lemma X_bplus_node_occupancy_witness :
  2 ≤ 4 ∧
  ∃ s : BPlusTree.t (K:=string) (V:=string),
    run 4 five_keys BPlusTree.empty = Some s ∧
    ∀ x nd, heap s !! x = Some nd →
      (if is_leaf nd
       then length (keys nd) ≤ 4 ∧ length (values nd) = length (keys nd)
       else length (children nd) ≤ 4 ∧
            length (children nd) = S (length (keys nd))) ∧
      (x ≠ root s →
       (4 + 1) / 2 ≤ if is_leaf nd then length (keys nd) else length (children nd)).
Proof.
  assert (2 ≤ 4) as Hord by lia.
  split; [exact Hord|]. apply (X_bplus_node_occupancy 4 five_keys Hord).
Defined.

Lemma X_bplus_balanced_witness :
  ∃ (s : BPlusTree.t (K:=string) (V:=string)) (d : nat),
    run 4 five_keys BPlusTree.empty = Some s ∧
    ∀ key,
      find_leaf d (heap s) (root s) key = None ∧
      ∃ leaf nd, find_leaf (S d) (heap s) (root s) key = Some leaf ∧
                 heap s !! leaf = Some nd ∧ is_leaf nd = true.
Proof. apply (X_bplus_balanced 4 five_keys). lia. Defined.

End BPlusTreeCapacity.

From stdpp Require Import base gmap sets list strings sorting.

(** * The destructor of the lock-free skip list *)

Module SkipListTeardown.
Import Examples MoreExamples KeyOrderFacts LockFreeSkipList LockFreeSkipListInv.
Import LockFreeSkipListFacts LockFreeSkipListOps LockFreeSkipListRuns LockFreeSkipListDrop.

Section teardown.
Context {K V : Type} `{EqDecision K, Inhabited K, KeyOrderLaws K, Countable V}.

Local Abbreviation Node := (LockFreeSkipList.Node (K:=K) (V:=V)).
Local Abbreviation state := (LockFreeSkipList.t (K:=K) (V:=V)).
Local Abbreviation empty := (LockFreeSkipList.empty (K:=K) (V:=V)).
Local Abbreviation op := (LockFreeSkipList.op (K:=K) (V:=V)).
Implicit Types (h : gmap loc Node) (l R : list loc).

(** The store without the nodes of [l]. *)
Local Abbreviation without h l := (foldl (λ h0 x, delete x h0) h l).

Lemma without_keeps l : ∀ h y, y ∉ l → without h l !! y = h !! y.
Proof.
  induction l as [|x l IH]; intros h y Hy; simpl; [done|].
  rewrite IH by set_solver. apply lookup_delete_ne. set_solver.
Qed.

Lemma without_drops l : ∀ h y, y ∈ l → without h l !! y = None.
Proof.
  induction l as [|x l IH]; intros h y Hy; simpl; [set_solver|].
  destruct (decide (y ∈ l)) as [Hin|Hin]; [by apply IH|].
  assert (y = x) as -> by set_solver.
  rewrite without_keeps by done. apply lookup_delete_eq.
Qed.

Lemma without_size l : ∀ h,
  NoDup l → (∀ x, x ∈ l → is_Some (h !! x)) → size (without h l) + length l = size h.
Proof.
  induction l as [|x l IH]; intros h Hnd Hin; simpl; [lia|].
  apply NoDup_cons in Hnd as [Hx Hnd].
  assert (size (without (delete x h) l) + length l = size (delete x h)) as Hsz.
  { apply IH; [done|]. intros y Hy.
    rewrite lookup_delete_ne by set_solver. apply Hin. set_solver. }
  rewrite map_size_delete_Some in Hsz by (apply Hin; set_solver).
  assert (size h ≠ 0); [|lia].
  destruct (Hin x) as [nd Hnd']; [set_solver|].
  intros Hz. apply map_size_empty_inv in Hz. by rewrite Hz, lookup_empty in Hnd'.
Qed.

Lemma free_from_spec tl R : ∀ h x fuel,
  path h 0 x (R ++ [tl]) → NoDup (x :: R) → tl ∉ x :: R → length (x :: R) < fuel →
  free_from fuel h tl x = Some (without h (x :: R)).
Proof.
  induction R as [|r R IH]; intros h x fuel Hp Hnd Htl Hfuel;
    (destruct fuel as [|fuel]; [simpl in Hfuel; lia|]); simpl in Hfuel.
  - simpl in Hp. destruct Hp as [Hx _].
    unfold next_addr in Hx. simpl free_from. rewrite decide_False by set_solver.
    destruct (load_next h x 0) as [p|] eqn:Hload; [|done]. simpl in Hx. simpl.
    rewrite Hx. simpl.
    unfold load_next in Hload. destruct (h !! x) as [nd|] eqn:Hnode; [|done].
    unfold free_node. rewrite Hnode. simpl.
    destruct fuel as [|fuel]; [lia|]. simpl. by rewrite decide_True.
  - simpl in Hp. destruct Hp as [Hx Hp].
    unfold next_addr in Hx. simpl free_from. rewrite decide_False by set_solver.
    destruct (load_next h x 0) as [p|] eqn:Hload; [|done]. simpl in Hx. simpl.
    rewrite Hx. simpl.
    unfold load_next in Hload. destruct (h !! x) as [nd|] eqn:Hnode; [|done].
    unfold free_node. rewrite Hnode. simpl.
    apply NoDup_cons in Hnd as [Hxr Hnd].
    rewrite (IH (delete x h) r fuel); [done| |done|set_solver|simpl; lia].
    revert Hp. apply path_frame. intros z Hz.
    unfold next_addr, load_next. rewrite lookup_delete_ne; [done|]. set_solver.
Qed.

Local Arguments free_from : simpl never.
Local Arguments fuel_of : simpl never.

(** The destructor after any sequence of operations on a new list: it
    runs to the end without reading or freeing a node that is not
    allocated; it frees the head, the tail and as many nodes as
    [display] shows on level 0, no node twice; every node it leaves
    allocated is a node of the list that is logically deleted, so the
    node of every key the list still holds is freed. *)
Theorem X_skip_destructor_frees_level0 (ops : list op) :
  ∃ (s : state) left d,
    run ops empty = Some s ∧ destroy s = Some left ∧
    display_level 0 s = Some d ∧
    size left + length d + 2 = size (nodes s) ∧
    left !! head s = None ∧ left !! tail s = None ∧
    ∀ x nd, left !! x = Some nd → nodes s !! x = Some nd ∧ node_mark nd = true.
Proof.
  destruct (run_empty_inv ops) as (s & chains & Hrun & Hinv).
  pose proof Hinv as [Hsh Hlk].
  pose proof (shape_nodes _ _ _ _ Hsh) as Hok.
  pose proof (shape_ne _ _ _ _ Hsh) as Hne.
  destruct (lookup_lt_is_Some_2 chains 0) as [l Hl].
  { rewrite (shape_length _ _ _ _ Hsh). unfold MAX_LEVEL. lia. }
  pose proof (shape_chain _ _ _ _ Hsh _ _ Hl) as Hc.
  pose proof (chain_NoDup _ _ _ _ _ Hc) as Hnd.
  pose proof (chain_length _ _ _ _ _ (shape_head _ _ _ _ Hsh) Hc) as Hlen.
  pose proof Hc as (Hp & Hhd & Htl & Hlv & Hs).
  destruct (pred_slot (nodes s) 0 (head s) (tail s) [] l Hok Hp) as (hn & Hh & Hslot).
  { rewrite last_or_nil. apply head_ok_live, Hsh. }
  { rewrite last_or_nil. apply head_ok_has_level; [apply Hsh|unfold MAX_LEVEL; lia]. }
  rewrite last_or_nil in Hh.
  assert (free_from (fuel_of s) (nodes s) (tail s) (first_or (tail s) l)
          = Some (without (nodes s) l)) as Hfree.
  { destruct l as [|x R].
    - rewrite first_or_nil. unfold fuel_of, free_from. by rewrite decide_True.
    - rewrite first_or_cons. simpl in Hp. destruct Hp as [_ Hp].
      apply (free_from_spec (tail s) R (nodes s) x (fuel_of s)); try done.
      + by apply NoDup_cons in Hnd as [_ Hnd].
      + unfold fuel_of. lia. }
  destruct (shape_tail _ _ _ _ Hsh) as [tn Htn].
  set (h1 := without (nodes s) l).
  assert (h1 !! head s = Some hn) as Hh1.
  { unfold h1. by rewrite without_keeps. }
  assert (h1 !! tail s = Some tn) as Ht1.
  { unfold h1. by rewrite without_keeps. }
  exists s, (delete (tail s) (delete (head s) h1)), (shown (nodes s) <$> l).
  split_and!.
  - done.
  - unfold destroy, load_next. rewrite Hh. simpl. rewrite Hslot. simpl.
    rewrite Hfree. simpl. fold h1. unfold free_node. rewrite Hh1. simpl.
    rewrite lookup_delete_ne by done. by rewrite Ht1.
  - by apply (display_level_spec s chains 0 l).
  - rewrite length_fmap.
    rewrite map_size_delete_Some by (rewrite lookup_delete_ne by done; eauto).
    rewrite map_size_delete_Some by eauto.
    assert (size h1 + length l = size (nodes s)) as Hsz.
    { apply without_size; [by apply NoDup_cons in Hnd as [_ Hnd]|].
      intros x Hx. eapply Forall_forall in Hlv as (nd & -> & _); [eauto|done]. }
    assert (2 ≤ size h1); [|lia].
    assert ({[head s; tail s]} ⊆ dom h1) as Hsub.
    { intros y. rewrite elem_of_union, !elem_of_singleton, elem_of_dom.
      intros [->| ->]; eauto. }
    apply subseteq_size in Hsub. rewrite size_dom in Hsub.
    rewrite size_union in Hsub by set_solver. by rewrite !size_singleton in Hsub.
  - rewrite lookup_delete_ne by done. apply lookup_delete_eq.
  - apply lookup_delete_eq.
  - intros x nd Hx.
    apply lookup_delete_Some in Hx as [Hxt Hx].
    apply lookup_delete_Some in Hx as [Hxh Hx].
    unfold h1 in Hx.
    destruct (decide (x ∈ l)) as [Hxl|Hxl]; [by rewrite without_drops in Hx|].
    rewrite without_keeps in Hx by done.
    split; [done|].
    destruct (node_mark nd) eqn:Hm; [done|]. exfalso. apply Hxl.
    destruct (Hok _ _ Hx) as (_ & Hlevel & _).
    apply (Hlk x nd 0 l); try done. lia.
Qed.

End teardown.

Lemma X_skip_destructor_frees_level0_witness :
  ∃ (s : LockFreeSkipList.t (K:=string) (V:=string)) left d,
    run unlink_ops LockFreeSkipList.empty = Some s ∧ destroy s = Some left ∧
    display_level 0 s = Some d ∧
    size left + length d + 2 = size (nodes s) ∧
    left !! head s = None ∧ left !! tail s = None ∧
    ∀ x nd, left !! x = Some nd → nodes s !! x = Some nd ∧ node_mark nd = true.
Proof. apply (X_skip_destructor_frees_level0 unlink_ops). Defined.

End SkipListTeardown.

From Stdlib Require Import ZArith.
From stdpp Require Import base gmap sets list strings sorting.

(** * The benchmark driver on the B+ tree *)

Module DriverExtras.
Import KeyOrderFacts BPlusTreeInv Driver.

Section driver.
Variable ORDER : nat.

Local Abbreviation tree := (BPlusTree.t (K:=string) (V:=string)).
Local Abbreviation leaf_abs := (leaf_abs (K:=string) (V:=string)).
Implicit Types (t : tree) (lvs : list leaf_abs) (ks : list string).

(** The inserts of the PUT operations. *)
Local Abbreviation puts operations :=
  ((λ op, (key op, value op)) <$> filter (λ op, type op = PUT) operations).

Lemma load_ops_spec operations : ∀ t lvs ks,
  tree_inv t lvs →
  ∃ t' lvs', load_ops ORDER operations (t, ks) = Some (t', ks ++ loaded_keys operations) ∧
             tree_inv t' lvs' ∧
             entries lvs' = foldl (λ es o, put o.1 o.2 es) (entries lvs) (puts operations).
Proof.
  unfold loaded_keys.
  induction operations as [|op operations IH]; intros t lvs ks Hinv.
  - exists t, lvs. simpl. by rewrite app_nil_r.
  - simpl load_ops. unfold load_op. simpl.
    destruct (type op) eqn:Htype.
    + simpl. rewrite filter_cons_False by congruence. by apply IH.
    + destruct (BPlusTreeOps.bp_insert_spec ORDER t lvs (key op) (value op) Hinv)
        as (t1 & lvs1 & -> & Hinv1 & Hent1).
      simpl. destruct (IH t1 lvs1 (ks ++ [key op]) Hinv1) as (t' & lvs' & -> & Hinv' & Hent').
      exists t', lvs'. rewrite filter_cons_True by done. rewrite !fmap_cons. simpl.
      rewrite <-app_assoc. split_and!; try done. by rewrite Hent', Hent1.
    + simpl. rewrite filter_cons_False by congruence. by apply IH.
Qed.

Lemma puts_keys operations k :
  (∃ v, (k, v) ∈ puts operations) ↔ k ∈ loaded_keys operations.
Proof.
  unfold loaded_keys. rewrite list_elem_of_fmap. split.
  - intros (v & Hv). apply list_elem_of_fmap in Hv as (op & [= -> ->] & Hop). eauto.
  - intros (op & -> & Hop). exists (value op). apply list_elem_of_fmap. eauto.
Qed.

#[local] Instance string_le_trans : Transitive string_le.
Proof. intros a b c Hab Hbc. unfold string_le in *. by eapply kle_trans. Qed.

#[local] Instance string_le_total : Total string_le.
Proof.
  intros a b. unfold string_le. destruct (klt b a) eqn:Hba; [|by left].
  right. by apply klt_asym.
Qed.

(** The sorted vector is the key column of the tree. *)
Lemma sorted_keys_contents operations :
  NoDup (loaded_keys operations) →
  merge_sort string_le (loaded_keys operations) = (contents (puts operations)).*1.
Proof.
  intros Hnd.
  pose proof (BPlusTreeRuns.contents_sorted (puts operations)) as Hs.
  apply (StronglySorted_unique_strong string_le).
  - intros a b _ _ Hab Hba. unfold string_le in *. by apply klt_total.
  - apply StronglySorted_merge_sort; apply _.
  - clear Hnd. unfold key_sorted in Hs.
    induction Hs as [|a l Hl IH Hall]; constructor; [done|].
    eapply Forall_impl; [done|]. intros b Hab. unfold string_le. by apply klt_asym.
  - rewrite merge_sort_Permutation. apply NoDup_Permutation; [done| |].
    + clear Hnd. unfold key_sorted in Hs.
      induction Hs as [|a l Hl IH Hall]; constructor; [|done].
      intros Hin. eapply Forall_forall in Hall; [|done]. by rewrite klt_irrefl in Hall.
    + intros k. rewrite BPlusTreeRuns.contents_keys. by rewrite puts_keys.
Qed.

Lemma index_keys_miss ks : ∀ i (m : gmap string nat) k,
  k ∉ ks → index_keys i ks m !! k = m !! k.
Proof.
  induction ks as [|a ks IH]; intros i m k Hk; simpl; [done|].
  rewrite IH by set_solver. apply lookup_insert_ne. set_solver.
Qed.

Lemma index_keys_hit ks : ∀ i (m : gmap string nat) k p,
  NoDup ks → ks !! p = Some k → index_keys i ks m !! k = Some (i + p).
Proof.
  induction ks as [|a ks IH]; intros i m k p Hnd Hp; [done|].
  apply NoDup_cons in Hnd as [Ha Hnd]. destruct p as [|p]; simpl in *.
  - injection Hp as ->. rewrite index_keys_miss by done.
    rewrite lookup_insert_eq. f_equal. lia.
  - rewrite (IH (S i) _ k p) by done. f_equal. lia.
Qed.

Lemma sorted_lookup_lt ks (a b : nat) x y :
  key_sorted ks → ks !! a = Some x → ks !! b = Some y → a < b → klt x y = true.
Proof.
  intros Hs. revert a b. unfold key_sorted in Hs.
  induction Hs as [|z l Hl IH Hall]; intros a b Ha Hb Hab; [done|].
  destruct b as [|b]; [lia|]. simpl in Hb. destruct a as [|a]; simpl in Ha.
  - injection Ha as ->. eapply Forall_forall in Hall; [done|].
    by eapply list_elem_of_lookup_2.
  - apply (IH a b); [done|done|lia].
Qed.

(** On entries in strictly ascending key order the window from the key
    at position [i] up to the key at position [i + n] is the [n]
    entries from position [i] on. *)
Lemma window_slice (es : list (string * gset string)) (i n : nat) lo hi :
  key_sorted es.*1 → es.*1 !! i = Some lo → es.*1 !! (i + n) = Some hi →
  filter (in_window_p lo hi) es = take n (drop i es).
Proof.
  intros Hs Hlo Hhi.
  rewrite <-(take_drop i es) at 1. rewrite <-(take_drop n (drop i es)) at 1.
  rewrite !filter_app.
  rewrite (BPlusTreeScan.filter_none _ (take i es)).
  2:{ apply Forall_forall. intros e He. apply list_elem_of_lookup in He as [p Hp].
      apply lookup_take_Some in Hp as [Hp Hlt].
      unfold in_window_p, in_window.
      rewrite (sorted_lookup_lt es.*1 p i e.1 lo); try done.
      by rewrite list_lookup_fmap, Hp. }
  rewrite (BPlusTreeScan.filter_all _ (take n (drop i es))).
  2:{ apply Forall_forall. intros e He. apply list_elem_of_lookup in He as [p Hp].
      apply lookup_take_Some in Hp as [Hp Hlt]. rewrite lookup_drop in Hp.
      assert (es.*1 !! (i + p) = Some e.1) as He1 by (by rewrite list_lookup_fmap, Hp).
      unfold in_window_p, in_window.
      rewrite (sorted_lookup_lt es.*1 (i + p) (i + n) e.1 hi); try done; [|lia].
      rewrite andb_true_r. apply negb_true_iff.
      destruct p as [|p].
      - rewrite Nat.add_0_r in He1. assert (e.1 = lo) as -> by congruence.
        apply klt_irrefl.
      - apply klt_asym. apply (sorted_lookup_lt es.*1 i (i + S p)); try done. lia. }
  rewrite (BPlusTreeScan.filter_none _ (drop n (drop i es))).
  2:{ apply Forall_forall. intros e He. apply list_elem_of_lookup in He as [p Hp].
      rewrite !lookup_drop in Hp.
      assert (es.*1 !! (i + (n + p)) = Some e.1) as He1 by (by rewrite list_lookup_fmap, Hp).
      unfold in_window_p, in_window. intros Hw. apply andb_true_iff in Hw as [_ Hw].
      destruct p as [|p].
      - replace (i + (n + 0)) with (i + n) in He1 by lia.
        assert (e.1 = hi) as Heq by congruence. rewrite Heq in Hw.
        by rewrite klt_irrefl in Hw.
      - assert (klt hi e.1 = true) as Hlt.
        { apply (sorted_lookup_lt es.*1 (i + n) (i + (n + S p))); try done. lia. }
        apply klt_asym in Hlt. congruence. }
  by rewrite app_nil_r.
Qed.

(** The load phase and a SCAN that runs on the [Runner] as [loadPhase]
    leaves it, that is before the run phase makes any PUT (a PUT of the
    run phase inserts into the tree and leaves [sorted_keys] as it is).
    For a tree of order at least 1, at least one operation in the load
    file and no key loaded twice: [loadPhase] runs to the end and
    leaves the loaded keys in ascending order in [sorted_keys]; a SCAN
    for a key that was not loaded calls nothing; a SCAN of range [n] for
    the key at position [i], with position [i + n] still in the vector,
    calls [range_search], which returns exactly [n] entries, those of
    the keys at positions [i] to [i + n - 1] in this order. *)
Theorem X_driver_scan_returns_range (operations : list Operation) (op : Operation) :
  0 < ORDER → operations ≠ [] →
  NoDup (loaded_keys operations) →
  (Z.of_nat (length operations) < 2 ^ 64)%Z →
  ∃ r, loadPhase ORDER operations = Some r ∧
       sorted_keys r ≡ₚ loaded_keys operations ∧
       key_sorted (sorted_keys r) ∧
       (key op ∉ loaded_keys operations → scan r op = Some None) ∧
       ∀ i n : nat,
         sorted_keys r !! i = Some (key op) → range op = Z.of_nat n →
         i + n < length (sorted_keys r) →
         ∃ res, scan r op = Some (Some res) ∧ length res = n ∧
                res.*1 = take n (drop i (sorted_keys r)).
Proof.
  intros _ Hne Hnd Hsize.
  destruct (load_ops_spec operations BPlusTree.empty _ [] (BPlusTreeOps.bp_empty_inv))
    as (t & lvs & Hload & Hinv & Hent).
  simpl in Hload.
  assert (entries lvs = contents (puts operations)) as Hent' by (by rewrite Hent).
  clear Hent. rename Hent' into Hent.
  pose proof (sorted_keys_contents operations Hnd) as Hsorted.
  pose proof (BPlusTreeRuns.contents_sorted (puts operations)) as Hs.
  set (sorted := merge_sort string_le (loaded_keys operations)) in *.
  assert (sorted ≡ₚ loaded_keys operations) as Hperm by apply merge_sort_Permutation.
  assert (NoDup sorted) as Hnd' by (by rewrite Hperm).
  exists (mkRunner t sorted (index_keys 0 sorted ∅)).
  split_and!.
  - unfold loadPhase. rewrite Hload. by destruct operations.
  - done.
  - simpl. by rewrite Hsorted.
  - intros Hk. unfold scan. simpl. rewrite index_keys_miss by (by rewrite Hperm).
    by rewrite lookup_empty.
  - simpl. intros i n Hi Hr Hlen.
    unfold scan. simpl. rewrite (index_keys_hit sorted 0 ∅ (key op) i) by done. simpl.
    assert (length sorted ≤ length operations) as Hle.
    { rewrite Hperm. unfold loaded_keys. rewrite length_fmap. apply length_filter. }
    assert (to_size_t (Z.of_nat i + range op) = i + n) as ->.
    { unfold to_size_t. rewrite Hr, <-Nat2Z.inj_add.
      rewrite Z.mod_small by lia. apply Nat2Z.id. }
    destruct (lookup_lt_is_Some_2 sorted (i + n) Hlen) as [hi Hhi]. rewrite Hhi.
    rewrite (BPlusTreeScan.range_search_spec t lvs (key op) hi Hinv). simpl.
    rewrite Hent.
    rewrite (window_slice _ i n (key op) hi);
      [|done|by rewrite <-Hsorted|by rewrite <-Hsorted].
    eexists. split; [done|].
    assert (length (contents (puts operations)) = length sorted) as Hlen'
      by (by rewrite Hsorted, length_fmap).
    split.
    + rewrite length_take, length_drop. lia.
    + by rewrite fmap_take, fmap_drop, <-Hsorted.
Qed.

End driver.

Lemma X_driver_scan_returns_range_witness :
  ∃ r, loadPhase 4 load_five = Some r ∧
       sorted_keys r ≡ₚ loaded_keys load_five ∧
       key_sorted (sorted_keys r) ∧
       (key scan_two ∉ loaded_keys load_five → scan r scan_two = Some None) ∧
       ∀ i n : nat,
         sorted_keys r !! i = Some (key scan_two) → range scan_two = Z.of_nat n →
         i + n < length (sorted_keys r) →
         ∃ res, scan r scan_two = Some (Some res) ∧ length res = n ∧
                res.*1 = take n (drop i (sorted_keys r)).
Proof.
  apply (X_driver_scan_returns_range 4 load_five scan_two).
  - lia.
  - discriminate.
  - apply (bool_decide_unpack _). vm_compute. exact I.
  - vm_compute. reflexivity.
Defined.

End DriverExtras.

